(** * A provider-agnostic message queue: drivers, poller and facade

    Shallow embedding of the queue drivers of the repository
    (in-memory, SQS, RabbitMQ), of their subscription pollers, of the
    RabbitMQ consumer, of the [QueueService] facade and of the message
    list of the demo page, followed by the properties proved about them.

    Conventions of the embedding:
    - a JavaScript [number] that the code uses as a count or as a time (in
      seconds or milliseconds) is a [Z]; optional fields and arguments are
      [option];
      the truthiness tests of the source ([x ? a : b], [!x], [x || y]) are
      written out by the functions of [Js];
    - [Record<string, string>] and [Map<string, _>] are [gmap string _];
      arrays are lists, the head of the list being index 0;
    - [Date.now()] and [new Date()] read the clock of the runtime, in
      milliseconds; [randomUUID()] and [Math.random()] are inputs;
    - [setTimeout] registers a callback with the runtime, which runs it at
      some step at which the clock has reached the registration time plus
      the delay, the delay being what Node.js makes of the number it is
      given ([Js.timeout]); [clearTimeout] removes that registration;
    - [new Date(t)] is the time [t], or an Invalid Date when [t] is out of
      the range of a date ([Js.new_Date]);
    - an [async] function runs up to its next [await] in one step; what it
      still has to do is kept as a continuation which a later step resumes.
      Any number of other steps may happen in between, so that the runs of
      the drivers are among the runs of the model: a promise that is
      already resolved when it is awaited, as those of the in-memory [pull]
      and [ack] are, is resumed by the runtime before anything else
      happens, which is the run in which the resuming step comes next. *)

From Stdlib Require Import ZArith Lia.
From stdpp Require Import gmap strings list fin_maps pretty.

Local Open Scope Z_scope.

(** ** JavaScript truthiness *)

Module Js.

(** [n ? ... : ...] for an optional number: [undefined] and [0] are falsy. *)
Definition truthy_number (n : option Z) : bool :=
  match n with
  | Some v => negb (v =? 0)
  | None => false
  end.

(** [s ? ... : ...] for an optional string: [undefined] and [''] are falsy. *)
Definition truthy_string (s : option string) : bool :=
  match s with
  | Some v => negb (String.eqb v "")
  | None => false
  end.

(** [q] between double quotes, as in a template [`"${q}"`]. *)
Definition quoted (q : string) : string :=
  String (Ascii.ascii_of_nat 34) q +:+ String (Ascii.ascii_of_nat 34) EmptyString.

(** [a || b] on strings. *)
Definition or_else (a : option string) (b : string) : string :=
  match a with
  | Some v => if String.eqb v "" then b else v
  | None => b
  end.

(** The delay that [setTimeout(cb, delay)] of Node.js waits for, in
    milliseconds: a delay below 1 or above 2^31 - 1 is set to 1. *)
Definition TIMEOUT_MAX : Z := 2147483647.

Definition timeout (delay : Z) : Z :=
  if (1 <=? delay) && (delay <=? TIMEOUT_MAX) then delay else 1.

(** [new Date(t)]: a time value further than 8.64e15 ms from the epoch
    makes an Invalid Date, whose [getTime()] is [NaN]; every comparison
    with [NaN] is false. [None] stands for that date. *)
Definition MAX_TIME : Z := 8640000000000000.

Definition new_Date (t : Z) : option Z :=
  if (- MAX_TIME <=? t) && (t <=? MAX_TIME) then Some t else None.

End Js.

(** ** queue.types.ts *)

Module Options.

Record PublishOptions := {
  delaySeconds : option Z;
  ttlSeconds : option Z;
  correlationId : option string;
  attributes : option (gmap string string);
}.

Definition none : PublishOptions :=
  {| delaySeconds := None; ttlSeconds := None;
     correlationId := None; attributes := None |}.

End Options.

Module Message.

(** [expiresAt] is the time value that the date is made of. The
    in-memory driver, the only one that compares the field, builds it with
    [Js.new_Date]: there [None] is a message without the field as well as
    one whose date is an Invalid Date, the test of [InMemory.is_expired]
    being false for both. The other drivers only hand the field back to
    the caller of [publish]. *)
Record QueueMessage (T : Type) := {
  id : string;
  payload : T;
  publishedAt : Z;
  expiresAt : option Z;
  receipt : string;
  attributes : option (gmap string string);
  correlationId : option string;
}.
Arguments id {T} _.
Arguments payload {T} _.
Arguments publishedAt {T} _.
Arguments expiresAt {T} _.
Arguments receipt {T} _.
Arguments attributes {T} _.
Arguments correlationId {T} _.

End Message.

Module Subscribe.

Record SubscribeOptions := {
  maxMessages : option Z;
  pollIntervalMs : option Z;
  autoAck : option bool;
}.

Definition none : SubscribeOptions :=
  {| maxMessages := None; pollIntervalMs := None; autoAck := None |}.

End Subscribe.

(** How a promise that a poll awaits is settled. *)
Inductive outcome := Resolved | Rejected.

(** ** drivers/in-memory/in-memory.driver.ts *)

Module InMemory.

Section Driver.

Context {T : Type}.

(** [interface StoredMessage<T> extends QueueMessage<T>] *)
Record StoredMessage := {
  message :> Message.QueueMessage T;
  queue : string;
}.

(** What a timeout of the runtime runs: the delayed [push] of [publish]
    or the [poll] closure of subscription [sub]. *)
Inductive callback :=
| CbPush (q : string) (msg : StoredMessage)
| CbPoll (sub : nat).

Record timer := { due : Z; run : callback }.

(** The variables captured by the closures of one [subscribe] call. *)
Record subscription := {
  sub_queue : string;
  sub_maxMessages : Z;
  sub_pollIntervalMs : Z;
  sub_autoAck : bool;
  isActive : bool;
}.

(** Where a suspended [poll] resumes. *)
Inductive poll_state :=
| AwaitPull (messages : list StoredMessage)
| AwaitHandler (msg : StoredMessage) (rest : list StoredMessage)
| AwaitAck (rest : list StoredMessage).

(** The driver object ([queues], [subscriptions]) together with the part
    of the runtime it lives in. *)
Record world := {
  clock : Z;
  queues : gmap string (list StoredMessage);
  subscriptions : gmap string (list nat);
  timers : gmap nat timer;
  next_timer : nat;
  closures : gmap nat subscription;
  next_sub : nat;
  polls : gmap nat (nat * poll_state);
  next_poll : nat;
}.

Definition init : world :=
  {| clock := 0; queues := ∅; subscriptions := ∅; timers := ∅;
     next_timer := 0%nat; closures := ∅; next_sub := 0%nat;
     polls := ∅; next_poll := 0%nat |}.

Definition set_clock (t : Z) (w : world) : world :=
  {| clock := t; queues := queues w; subscriptions := subscriptions w;
     timers := timers w; next_timer := next_timer w;
     closures := closures w; next_sub := next_sub w;
     polls := polls w; next_poll := next_poll w |}.

Definition set_queues (qs : gmap string (list StoredMessage)) (w : world) : world :=
  {| clock := clock w; queues := qs; subscriptions := subscriptions w;
     timers := timers w; next_timer := next_timer w;
     closures := closures w; next_sub := next_sub w;
     polls := polls w; next_poll := next_poll w |}.

Definition set_subscriptions (ss : gmap string (list nat)) (w : world) : world :=
  {| clock := clock w; queues := queues w; subscriptions := ss;
     timers := timers w; next_timer := next_timer w;
     closures := closures w; next_sub := next_sub w;
     polls := polls w; next_poll := next_poll w |}.

Definition set_timers (ts : gmap nat timer) (w : world) : world :=
  {| clock := clock w; queues := queues w; subscriptions := subscriptions w;
     timers := ts; next_timer := next_timer w;
     closures := closures w; next_sub := next_sub w;
     polls := polls w; next_poll := next_poll w |}.

Definition set_closures (cs : gmap nat subscription) (w : world) : world :=
  {| clock := clock w; queues := queues w; subscriptions := subscriptions w;
     timers := timers w; next_timer := next_timer w;
     closures := cs; next_sub := next_sub w;
     polls := polls w; next_poll := next_poll w |}.

Definition set_polls (ps : gmap nat (nat * poll_state)) (w : world) : world :=
  {| clock := clock w; queues := queues w; subscriptions := subscriptions w;
     timers := timers w; next_timer := next_timer w;
     closures := closures w; next_sub := next_sub w;
     polls := ps; next_poll := next_poll w |}.

(** [setTimeout(cb, delay)]: returns the new timeout's id. The callback
    is due once the delay that the runtime makes of [delay] is over. *)
Definition setTimeout (cb : callback) (delay : Z) (w : world) : world * nat :=
  let tid := next_timer w in
  ({| clock := clock w; queues := queues w; subscriptions := subscriptions w;
      timers := <[tid := {| due := clock w + Js.timeout delay; run := cb |}]> (timers w);
      next_timer := S tid;
      closures := closures w; next_sub := next_sub w;
      polls := polls w; next_poll := next_poll w |}, tid).

(** [clearTimeout(timeoutId)] *)
Definition clearTimeout (tid : nat) (w : world) : world :=
  set_timers (delete tid (timers w)) w.

(** [this.queues.get(queue) ?? []] *)
Definition stored_in (q : string) (w : world) : list StoredMessage :=
  default [] (queues w !! q).

(** [private push(queue, message)] *)
Definition push (q : string) (msg : StoredMessage) (w : world) : world :=
  let current := stored_in q w in
  set_queues (<[q := current ++ [msg]]> (queues w)) w.

(** [publish(queue, payload, options)]; [uuid_id] and [uuid_receipt] are
    the two results of [randomUUID()]. *)
Definition publish (q : string) (p : T) (options : option Options.PublishOptions)
    (uuid_id uuid_receipt : string) (w : world) : world * StoredMessage :=
  let publishedAt := clock w in
  let ttl := options ≫= Options.ttlSeconds in
  let delay := options ≫= Options.delaySeconds in
  let msg :=
    {| message :=
         {| Message.id := uuid_id;
            Message.receipt := uuid_receipt;
            Message.payload := p;
            Message.publishedAt := publishedAt;
            Message.expiresAt :=
              if Js.truthy_number ttl
              then Js.new_Date (publishedAt + default 0 ttl * 1000)
              else None;
            Message.attributes := options ≫= Options.attributes;
            Message.correlationId := options ≫= Options.correlationId |};
       queue := q |} in
  if Js.truthy_number delay
  then ((setTimeout (CbPush q msg) (default 0 delay * 1000) w).1, msg)
  else (push q msg w, msg).

(** The test of the reducer of [pull]:
    [msg.expiresAt && msg.expiresAt.getTime() <= now]. *)
Definition is_expired (now : Z) (msg : StoredMessage) : bool :=
  match Message.expiresAt msg with
  | Some e => e <=? now
  | None => false
  end.

(** The [reduce] of [pull]: [(valid, expired)]. *)
Definition partition_stored (now : Z) (stored : list StoredMessage)
    : list StoredMessage * list StoredMessage :=
  foldl (fun acc msg =>
           if is_expired now msg
           then (acc.1, acc.2 ++ [msg])
           else (acc.1 ++ [msg], acc.2))
        ([], []) stored.

(** [pull(queue, maxMessages = 1)]; [valid.splice(0, maxMessages)]
    removes and returns the first [maxMessages] entries, a count below 0
    being taken as 0. *)
Definition pull (q : string) (maxMessages : option Z) (w : world)
    : world * list StoredMessage :=
  let stored := stored_in q w in
  let now := clock w in
  let '(valid, _) := partition_stored now stored in
  let k := Z.to_nat (default 1 maxMessages) in
  (set_queues (<[q := drop k valid]> (queues w)) w, take k valid).

(** [ack(queue, receipt)] *)
Definition ack (q : string) (r : string) (w : world) : world :=
  let stored := stored_in q w in
  let remaining := filter (fun msg => Message.receipt (message msg) ≠ r) stored in
  set_queues (<[q := remaining]> (queues w)) w.

(** What a step lets an observer see. *)
Inductive obs :=
| ObsPublished (msg : StoredMessage)
| ObsPulled (messages : list StoredMessage)
| ObsSubscribed (sub : nat)
| ObsPolled (sub : nat) (messages : list StoredMessage)
| ObsHandler (sub : nat) (msg : StoredMessage)
| ObsScheduled (sub : nat) (tid : nat).

(** The end of [poll]: [if (isActive) { setTimeout(poll, pollIntervalMs); ... }] *)
Definition reschedule (sid : nat) (w : world) : option (world * list obs) :=
  s ← closures w !! sid;
  if isActive s then
    let '(w1, timeoutId) := setTimeout (CbPoll sid) (sub_pollIntervalMs s) w in
    let existing := default [] (subscriptions w1 !! sub_queue s) in
    Some (set_subscriptions
            (<[sub_queue s := existing ++ [timeoutId]]> (subscriptions w1)) w1,
          [ObsScheduled sid timeoutId])
  else Some (w, []).

(** The [for] loop of [poll], from its head up to the next [await]:
    [pid] is the running poll, [todo] what is left of [messages]. *)
Definition for_messages (pid sid : nat) (todo : list StoredMessage) (w : world)
    : option (world * list obs) :=
  s ← closures w !! sid;
  match todo with
  | [] => reschedule sid (set_polls (delete pid (polls w)) w)
  | msg :: rest =>
      if negb (isActive s)
      then reschedule sid (set_polls (delete pid (polls w)) w)
      else Some (set_polls (<[pid := (sid, AwaitHandler msg rest)]> (polls w)) w,
                 [ObsHandler sid msg])
  end.

(** [poll()], up to [await this.pull(queue, maxMessages)]. *)
Definition poll (sid : nat) (w : world) : option (world * list obs) :=
  s ← closures w !! sid;
  if negb (isActive s) then Some (w, [])
  else
    let '(w1, messages) := pull (sub_queue s) (Some (sub_maxMessages s)) w in
    let pid := next_poll w1 in
    Some ({| clock := clock w1; queues := queues w1;
             subscriptions := subscriptions w1;
             timers := timers w1; next_timer := next_timer w1;
             closures := closures w1; next_sub := next_sub w1;
             polls := <[pid := (sid, AwaitPull messages)]> (polls w1);
             next_poll := S pid |},
          [ObsPolled sid messages]).

(** The [catch] of the handler call: [if (!autoAck) { stored.unshift(message); ... }] *)
Definition on_handler_error (s : subscription) (msg : StoredMessage) (w : world) : world :=
  if negb (sub_autoAck s)
  then
    let stored := stored_in (sub_queue s) w in
    set_queues (<[sub_queue s := msg :: stored]> (queues w)) w
  else w.

(** A suspended [poll] goes on once the promise it awaits is settled.
    The promises of [pull] and [ack] always resolve. *)
Definition resume (pid : nat) (o : outcome) (w : world) : option (world * list obs) :=
  '(sid, k) ← polls w !! pid;
  s ← closures w !! sid;
  match k, o with
  | AwaitPull messages, Resolved => for_messages pid sid messages w
  | AwaitHandler msg rest, Resolved =>
      if sub_autoAck s
      then
        let w1 := ack (sub_queue s) (Message.receipt (message msg)) w in
        Some (set_polls (<[pid := (sid, AwaitAck rest)]> (polls w1)) w1, [])
      else for_messages pid sid rest w
  | AwaitHandler msg rest, Rejected =>
      for_messages pid sid rest (on_handler_error s msg w)
  | AwaitAck rest, Resolved => for_messages pid sid rest w
  | _, Rejected => None
  end.

(** [subscribe(queue, handler, options)]; the handler is run by the
    environment, see [ObsHandler] and [EvResume]. *)
Definition subscribe (q : string) (options : option Subscribe.SubscribeOptions)
    (w : world) : option (world * list obs) :=
  let s := {| sub_queue := q;
              sub_maxMessages := default 1 (options ≫= Subscribe.maxMessages);
              sub_pollIntervalMs := default 1000 (options ≫= Subscribe.pollIntervalMs);
              sub_autoAck := default false (options ≫= Subscribe.autoAck);
              isActive := true |} in
  let sid := next_sub w in
  let w1 := {| clock := clock w; queues := queues w;
               subscriptions := subscriptions w;
               timers := timers w; next_timer := next_timer w;
               closures := <[sid := s]> (closures w); next_sub := S sid;
               polls := polls w; next_poll := next_poll w |} in
  '(w2, os) ← poll sid w1;
  Some (w2, os ++ [ObsSubscribed sid]).

(** [unsubscribe()] of the handle returned for subscription [sid]. *)
Definition unsubscribe (sid : nat) (w : world) : option world :=
  s ← closures w !! sid;
  let w1 := set_closures
              (<[sid := {| sub_queue := sub_queue s;
                           sub_maxMessages := sub_maxMessages s;
                           sub_pollIntervalMs := sub_pollIntervalMs s;
                           sub_autoAck := sub_autoAck s;
                           isActive := false |}]> (closures w)) w in
  let timeouts := default [] (subscriptions w1 !! sub_queue s) in
  let w2 := foldl (fun acc timeoutId => clearTimeout timeoutId acc) w1 timeouts in
  Some (set_subscriptions (<[sub_queue s := []]> (subscriptions w2)) w2).

(** A timeout that is due runs its callback. *)
Definition fire (tid : nat) (w : world) : option (world * list obs) :=
  t ← timers w !! tid;
  if due t <=? clock w then
    let w1 := set_timers (delete tid (timers w)) w in
    match run t with
    | CbPush q msg => Some (push q msg w1, [])
    | CbPoll sid => poll sid w1
    end
  else None.

(** What can happen to the driver: the calls of its clients and the
    moves of the runtime. *)
Inductive event :=
| EvPublish (q : string) (p : T) (options : option Options.PublishOptions)
            (uuid_id uuid_receipt : string)
| EvPull (q : string) (maxMessages : option Z)
| EvAck (q : string) (r : string)
| EvSubscribe (q : string) (options : option Subscribe.SubscribeOptions)
| EvUnsubscribe (sub : nat)
| EvAdvance (ms : Z)
| EvTimer (tid : nat)
| EvResume (pid : nat) (o : outcome).

Definition step (w : world) (e : event) : option (world * list obs) :=
  match e with
  | EvPublish q p options u1 u2 =>
      let '(w1, msg) := publish q p options u1 u2 w in Some (w1, [ObsPublished msg])
  | EvPull q k =>
      let '(w1, messages) := pull q k w in Some (w1, [ObsPulled messages])
  | EvAck q r => Some (ack q r w, [])
  | EvSubscribe q options => subscribe q options w
  | EvUnsubscribe sid => w1 ← unsubscribe sid w; Some (w1, [])
  | EvAdvance ms => if 0 <=? ms then Some (set_clock (clock w + ms) w, []) else None
  | EvTimer tid => fire tid w
  | EvResume pid o => resume pid o w
  end.

(** Runs a sequence of events, collecting what was observed. *)
Fixpoint exec (w : world) (es : list event) : option (world * list obs) :=
  match es with
  | [] => Some (w, [])
  | e :: es' =>
      '(w1, os1) ← step w e;
      '(w2, os2) ← exec w1 es';
      Some (w2, os1 ++ os2)
  end.

End Driver.

Arguments StoredMessage : clear implicits.
Arguments callback : clear implicits.
Arguments timer : clear implicits.
Arguments poll_state : clear implicits.
Arguments world : clear implicits.
Arguments obs : clear implicits.
Arguments event : clear implicits.

End InMemory.

(** ** Effects of the remote drivers

    A driver method that talks to a backend is a function of the state
    that returns a value or the error it raised, and the state it left. *)

Inductive result (A : Type) :=
| Ok (a : A)
| Err (e : string).
Arguments Ok {A} _.
Arguments Err {A} _.

Definition is_ok {A : Type} (r : result A) : bool :=
  match r with Ok _ => true | Err _ => false end.

Module Eff.

Definition M (S A : Type) : Type := S -> result A * S.

Definition ret {S A : Type} (a : A) : M S A := fun s => (Ok a, s).

Definition throw {S A : Type} (e : string) : M S A := fun s => (Err e, s).

Definition bind {S A B : Type} (c : M S A) (k : A -> M S B) : M S B :=
  fun s =>
    match c s with
    | (Ok a, s1) => k a s1
    | (Err e, s1) => (Err e, s1)
    end.

(** [try { c } catch (err) { h err }] *)
Definition try_catch {S A : Type} (c : M S A) (h : string -> M S A) : M S A :=
  fun s =>
    match c s with
    | (Ok a, s1) => (Ok a, s1)
    | (Err e, s1) => h e s1
    end.

End Eff.

Notation "x <~ c ;; k" := (Eff.bind c (fun x => k))
  (at level 100, c at next level, right associativity).

(** ** drivers/sqs/sqs.driver.ts *)

Module Sqs.

Record MessageAttributeValue := {
  DataType : option string;
  StringValue : option string;
}.

(** The commands of [@aws-sdk/client-sqs] that the driver sends. *)
Inductive Command :=
| GetQueueUrlCommand (QueueName : string)
| CreateQueueCommand (QueueName : string)
| ReceiveMessageCommand (QueueUrl : string) (MaxNumberOfMessages : Z)
    (WaitTimeSeconds : Z)
| SendMessageCommand (QueueUrl : string) (MessageBody : string)
    (DelaySeconds : option Z)
    (MessageAttributes : gmap string MessageAttributeValue)
| DeleteMessageCommand (QueueUrl : string) (ReceiptHandle : string).

Definition is_delete (c : Command) : bool :=
  match c with DeleteMessageCommand _ _ => true | _ => false end.

Definition is_create (c : Command) : bool :=
  match c with CreateQueueCommand _ => true | _ => false end.

(** One entry of [res.Messages]. *)
Record Received := {
  rMessageId : option string;
  rReceiptHandle : option string;
  rBody : option string;
  rSentTimestamp : option string;
  rMessageAttributes : option (gmap string MessageAttributeValue);
}.

(** The fields of the responses that the driver reads. *)
Record Response := {
  QueueUrl : option string;
  MessageId : option string;
  SequenceNumber : option string;
  Messages : option (list Received);
}.

Definition empty_response : Response :=
  {| QueueUrl := None; MessageId := None; SequenceNumber := None; Messages := None |}.

Section Driver.

Context {T : Type}.

(** [JSON.stringify], [JSON.parse] (which may throw), a string taken as
    a payload ([raw as T]) and [Number] on a timestamp. *)
Variable JSON_stringify : T -> string.
Variable JSON_parse : string -> option T.
Variable raw_payload : string -> T.
Variable Number : string -> Z.

(** The SQS client: [B] is whatever stands behind [client.send]. *)
Context {B : Type}.
Variable client_send : Command -> B -> result Response * B.

(** The driver object and its client; [sent] records the commands
    handed to [client.send], oldest first. *)
Record driver := {
  queueUrlCache : gmap string string;
  backend : B;
  sent : list Command;
}.

Definition new_driver (b : B) : driver :=
  {| queueUrlCache := ∅; backend := b; sent := [] |}.

(** [await this.client.send(cmd)] *)
Definition send (cmd : Command) : Eff.M driver Response :=
  fun d =>
    let '(r, b1) := client_send cmd (backend d) in
    (r, {| queueUrlCache := queueUrlCache d; backend := b1;
           sent := sent d ++ [cmd] |}).

(** [this.queueUrlCache.set(queue, url)] *)
Definition cache_set (q url : string) : Eff.M driver unit :=
  fun d =>
    (Ok tt, {| queueUrlCache := <[q := url]> (queueUrlCache d);
               backend := backend d; sent := sent d |}).

(** [private ensureQueue(queue)] *)
Definition ensureQueue (q : string) : Eff.M driver string :=
  fun d =>
    match queueUrlCache d !! q with
    | Some url => (Ok url, d)
    | None =>
        (found <~ Eff.try_catch
                    (urlRes <~ send (GetQueueUrlCommand q) ;;
                     if Js.truthy_string (QueueUrl urlRes)
                     then (_ <~ cache_set q (default "" (QueueUrl urlRes)) ;;
                           Eff.ret (QueueUrl urlRes))
                     else Eff.ret None)
                    (fun _ => Eff.ret None) ;;
         match found with
         | Some url => Eff.ret url
         | None =>
             createRes <~ send (CreateQueueCommand q) ;;
             if negb (Js.truthy_string (QueueUrl createRes))
             then Eff.throw ("Unable to create or find queue " +:+ Js.quoted q)
             else (_ <~ cache_set q (default "" (QueueUrl createRes)) ;;
                   Eff.ret (default "" (QueueUrl createRes)))
         end) d
    end.

(** [private toMessageAttributes(options)] *)
Definition toMessageAttributes (options : option Options.PublishOptions)
    : gmap string MessageAttributeValue :=
  let attrs :=
    (fun a : gmap string string =>
       (fun value => {| DataType := Some "String"; StringValue := Some value |}) <$> a)
    <$> (options ≫= Options.attributes) in
  let base := default ∅ attrs in
  if Js.truthy_string (options ≫= Options.correlationId)
  then <["correlationId" :=
           {| DataType := Some "String";
              StringValue := options ≫= Options.correlationId |}]> base
  else base.

(** [publish(queue, payload, options)]; [now] is the clock when the
    send has returned. *)
Definition publish (q : string) (p : T) (options : option Options.PublishOptions)
    (now : Z) : Eff.M driver (Message.QueueMessage T) :=
  queueUrl <~ ensureQueue q ;;
  response <~ send (SendMessageCommand queueUrl (JSON_stringify p)
                      (options ≫= Options.delaySeconds)
                      (toMessageAttributes options)) ;;
  let publishedAt := now in
  let expiresAt :=
    match options ≫= Options.ttlSeconds with
    | Some ttl => Some (publishedAt + ttl * 1000)
    | None => None
    end in
  Eff.ret
    {| Message.id := default "" (MessageId response);
       Message.receipt :=
         match SequenceNumber response with
         | Some sn => sn
         | None => default "" (MessageId response)
         end;
       Message.payload := p;
       Message.publishedAt := publishedAt;
       Message.expiresAt := expiresAt;
       Message.attributes := options ≫= Options.attributes;
       Message.correlationId := options ≫= Options.correlationId |}.

(** The attributes that [pull] hands back: every message attribute but
    [correlationId] that has a non-empty [StringValue]. *)
Definition received_attributes (ma : option (gmap string MessageAttributeValue))
    : gmap string string :=
  omap (fun value =>
          if Js.truthy_string (StringValue value) then StringValue value else None)
       (delete "correlationId" (default ∅ ma)).

(** [msg.MessageAttributes?.correlationId?.StringValue] *)
Definition received_correlationId (ma : option (gmap string MessageAttributeValue))
    : option string :=
  m ← ma; v ← m !! "correlationId"; StringValue v.

(** The function mapped over [res.Messages] by [pull]. *)
Definition to_message (now : Z) (msg : Received) : Message.QueueMessage T :=
  let raw := default "" (rBody msg) in
  let parsed := default (raw_payload raw) (JSON_parse raw) in
  let sentTimestamp :=
    if Js.truthy_string (rSentTimestamp msg)
    then Number (default "" (rSentTimestamp msg))
    else now in
  {| Message.id := default "" (rMessageId msg);
     Message.receipt := default "" (rReceiptHandle msg);
     Message.payload := parsed;
     Message.publishedAt := sentTimestamp;
     Message.expiresAt := None;
     Message.attributes := Some (received_attributes (rMessageAttributes msg));
     Message.correlationId := received_correlationId (rMessageAttributes msg) |}.

(** [pull(queue, maxMessages = 1)] *)
Definition pull (q : string) (maxMessages : option Z) (now : Z)
    : Eff.M driver (list (Message.QueueMessage T)) :=
  queueUrl <~ ensureQueue q ;;
  res <~ send (ReceiveMessageCommand queueUrl
                 (Z.min 10 (Z.max 1 (default 1 maxMessages))) 1) ;;
  let messages := default [] (Messages res) in
  Eff.ret (to_message now <$> messages).

(** [ack(queue, receipt)] *)
Definition ack (q : string) (r : string) : Eff.M driver unit :=
  queueUrl <~ ensureQueue q ;;
  if String.eqb r "" then Eff.ret tt
  else (_ <~ send (DeleteMessageCommand queueUrl r) ;; Eff.ret tt).

End Driver.

Arguments driver : clear implicits.

(** *** The subscription poller of the SQS driver

    The exchange with the backend that [this.pull] and [this.ack] make
    inside a poll is left to the environment: it settles the promise the
    poll awaits with the messages pulled, or rejects it. *)

Section Subscriptions.

Context {T : Type}.

(** The [subscription] object of one [subscribe] call and the variables
    its closures capture. *)
Record subscription := {
  sub_queue : string;
  sub_maxMessages : Z;
  sub_pollIntervalMs : Z;
  sub_autoAck : bool;
  subscriptionKey : string;
  isActive : bool;
  timeoutId : option nat;
}.

Definition set_isActive (b : bool) (s : subscription) : subscription :=
  {| sub_queue := sub_queue s; sub_maxMessages := sub_maxMessages s;
     sub_pollIntervalMs := sub_pollIntervalMs s; sub_autoAck := sub_autoAck s;
     subscriptionKey := subscriptionKey s; isActive := b;
     timeoutId := timeoutId s |}.

Definition set_timeoutId (t : option nat) (s : subscription) : subscription :=
  {| sub_queue := sub_queue s; sub_maxMessages := sub_maxMessages s;
     sub_pollIntervalMs := sub_pollIntervalMs s; sub_autoAck := sub_autoAck s;
     subscriptionKey := subscriptionKey s; isActive := isActive s;
     timeoutId := t |}.

Inductive poll_state :=
| AwaitPull
| AwaitHandler (msg : Message.QueueMessage T) (rest : list (Message.QueueMessage T))
| AwaitAck (rest : list (Message.QueueMessage T)).

(** How the environment settles what a poll awaits. *)
Inductive settled :=
| Pulled (messages : list (Message.QueueMessage T))
| Done (o : outcome).

(** [activeSubscriptions] maps a key to a subscription object, here to
    the index of that object in [closures]; a pending timeout is its due
    time and the subscription whose [poll] it runs. *)
Record world := {
  clock : Z;
  activeSubscriptions : gmap string nat;
  closures : gmap nat subscription;
  next_sub : nat;
  timers : gmap nat (Z * nat);
  next_timer : nat;
  polls : gmap nat (nat * poll_state);
  next_poll : nat;
}.

Definition init : world :=
  {| clock := 0; activeSubscriptions := ∅; closures := ∅; next_sub := 0%nat;
     timers := ∅; next_timer := 0%nat; polls := ∅; next_poll := 0%nat |}.

Definition set_closures (cs : gmap nat subscription) (w : world) : world :=
  {| clock := clock w; activeSubscriptions := activeSubscriptions w;
     closures := cs; next_sub := next_sub w;
     timers := timers w; next_timer := next_timer w;
     polls := polls w; next_poll := next_poll w |}.

Definition set_timers (ts : gmap nat (Z * nat)) (w : world) : world :=
  {| clock := clock w; activeSubscriptions := activeSubscriptions w;
     closures := closures w; next_sub := next_sub w;
     timers := ts; next_timer := next_timer w;
     polls := polls w; next_poll := next_poll w |}.

Definition set_polls (ps : gmap nat (nat * poll_state)) (w : world) : world :=
  {| clock := clock w; activeSubscriptions := activeSubscriptions w;
     closures := closures w; next_sub := next_sub w;
     timers := timers w; next_timer := next_timer w;
     polls := ps; next_poll := next_poll w |}.

Definition set_activeSubscriptions (a : gmap string nat) (w : world) : world :=
  {| clock := clock w; activeSubscriptions := a;
     closures := closures w; next_sub := next_sub w;
     timers := timers w; next_timer := next_timer w;
     polls := polls w; next_poll := next_poll w |}.

Inductive obs :=
| ObsSubscribed (sub : nat)
| ObsPullStarted (sub : nat)
| ObsHandler (sub : nat) (msg : Message.QueueMessage T)
| ObsAckStarted (sub : nat) (r : string)
| ObsScheduled (sub : nat) (tid : nat).

(** The end of [poll]:
    [if (subscription.isActive) { subscription.timeoutId = setTimeout(poll, pollIntervalMs) }] *)
Definition reschedule (sid : nat) (w : world) : option (world * list obs) :=
  s ← closures w !! sid;
  if isActive s then
    let tid := next_timer w in
    Some ({| clock := clock w; activeSubscriptions := activeSubscriptions w;
             closures := <[sid := set_timeoutId (Some tid) s]> (closures w);
             next_sub := next_sub w;
             timers := <[tid := (clock w + Js.timeout (sub_pollIntervalMs s), sid)]>
                         (timers w);
             next_timer := S tid;
             polls := polls w; next_poll := next_poll w |},
          [ObsScheduled sid tid])
  else Some (w, []).

(** The [for] loop of [poll], from its head up to the next [await]. *)
Definition for_messages (pid sid : nat) (todo : list (Message.QueueMessage T))
    (w : world) : option (world * list obs) :=
  s ← closures w !! sid;
  match todo with
  | [] => reschedule sid (set_polls (delete pid (polls w)) w)
  | msg :: rest =>
      if negb (isActive s)
      then reschedule sid (set_polls (delete pid (polls w)) w)
      else Some (set_polls (<[pid := (sid, AwaitHandler msg rest)]> (polls w)) w,
                 [ObsHandler sid msg])
  end.

(** [poll()], up to [await this.pull(queue, maxMessages)]. *)
Definition poll (sid : nat) (w : world) : option (world * list obs) :=
  s ← closures w !! sid;
  if negb (isActive s) then Some (w, [])
  else
    let pid := next_poll w in
    Some ({| clock := clock w; activeSubscriptions := activeSubscriptions w;
             closures := closures w; next_sub := next_sub w;
             timers := timers w; next_timer := next_timer w;
             polls := <[pid := (sid, AwaitPull)]> (polls w);
             next_poll := S pid |},
          [ObsPullStarted sid]).

(** A suspended [poll] goes on. A rejected pull ends the cycle; a
    rejected handler or ack is logged and the loop goes on. *)
Definition resume (pid : nat) (r : settled) (w : world) : option (world * list obs) :=
  '(sid, k) ← polls w !! pid;
  s ← closures w !! sid;
  match k, r with
  | AwaitPull, Pulled messages => for_messages pid sid messages w
  | AwaitPull, Done Rejected => reschedule sid (set_polls (delete pid (polls w)) w)
  | AwaitHandler msg rest, Done Resolved =>
      if sub_autoAck s
      then Some (set_polls (<[pid := (sid, AwaitAck rest)]> (polls w)) w,
                 [ObsAckStarted sid (Message.receipt msg)])
      else for_messages pid sid rest w
  | AwaitHandler msg rest, Done Rejected => for_messages pid sid rest w
  | AwaitAck rest, Done _ => for_messages pid sid rest w
  | _, _ => None
  end.

(** [subscribe(queue, handler, options)] *)
Definition subscribe (q : string) (options : option Subscribe.SubscribeOptions)
    (w : world) : option (world * list obs) :=
  let key := q +:+ "-" +:+ pretty (clock w) in
  let s := {| sub_queue := q;
              sub_maxMessages := default 1 (options ≫= Subscribe.maxMessages);
              sub_pollIntervalMs := default 20000 (options ≫= Subscribe.pollIntervalMs);
              sub_autoAck := default false (options ≫= Subscribe.autoAck);
              subscriptionKey := key;
              isActive := true;
              timeoutId := None |} in
  let sid := next_sub w in
  let w1 := {| clock := clock w;
               activeSubscriptions := <[key := sid]> (activeSubscriptions w);
               closures := <[sid := s]> (closures w); next_sub := S sid;
               timers := timers w; next_timer := next_timer w;
               polls := polls w; next_poll := next_poll w |} in
  '(w2, os) ← poll sid w1;
  Some (w2, os ++ [ObsSubscribed sid]).

(** [unsubscribe()] of the handle returned for subscription [sid]. *)
Definition unsubscribe (sid : nat) (w : world) : option world :=
  s ← closures w !! sid;
  let w1 := set_closures (<[sid := set_isActive false s]> (closures w)) w in
  let w2 := match timeoutId s with
            | Some tid => set_timers (delete tid (timers w1)) w1
            | None => w1
            end in
  Some (set_activeSubscriptions
          (delete (subscriptionKey s) (activeSubscriptions w2)) w2).

Definition fire (tid : nat) (w : world) : option (world * list obs) :=
  '(due, sid) ← timers w !! tid;
  if due <=? clock w
  then poll sid (set_timers (delete tid (timers w)) w)
  else None.

Inductive event :=
| EvSubscribe (q : string) (options : option Subscribe.SubscribeOptions)
| EvUnsubscribe (sub : nat)
| EvAdvance (ms : Z)
| EvTimer (tid : nat)
| EvResume (pid : nat) (r : settled).

Definition step (w : world) (e : event) : option (world * list obs) :=
  match e with
  | EvSubscribe q options => subscribe q options w
  | EvUnsubscribe sid => w1 ← unsubscribe sid w; Some (w1, [])
  | EvAdvance ms =>
      if 0 <=? ms
      then Some ({| clock := clock w + ms;
                    activeSubscriptions := activeSubscriptions w;
                    closures := closures w; next_sub := next_sub w;
                    timers := timers w; next_timer := next_timer w;
                    polls := polls w; next_poll := next_poll w |}, [])
      else None
  | EvTimer tid => fire tid w
  | EvResume pid r => resume pid r w
  end.

Fixpoint exec (w : world) (es : list event) : option (world * list obs) :=
  match es with
  | [] => Some (w, [])
  | e :: es' =>
      '(w1, os1) ← step w e;
      '(w2, os2) ← exec w1 es';
      Some (w2, os1 ++ os2)
  end.

End Subscriptions.

Arguments poll_state : clear implicits.
Arguments settled : clear implicits.
Arguments world : clear implicits.
Arguments obs : clear implicits.
Arguments event : clear implicits.

End Sqs.

(** ** drivers/rabbitmq/rabbitmq.driver.ts *)

Module RabbitMq.

(** [amqp.Options.Publish] as the driver fills it. *)
Record Publish := {
  messageId : string;
  correlationId : string;
  headers : gmap string string;
  expiration : option string;
  persistent : bool;
}.

(** The calls into [amqplib] that the driver makes, over a broker state
    [B]; connections and channels are handles. [ack] takes the delivery
    tag, [None] standing for [NaN]. *)
Record Amqplib (B : Type) := {
  connect : B -> result nat * B;
  createChannel : nat -> B -> result nat * B;
  assertQueue : nat -> string -> B -> result unit * B;
  sendToQueue : nat -> string -> string -> Publish -> B -> result bool * B;
  channel_ack : nat -> option Z -> B -> result unit * B;
}.
Arguments connect {B} _ _.
Arguments createChannel {B} _ _ _.
Arguments assertQueue {B} _ _ _ _.
Arguments sendToQueue {B} _ _ _ _ _ _.
Arguments channel_ack {B} _ _ _ _.

Section Driver.

Context {T B : Type}.
Variable JSON_stringify : T -> string.
(** [parseInt(s, 10)], [None] standing for [NaN]. *)
Variable parseInt : string -> option Z.
Variable amqp : Amqplib B.

Record driver := {
  connection : option nat;
  channels : gmap string nat;
  broker : B;
}.

Definition new_driver (b : B) : driver :=
  {| connection := None; channels := ∅; broker := b |}.

(** A call into the library, on the broker of the driver. *)
Definition lib {A : Type} (f : B -> result A * B) : Eff.M driver A :=
  fun d =>
    let '(r, b1) := f (broker d) in
    (r, {| connection := connection d; channels := channels d; broker := b1 |}).

(** [private getConnection()]; the URL that [amqp.connect] is given is
    fixed by the configuration of the driver. *)
Definition getConnection : Eff.M driver nat :=
  fun d =>
    match connection d with
    | Some conn => (Ok conn, d)
    | None =>
        (conn <~ lib (connect amqp) ;;
         fun d1 =>
           (Ok conn, {| connection := Some conn; channels := channels d1;
                        broker := broker d1 |})) d
    end.

(** [private getChannel(queue)] *)
Definition getChannel (q : string) : Eff.M driver nat :=
  fun d =>
    match channels d !! q with
    | Some channel => (Ok channel, d)
    | None =>
        (conn <~ getConnection ;;
         channel <~ lib (createChannel amqp conn) ;;
         _ <~ lib (assertQueue amqp channel q) ;;
         fun d1 =>
           (Ok channel, {| connection := connection d1;
                           channels := <[q := channel]> (channels d1);
                           broker := broker d1 |})) d
    end.

(** [publish(queue, payload, options)]; [now] is read by [new Date()],
    [now_id] by the [Date.now()] of the message id, and [rnd] is
    [Math.random().toString(36).substring(7)]. *)
Definition publish (q : string) (p : T) (options : option Options.PublishOptions)
    (now now_id : Z) (rnd : string) : Eff.M driver (Message.QueueMessage T) :=
  channel <~ getChannel q ;;
  let publishedAt := now in
  let messageId := pretty now_id +:+ "-" +:+ rnd in
  let correlationId := Js.or_else (options ≫= Options.correlationId) messageId in
  let headers :=
    <["correlationId" := correlationId]> (default ∅ (options ≫= Options.attributes)) in
  let ttl := options ≫= Options.ttlSeconds in
  let delay := options ≫= Options.delaySeconds in
  let publishOptions :=
    {| messageId := messageId;
       correlationId := correlationId;
       headers := headers;
       expiration :=
         if Js.truthy_number delay then Some (pretty (default 0 delay * 1000))
         else if Js.truthy_number ttl then Some (pretty (default 0 ttl * 1000))
         else None;
       persistent := true |} in
  sent <~ lib (sendToQueue amqp channel q (JSON_stringify p) publishOptions) ;;
  if negb sent
  then Eff.throw ("Failed to publish message to queue " +:+ Js.quoted q)
  else
    Eff.ret
      {| Message.id := messageId;
         Message.receipt := messageId;
         Message.payload := p;
         Message.publishedAt := publishedAt;
         Message.expiresAt :=
           match ttl with
           | Some t => Some (publishedAt + t * 1000)
           | None => None
           end;
         Message.attributes := options ≫= Options.attributes;
         Message.correlationId := Some correlationId |}.

(** [ack(queue, receipt)] *)
Definition ack (q : string) (r : string) : Eff.M driver unit :=
  channel <~ getChannel q ;;
  let deliveryTag := parseInt r in
  lib (channel_ack amqp channel deliveryTag).

End Driver.

Arguments driver : clear implicits.

(** *** [pull]

    [channel.get] is one more call into the library; it answers with a
    message or with [false], here [None]. *)

(** A header value: a string, or a value of another type. *)
Inductive header_value :=
| HString (s : string)
| HOther.

(** [GetMessage] and [ConsumeMessage], as far as the driver reads them;
    [content] is [msg.content.toString()]. *)
Record GetMessage := {
  content : string;
  deliveryTag : Z;
  p_messageId : option string;
  p_correlationId : option string;
  p_headers : option (gmap string header_value);
  p_timestamp : option Z;
}.

(** The reducer over [Object.entries(properties.headers)]: the headers
    but [correlationId] whose value is a string. *)
Definition received_attributes (h : option (gmap string header_value))
    : option (gmap string string) :=
  (fun hs : gmap string header_value =>
     omap (fun value => match value with HString s => Some s | HOther => None end)
          (delete "correlationId" hs)) <$> h.

(** [properties.correlationId || properties.messageId] *)
Definition received_correlationId (msg : GetMessage) : option string :=
  if Js.truthy_string (p_correlationId msg) then p_correlationId msg
  else p_messageId msg.

Section Pull.

Context {T B : Type}.
Variable JSON_parse : string -> option T.
Variable raw_payload : string -> T.
Variable amqp : Amqplib B.
(** [channel.get(queue, { noAck: false })] *)
Variable channel_get : nat -> string -> B -> result (option GetMessage) * B.
(** The clock as [new Date()] and as [Date.now()] read it in iteration [i]. *)
Variable now now_id : Z -> Z.

(** The body of the loop of [pull] after [if (!msg) break], in iteration [i]. *)
Definition to_message (i : Z) (msg : GetMessage) : Message.QueueMessage T :=
  let parsed := default (raw_payload (content msg)) (JSON_parse (content msg)) in
  let timestamp :=
    if Js.truthy_number (p_timestamp msg)
    then default 0 (p_timestamp msg) * 1000
    else now i in
  {| Message.id := Js.or_else (p_messageId msg) (pretty (now_id i) +:+ "-" +:+ pretty i);
     Message.receipt := pretty (deliveryTag msg);
     Message.payload := parsed;
     Message.publishedAt := timestamp;
     Message.expiresAt := None;
     Message.attributes := received_attributes (p_headers msg);
     Message.correlationId := received_correlationId msg |}.

(** [for (let i = 0; i < maxMessages; i++) { ... }] from iteration [i]
    on, with [n] iterations to go, the messages pushed so far being
    [messages]. *)
Fixpoint pull_loop (n : nat) (i : Z) (channel : nat) (q : string)
    (messages : list (Message.QueueMessage T))
    : Eff.M (driver B) (list (Message.QueueMessage T)) :=
  match n with
  | O => Eff.ret messages
  | S n' =>
      msg <~ lib (channel_get channel q) ;;
      match msg with
      | None => Eff.ret messages
      | Some m => pull_loop n' (i + 1) channel q (messages ++ [to_message i m])
      end
  end.

(** [pull(queue, maxMessages = 1)] *)
Definition pull (q : string) (maxMessages : option Z)
    : Eff.M (driver B) (list (Message.QueueMessage T)) :=
  channel <~ getChannel amqp q ;;
  pull_loop (Z.to_nat (default 1 maxMessages)) 0 channel q [].

End Pull.

End RabbitMq.

(** ** drivers/rabbitmq/rabbitmq.consumer.ts *)

Module RabbitMqConsumer.

Section Consumer.

Context {T B : Type}.
Variable JSON_parse : string -> option T.
Variable raw_payload : string -> T.
Variable amqp : RabbitMq.Amqplib B.
(** [channel.nack(msg, allUpTo, requeue)], by the delivery tag of [msg]. *)
Variable channel_nack : nat -> Z -> bool -> bool -> B -> result unit * B.
(** The clock as [new Date()] and as [Date.now()] read it. *)
Variable now now_id : Z.

(** [RabbitMqConsumerContext] *)
Record context := {
  channel : nat;
  queue : string;
  autoAck : bool;
}.

(** [private parseMessage(msg)] *)
Definition parseMessage (msg : RabbitMq.GetMessage) : Message.QueueMessage T :=
  let parsed :=
    default (raw_payload (RabbitMq.content msg)) (JSON_parse (RabbitMq.content msg)) in
  let timestamp :=
    if Js.truthy_number (RabbitMq.p_timestamp msg)
    then default 0 (RabbitMq.p_timestamp msg) * 1000
    else now in
  {| Message.id := Js.or_else (RabbitMq.p_messageId msg) (pretty now_id);
     Message.receipt := pretty (RabbitMq.deliveryTag msg);
     Message.payload := parsed;
     Message.publishedAt := timestamp;
     Message.expiresAt := None;
     Message.attributes := RabbitMq.received_attributes (RabbitMq.p_headers msg);
     Message.correlationId := RabbitMq.received_correlationId msg |}.

(** [handleErrorWithMessage(error, message, msg, context)] *)
Definition handleErrorWithMessage (msg : RabbitMq.GetMessage) (ctx : context)
    : Eff.M (RabbitMq.driver B) unit :=
  if autoAck ctx
  then RabbitMq.lib (RabbitMq.channel_ack amqp (channel ctx)
                       (Some (RabbitMq.deliveryTag msg)))
  else RabbitMq.lib (channel_nack (channel ctx) (RabbitMq.deliveryTag msg) false true).

(** The function that [createConsumer(handler, context)] returns, applied
    to [msg]; [handler] tells how the promise of the handler settles on a
    message. *)
Definition createConsumer (handler : Message.QueueMessage T -> outcome) (ctx : context)
    (msg : option RabbitMq.GetMessage) : Eff.M (RabbitMq.driver B) unit :=
  match msg with
  | None => Eff.ret tt
  | Some m =>
      let message := parseMessage m in
      Eff.try_catch
        (match handler message with
         | Resolved =>
             if autoAck ctx
             then RabbitMq.lib (RabbitMq.channel_ack amqp (channel ctx)
                                  (Some (RabbitMq.deliveryTag m)))
             else Eff.ret tt
         | Rejected => Eff.throw "handler"
         end)
        (fun _ => handleErrorWithMessage m ctx)
  end.

End Consumer.

End RabbitMqConsumer.

(** ** queue.types.ts: the driver interface *)

Module Driver.

(** [interface QueueDriver]: [T] is the payload, [Handler] a message
    handler, [Promise A] what a driver method returns for a result of
    type [A], [Handle] a subscription handle. *)
Record QueueDriver (T Handler Handle : Type) (Promise : Type -> Type) := {
  name : string;
  publish : string -> T -> option Options.PublishOptions
            -> Promise (Message.QueueMessage T);
  pull : string -> option Z -> Promise (list (Message.QueueMessage T));
  ack : string -> string -> Promise unit;
  subscribe : string -> Handler -> option Subscribe.SubscribeOptions
              -> Promise Handle;
}.
Arguments name {T Handler Handle Promise} _.
Arguments publish {T Handler Handle Promise} _ _ _ _.
Arguments pull {T Handler Handle Promise} _ _ _.
Arguments ack {T Handler Handle Promise} _ _ _.
Arguments subscribe {T Handler Handle Promise} _ _ _ _.

End Driver.

(** ** queue.service.ts *)

Module QueueService.

(** What a call of the facade gives its caller at once: the value its
    driver returned, or the exception thrown by [getDriver]. *)
Inductive completion (A : Type) :=
| Returned (a : A)
| BadRequestException (message : string).
Arguments Returned {A} _.
Arguments BadRequestException {A} _.

Section Facade.

Context {T Handler Handle : Type} {Promise : Type -> Type}.

Abbreviation QueueDriver := (Driver.QueueDriver T Handler Handle Promise).

(** [Map<QueueProvider, QueueDriver>], in insertion order. *)
Definition registry := list (string * QueueDriver).

(** [this.drivers.get(provider)] *)
Fixpoint get (drivers : registry) (provider : string) : option QueueDriver :=
  match drivers with
  | [] => None
  | (k, d) :: rest => if String.eqb k provider then Some d else get rest provider
  end.

(** [getAvailableProviders()]: [Array.from(this.drivers.keys())] *)
Definition getAvailableProviders (drivers : registry) : list string :=
  fst <$> drivers.

(** [private getDriver(provider)] *)
Definition getDriver (drivers : registry) (provider : string)
    : completion QueueDriver :=
  match get drivers provider with
  | None =>
      BadRequestException
        ("Invalid queue provider: " +:+ provider +:+ ". Available providers: "
         +:+ String.concat ", " (getAvailableProviders drivers))
  | Some driver => Returned driver
  end.

Definition publish (drivers : registry) (provider q : string) (p : T)
    (options : option Options.PublishOptions)
    : completion (Promise (Message.QueueMessage T)) :=
  match getDriver drivers provider with
  | Returned driver => Returned (Driver.publish driver q p options)
  | BadRequestException m => BadRequestException m
  end.

Definition pull (drivers : registry) (provider q : string)
    (maxMessages : option Z)
    : completion (Promise (list (Message.QueueMessage T))) :=
  match getDriver drivers provider with
  | Returned driver => Returned (Driver.pull driver q maxMessages)
  | BadRequestException m => BadRequestException m
  end.

Definition ack (drivers : registry) (provider q r : string)
    : completion (Promise unit) :=
  match getDriver drivers provider with
  | Returned driver => Returned (Driver.ack driver q r)
  | BadRequestException m => BadRequestException m
  end.

Definition subscribe (drivers : registry) (provider q : string)
    (handler : Handler) (options : option Subscribe.SubscribeOptions)
    : completion (Promise Handle) :=
  match getDriver drivers provider with
  | Returned driver => Returned (Driver.subscribe driver q handler options)
  | BadRequestException m => BadRequestException m
  end.

End Facade.

Arguments registry : clear implicits.

End QueueService.

(** ** public/app.js *)

Module App.

(** A message as the page holds it: what [m.id] and [m.receipt] give. *)
Record shown := {
  id : option string;
  receipt : option string;
}.

(** [m.id || m.receipt] *)
Definition key (m : shown) : option string :=
  if Js.truthy_string (id m) then id m else receipt m.

(** The updater that [pollMessages] passes to [setSubscribedMessages]:
    [prev] is what is shown, [pulled] the [list] that was pulled. *)
Definition merge (pulled prev : list shown) : list shown :=
  let existingIds := key <$> prev in
  let newMessages := filter (fun m => key m ∉ existingIds) pulled in
  take 50 (newMessages ++ prev).

End App.

(* ================================================================== *)
(** * Vocabulary of the properties *)

(** ** The in-memory driver *)

Section InMemoryVocabulary.

Context {T : Type}.

Implicit Types (w : InMemory.world T) (msg : InMemory.StoredMessage T).
Implicit Types (o : InMemory.obs T) (e : InMemory.event T).

(** A message that [pull] keeps at time [now]. *)
Definition unexpired (now : Z) msg : Prop := InMemory.is_expired now msg = false.

#[global] Instance unexpired_dec now msg : Decision (unexpired now msg).
Proof. unfold unexpired. apply _. Defined.

(** An observation made on behalf of subscription [sid]: one of its polls
    pulled, its handler was called, or its next poll was scheduled. *)
Definition about (sid : nat) o : Prop :=
  match o with
  | InMemory.ObsPolled s _ | InMemory.ObsHandler s _ | InMemory.ObsScheduled s _ => s = sid
  | _ => False
  end.

Definition inactive (sid : nat) w : Prop :=
  exists s, InMemory.closures w !! sid = Some s /\ InMemory.isActive s = false.

(** No pending timeout runs the [poll] of [sid]. *)
Definition no_timer (sid : nat) w : Prop :=
  forall tid t, InMemory.timers w !! tid = Some t -> InMemory.run t ≠ InMemory.CbPoll sid.

(** No [poll] of [sid] is suspended. *)
Definition no_poll (sid : nat) w : Prop :=
  forall pid k, InMemory.polls w !! pid ≠ Some (sid, k).

(** A subscription that will never poll again: it exists, no timeout is
    pending for it, and it is stopped or has no poll under way. *)
Definition silent (sid : nat) w : Prop :=
  (sid < InMemory.next_sub w)%nat
  /\ no_timer sid w
  /\ (inactive sid w \/ no_poll sid w).

(** Every pending timeout that runs a [poll] is listed under the queue of
    its subscription. *)
Definition timers_listed w : Prop :=
  forall tid t sid,
    InMemory.timers w !! tid = Some t -> InMemory.run t = InMemory.CbPoll sid ->
    exists s, InMemory.closures w !! sid = Some s
      /\ tid ∈ default [] (InMemory.subscriptions w !! InMemory.sub_queue s).

Definition closures_bounded w : Prop :=
  forall sid s, InMemory.closures w !! sid = Some s -> (sid < InMemory.next_sub w)%nat.

Definition sound w : Prop := timers_listed w /\ closures_bounded w.

(** No message of [l] has the id [uid]. *)
Definition others (uid : string) (l : list (InMemory.StoredMessage T)) : Prop :=
  Forall (fun msg => Message.id (InMemory.message msg) ≠ uid) l.

(** An observation that hands no message with the id [uid] to a consumer. *)
Definition clean (uid : string) o : Prop :=
  match o with
  | InMemory.ObsPulled messages | InMemory.ObsPolled _ messages => others uid messages
  | InMemory.ObsHandler _ msg => Message.id (InMemory.message msg) ≠ uid
  | _ => True
  end.

(** An event that is not a [publish] drawing the id [uid] again. *)
Definition other_publish (uid : string) e : Prop :=
  match e with
  | InMemory.EvPublish _ _ _ uuid_id _ => uuid_id ≠ uid
  | _ => True
  end.

(** The messages a suspended poll still holds. *)
Definition poll_messages (k : InMemory.poll_state T) : list (InMemory.StoredMessage T) :=
  match k with
  | InMemory.AwaitPull messages => messages
  | InMemory.AwaitHandler msg rest => msg :: rest
  | InMemory.AwaitAck rest => rest
  end.

(** Until time [D], a message with the id [uid] is nowhere but in delayed
    pushes that are due at [D] or later. *)
Definition hidden (uid : string) (D : Z) w : Prop :=
  (forall q l, InMemory.queues w !! q = Some l -> others uid l)
  /\ (forall pid sid k, InMemory.polls w !! pid = Some (sid, k) ->
        others uid (poll_messages k))
  /\ (forall tid t q msg,
        InMemory.timers w !! tid = Some t -> InMemory.run t = InMemory.CbPush q msg ->
        Message.id (InMemory.message msg) = uid -> D <= InMemory.due t).

(** No message with the id [uid] is in the driver or on its way to it. *)
Definition unknown (uid : string) w : Prop :=
  (forall q l, InMemory.queues w !! q = Some l -> others uid l)
  /\ (forall pid sid k, InMemory.polls w !! pid = Some (sid, k) ->
        others uid (poll_messages k))
  /\ (forall tid t q msg,
        InMemory.timers w !! tid = Some t -> InMemory.run t = InMemory.CbPush q msg ->
        Message.id (InMemory.message msg) ≠ uid).

End InMemoryVocabulary.

(** ** The SQS driver *)

Section SqsVocabulary.

Context {T : Type}.

Implicit Types (w : Sqs.world T) (o : Sqs.obs T).

(** An observation that starts something for subscription [sid]: one of
    its polls starts a pull, its handler is called, or its next poll is
    scheduled. *)
Definition sqs_about (sid : nat) o : Prop :=
  match o with
  | Sqs.ObsPullStarted s | Sqs.ObsHandler s _ | Sqs.ObsScheduled s _ => s = sid
  | _ => False
  end.

Definition sqs_inactive (sid : nat) w : Prop :=
  exists s, Sqs.closures w !! sid = Some s /\ Sqs.isActive s = false.

Definition sqs_no_timer (sid : nat) w : Prop :=
  forall tid due, Sqs.timers w !! tid ≠ Some (due, sid).

Definition sqs_no_poll (sid : nat) w : Prop :=
  forall pid k, Sqs.polls w !! pid ≠ Some (sid, k).

Definition sqs_silent (sid : nat) w : Prop :=
  (sid < Sqs.next_sub w)%nat
  /\ sqs_no_timer sid w
  /\ (sqs_inactive sid w \/ sqs_no_poll sid w).

(** Every pending timeout is the [timeoutId] of its subscription; a
    subscription with a poll under way has no pending timeout and no other
    poll under way; closures and polls belong to subscriptions made. *)
Definition sqs_sound w : Prop :=
  (forall tid due sid, Sqs.timers w !! tid = Some (due, sid) ->
     exists s, Sqs.closures w !! sid = Some s /\ Sqs.timeoutId s = Some tid)
  /\ (forall pid sid k, Sqs.polls w !! pid = Some (sid, k) -> sqs_no_timer sid w)
  /\ (forall pid pid' sid k k',
        Sqs.polls w !! pid = Some (sid, k) -> Sqs.polls w !! pid' = Some (sid, k') ->
        pid = pid')
  /\ (forall sid s, Sqs.closures w !! sid = Some s -> (sid < Sqs.next_sub w)%nat)
  /\ (forall pid sid k, Sqs.polls w !! pid = Some (sid, k) -> (sid < Sqs.next_sub w)%nat).

End SqsVocabulary.

(** The answer of the backend to a lookup of [q] gives no queue URL. *)
Definition lookup_fails {B : Type}
    (client_send : Sqs.Command -> B -> result Sqs.Response * B)
    (q : string) (b : B) : Prop :=
  match (client_send (Sqs.GetQueueUrlCommand q) b).1 with
  | Ok urlRes => Js.truthy_string (Sqs.QueueUrl urlRes) = false
  | Err _ => True
  end.

(** The backend answers every command, and a creation with a queue URL. *)
Definition accepting {B : Type}
    (client_send : Sqs.Command -> B -> result Sqs.Response * B) : Prop :=
  forall cmd b, exists response,
    (client_send cmd b).1 = Ok response
    /\ (Sqs.is_create cmd = true -> Js.truthy_string (Sqs.QueueUrl response) = true).

(** ** The RabbitMQ driver *)

(** Every call into the library succeeds. *)
Definition broker_answers {B : Type} (amqp : RabbitMq.Amqplib B) : Prop :=
  (forall b, exists c, (RabbitMq.connect amqp b).1 = Ok c)
  /\ (forall c b, exists ch, (RabbitMq.createChannel amqp c b).1 = Ok ch)
  /\ (forall ch q b, (RabbitMq.assertQueue amqp ch q b).1 = Ok tt)
  /\ (forall ch tag b, (RabbitMq.channel_ack amqp ch tag b).1 = Ok tt).

(* ================================================================== *)
(** * Stand-ins for the backends and sample runs *)

(** A stand-in for the SQS service: the queues that exist and the receipt
    handles handed out. A lookup of a queue that does not exist and a
    deletion by a receipt handle that was never handed out are rejected. *)
Record fake_sqs := { existing : list string; handed_out : list string }.

Definition fake_send (cmd : Sqs.Command) (b : fake_sqs) : result Sqs.Response * fake_sqs :=
  let url q := Some ("http://sqs/" +:+ q) in
  match cmd with
  | Sqs.GetQueueUrlCommand q =>
      if bool_decide (q ∈ existing b)
      then (Ok {| Sqs.QueueUrl := url q; Sqs.MessageId := None;
                  Sqs.SequenceNumber := None; Sqs.Messages := None |}, b)
      else (Err "NonExistentQueue", b)
  | Sqs.CreateQueueCommand q =>
      (Ok {| Sqs.QueueUrl := url q; Sqs.MessageId := None;
             Sqs.SequenceNumber := None; Sqs.Messages := None |},
       {| existing := q :: existing b; handed_out := handed_out b |})
  | Sqs.ReceiveMessageCommand _ _ _ =>
      (Ok {| Sqs.QueueUrl := None; Sqs.MessageId := None;
             Sqs.SequenceNumber := None; Sqs.Messages := Some [] |}, b)
  | Sqs.SendMessageCommand _ _ _ _ =>
      (Ok {| Sqs.QueueUrl := None; Sqs.MessageId := Some "msg-1";
             Sqs.SequenceNumber := None; Sqs.Messages := None |}, b)
  | Sqs.DeleteMessageCommand _ rh =>
      if bool_decide (rh ∈ handed_out b)
      then (Ok Sqs.empty_response, b)
      else (Err "ReceiptHandleIsInvalid", b)
  end.

Definition fresh_sqs : Sqs.driver fake_sqs :=
  Sqs.new_driver {| existing := []; handed_out := [] |}.

(** A client that resolves every command, as the mocked client of the
    driver's tests does. *)
Definition lenient_send (cmd : Sqs.Command) (b : unit) : result Sqs.Response * unit :=
  (Ok {| Sqs.QueueUrl := Some "http://queue"; Sqs.MessageId := Some "msg-1";
         Sqs.SequenceNumber := None; Sqs.Messages := Some [] |}, b).

(** A broker on which every call succeeds; channels are numbered by the
    broker state. *)
Definition lenient_amqp : RabbitMq.Amqplib nat :=
  {| RabbitMq.connect := fun b => (Ok 0%nat, b);
     RabbitMq.createChannel := fun _ b => (Ok b, S b);
     RabbitMq.assertQueue := fun _ _ b => (Ok tt, b);
     RabbitMq.sendToQueue := fun _ _ _ _ b => (Ok true, b);
     RabbitMq.channel_ack := fun _ _ b => (Ok tt, b) |}.

(** [parseInt] on the receipts used below. *)
Definition parse_receipt (s : string) : option Z :=
  if String.eqb s "7" then Some 7 else None.

(** A registry with one driver whose methods return their arguments. *)
Definition echo_driver : Driver.QueueDriver nat unit nat (fun _ => string) :=
  {| Driver.name := "memory";
     Driver.publish := fun q _ _ => "publish " +:+ q;
     Driver.pull := fun q _ => "pull " +:+ q;
     Driver.ack := fun q r => "ack " +:+ q +:+ " " +:+ r;
     Driver.subscribe := fun q _ _ => "subscribe " +:+ q |}.

(** A queue with three messages, the second of which has expired. *)
Definition three_messages : InMemory.world nat :=
  let ttl1 := Some {| Options.delaySeconds := None; Options.ttlSeconds := Some 1;
                      Options.correlationId := None; Options.attributes := None |} in
  let w1 := (InMemory.publish "jobs" 1%nat None "id-1" "rc-1" InMemory.init).1 in
  let w2 := (InMemory.publish "jobs" 2%nat ttl1 "id-2" "rc-2" w1).1 in
  let w3 := (InMemory.publish "jobs" 3%nat None "id-3" "rc-3" w2).1 in
  InMemory.set_clock 5000 w3.

Definition first_job : InMemory.StoredMessage nat :=
  (InMemory.publish "jobs" 1%nat None "id-1" "rc-1" InMemory.init).2.

Definition manual_ack_subscription : InMemory.subscription :=
  {| InMemory.sub_queue := "jobs"; InMemory.sub_maxMessages := 1;
     InMemory.sub_pollIntervalMs := 1000; InMemory.sub_autoAck := false;
     InMemory.isActive := true |}.

(** A subscription without auto-ack whose handler has been handed the only
    message of its queue. *)
Definition awaiting_handler : InMemory.world nat :=
  match InMemory.exec InMemory.init
          [InMemory.EvPublish "jobs" 1%nat None "id-1" "rc-1";
           InMemory.EvSubscribe "jobs" None;
           InMemory.EvResume 0 Resolved] with
  | Some (w, _) => w
  | None => InMemory.init
  end.


(** A run that leaves the first poll of a subscription suspended, with
    one message pulled. *)
Definition poll_under_way : list (InMemory.event nat) :=
  [InMemory.EvPublish "jobs" 1%nat None "id-1" "rc-1";
   InMemory.EvSubscribe "jobs" None].

(** The pull of that poll has resolved and the handler is at work on the
    message; what happens after an [unsubscribe] at that moment: a publish,
    five seconds, the end of the handler call, a second [unsubscribe]. *)
Definition handler_under_way : list (InMemory.event nat) :=
  poll_under_way ++ [InMemory.EvResume 0 Resolved].

Definition after_unsubscribe : list (InMemory.event nat) :=
  [InMemory.EvPublish "jobs" 2%nat None "id-2" "rc-2";
   InMemory.EvAdvance 5000;
   InMemory.EvResume 0 Resolved;
   InMemory.EvUnsubscribe 0].

(** Subscription 0 polls an empty queue, schedules its next poll and is
    unsubscribed; subscription 1 then subscribes to the same queue, polls
    and schedules its next poll, timeout 1. *)
Definition resubscribed : list (InMemory.event nat) :=
  [InMemory.EvSubscribe "jobs" None;
   InMemory.EvResume 0 Resolved;
   InMemory.EvUnsubscribe 0;
   InMemory.EvSubscribe "jobs" None;
   InMemory.EvResume 1 Resolved].

Definition sqs_poll_under_way : list (Sqs.event nat) :=
  [Sqs.EvSubscribe "jobs" None].

Definition sqs_job : Message.QueueMessage nat :=
  {| Message.id := "m1"; Message.payload := 1%nat; Message.publishedAt := 0;
     Message.expiresAt := None; Message.receipt := "r1";
     Message.attributes := Some ∅; Message.correlationId := None |}.

Definition sqs_after_unsubscribe : list (Sqs.event nat) :=
  [Sqs.EvResume 0 (Sqs.Pulled [sqs_job]); Sqs.EvAdvance 20000; Sqs.EvUnsubscribe 0].

(** Two subscriptions, 0 and 1, on the same empty queue; each has polled
    once and scheduled its next poll. *)
Definition two_subscribers : list (InMemory.event nat) :=
  [InMemory.EvSubscribe "jobs" None;
   InMemory.EvSubscribe "jobs" None;
   InMemory.EvResume 0 Resolved;
   InMemory.EvResume 1 Resolved].

Definition in_five_seconds : option Options.PublishOptions :=
  Some {| Options.delaySeconds := Some 5; Options.ttlSeconds := None;
          Options.correlationId := None; Options.attributes := None |}.

(** A subscription polls twice and a client pulls twice within 4999 ms;
    timeout 0 is the delayed push, timeout 1 the second poll. *)
Definition before_the_delay : list (InMemory.event nat) :=
  [InMemory.EvPull "del" None;
   InMemory.EvSubscribe "del" None;
   InMemory.EvResume 0 Resolved;
   InMemory.EvAdvance 1000;
   InMemory.EvTimer 1;
   InMemory.EvResume 1 Resolved;
   InMemory.EvAdvance 3999;
   InMemory.EvPull "del" (Some 10)].

(** 2147484 s: one second more than the 2^31 - 1 ms of [setTimeout]. *)
Definition in_25_days : option Options.PublishOptions :=
  Some {| Options.delaySeconds := Some 2147484; Options.ttlSeconds := None;
          Options.correlationId := None; Options.attributes := None |}.

(** ** Further vocabulary: the in-memory driver *)

Section InMemoryFurther.

Context {T : Type}.

(** A batch of publishes without options, one after the other: each item
    is a payload with the two UUIDs drawn for it. Returns the messages that
    the publishes returned, in order. *)
Fixpoint publish_all (q : string) (items : list (T * string * string))
    (w : InMemory.world T) : InMemory.world T * list (InMemory.StoredMessage T) :=
  match items with
  | [] => (w, [])
  | (p, uuid_id, uuid_receipt) :: rest =>
      let '(w1, msg) := InMemory.publish q p None uuid_id uuid_receipt w in
      let '(w2, msgs) := publish_all q rest w1 in
      (w2, msg :: msgs)
  end.

End InMemoryFurther.

(** ** Further vocabulary: the in-memory poller *)

Section InMemoryPollerFurther.

Context {T : Type}.

Implicit Types (w : InMemory.world T) (msg : InMemory.StoredMessage T).

(** The resumptions of poll [pid] that one message takes: its handler
    settles with [o], and with auto-ack a resolved handler is followed by
    the ack, which resolves. *)
Definition settle (pid : nat) (autoAck : bool) (o : outcome) : list (InMemory.event T) :=
  match o with
  | Resolved =>
      if autoAck
      then [InMemory.EvResume pid Resolved; InMemory.EvResume pid Resolved]
      else [InMemory.EvResume pid Resolved]
  | Rejected => [InMemory.EvResume pid Rejected]
  end.

(** The resumptions of a whole poll of some messages, the handler settling
    with [outcomes] on them in turn. *)
Definition whole_poll (pid : nat) (autoAck : bool) (outcomes : list outcome)
    : list (InMemory.event T) :=
  InMemory.EvResume pid Resolved :: (outcomes ≫= settle pid autoAck).

(** A subscription has at most one poll under way and at most one timeout
    pending, and none while it polls. *)
Definition one_at_a_time w : Prop :=
  (forall pid sid k, InMemory.polls w !! pid = Some (sid, k) -> no_timer sid w)
  /\ (forall pid pid' sid k k',
        InMemory.polls w !! pid = Some (sid, k) ->
        InMemory.polls w !! pid' = Some (sid, k') -> pid = pid')
  /\ (forall tid tid' t t' sid,
        InMemory.timers w !! tid = Some t -> InMemory.run t = InMemory.CbPoll sid ->
        InMemory.timers w !! tid' = Some t' -> InMemory.run t' = InMemory.CbPoll sid ->
        tid = tid').

(** The messages of a batch on which the handler failed, in the order of
    the batch. *)
Fixpoint failures (messages : list (InMemory.StoredMessage T)) (outcomes : list outcome)
    : list (InMemory.StoredMessage T) :=
  match messages, outcomes with
  | msg :: messages', Rejected :: outcomes' => msg :: failures messages' outcomes'
  | _ :: messages', Resolved :: outcomes' => failures messages' outcomes'
  | _, _ => []
  end.

(** Closures, polls and timeouts belong to subscriptions already made. *)
Definition subscriptions_made w : Prop :=
  closures_bounded w
  /\ (forall pid sid k, InMemory.polls w !! pid = Some (sid, k) ->
        (sid < InMemory.next_sub w)%nat)
  /\ (forall tid t sid,
        InMemory.timers w !! tid = Some t -> InMemory.run t = InMemory.CbPoll sid ->
        (sid < InMemory.next_sub w)%nat).

(** Every message in a queue, held by a poll or waiting in a delayed push
    satisfies [P]. *)
Definition everywhere (P : InMemory.StoredMessage T -> Prop) w : Prop :=
  (forall q l, InMemory.queues w !! q = Some l -> Forall P l)
  /\ (forall pid sid k, InMemory.polls w !! pid = Some (sid, k) ->
        Forall P (poll_messages k))
  /\ (forall tid t q msg,
        InMemory.timers w !! tid = Some t -> InMemory.run t = InMemory.CbPush q msg ->
        P msg).

(** The messages that an observation hands to a consumer satisfy [P]. *)
Definition delivers (P : InMemory.StoredMessage T -> Prop) (o : InMemory.obs T) : Prop :=
  match o with
  | InMemory.ObsPulled messages | InMemory.ObsPolled _ messages => Forall P messages
  | InMemory.ObsHandler _ msg => P msg
  | _ => True
  end.

(** The messages that an observation returns from a pull, by a client or
    by a poll, satisfy [P]. *)
Definition pulls (P : InMemory.StoredMessage T -> Prop) (o : InMemory.obs T) : Prop :=
  match o with
  | InMemory.ObsPulled messages | InMemory.ObsPolled _ messages => Forall P messages
  | _ => True
  end.

End InMemoryPollerFurther.

Definition second_job : InMemory.StoredMessage nat :=
  (InMemory.publish "jobs" 2%nat None "id-2" "rc-2" InMemory.init).2.

Definition two_at_a_time : option Subscribe.SubscribeOptions :=
  Some {| Subscribe.maxMessages := Some 2; Subscribe.pollIntervalMs := None;
          Subscribe.autoAck := None |}.

(** A subscription with [maxMessages = 2] subscribes to a queue of two
    messages: its first poll pulls both, and its handler is called on the
    first. *)
Definition handling_first_of_two : list (InMemory.event nat) :=
  [InMemory.EvPublish "jobs" 1%nat None "id-1" "rc-1";
   InMemory.EvPublish "jobs" 2%nat None "id-2" "rc-2";
   InMemory.EvSubscribe "jobs" two_at_a_time;
   InMemory.EvResume 0 Resolved].

(** The handler fails on both messages; the next poll comes after a
    second, and the handler is called on the first message it pulled. *)
Definition two_failures : list (InMemory.event nat) :=
  handling_first_of_two
  ++ [InMemory.EvResume 0 Rejected;
      InMemory.EvResume 0 Rejected;
      InMemory.EvAdvance 1000;
      InMemory.EvTimer 0;
      InMemory.EvResume 1 Resolved].

(** The subscription is stopped while its handler is at work on the first
    of the two messages. *)
Definition stopped_while_handling : InMemory.world nat :=
  match InMemory.exec InMemory.init
          (handling_first_of_two ++ [InMemory.EvUnsubscribe 0]) with
  | Some (w, _) => w
  | None => InMemory.init
  end.

(** A subscription with [maxMessages = 3] whose first poll has pulled three
    messages. *)
Definition polling_three : InMemory.world nat :=
  match InMemory.exec InMemory.init
          [InMemory.EvPublish "jobs" 1%nat None "id-1" "rc-1";
           InMemory.EvPublish "jobs" 2%nat None "id-2" "rc-2";
           InMemory.EvPublish "jobs" 3%nat None "id-3" "rc-3";
           InMemory.EvSubscribe "jobs"
             (Some {| Subscribe.maxMessages := Some 3; Subscribe.pollIntervalMs := None;
                      Subscribe.autoAck := Some true |})] with
  | Some (w, _) => w
  | None => InMemory.init
  end.

Definition three_jobs : list (InMemory.StoredMessage nat) :=
  (publish_all "jobs" [(1%nat, "id-1", "rc-1"); (2%nat, "id-2", "rc-2");
                       (3%nat, "id-3", "rc-3")] InMemory.init).2.

Definition auto_ack_subscription : InMemory.subscription :=
  {| InMemory.sub_queue := "jobs"; InMemory.sub_maxMessages := 3;
     InMemory.sub_pollIntervalMs := 1000; InMemory.sub_autoAck := true;
     InMemory.isActive := true |}.

(** A command that a [pull] on queue [q] may send: the lookup or the
    creation of [q], or a receive of 1 to 10 messages that waits 1 second. *)
Definition pull_request (q : string) (c : Sqs.Command) : Prop :=
  match c with
  | Sqs.GetQueueUrlCommand q' | Sqs.CreateQueueCommand q' => q' = q
  | Sqs.ReceiveMessageCommand _ n wait => 1 <= n <= 10 /\ wait = 1
  | _ => False
  end.

Definition is_receive (c : Sqs.Command) : bool :=
  match c with Sqs.ReceiveMessageCommand _ _ _ => true | _ => false end.

(** [options] with another [ttlSeconds]. *)
Definition with_ttl (ttl : option Z) (options : Options.PublishOptions)
    : Options.PublishOptions :=
  {| Options.delaySeconds := Options.delaySeconds options;
     Options.ttlSeconds := ttl;
     Options.correlationId := Options.correlationId options;
     Options.attributes := Options.attributes options |}.

(** A backend that is down: every command is rejected. *)
Definition down_send (cmd : Sqs.Command) (b : unit) : result Sqs.Response * unit :=
  (Err "ServiceUnavailable", b).

Section SqsPollerFurther.

Context {T : Type}.

Implicit Types (w : Sqs.world T).

(** The resumptions of poll [pid] that one message takes on the SQS
    driver: its handler settles with [o.1], and with auto-ack a resolved
    handler is followed by the ack, which settles with [o.2]. *)
Definition sqs_settle (pid : nat) (autoAck : bool) (o : outcome * outcome)
    : list (Sqs.event T) :=
  match o.1 with
  | Resolved =>
      if autoAck
      then [Sqs.EvResume pid (Sqs.Done Resolved); Sqs.EvResume pid (Sqs.Done o.2)]
      else [Sqs.EvResume pid (Sqs.Done Resolved)]
  | Rejected => [Sqs.EvResume pid (Sqs.Done Rejected)]
  end.

(** The resumptions of a whole poll whose pull returns [messages]. *)
Definition sqs_whole_poll (pid : nat) (autoAck : bool)
    (messages : list (Message.QueueMessage T)) (outcomes : list (outcome * outcome))
    : list (Sqs.event T) :=
  Sqs.EvResume pid (Sqs.Pulled messages) :: (outcomes ≫= sqs_settle pid autoAck).

(** The acks that the poll starts for a message whose handler settles
    with [o.1]. *)
Definition sqs_acks (sid : nat) (autoAck : bool)
    (m : Message.QueueMessage T) (o : outcome * outcome) : list (Sqs.obs T) :=
  match o.1 with
  | Resolved => if autoAck then [Sqs.ObsAckStarted sid (Message.receipt m)] else []
  | Rejected => []
  end.

(** What is seen of one message of a poll. *)
Definition sqs_seen (sid : nat) (autoAck : bool)
    (mo : Message.QueueMessage T * (outcome * outcome)) : list (Sqs.obs T) :=
  Sqs.ObsHandler sid mo.1 :: sqs_acks sid autoAck mo.1 mo.2.

(** A subscription has at most one poll under way and at most one timeout
    pending, and none while it polls. *)
Definition sqs_one_at_a_time w : Prop :=
  (forall pid sid k, Sqs.polls w !! pid = Some (sid, k) -> sqs_no_timer sid w)
  /\ (forall pid pid' sid k k',
        Sqs.polls w !! pid = Some (sid, k) -> Sqs.polls w !! pid' = Some (sid, k') ->
        pid = pid')
  /\ (forall tid tid' due due' sid,
        Sqs.timers w !! tid = Some (due, sid) -> Sqs.timers w !! tid' = Some (due', sid) ->
        tid = tid').

End SqsPollerFurther.

(** A subscription with auto-ack whose first poll awaits its pull. *)
Definition sqs_polling : Sqs.world nat :=
  match Sqs.exec Sqs.init
          [Sqs.EvSubscribe "jobs"
             (Some {| Subscribe.maxMessages := Some 3; Subscribe.pollIntervalMs := None;
                      Subscribe.autoAck := Some true |})] with
  | Some (w, _) => w
  | None => Sqs.init
  end.

Definition sqs_auto_ack_subscription : Sqs.subscription :=
  {| Sqs.sub_queue := "jobs"; Sqs.sub_maxMessages := 3;
     Sqs.sub_pollIntervalMs := 20000; Sqs.sub_autoAck := true;
     Sqs.subscriptionKey := "jobs-0"; Sqs.isActive := true; Sqs.timeoutId := None |}.

Definition sqs_second_job : Message.QueueMessage nat :=
  {| Message.id := "m2"; Message.payload := 2%nat; Message.publishedAt := 0;
     Message.expiresAt := None; Message.receipt := "r2";
     Message.attributes := Some ∅; Message.correlationId := None |}.

Section SqsTimeoutsFurther.

Context {T : Type}.

Implicit Types (w : Sqs.world T).

(** No two subscriptions hold the same [timeoutId], and every [timeoutId]
    held was returned by a [setTimeout] already made. *)
Definition sqs_timeouts_apart w : Prop :=
  (forall sid sid' s s' tid,
     Sqs.closures w !! sid = Some s -> Sqs.closures w !! sid' = Some s' ->
     Sqs.timeoutId s = Some tid -> Sqs.timeoutId s' = Some tid -> sid = sid')
  /\ (forall sid s tid,
        Sqs.closures w !! sid = Some s -> Sqs.timeoutId s = Some tid ->
        (tid < Sqs.next_timer w)%nat).

End SqsTimeoutsFurther.

(** Two SQS subscriptions on the same queue, each with its next poll
    scheduled, and the state once the first has unsubscribed. *)
Definition sqs_two_subscribers : list (Sqs.event nat) :=
  [Sqs.EvSubscribe "jobs" None;
   Sqs.EvSubscribe "jobs" None;
   Sqs.EvResume 0 (Sqs.Pulled []);
   Sqs.EvResume 1 (Sqs.Pulled [])].

Definition sqs_both_scheduled : Sqs.world nat :=
  match Sqs.exec Sqs.init sqs_two_subscribers with
  | Some (w, _) => w
  | None => Sqs.init
  end.

Definition sqs_first_unsubscribed : Sqs.world nat :=
  default Sqs.init (Sqs.unsubscribe 0 sqs_both_scheduled).

Section InMemoryExpiryFurther.

Context {T : Type}.

Implicit Types (w : InMemory.world T) (msg : InMemory.StoredMessage T).

(** A message with the id [uid] is, wherever the driver holds it, out of
    reach: in a queue it has expired, no poll holds it, and a delayed push
    of it is due no earlier than it expires. *)
Definition dead (uid : string) w : Prop :=
  (forall q l, InMemory.queues w !! q = Some l ->
     Forall (fun msg => Message.id (InMemory.message msg) = uid ->
                        InMemory.is_expired (InMemory.clock w) msg = true) l)
  /\ (forall pid sid k, InMemory.polls w !! pid = Some (sid, k) ->
        others uid (poll_messages k))
  /\ (forall tid t q msg,
        InMemory.timers w !! tid = Some t -> InMemory.run t = InMemory.CbPush q msg ->
        Message.id (InMemory.message msg) = uid ->
        exists x, Message.expiresAt (InMemory.message msg) = Some x
                  /\ x <= InMemory.due t).

End InMemoryExpiryFurther.

(** A message that lives 2 seconds and is delayed by 5. *)
Definition late_and_short : option Options.PublishOptions :=
  Some {| Options.delaySeconds := Some 5; Options.ttlSeconds := Some 2;
          Options.correlationId := None; Options.attributes := None |}.

Definition after_the_delay : list (InMemory.event nat) :=
  [InMemory.EvSubscribe "del" None;
   InMemory.EvAdvance 5000;
   InMemory.EvTimer 0;
   InMemory.EvPull "del" (Some 10);
   InMemory.EvResume 0 Resolved;
   InMemory.EvAdvance 1000;
   InMemory.EvTimer 1;
   InMemory.EvResume 1 Resolved].

(** A queue on the broker that holds deliveries 7 and 8: [get] hands them
    out in turn and then answers that the queue is empty. *)
Definition delivery (tag : Z) : RabbitMq.GetMessage :=
  {| RabbitMq.content := "1"; RabbitMq.deliveryTag := tag;
     RabbitMq.p_messageId := Some "mid"; RabbitMq.p_correlationId := None;
     RabbitMq.p_headers := None; RabbitMq.p_timestamp := None |}.

Definition two_deliveries (ch : nat) (q : string) (b : nat)
    : result (option RabbitMq.GetMessage) * nat :=
  match b with
  | 1%nat => (Ok (Some (delivery 7)), 2%nat)
  | 2%nat => (Ok (Some (delivery 8)), 3%nat)
  | _ => (Ok None, b)
  end.

Definition accepting_nack (ch : nat) (tag : Z) (allUpTo requeue : bool) (b : nat)
    : result unit * nat :=
  (Ok tt, b).

Definition auto_ack_context : RabbitMqConsumer.context :=
  {| RabbitMqConsumer.channel := 0; RabbitMqConsumer.queue := "orders";
     RabbitMqConsumer.autoAck := true |}.

Definition no_ttl : option Options.PublishOptions :=
  Some {| Options.delaySeconds := None; Options.ttlSeconds := Some 0;
          Options.correlationId := None; Options.attributes := None |}.

Definition shown_a : App.shown := {| App.id := Some "a"; App.receipt := Some "r-a" |}.
Definition shown_b : App.shown := {| App.id := Some "b"; App.receipt := Some "r-b" |}.
Definition shown_c : App.shown := {| App.id := None; App.receipt := Some "r-c" |}.

Section InMemoryOnceFurther.

Context {T : Type}.

Implicit Types (w : InMemory.world T) (msg : InMemory.StoredMessage T).

(** How many messages of [l] have the id [uid]. *)
Definition copies (uid : string) (l : list (InMemory.StoredMessage T)) : nat :=
  length (filter (fun msg => Message.id (InMemory.message msg) = uid) l).

(** The messages that an observation returns from a pull, by a client or
    by a poll. *)
Definition pulled_of (o : InMemory.obs T) : list (InMemory.StoredMessage T) :=
  match o with
  | InMemory.ObsPulled messages | InMemory.ObsPolled _ messages => messages
  | _ => []
  end.

(** An event other than the failure of a handler. *)
Definition no_failure (e : InMemory.event T) : Prop :=
  match e with
  | InMemory.EvResume _ Rejected => False
  | _ => True
  end.

(** No queue and no delayed push holds a message with the id [uid]. *)
Definition absent (uid : string) w : Prop :=
  (forall q l, InMemory.queues w !! q = Some l -> others uid l)
  /\ (forall tid t q msg,
        InMemory.timers w !! tid = Some t -> InMemory.run t = InMemory.CbPush q msg ->
        Message.id (InMemory.message msg) ≠ uid).

(** The driver holds at most one message with the id [uid], and that for
    queue [q0]: in that queue, or in one delayed push to it. *)
Definition lone (uid q0 : string) w : Prop :=
  (forall q l, InMemory.queues w !! q = Some l -> q ≠ q0 -> others uid l)
  /\ (copies uid (InMemory.stored_in q0 w) <= 1)%nat
  /\ (forall tid t q msg,
        InMemory.timers w !! tid = Some t -> InMemory.run t = InMemory.CbPush q msg ->
        Message.id (InMemory.message msg) = uid ->
        q = q0
        /\ copies uid (InMemory.stored_in q0 w) = 0%nat
        /\ forall tid' t' q' msg',
             InMemory.timers w !! tid' = Some t' ->
             InMemory.run t' = InMemory.CbPush q' msg' ->
             Message.id (InMemory.message msg') = uid -> tid' = tid).

End InMemoryOnceFurther.

(** Two clients and a subscription compete for one message. *)
Definition competing_consumers : list (InMemory.event nat) :=
  [InMemory.EvSubscribe "jobs" None;
   InMemory.EvPull "jobs" (Some 10);
   InMemory.EvPull "jobs" (Some 10);
   InMemory.EvResume 0 Resolved;
   InMemory.EvResume 0 Resolved;
   InMemory.EvAdvance 1000;
   InMemory.EvTimer 0;
   InMemory.EvResume 1 Resolved].

(* ================================================================== *)
(** * Properties *)

(** ** The in-memory driver: publish, pull, ack *)

Section InMemoryFacts.

Context {T : Type}.

Implicit Types (w : InMemory.world T) (msg : InMemory.StoredMessage T).
Implicit Types (q r : string).

Lemma partition_stored_acc now (l a b : list (InMemory.StoredMessage T)) :
  foldl (fun acc msg =>
           if InMemory.is_expired now msg
           then (acc.1, acc.2 ++ [msg])
           else (acc.1 ++ [msg], acc.2)) (a, b) l
  = (a ++ filter (unexpired now) l,
     b ++ filter (fun msg => ¬ unexpired now msg) l).
Proof.
  revert a b. induction l as [|m l IH]; intros a b; simpl.
  - by rewrite !app_nil_r.
  - destruct (InMemory.is_expired now m) eqn:E; simpl; rewrite IH.
    + rewrite (filter_cons_False (unexpired now)) by (unfold unexpired; congruence).
      rewrite (filter_cons_True (fun x => ¬ unexpired now x))
        by (unfold unexpired; congruence).
      by rewrite <- app_assoc.
    + rewrite (filter_cons_True (unexpired now)) by done.
      rewrite (filter_cons_False (fun x => ¬ unexpired now x))
        by (unfold unexpired; intros H; by apply H).
      by rewrite <- app_assoc.
Qed.

Lemma partition_stored_valid now (l : list (InMemory.StoredMessage T)) :
  (InMemory.partition_stored now l).1 = filter (unexpired now) l.
Proof. unfold InMemory.partition_stored. by rewrite partition_stored_acc. Qed.

(** [pull] in one equation: the unexpired messages, split at [maxMessages]. *)
Lemma pull_eq q maxMessages w :
  let valid := filter (unexpired (InMemory.clock w)) (InMemory.stored_in q w) in
  let k := Z.to_nat (default 1 maxMessages) in
  InMemory.pull q maxMessages w
  = (InMemory.set_queues (<[q := drop k valid]> (InMemory.queues w)) w, take k valid).
Proof.
  simpl. unfold InMemory.pull.
  pose proof (partition_stored_valid (InMemory.clock w) (InMemory.stored_in q w)) as H.
  destruct (InMemory.partition_stored _ _) as [valid expired]. simpl in H.
  by rewrite H.
Qed.

Lemma stored_in_set_queues_eq q l w qs :
  InMemory.stored_in q (InMemory.set_queues (<[q := l]> qs) w) = l.
Proof. unfold InMemory.stored_in. simpl. by rewrite lookup_insert_eq. Qed.

Lemma stored_in_set_queues_ne q q' l w :
  q ≠ q' ->
  InMemory.stored_in q' (InMemory.set_queues (<[q := l]> (InMemory.queues w)) w)
  = InMemory.stored_in q' w.
Proof. intros. unfold InMemory.stored_in. simpl. by rewrite lookup_insert_ne. Qed.

Lemma stored_in_push_eq q msg w :
  InMemory.stored_in q (InMemory.push q msg w) = InMemory.stored_in q w ++ [msg].
Proof. unfold InMemory.push. by rewrite stored_in_set_queues_eq. Qed.

Lemma stored_in_pull q maxMessages w :
  InMemory.stored_in q (InMemory.pull q maxMessages w).1
  = drop (Z.to_nat (default 1 maxMessages))
         (filter (unexpired (InMemory.clock w)) (InMemory.stored_in q w)).
Proof. rewrite pull_eq. simpl. by rewrite stored_in_set_queues_eq. Qed.

Lemma clock_pull q maxMessages w :
  InMemory.clock (InMemory.pull q maxMessages w).1 = InMemory.clock w.
Proof. by rewrite pull_eq. Qed.

(** A date that is not invalid holds the time it was made of. *)
Lemma new_Date_Some t e : Js.new_Date t = Some e -> e = t.
Proof.
  unfold Js.new_Date. destruct (_ && _); [|done]. by intros [= <-].
Qed.

Lemma new_Date_valid t :
  - Js.MAX_TIME <= t <= Js.MAX_TIME -> Js.new_Date t = Some t.
Proof.
  intros [H1 H2]. unfold Js.new_Date.
  apply Z.leb_le in H1, H2. by rewrite H1, H2.
Qed.

(** The delay of a timeout is at least one millisecond. *)
Lemma timeout_pos delay : 1 <= Js.timeout delay.
Proof.
  unfold Js.timeout. destruct (1 <=? delay) eqn:E; simpl; [|lia].
  destruct (delay <=? Js.TIMEOUT_MAX); [|lia]. by apply Z.leb_le.
Qed.

(** A timeout never waits longer than it was asked to, short of 1 ms. *)
Lemma timeout_le delay : 1 <= delay -> Js.timeout delay <= delay.
Proof.
  intros H. unfold Js.timeout. destruct (_ && _); lia.
Qed.

Lemma timeout_in_range delay :
  1 <= delay <= Js.TIMEOUT_MAX -> Js.timeout delay = delay.
Proof.
  intros [H1 H2]. unfold Js.timeout.
  apply Z.leb_le in H1, H2. by rewrite H1, H2.
Qed.

(** C1. On the in-memory driver, a publish without delay into a queue
    that holds nothing, followed at once by a pull with the default
    [maxMessages], returns exactly the published message, whose payload is
    the payload published; the message has then left the queue, and a
    second pull returns nothing. The time to live, if any, is not
    negative. *)
Theorem publish_then_pull_once q (p : T) options uuid_id uuid_receipt w :
  InMemory.stored_in q w = [] ->
  Js.truthy_number (options ≫= Options.delaySeconds) = false ->
  (forall ttl, options ≫= Options.ttlSeconds = Some ttl -> 0 <= ttl) ->
  let published := InMemory.publish q p options uuid_id uuid_receipt w in
  let first := InMemory.pull q None published.1 in
  let second := InMemory.pull q None first.1 in
  first.2 = [published.2]
  /\ Message.payload (InMemory.message published.2) = p
  /\ InMemory.stored_in q first.1 = []
  /\ second.2 = [].
Proof.
  intros Hempty Hdelay Httl. simpl.
  unfold InMemory.publish. rewrite Hdelay. cbn [fst snd].
  set (m := {| InMemory.message := _; InMemory.queue := q |}).
  assert (Hm : unexpired (InMemory.clock (InMemory.push q m w)) m).
  { unfold unexpired, InMemory.is_expired. simpl.
    destruct (options ≫= Options.ttlSeconds) as [ttl|] eqn:E; simpl; [|done].
    destruct (ttl =? 0) eqn:E0; simpl; [done|].
    destruct (Js.new_Date _) as [e|] eqn:Ed; [|done].
    apply new_Date_Some in Ed. subst e.
    specialize (Httl ttl eq_refl). apply Z.leb_gt. apply Z.eqb_neq in E0.
    unfold default, id in *. lia. }
  assert (Hvalid : filter (unexpired (InMemory.clock (InMemory.push q m w)))
                     (InMemory.stored_in q (InMemory.push q m w)) = [m]).
  { rewrite stored_in_push_eq, Hempty. simpl.
    by rewrite filter_cons_True, filter_nil. }
  assert (Hleft : InMemory.stored_in q (InMemory.pull q None (InMemory.push q m w)).1 = []).
  { rewrite stored_in_pull, Hvalid. reflexivity. }
  split; [|split; [|split]].
  - rewrite pull_eq. cbn [snd]. rewrite Hvalid. reflexivity.
  - reflexivity.
  - exact Hleft.
  - rewrite (pull_eq q None (InMemory.pull q None (InMemory.push q m w)).1).
    cbn [snd]. rewrite Hleft. reflexivity.
Qed.

(** What [pull] returns and what it leaves, at time [clock w]. *)
Lemma pull_spec q maxMessages w :
  let pulled := InMemory.pull q maxMessages w in
  (length pulled.2 <= Z.to_nat (default 1%Z maxMessages))%nat
  /\ pulled.2 ++ InMemory.stored_in q pulled.1
     = filter (unexpired (InMemory.clock w)) (InMemory.stored_in q w).
Proof.
  simpl. rewrite stored_in_pull, pull_eq. cbn [snd]. split.
  - rewrite length_take. lia.
  - apply take_drop.
Qed.

(** C3, as amended. For the in-memory driver and every count
    [maxMessages] (1 when none is given), [pull] returns at most that many
    messages, none when the count is 0 or less; the messages returned,
    followed by those left in the queue, are the stored messages that have
    not expired, in their stored order; no returned message has an
    [expiresAt] that the clock has reached; and a stored message is gone
    (neither returned nor kept) exactly when it has an [expiresAt] with
    [expiresAt <= now]. *)
Theorem pull_bounded_ordered_unexpired q maxMessages w :
  let now := InMemory.clock w in
  let pulled := InMemory.pull q maxMessages w in
  (length pulled.2 <= Z.to_nat (default 1%Z maxMessages))%nat
  /\ pulled.2 ++ InMemory.stored_in q pulled.1
     = filter (unexpired now) (InMemory.stored_in q w)
  /\ (forall msg e, msg ∈ pulled.2 ->
        Message.expiresAt (InMemory.message msg) = Some e -> now < e)
  /\ (forall msg, msg ∈ InMemory.stored_in q w ->
        (msg ∉ pulled.2 ++ InMemory.stored_in q pulled.1
         <-> exists e, Message.expiresAt (InMemory.message msg) = Some e /\ e <= now)).
Proof.
  intros now pulled.
  destruct (pull_spec q maxMessages w) as [Hlen Happ].
  fold pulled in Hlen, Happ. fold now in Happ.
  assert (Hun : forall msg, unexpired now msg <->
            ¬ exists e, Message.expiresAt (InMemory.message msg) = Some e /\ e <= now).
  { intros msg. unfold unexpired, InMemory.is_expired.
    destruct (Message.expiresAt (InMemory.message msg)) as [e|].
    - rewrite Z.leb_gt. split.
      + intros Hlt (e' & [= <-] & Hle). lia.
      + intros Hno. destruct (Z.lt_ge_cases now e) as [|Hge]; [done|].
        exfalso. apply Hno. exists e. split; [done | lia].
    - split; [|done]. intros _ (e' & [=] & _). }
  split; [exact Hlen|]. split; [exact Happ|]. split.
  - intros msg e Hin He.
    assert (Hin' : msg ∈ filter (unexpired now) (InMemory.stored_in q w)).
    { rewrite <- Happ. apply elem_of_app. by left. }
    apply list_elem_of_filter in Hin' as [Hu _].
    unfold unexpired, InMemory.is_expired in Hu. rewrite He in Hu.
    by apply Z.leb_gt in Hu.
  - intros msg Hin. rewrite Happ. rewrite list_elem_of_filter. split.
    + intros Hnot. destruct (decide (unexpired now msg)) as [Hu|Hu].
      * exfalso. by apply Hnot.
      * destruct (Message.expiresAt (InMemory.message msg)) as [e|] eqn:E.
        -- exists e. split; [done|]. unfold unexpired, InMemory.is_expired in Hu.
           rewrite E in Hu. apply not_false_is_true in Hu. by apply Z.leb_le in Hu.
        -- exfalso. apply Hu. unfold unexpired, InMemory.is_expired. by rewrite E.
    + intros Hex [Hu _]. by apply Hun in Hu.
Qed.

(** *** Handler failure in the poller *)

Lemma reschedule_queues sid w w1 os :
  InMemory.reschedule sid w = Some (w1, os) ->
  InMemory.queues w1 = InMemory.queues w /\ InMemory.clock w1 = InMemory.clock w.
Proof.
  unfold InMemory.reschedule. intros H.
  destruct (InMemory.closures w !! sid) as [s|]; simpl in H; [|done].
  destruct (InMemory.isActive s); by inversion H.
Qed.

Lemma for_messages_queues pid sid todo w w1 os :
  InMemory.for_messages pid sid todo w = Some (w1, os) ->
  InMemory.queues w1 = InMemory.queues w /\ InMemory.clock w1 = InMemory.clock w.
Proof.
  unfold InMemory.for_messages. intros H.
  destruct (InMemory.closures w !! sid) as [s|]; simpl in H; [|done].
  destruct todo as [|msg rest].
  - by apply reschedule_queues in H.
  - destruct (InMemory.isActive s); simpl in H.
    + by inversion H.
    + by apply reschedule_queues in H.
Qed.

(** [for_messages] never gets stuck on a poll whose closure exists. *)
Lemma for_messages_total pid sid todo w s :
  InMemory.closures w !! sid = Some s ->
  exists w1 os, InMemory.for_messages pid sid todo w = Some (w1, os).
Proof.
  intros Hs. unfold InMemory.for_messages. rewrite Hs. simpl.
  assert (Hr : exists w1 os,
             InMemory.reschedule sid
               (InMemory.set_polls (delete pid (InMemory.polls w)) w) = Some (w1, os)).
  { unfold InMemory.reschedule. simpl. rewrite Hs. simpl.
    destruct (InMemory.isActive s); eauto. }
  destruct todo as [|msg rest]; [exact Hr|].
  destruct (InMemory.isActive s); simpl; eauto.
Qed.

Lemma exec_app (es1 es2 : list (InMemory.event T)) w :
  InMemory.exec w (es1 ++ es2)
  = '(w1, os1) ← InMemory.exec w es1;
    '(w2, os2) ← InMemory.exec w1 es2;
    Some (w2, os1 ++ os2).
Proof.
  revert w. induction es1 as [|e es1 IH]; intros w; simpl.
  - destruct (InMemory.exec w es2) as [[w2 os2]|]; reflexivity.
  - destruct (InMemory.step w e) as [[w1 os1]|]; simpl; [|done].
    rewrite IH. destruct (InMemory.exec w1 es1) as [[w2 os2]|]; simpl; [|done].
    destruct (InMemory.exec w2 es2) as [[w3 os3]|]; simpl; [|done].
    by rewrite app_assoc.
Qed.

(** The loop of an active subscription, from its head. *)
Lemma for_messages_active pid sid s todo w :
  InMemory.closures w !! sid = Some s -> InMemory.isActive s = true ->
  exists w1,
    InMemory.for_messages pid sid todo w
    = Some (w1, match todo with
                | [] => [InMemory.ObsScheduled sid (InMemory.next_timer w)]
                | msg :: _ => [InMemory.ObsHandler sid msg]
                end)
    /\ match todo with
       | [] => True
       | msg :: rest =>
           InMemory.closures w1 = InMemory.closures w
           /\ InMemory.next_timer w1 = InMemory.next_timer w
           /\ InMemory.polls w1 !! pid = Some (sid, InMemory.AwaitHandler msg rest)
       end.
Proof.
  intros Hs Hact. unfold InMemory.for_messages. rewrite Hs. simpl.
  destruct todo as [|msg rest].
  - unfold InMemory.reschedule. simpl. rewrite Hs. simpl. rewrite Hact.
    eexists. split; [reflexivity | done].
  - rewrite Hact. simpl. eexists. split; [reflexivity|].
    split; [done|]. split; [done|]. simpl. by rewrite lookup_insert_eq.
Qed.

(** The rest of a batch without auto-ack, from the head of the loop: the
    handler is called on each message in turn, the failures are put back,
    each in front of the one before, and the next poll is scheduled. *)
Lemma manual_loop pid sid s :
  InMemory.isActive s = true -> InMemory.sub_autoAck s = false ->
  forall todo outcomes w,
    InMemory.closures w !! sid = Some s ->
    length outcomes = length todo ->
    exists w1 os1 w2 os2,
      InMemory.for_messages pid sid todo w = Some (w1, os1)
      /\ InMemory.exec w1 (outcomes ≫= settle pid false) = Some (w2, os2)
      /\ os1 ++ os2
         = (InMemory.ObsHandler sid <$> todo)
           ++ [InMemory.ObsScheduled sid (InMemory.next_timer w)]
      /\ InMemory.stored_in (InMemory.sub_queue s) w2
         = rev (failures todo outcomes) ++ InMemory.stored_in (InMemory.sub_queue s) w
      /\ InMemory.closures w2 = InMemory.closures w
      /\ InMemory.clock w2 = InMemory.clock w
      /\ InMemory.next_poll w2 = InMemory.next_poll w
      /\ InMemory.timers w2 !! InMemory.next_timer w
         = Some {| InMemory.due :=
                     InMemory.clock w + Js.timeout (InMemory.sub_pollIntervalMs s);
                   InMemory.run := InMemory.CbPoll sid |}
      /\ InMemory.next_timer w2 = S (InMemory.next_timer w).
Proof.
  intros Hact Hauto todo.
  induction todo as [|msg todo IH]; intros outcomes w Hs Hlen.
  - destruct outcomes; [|done].
    unfold InMemory.for_messages. rewrite Hs. cbn [mbind option_bind].
    unfold InMemory.reschedule. cbn [InMemory.closures InMemory.set_polls].
    rewrite Hs. cbn [mbind option_bind]. rewrite Hact.
    cbn [InMemory.setTimeout].
    eexists _, _, _, _. split; [reflexivity|]. split; [reflexivity|].
    split; [reflexivity|]. split; [reflexivity|]. split; [reflexivity|].
    split; [reflexivity|]. split; [reflexivity|].
    split; [|reflexivity]. simpl. by rewrite lookup_insert_eq.
  - destruct outcomes as [|o outcomes]; [done|]. simpl in Hlen.
    pose (w1 := InMemory.set_polls
                  (<[pid := (sid, InMemory.AwaitHandler msg todo)]> (InMemory.polls w)) w).
    assert (Hf : InMemory.for_messages pid sid (msg :: todo) w
                 = Some (w1, [InMemory.ObsHandler sid msg])).
    { unfold InMemory.for_messages. rewrite Hs. cbn [mbind option_bind].
      by rewrite Hact. }
    pose (w' := match o with
                | Resolved => w1
                | Rejected => InMemory.on_handler_error s msg w1
                end).
    assert (Hres : InMemory.resume pid o w1 = InMemory.for_messages pid sid todo w').
    { assert (Hp1 : InMemory.polls w1 !! pid = Some (sid, InMemory.AwaitHandler msg todo))
        by apply lookup_insert_eq.
      assert (Hs1 : InMemory.closures w1 !! sid = Some s) by exact Hs.
      unfold InMemory.resume. rewrite Hp1. cbn [mbind option_bind]. rewrite Hs1.
      cbn [mbind option_bind]. subst w'. destruct o; [by rewrite Hauto | done]. }
    assert (Hs' : InMemory.closures w' !! sid = Some s).
    { subst w'. destruct o; [exact Hs|].
      unfold InMemory.on_handler_error. by destruct (negb _). }
    assert (Hframe : InMemory.clock w' = InMemory.clock w
                     /\ InMemory.next_poll w' = InMemory.next_poll w
                     /\ InMemory.next_timer w' = InMemory.next_timer w
                     /\ InMemory.closures w' = InMemory.closures w).
    { subst w'. destruct o; [done|].
      unfold InMemory.on_handler_error. by destruct (negb _). }
    destruct Hframe as (Hck' & Hnp' & Hnt' & Hc').
    assert (Hq' : InMemory.stored_in (InMemory.sub_queue s) w'
                  = match o with
                    | Resolved => InMemory.stored_in (InMemory.sub_queue s) w
                    | Rejected => msg :: InMemory.stored_in (InMemory.sub_queue s) w
                    end).
    { subst w'. destruct o; [done|].
      unfold InMemory.on_handler_error. rewrite Hauto. cbn [negb].
      by rewrite stored_in_set_queues_eq. }
    destruct (IH outcomes w' Hs' ltac:(lia))
      as (wa & osa & w2 & os2 & Hfa & Hea & Hos & Hst & Hc & Hck & Hnp & Ht & Hnt).
    exists w1, [InMemory.ObsHandler sid msg], w2, (osa ++ os2).
    split; [exact Hf|]. split.
    { rewrite bind_cons.
      assert (Hone : settle pid false o = [InMemory.EvResume (T:=T) pid o])
        by (by destruct o).
      rewrite Hone. cbn [app InMemory.exec InMemory.step].
      rewrite Hres, Hfa. cbn [mbind option_bind]. rewrite Hea. reflexivity. }
    split.
    { rewrite Hos, Hnt'. reflexivity. }
    split.
    { rewrite Hst, Hq'. destruct o; [reflexivity|].
      cbn [failures rev]. by rewrite <- app_assoc. }
    split; [congruence|]. split; [congruence|]. split; [congruence|].
    split; [|congruence]. rewrite <- Hnt', <- Hck'. exact Ht.
Qed.

(** A poll cycle of an active subscription whose timeout is due when the
    clock has gone on by [ms]: the timeout runs the poll, which pulls, and
    the handler is called on the first message pulled, or the next poll is
    scheduled if none was. *)
Lemma poll_cycle sid s tid d ms w :
  InMemory.closures w !! sid = Some s ->
  InMemory.isActive s = true ->
  InMemory.timers w !! tid = Some {| InMemory.due := d; InMemory.run := InMemory.CbPoll sid |} ->
  0 <= ms -> d <= InMemory.clock w + ms ->
  let batch := take (Z.to_nat (InMemory.sub_maxMessages s))
                 (filter (unexpired (InMemory.clock w + ms))
                    (InMemory.stored_in (InMemory.sub_queue s) w)) in
  exists w1,
    InMemory.exec w [InMemory.EvAdvance ms; InMemory.EvTimer tid;
                     InMemory.EvResume (InMemory.next_poll w) Resolved]
    = Some (w1, InMemory.ObsPolled sid batch
                :: match batch with
                   | [] => [InMemory.ObsScheduled sid (InMemory.next_timer w)]
                   | first :: _ => [InMemory.ObsHandler sid first]
                   end).
Proof.
  intros Hs Hact Ht Hms Hdue batch.
  assert (H0 : (0 <=? ms) = true) by by apply Z.leb_le.
  assert (Hd : (d <=? InMemory.clock w + ms) = true) by by apply Z.leb_le.
  pose (wa := InMemory.set_clock (InMemory.clock w + ms) w).
  pose (wb := InMemory.set_timers (delete tid (InMemory.timers wa)) wa).
  pose (wc := (InMemory.pull (InMemory.sub_queue s) (Some (InMemory.sub_maxMessages s)) wb).1).
  pose (wd := {| InMemory.clock := InMemory.clock wc; InMemory.queues := InMemory.queues wc;
                 InMemory.subscriptions := InMemory.subscriptions wc;
                 InMemory.timers := InMemory.timers wc;
                 InMemory.next_timer := InMemory.next_timer wc;
                 InMemory.closures := InMemory.closures wc;
                 InMemory.next_sub := InMemory.next_sub wc;
                 InMemory.polls := <[InMemory.next_poll wc :=
                                       (sid, InMemory.AwaitPull batch)]> (InMemory.polls wc);
                 InMemory.next_poll := S (InMemory.next_poll wc) |}).
  assert (Hfire : InMemory.fire tid wa = Some (wd, [InMemory.ObsPolled sid batch])).
  { unfold InMemory.fire.
    assert (Hta : InMemory.timers wa !! tid
                  = Some {| InMemory.due := d; InMemory.run := InMemory.CbPoll sid |})
      by exact Ht.
    rewrite Hta. cbn [mbind option_bind InMemory.due InMemory.run].
    assert (Hca : InMemory.clock wa = InMemory.clock w + ms) by reflexivity.
    rewrite Hca, Hd. fold wb.
    unfold InMemory.poll.
    assert (Hsb : InMemory.closures wb !! sid = Some s) by exact Hs.
    rewrite Hsb. cbn [mbind option_bind]. rewrite Hact. cbn [negb].
    subst wd wc. rewrite pull_eq. reflexivity. }
  assert (Hcd : InMemory.closures wd !! sid = Some s).
  { subst wd wc. rewrite pull_eq. exact Hs. }
  assert (Hpd : InMemory.polls wd !! InMemory.next_poll w
                = Some (sid, InMemory.AwaitPull batch)).
  { subst wd wc. rewrite pull_eq. cbn. apply lookup_insert_eq. }
  assert (Hnd : InMemory.next_timer wd = InMemory.next_timer w).
  { subst wd wc. by rewrite pull_eq. }
  destruct (for_messages_active (InMemory.next_poll w) sid s batch wd Hcd Hact)
    as (w1 & Hf & _).
  exists w1. cbn [InMemory.exec InMemory.step]. rewrite H0. cbn [mbind option_bind].
  fold wa. rewrite Hfire. cbn [mbind option_bind].
  unfold InMemory.resume. rewrite Hpd. cbn [mbind option_bind]. rewrite Hcd.
  cbn [mbind option_bind]. rewrite Hf, Hnd. cbn [mbind option_bind app].
  by rewrite app_nil_r.
Qed.

(** C4. On the in-memory driver, when the handler of a subscription with
    [autoAck = false] fails on a delivered message, the poller puts that
    message back at the head of the queue at once. If the subscription is
    active, the loop then goes on with the rest of the batch, and a later
    failure is put back in front of an earlier one: when the batch is over
    the failures are at the head of the queue, the last first, and the
    next poll is scheduled. If nothing else happens to the driver until
    that timeout is due, the next poll pulls the first [maxMessages]
    messages of the queue that have not expired by then, and the handler
    is called on the first of them. *)
Theorem failed_delivery_requeued_at_head pid sid s msg rest w :
  InMemory.polls w !! pid = Some (sid, InMemory.AwaitHandler msg rest) ->
  InMemory.closures w !! sid = Some s ->
  InMemory.sub_autoAck s = false ->
  let q := InMemory.sub_queue s in
  (exists w1 os,
     InMemory.resume pid Rejected w = Some (w1, os)
     /\ InMemory.stored_in q w1 = msg :: InMemory.stored_in q w)
  /\ (InMemory.isActive s = true ->
      forall outcomes ms,
        length outcomes = length rest ->
        Js.timeout (InMemory.sub_pollIntervalMs s) <= ms ->
        let back := rev (failures (msg :: rest) (Rejected :: outcomes))
                    ++ InMemory.stored_in q w in
        let batch := take (Z.to_nat (InMemory.sub_maxMessages s))
                       (filter (unexpired (InMemory.clock w + ms)) back) in
        exists w2 w3,
          InMemory.exec w ((Rejected :: outcomes) ≫= settle pid false)
          = Some (w2, (InMemory.ObsHandler sid <$> rest)
                      ++ [InMemory.ObsScheduled sid (InMemory.next_timer w)])
          /\ InMemory.stored_in q w2 = back
          /\ InMemory.exec w2 [InMemory.EvAdvance ms;
                               InMemory.EvTimer (InMemory.next_timer w);
                               InMemory.EvResume (InMemory.next_poll w) Resolved]
             = Some (w3, InMemory.ObsPolled sid batch
                         :: match batch with
                            | [] => [InMemory.ObsScheduled sid
                                       (S (InMemory.next_timer w))]
                            | first :: _ => [InMemory.ObsHandler sid first]
                            end)).
Proof.
  intros Hp Hs Hauto q.
  pose (w' := InMemory.on_handler_error s msg w).
  assert (Hres : InMemory.resume pid Rejected w = InMemory.for_messages pid sid rest w').
  { unfold InMemory.resume. rewrite Hp. cbn [mbind option_bind]. rewrite Hs.
    reflexivity. }
  assert (Hs' : InMemory.closures w' !! sid = Some s).
  { subst w'. unfold InMemory.on_handler_error. by destruct (negb _). }
  assert (Hq' : InMemory.stored_in q w' = msg :: InMemory.stored_in q w).
  { subst w' q. unfold InMemory.on_handler_error. rewrite Hauto. cbn [negb].
    by rewrite stored_in_set_queues_eq. }
  assert (Hframe : InMemory.clock w' = InMemory.clock w
                   /\ InMemory.next_poll w' = InMemory.next_poll w
                   /\ InMemory.next_timer w' = InMemory.next_timer w).
  { subst w'. unfold InMemory.on_handler_error. by destruct (negb _). }
  destruct Hframe as (Hck' & Hnp' & Hnt').
  split.
  - destruct (for_messages_total pid sid rest w' s Hs') as (w1 & os & Hf).
    exists w1, os. split; [by rewrite Hres|].
    apply for_messages_queues in Hf as [Hqs _].
    unfold InMemory.stored_in at 1. rewrite Hqs. exact Hq'.
  - intros Hact outcomes ms Hlen Hms back batch.
    destruct (manual_loop pid sid s Hact Hauto rest outcomes w' Hs' Hlen)
      as (w1 & os1 & w2 & os2 & Hf & He & Hos & Hst & Hc & Hck & Hnp & Ht & Hnt).
    assert (Hback : InMemory.stored_in q w2 = back).
    { subst back q. rewrite Hst, Hq'. cbn [failures rev]. by rewrite <- app_assoc. }
    assert (Hs2 : InMemory.closures w2 !! sid = Some s) by (by rewrite Hc).
    rewrite Hnt', Hck' in Ht.
    pose proof (timeout_pos (InMemory.sub_pollIntervalMs s)) as Hpos.
    destruct (poll_cycle sid s (InMemory.next_timer w) _ ms w2 Hs2 Hact Ht
                ltac:(lia) ltac:(lia)) as (w3 & He3).
    exists w2, w3. split; [|split; [exact Hback|]].
    + rewrite bind_cons. cbn [settle app InMemory.exec InMemory.step].
      rewrite Hres, Hf. cbn [mbind option_bind]. rewrite He. cbn [mbind option_bind].
      rewrite Hos, Hnt'. reflexivity.
    + rewrite Hnp, Hnp', Hck, Hck', Hnt, Hnt' in He3.
      fold q in He3. rewrite Hback in He3. exact He3.
Qed.

End InMemoryFacts.

Lemma publish_then_pull_once_witness :
  let published := InMemory.publish "test-queue" 7%nat None "id-1" "rc-1" InMemory.init in
  let first := InMemory.pull "test-queue" None published.1 in
  let second := InMemory.pull "test-queue" None first.1 in
  first.2 = [published.2]
  /\ Message.payload (InMemory.message published.2) = 7%nat
  /\ InMemory.stored_in "test-queue" first.1 = []
  /\ second.2 = [].
Proof.
  apply (publish_then_pull_once "test-queue" 7%nat None "id-1" "rc-1" InMemory.init).
  - reflexivity.
  - reflexivity.
  - intros ttl H. discriminate H.
Defined.

Example three_messages_pull :
  Message.payload <$> (InMemory.message <$> (InMemory.pull "jobs" (Some 2) three_messages).2)
  = [1%nat; 3%nat].
Proof. vm_compute. reflexivity. Qed.

(** C3, the claim as stated fails: a message whose [expiresAt] is 1000 is
    dropped by a pull at time 1000, although [now > expiresAt] does not
    hold. *)
Lemma pull_at_expiry_instant_counterexample :
  let ttl1 := Some {| Options.delaySeconds := None; Options.ttlSeconds := Some 1;
                      Options.correlationId := None; Options.attributes := None |} in
  let published := InMemory.publish "q" 7%nat ttl1 "id" "rc" InMemory.init in
  let w := InMemory.set_clock 1000 published.1 in
  let pulled := InMemory.pull "q" (Some 1) w in
  InMemory.stored_in "q" w = [published.2]
  /\ Message.expiresAt (InMemory.message published.2) = Some 1000
  /\ ¬ (InMemory.clock w > 1000)
  /\ pulled.2 = []
  /\ InMemory.stored_in "q" pulled.1 = [].
Proof.
  vm_compute. repeat split; try reflexivity. intros H; discriminate H.
Qed.

Lemma failed_delivery_requeued_at_head_witness :
  (exists w1 os,
     InMemory.resume 0 Rejected awaiting_handler = Some (w1, os)
     /\ InMemory.stored_in "jobs" w1 = [first_job])
  /\ exists w2 w3,
       InMemory.exec awaiting_handler [InMemory.EvResume 0 Rejected]
       = Some (w2, [InMemory.ObsScheduled 0 0])
       /\ InMemory.stored_in "jobs" w2 = [first_job]
       /\ InMemory.exec w2 [InMemory.EvAdvance 1000; InMemory.EvTimer 0;
                            InMemory.EvResume 1 Resolved]
          = Some (w3, [InMemory.ObsPolled 0 [first_job];
                       InMemory.ObsHandler 0 first_job]).
Proof.
  destruct (failed_delivery_requeued_at_head 0 0 manual_ack_subscription first_job []
              awaiting_handler) as [Hback Hnext].
  - vm_compute. reflexivity.
  - vm_compute. reflexivity.
  - reflexivity.
  - split; [exact Hback|].
    apply (Hnext eq_refl [] 1000); [reflexivity | vm_compute; discriminate].
Defined.

(** C4, the claim as stated fails: the handler fails on the first message
    of a batch of two, which is put back at the head of the queue, and
    then on the second, which is put back in front of it; the next poll
    pulls the second before the first, and the handler is called on the
    second. *)
Lemma failed_delivery_not_redelivered_first_counterexample :
  snd <$> InMemory.exec InMemory.init two_failures
  = Some [InMemory.ObsPublished first_job;
          InMemory.ObsPublished second_job;
          InMemory.ObsPolled 0 [first_job; second_job];
          InMemory.ObsSubscribed 0;
          InMemory.ObsHandler 0 first_job;
          InMemory.ObsHandler 0 second_job;
          InMemory.ObsScheduled 0 0;
          InMemory.ObsPolled 0 [second_job; first_job];
          InMemory.ObsHandler 0 second_job].
Proof. vm_compute. reflexivity. Qed.

(** ** The facade *)

Section FacadeFacts.

Context {T Handler Handle : Type} {Promise : Type -> Type}.

Implicit Types (drivers : QueueService.registry T Handler Handle Promise).

Lemma get_None drivers provider :
  QueueService.get drivers provider = None
  <-> provider ∉ QueueService.getAvailableProviders drivers.
Proof.
  unfold QueueService.getAvailableProviders.
  induction drivers as [|[k d] rest IH]; simpl.
  - split; [intros _; apply not_elem_of_nil | done].
  - rewrite not_elem_of_cons. destruct (String.eqb_spec k provider) as [->|Hne].
    + split; [done | intros [Hneq _]; done].
    + rewrite IH. split; [intros H; split; [congruence | done] | intros [_ H]; done].
Qed.

Lemma get_Some drivers provider driver :
  QueueService.get drivers provider = Some driver -> (provider, driver) ∈ drivers.
Proof.
  induction drivers as [|[k d] rest IH]; simpl; [done|].
  destruct (String.eqb_spec k provider) as [->|Hne].
  - intros [= ->]. apply list_elem_of_here.
  - intros H. apply list_elem_of_further. by apply IH.
Qed.

(** C5. For a provider name that is not configured, each of the four
    operations of the facade throws a [BadRequestException] at once and
    calls no driver; for a configured name, each returns, unchanged, what
    the method of that provider's driver returns for the same arguments. *)
Theorem facade_resolves_provider drivers provider :
  (provider ∉ QueueService.getAvailableProviders drivers ->
     exists m,
       (forall q p options,
          QueueService.publish drivers provider q p options
          = QueueService.BadRequestException m)
       /\ (forall q k,
             QueueService.pull drivers provider q k = QueueService.BadRequestException m)
       /\ (forall q r,
             QueueService.ack drivers provider q r = QueueService.BadRequestException m)
       /\ (forall q h options,
             QueueService.subscribe drivers provider q h options
             = QueueService.BadRequestException m))
  /\ (provider ∈ QueueService.getAvailableProviders drivers ->
        exists driver,
          (provider, driver) ∈ drivers
          /\ (forall q p options,
                QueueService.publish drivers provider q p options
                = QueueService.Returned (Driver.publish driver q p options))
          /\ (forall q k,
                QueueService.pull drivers provider q k
                = QueueService.Returned (Driver.pull driver q k))
          /\ (forall q r,
                QueueService.ack drivers provider q r
                = QueueService.Returned (Driver.ack driver q r))
          /\ (forall q h options,
                QueueService.subscribe drivers provider q h options
                = QueueService.Returned (Driver.subscribe driver q h options))).
Proof.
  split.
  - intros Hnot. apply get_None in Hnot. eexists.
    unfold QueueService.publish, QueueService.pull, QueueService.ack,
      QueueService.subscribe, QueueService.getDriver.
    rewrite Hnot. repeat split.
  - intros Hin.
    destruct (QueueService.get drivers provider) as [driver|] eqn:E.
    + exists driver. split; [by apply get_Some|].
      unfold QueueService.publish, QueueService.pull, QueueService.ack,
        QueueService.subscribe, QueueService.getDriver.
      rewrite E. repeat split.
    + apply get_None in E. done.
Qed.

End FacadeFacts.

Lemma facade_resolves_provider_witness :
  (exists m, forall q p options,
      QueueService.publish [("memory", echo_driver)] "bad" q p options
      = QueueService.BadRequestException m)
  /\ (exists driver : Driver.QueueDriver nat unit nat (fun _ => string), forall q r,
        QueueService.ack [("memory", echo_driver)] "memory" q r
        = QueueService.Returned (Driver.ack driver q r)).
Proof.
  split.
  - destruct (proj1 (facade_resolves_provider [("memory", echo_driver)] "bad"))
      as (m & Hpub & _).
    + vm_compute. intros H. inversion H; subst.
      match goal with H' : _ ∈ [] |- _ => inversion H' end.
    + exists m. exact Hpub.
  - destruct (proj2 (facade_resolves_provider [("memory", echo_driver)] "memory"))
      as (driver & _ & _ & _ & Hack & _).
    + vm_compute. apply list_elem_of_here.
    + exists driver. exact Hack.
Defined.

Example facade_unknown_provider :
  QueueService.publish [("memory", echo_driver)] "bad" "q" 1%nat None
  = QueueService.BadRequestException
      "Invalid queue provider: bad. Available providers: memory".
Proof. reflexivity. Qed.

(** ** The SQS driver: queue resolution and ack *)

Section SqsFacts.

Context {B : Type}.
Variable client_send : Sqs.Command -> B -> result Sqs.Response * B.

Implicit Types (d : Sqs.driver B) (q r : string).

(** What [ensureQueue] sends: nothing on a cache hit, else a lookup, and
    a creation when the lookup gives no URL. It never overwrites the log. *)
Lemma ensureQueue_sent q d :
  exists cmds,
    Sqs.sent (Sqs.ensureQueue client_send q d).2 = Sqs.sent d ++ cmds
    /\ Forall (fun c => Sqs.is_delete c = false) cmds
    /\ (Sqs.queueUrlCache d !! q = None -> lookup_fails client_send q (Sqs.backend d) ->
        cmds = [Sqs.GetQueueUrlCommand q; Sqs.CreateQueueCommand q]).
Proof.
  unfold Sqs.ensureQueue, lookup_fails.
  destruct (Sqs.queueUrlCache d !! q) as [url|] eqn:Ec.
  - exists []. simpl. rewrite app_nil_r.
    split; [done|]. split; [constructor | done].
  - unfold Eff.bind, Eff.try_catch, Sqs.send, Sqs.cache_set, Eff.ret, Eff.throw,
      Js.truthy_string.
    cbn [Sqs.backend Sqs.sent Sqs.queueUrlCache fst snd].
    destruct (client_send (Sqs.GetQueueUrlCommand q) (Sqs.backend d))
      as [[urlRes|e] b1] eqn:Eg; cbn;
      [ destruct (Sqs.QueueUrl urlRes) as [u|] eqn:Eu; cbn;
        [ destruct (String.eqb u "") eqn:Ee; cbn | ] | ];
      try (destruct (client_send (Sqs.CreateQueueCommand q) b1)
             as [[createRes|e'] b2] eqn:Ecr; cbn;
           [ destruct (Sqs.QueueUrl createRes) as [u'|] eqn:Eu'; cbn;
             [ destruct (String.eqb u' "") eqn:Ee'; cbn | ] | ]);
      eexists; (split; [rewrite <- ?app_assoc; reflexivity|]);
      (split; [by repeat constructor|]);
      intros _ Hf; try reflexivity; simpl in Hf; congruence.
Qed.

(** C10. On the SQS driver, [ack] with the empty receipt leaves the driver
    and the backend exactly as the resolution of the queue URL leaves them:
    it sends no [DeleteMessageCommand], and when the URL is not cached and
    the lookup gives none, it has sent a [CreateQueueCommand] for the
    queue. *)
Theorem sqs_ack_empty_receipt q d :
  let acked := Sqs.ack client_send q "" d in
  acked.2 = (Sqs.ensureQueue client_send q d).2
  /\ is_ok acked.1 = is_ok (Sqs.ensureQueue client_send q d).1
  /\ exists cmds,
       Sqs.sent acked.2 = Sqs.sent d ++ cmds
       /\ Forall (fun c => Sqs.is_delete c = false) cmds
       /\ (Sqs.queueUrlCache d !! q = None -> lookup_fails client_send q (Sqs.backend d) ->
           cmds = [Sqs.GetQueueUrlCommand q; Sqs.CreateQueueCommand q]).
Proof.
  simpl.
  assert (Hst : (Sqs.ack client_send q "" d).2 = (Sqs.ensureQueue client_send q d).2
                /\ is_ok (Sqs.ack client_send q "" d).1
                   = is_ok (Sqs.ensureQueue client_send q d).1).
  { unfold Sqs.ack, Eff.bind.
    destruct (Sqs.ensureQueue client_send q d) as [[url|e] d1]; done. }
  destruct Hst as [Hst Hok]. split; [exact Hst|]. split; [exact Hok|].
  rewrite Hst. apply ensureQueue_sent.
Qed.

(** With a backend that answers, [ensureQueue] returns a URL. *)
Lemma ensureQueue_accepting q d :
  accepting client_send -> exists url d1, Sqs.ensureQueue client_send q d = (Ok url, d1).
Proof.
  intros Hacc. unfold Sqs.ensureQueue.
  destruct (Sqs.queueUrlCache d !! q) as [url|]; [by eauto|].
  unfold Eff.bind, Eff.try_catch, Sqs.send, Sqs.cache_set, Eff.ret, Eff.throw.
  cbn [Sqs.backend Sqs.sent Sqs.queueUrlCache].
  destruct (Hacc (Sqs.GetQueueUrlCommand q) (Sqs.backend d)) as (urlRes & Hg & _).
  destruct (client_send (Sqs.GetQueueUrlCommand q) (Sqs.backend d)) as [r1 b1].
  simpl in Hg. subst r1.
  destruct (Js.truthy_string (Sqs.QueueUrl urlRes)) eqn:Et; cbn.
  - destruct (Sqs.QueueUrl urlRes) as [u|]; [by eauto | done].
  - destruct (Hacc (Sqs.CreateQueueCommand q) b1) as (createRes & Hc & Hurl).
    destruct (client_send (Sqs.CreateQueueCommand q) b1) as [r2 b2].
    simpl in Hc. subst r2. rewrite (Hurl eq_refl). cbn. eauto.
Qed.

(** With a backend that answers, [ack] completes for any receipt. *)
Lemma sqs_ack_accepting q r d :
  accepting client_send -> exists d1, Sqs.ack client_send q r d = (Ok tt, d1).
Proof.
  intros Hacc. unfold Sqs.ack, Eff.bind.
  destruct (ensureQueue_accepting q d Hacc) as (url & d1 & ->).
  destruct (String.eqb r ""); [by eauto|].
  unfold Sqs.send, Eff.ret.
  destruct (Hacc (Sqs.DeleteMessageCommand url r) (Sqs.backend d1)) as (resp & Hd & _).
  destruct (client_send (Sqs.DeleteMessageCommand url r) (Sqs.backend d1)) as [r1 b1].
  simpl in Hd. subst r1. eauto.
Qed.

(** With the URL cached, [ack] of a non-empty receipt gives its caller the
    error of the backend, if any. *)
Lemma sqs_ack_surfaces q r url d :
  Sqs.queueUrlCache d !! q = Some url -> r ≠ "" ->
  is_ok (Sqs.ack client_send q r d).1
  = is_ok (client_send (Sqs.DeleteMessageCommand url r) (Sqs.backend d)).1.
Proof.
  intros Hc Hr. unfold Sqs.ack, Eff.bind, Sqs.ensureQueue. rewrite Hc.
  destruct (String.eqb_spec r "") as [|_]; [done|].
  unfold Sqs.send, Eff.ret.
  by destruct (client_send (Sqs.DeleteMessageCommand url r) (Sqs.backend d)) as [[?|?] ?].
Qed.

End SqsFacts.

Lemma sqs_ack_empty_receipt_witness :
  exists cmds,
    Sqs.sent (Sqs.ack fake_send "orders" "" fresh_sqs).2 = Sqs.sent fresh_sqs ++ cmds
    /\ Forall (fun c => Sqs.is_delete c = false) cmds
    /\ cmds = [Sqs.GetQueueUrlCommand "orders"; Sqs.CreateQueueCommand "orders"].
Proof.
  destruct (sqs_ack_empty_receipt fake_send "orders" fresh_sqs)
    as (_ & _ & cmds & Hsent & Hnodel & Hcreate).
  exists cmds. split; [exact Hsent|]. split; [exact Hnodel|].
  apply Hcreate.
  - reflexivity.
  - exact I.
Defined.

Example sqs_ack_empty_receipt_creates :
  existing (Sqs.backend (Sqs.ack fake_send "orders" "" fresh_sqs).2) = ["orders"]
  /\ (Sqs.ack fake_send "orders" "" fresh_sqs).1 = Ok tt.
Proof. vm_compute. split; reflexivity. Qed.

(** ** The RabbitMQ driver: publish and ack *)

Section RabbitFacts.

Context {T B : Type}.
Variable JSON_stringify : T -> string.
Variable parseInt : string -> option Z.
Variable amqp : RabbitMq.Amqplib B.

Implicit Types (d : RabbitMq.driver B) (q r : string).

Lemma getChannel_answers q d :
  broker_answers amqp -> exists ch d1, RabbitMq.getChannel amqp q d = (Ok ch, d1).
Proof.
  intros (Hconn & Hch & Hassert & _). unfold RabbitMq.getChannel.
  destruct (RabbitMq.channels d !! q) as [ch|]; [by eauto|].
  unfold Eff.bind, RabbitMq.getConnection, RabbitMq.lib.
  destruct (RabbitMq.connection d) as [c|].
  - destruct (Hch c (RabbitMq.broker d)) as (ch & Hc).
    destruct (RabbitMq.createChannel amqp c (RabbitMq.broker d)) as [r1 b1].
    simpl in Hc. subst r1. cbn.
    pose proof (Hassert ch q b1) as Ha.
    destruct (RabbitMq.assertQueue amqp ch q b1) as [r2 b2].
    simpl in Ha. subst r2. cbn. eauto.
  - unfold Eff.bind. destruct (Hconn (RabbitMq.broker d)) as (c & Hc).
    destruct (RabbitMq.connect amqp (RabbitMq.broker d)) as [r0 b0].
    simpl in Hc. subst r0. cbn.
    destruct (Hch c b0) as (ch & Hc').
    destruct (RabbitMq.createChannel amqp c b0) as [r1 b1].
    simpl in Hc'. subst r1. cbn.
    pose proof (Hassert ch q b1) as Ha.
    destruct (RabbitMq.assertQueue amqp ch q b1) as [r2 b2].
    simpl in Ha. subst r2. cbn. eauto.
Qed.

Lemma rabbit_ack_answers q r d :
  broker_answers amqp -> exists d1, RabbitMq.ack parseInt amqp q r d = (Ok tt, d1).
Proof.
  intros Hans. unfold RabbitMq.ack, Eff.bind.
  destruct (getChannel_answers q d Hans) as (ch & d1 & ->).
  destruct Hans as (_ & _ & _ & Hack). unfold RabbitMq.lib.
  pose proof (Hack ch (parseInt r) (RabbitMq.broker d1)) as Ha.
  destruct (RabbitMq.channel_ack amqp ch (parseInt r) (RabbitMq.broker d1)) as [r1 b1].
  simpl in Ha. subst r1. eauto.
Qed.

Lemma rabbit_ack_surfaces q r ch d :
  RabbitMq.channels d !! q = Some ch ->
  (RabbitMq.ack parseInt amqp q r d).1
  = (RabbitMq.channel_ack amqp ch (parseInt r) (RabbitMq.broker d)).1.
Proof.
  intros Hc. unfold RabbitMq.ack, Eff.bind, RabbitMq.getChannel. rewrite Hc.
  unfold RabbitMq.lib.
  by destruct (RabbitMq.channel_ack amqp ch (parseInt r) (RabbitMq.broker d)).
Qed.


End RabbitFacts.

(** ** Metadata on the SQS driver *)

Section SqsMetadata.

Context {T B : Type}.
Variable JSON_stringify : T -> string.
Variable JSON_parse : string -> option T.
Variable raw_payload : string -> T.
Variable Number : string -> Z.
Variable client_send : Sqs.Command -> B -> result Sqs.Response * B.




End SqsMetadata.

(** ** Acknowledgement across the drivers *)

Section AckFacts.

Context {T : Type}.
Implicit Types (w : InMemory.world T) (q r : string).

Lemma in_memory_ack_idempotent q r w :
  InMemory.ack q r (InMemory.ack q r w) = InMemory.ack q r w.
Proof.
  unfold InMemory.ack, InMemory.set_queues, InMemory.stored_in. simpl.
  rewrite lookup_insert_eq, insert_insert_eq. simpl. f_equal. f_equal.
  apply list_filter_filter_l. intros x Hx. exact Hx.
Qed.

Lemma in_memory_ack_unknown q r w :
  (forall msg, msg ∈ InMemory.stored_in q w ->
               Message.receipt (InMemory.message msg) ≠ r) ->
  forall q', InMemory.stored_in q' (InMemory.ack q r w) = InMemory.stored_in q' w.
Proof.
  intros Hunknown q'. unfold InMemory.ack.
  destruct (decide (q = q')) as [<-|Hne].
  - rewrite stored_in_set_queues_eq.
    induction (InMemory.stored_in q w) as [|m l IH]; [done|].
    rewrite filter_cons_True by (apply Hunknown; apply list_elem_of_here).
    f_equal. apply IH. intros msg Hin. apply Hunknown. by apply list_elem_of_further.
  - by rewrite stored_in_set_queues_ne.
Qed.

End AckFacts.

(** C2, as amended. On the in-memory driver [ack] cannot fail, acking a
    receipt twice leaves the driver as acking it once does, and a receipt
    that no stored message carries changes no queue. On the SQS and
    RabbitMQ drivers [ack] makes no check of its own (but the empty receipt
    on SQS): for every receipt, valid or not, acked once or twice, it
    completes when the backend answers the requests it makes, and otherwise
    hands the error of the backend to its caller. *)
Theorem ack_accepts_any_receipt {T B B' : Type}
    (w : InMemory.world T)
    (client_send : Sqs.Command -> B -> result Sqs.Response * B) (d : Sqs.driver B)
    (parseInt : string -> option Z) (amqp : RabbitMq.Amqplib B')
    (rd : RabbitMq.driver B') (q r : string) :
  (InMemory.ack q r (InMemory.ack q r w) = InMemory.ack q r w
   /\ ((forall msg, msg ∈ InMemory.stored_in q w ->
                    Message.receipt (InMemory.message msg) ≠ r) ->
       forall q', InMemory.stored_in q' (InMemory.ack q r w) = InMemory.stored_in q' w))
  /\ (accepting client_send ->
      exists d1 d2, Sqs.ack client_send q r d = (Ok tt, d1)
                    /\ Sqs.ack client_send q r d1 = (Ok tt, d2))
  /\ (forall url, Sqs.queueUrlCache d !! q = Some url -> r ≠ "" ->
      is_ok (Sqs.ack client_send q r d).1
      = is_ok (client_send (Sqs.DeleteMessageCommand url r) (Sqs.backend d)).1)
  /\ (broker_answers amqp ->
      exists d1 d2, RabbitMq.ack parseInt amqp q r rd = (Ok tt, d1)
                    /\ RabbitMq.ack parseInt amqp q r d1 = (Ok tt, d2))
  /\ (forall ch, RabbitMq.channels rd !! q = Some ch ->
      (RabbitMq.ack parseInt amqp q r rd).1
      = (RabbitMq.channel_ack amqp ch (parseInt r) (RabbitMq.broker rd)).1).
Proof.
  split; [split|split; [|split; [|split]]].
  - apply in_memory_ack_idempotent.
  - apply in_memory_ack_unknown.
  - intros Hacc.
    destruct (sqs_ack_accepting client_send q r d Hacc) as (d1 & H1).
    destruct (sqs_ack_accepting client_send q r d1 Hacc) as (d2 & H2).
    by exists d1, d2.
  - intros url. apply sqs_ack_surfaces.
  - intros Hans.
    destruct (rabbit_ack_answers parseInt amqp q r rd Hans) as (d1 & H1).
    destruct (rabbit_ack_answers parseInt amqp q r d1 Hans) as (d2 & H2).
    by exists d1, d2.
  - intros ch. apply rabbit_ack_surfaces.
Qed.

Lemma ack_accepts_any_receipt_witness :
  (exists d1 d2, Sqs.ack lenient_send "orders" "stale" (Sqs.new_driver tt) = (Ok tt, d1)
                 /\ Sqs.ack lenient_send "orders" "stale" d1 = (Ok tt, d2))
  /\ (exists d1 d2,
        RabbitMq.ack parse_receipt lenient_amqp "orders" "stale" (RabbitMq.new_driver 0%nat)
        = (Ok tt, d1)
        /\ RabbitMq.ack parse_receipt lenient_amqp "orders" "stale" d1 = (Ok tt, d2))
  /\ (forall q', InMemory.stored_in q' (InMemory.ack "jobs" "stale" three_messages)
                 = InMemory.stored_in q' three_messages).
Proof.
  destruct (ack_accepts_any_receipt three_messages lenient_send (Sqs.new_driver tt)
              parse_receipt lenient_amqp (RabbitMq.new_driver 0%nat) "jobs" "stale")
    as ((_ & Hmem) & _).
  destruct (ack_accepts_any_receipt three_messages lenient_send (Sqs.new_driver tt)
              parse_receipt lenient_amqp (RabbitMq.new_driver 0%nat) "orders" "stale")
    as (_ & Hsqs & _ & Hrabbit & _).
  split; [|split].
  - apply Hsqs. intros cmd b. eexists. split; [reflexivity|]. intros _. reflexivity.
  - apply Hrabbit. repeat split; intros; eexists; reflexivity.
  - apply Hmem. apply Forall_forall. vm_compute.
    repeat constructor; intros H; discriminate H.
Defined.

(** C2, the claim as stated fails: on the SQS driver, an [ack] with a
    receipt that the backend never handed out raises the error with which
    the backend rejects the deletion. *)
Lemma sqs_ack_unknown_receipt_counterexample :
  (Sqs.ack fake_send "orders" "no-such-receipt" fresh_sqs).1
  = Err "ReceiptHandleIsInvalid".
Proof. vm_compute. reflexivity. Qed.

(** ** Caller-supplied metadata across the drivers *)




(** ** The in-memory poller: subscriptions over time *)

Section InMemorySubscriptions.

Context {T : Type}.

Implicit Types (w : InMemory.world T) (msg : InMemory.StoredMessage T).
Implicit Types (o : InMemory.obs T) (e : InMemory.event T).

Lemma clear_timeouts_eq (l : list nat) w :
  foldl (fun acc timeoutId => InMemory.clearTimeout timeoutId acc) w l
  = InMemory.set_timers (foldl (fun ts tid => delete tid ts) (InMemory.timers w) l) w.
Proof.
  revert w. induction l as [|tid l IH]; intros w.
  - by destruct w.
  - simpl. rewrite IH. by destruct w.
Qed.

Lemma lookup_clear_timeouts (l : list nat) (ts : gmap nat (InMemory.timer T)) tid t :
  foldl (fun ts tid => delete tid ts) ts l !! tid = Some t
  <-> ts !! tid = Some t /\ tid ∉ l.
Proof.
  revert ts. induction l as [|x l IH]; intros ts; simpl.
  - split; [intros H; split; [done | apply not_elem_of_nil] | by intros [H _]].
  - rewrite IH, lookup_delete_Some, not_elem_of_cons. split.
    + intros [[Hne Hts] Hnot]. by repeat split.
    + intros [Hts [Hne Hnot]]. by repeat split.
Qed.

Lemma reschedule_inv sid w w1 os :
  InMemory.reschedule sid w = Some (w1, os) ->
  exists s, InMemory.closures w !! sid = Some s
    /\ InMemory.closures w1 = InMemory.closures w
    /\ InMemory.polls w1 = InMemory.polls w
    /\ InMemory.queues w1 = InMemory.queues w
    /\ InMemory.clock w1 = InMemory.clock w
    /\ InMemory.next_sub w1 = InMemory.next_sub w
    /\ InMemory.next_poll w1 = InMemory.next_poll w
    /\ ((InMemory.isActive s = false /\ w1 = w /\ os = [])
        \/ (InMemory.isActive s = true
            /\ os = [InMemory.ObsScheduled sid (InMemory.next_timer w)]
            /\ InMemory.timers w1
               = <[InMemory.next_timer w :=
                     {| InMemory.due :=
                          InMemory.clock w + Js.timeout (InMemory.sub_pollIntervalMs s);
                        InMemory.run := InMemory.CbPoll sid |}]> (InMemory.timers w)
            /\ InMemory.next_timer w1 = S (InMemory.next_timer w)
            /\ InMemory.subscriptions w1
               = <[InMemory.sub_queue s :=
                     default [] (InMemory.subscriptions w !! InMemory.sub_queue s)
                     ++ [InMemory.next_timer w]]> (InMemory.subscriptions w))).
Proof.
  unfold InMemory.reschedule. intros H.
  destruct (InMemory.closures w !! sid) as [s|]; simpl in H; [|done].
  exists s. split; [done|].
  destruct (InMemory.isActive s); inversion H; subst; simpl.
  - repeat split; try done. right. repeat split; done.
  - repeat split; try done. left. done.
Qed.

(** How [for_messages] ends: the poll is over and [reschedule] runs, or the
    handler is called on the next message. *)
Lemma for_messages_inv pid sid todo w w1 os :
  InMemory.for_messages pid sid todo w = Some (w1, os) ->
  exists s, InMemory.closures w !! sid = Some s
    /\ (((todo = [] \/ InMemory.isActive s = false)
         /\ InMemory.reschedule sid
              (InMemory.set_polls (delete pid (InMemory.polls w)) w) = Some (w1, os))
        \/ (exists msg rest,
              todo = msg :: rest /\ InMemory.isActive s = true
              /\ w1 = InMemory.set_polls
                        (<[pid := (sid, InMemory.AwaitHandler msg rest)]> (InMemory.polls w)) w
              /\ os = [InMemory.ObsHandler sid msg])).
Proof.
  unfold InMemory.for_messages. intros H.
  destruct (InMemory.closures w !! sid) as [s|]; simpl in H; [|done].
  exists s. split; [done|].
  destruct todo as [|msg rest]; [left; by split; [left|]|].
  destruct (InMemory.isActive s) eqn:Ea; simpl in H.
  - right. exists msg, rest. by inversion H.
  - left. by split; [right|].
Qed.

Lemma poll_inv sid w w1 os :
  InMemory.poll sid w = Some (w1, os) ->
  exists s, InMemory.closures w !! sid = Some s
    /\ ((InMemory.isActive s = false /\ w1 = w /\ os = [])
        \/ (InMemory.isActive s = true
            /\ os = [InMemory.ObsPolled sid
                       (InMemory.pull (InMemory.sub_queue s)
                          (Some (InMemory.sub_maxMessages s)) w).2]
            /\ InMemory.queues w1
               = InMemory.queues (InMemory.pull (InMemory.sub_queue s)
                                    (Some (InMemory.sub_maxMessages s)) w).1
            /\ InMemory.polls w1
               = <[InMemory.next_poll w :=
                     (sid, InMemory.AwaitPull
                             (InMemory.pull (InMemory.sub_queue s)
                                (Some (InMemory.sub_maxMessages s)) w).2)]>
                   (InMemory.polls w)
            /\ InMemory.next_poll w1 = S (InMemory.next_poll w)
            /\ InMemory.closures w1 = InMemory.closures w
            /\ InMemory.timers w1 = InMemory.timers w
            /\ InMemory.subscriptions w1 = InMemory.subscriptions w
            /\ InMemory.clock w1 = InMemory.clock w
            /\ InMemory.next_sub w1 = InMemory.next_sub w
            /\ InMemory.next_timer w1 = InMemory.next_timer w)).
Proof.
  unfold InMemory.poll. intros H.
  destruct (InMemory.closures w !! sid) as [s|]; simpl in H; [|done].
  exists s. split; [done|].
  destruct (InMemory.isActive s); simpl in H.
  - right. rewrite pull_eq in H. rewrite pull_eq. cbn in H. inversion H; subst; clear H.
    cbn. repeat split; reflexivity.
  - left. by inversion H.
Qed.

Lemma silent_set_polls sid ps w :
  silent sid w ->
  (inactive sid w \/ forall pid k, ps !! pid ≠ Some (sid, k)) ->
  silent sid (InMemory.set_polls ps w).
Proof.
  intros (Hlt & Hnt & Hp) Hps. split; [exact Hlt|]. split; [exact Hnt|].
  destruct Hps as [Hin|Hno]; [by left | by right].
Qed.

Lemma silent_delete_poll sid pid w :
  silent sid w -> silent sid (InMemory.set_polls (delete pid (InMemory.polls w)) w).
Proof.
  intros Hs. apply silent_set_polls; [done|].
  destruct Hs as (_ & _ & [Hin|Hno]); [by left|]. right.
  intros pid' k Hl. apply lookup_delete_Some in Hl as [_ Hl]. by apply (Hno pid' k).
Qed.

Lemma silent_reschedule sid sid' w w1 os :
  silent sid w ->
  InMemory.reschedule sid' w = Some (w1, os) ->
  (sid' = sid -> inactive sid w) ->
  silent sid w1 /\ Forall (fun o => ¬ about sid o) os.
Proof.
  intros Hs Hr Hsame.
  apply reschedule_inv in Hr
    as (s & Hcl & Hcl1 & Hpo1 & _ & _ & Hns1 & _ & [(_ & -> & ->) | (Hact & -> & Hti & _ & _)]).
  - split; [done | constructor].
  - assert (Hne : sid' ≠ sid).
    { intros ->. destruct (Hsame eq_refl) as (s' & Hs' & Hina). congruence. }
    destruct Hs as (Hlt & Hnt & Hp). split.
    + split; [by rewrite Hns1|]. split.
      * intros tid t Hl. rewrite Hti in Hl.
        apply lookup_insert_Some in Hl as [[_ <-] | [_ Hl]].
        -- simpl. congruence.
        -- by apply (Hnt tid).
      * unfold inactive, no_poll. rewrite Hcl1, Hpo1. exact Hp.
    + constructor; [simpl; congruence | constructor].
Qed.

Lemma silent_for_messages sid pid sid' todo w w1 os :
  silent sid w ->
  InMemory.for_messages pid sid' todo w = Some (w1, os) ->
  (sid' = sid -> inactive sid w) ->
  silent sid w1 /\ Forall (fun o => ¬ about sid o) os.
Proof.
  intros Hs Hf Hsame.
  apply for_messages_inv in Hf
    as (s & Hcl & [[_ Hr] | (msg & rest & -> & Hact & -> & ->)]).
  - eapply silent_reschedule; [apply silent_delete_poll, Hs | exact Hr | exact Hsame].
  - assert (Hne : sid' ≠ sid).
    { intros ->. destruct (Hsame eq_refl) as (s' & Hs' & Hina). congruence. }
    split.
    + apply silent_set_polls; [done|].
      destruct Hs as (_ & _ & [Hin|Hno]); [by left|]. right.
      intros pid' k Hl. apply lookup_insert_Some in Hl as [[_ [= ? _]] | [_ Hl]]; [done|].
      by apply (Hno pid' k).
    + constructor; [simpl; congruence | constructor].
Qed.

Lemma silent_poll sid sid' w w1 os :
  silent sid w ->
  InMemory.poll sid' w = Some (w1, os) ->
  sid' ≠ sid ->
  silent sid w1 /\ Forall (fun o => ¬ about sid o) os.
Proof.
  intros Hs Hp Hne.
  apply poll_inv in Hp
    as (s & Hcl & [(_ & -> & ->) |
                   (_ & -> & _ & Hpo & _ & Hcl1 & Hti & _ & _ & Hns & _)]).
  - split; [done | constructor].
  - destruct Hs as (Hlt & Hnt & Hp). split.
    + split; [by rewrite Hns|]. split.
      * unfold no_timer. by rewrite Hti.
      * destruct Hp as [Hin|Hno]; [left; unfold inactive; by rewrite Hcl1|].
        right. intros pid k Hl. rewrite Hpo in Hl.
        apply lookup_insert_Some in Hl as [[_ [= ? _]] | [_ Hl]]; [done|].
        by apply (Hno pid k).
    + constructor; [simpl; congruence | constructor].
Qed.

(** Closes a goal stating that a short list of observations holds none
    about a subscription. *)
Ltac not_about :=
  repeat (first [ apply List.Forall_nil
                | apply List.Forall_cons; [simpl; first [tauto | congruence | lia]|] ]).

Lemma unsubscribe_inv sid w w1 :
  InMemory.unsubscribe sid w = Some w1 ->
  exists s, InMemory.closures w !! sid = Some s
    /\ InMemory.closures w1
       = <[sid := {| InMemory.sub_queue := InMemory.sub_queue s;
                     InMemory.sub_maxMessages := InMemory.sub_maxMessages s;
                     InMemory.sub_pollIntervalMs := InMemory.sub_pollIntervalMs s;
                     InMemory.sub_autoAck := InMemory.sub_autoAck s;
                     InMemory.isActive := false |}]> (InMemory.closures w)
    /\ InMemory.timers w1
       = foldl (fun ts tid => delete tid ts) (InMemory.timers w)
           (default [] (InMemory.subscriptions w !! InMemory.sub_queue s))
    /\ InMemory.subscriptions w1
       = <[InMemory.sub_queue s := []]> (InMemory.subscriptions w)
    /\ InMemory.polls w1 = InMemory.polls w
    /\ InMemory.queues w1 = InMemory.queues w
    /\ InMemory.clock w1 = InMemory.clock w
    /\ InMemory.next_sub w1 = InMemory.next_sub w
    /\ InMemory.next_timer w1 = InMemory.next_timer w
    /\ InMemory.next_poll w1 = InMemory.next_poll w.
Proof.
  unfold InMemory.unsubscribe. intros H.
  destruct (InMemory.closures w !! sid) as [s|]; simpl in H; [|done].
  exists s. split; [done|]. inversion H; subst; clear H.
  rewrite clear_timeouts_eq. simpl. repeat split; reflexivity.
Qed.

Lemma silent_step sid w e w1 os :
  silent sid w ->
  InMemory.step w e = Some (w1, os) ->
  silent sid w1 /\ Forall (fun o => ¬ about sid o) os.
Proof.
  intros Hs Hstep. destruct e as [q p options u1 u2|q k|q r|q options|sid'|ms|tid|pid o];
    simpl in Hstep.
  - (* publish *)
    unfold InMemory.publish in Hstep.
    destruct (Js.truthy_number (options ≫= Options.delaySeconds));
      inversion Hstep; subst; clear Hstep.
    + split; [|not_about].
      destruct Hs as (Hlt & Hnt & Hp). split; [exact Hlt|]. split; [|exact Hp].
      intros tid t Hl. simpl in Hl.
      apply lookup_insert_Some in Hl as [[_ <-] | [_ Hl]]; [done|]. by apply (Hnt tid).
    + split; [exact Hs | not_about].
  - (* pull *)
    rewrite pull_eq in Hstep. inversion Hstep; subst; clear Hstep.
    split; [exact Hs | not_about].
  - (* ack *)
    inversion Hstep; subst; clear Hstep. split; [exact Hs | constructor].
  - (* subscribe *)
    unfold InMemory.subscribe in Hstep.
    match type of Hstep with
    | context [InMemory.poll _ ?x] => set (w0 := x) in Hstep
    end.
    destruct (InMemory.poll (InMemory.next_sub w) w0) as [[w2 os2]|] eqn:Hp;
      simpl in Hstep; [|done].
    inversion Hstep; subst; clear Hstep.
    assert (Hne : InMemory.next_sub w ≠ sid) by (destruct Hs as (Hlt & _); lia).
    assert (Hs0 : silent sid w0).
    { destruct Hs as (Hlt & Hnt & Hpo). split; [simpl; lia|]. split; [exact Hnt|].
      destruct Hpo as [(s & Hcl & Hina)|Hno]; [|by right].
      left. exists s. split; [|done]. simpl. by rewrite lookup_insert_ne. }
    destruct (silent_poll sid _ w0 w1 os2 Hs0 Hp Hne) as [Hs1 Hos].
    split; [exact Hs1|]. apply Forall_app. split; [exact Hos | not_about].
  - (* unsubscribe *)
    destruct (InMemory.unsubscribe sid' w) as [w2|] eqn:Hu; simpl in Hstep; [|done].
    inversion Hstep; subst; clear Hstep. split; [|constructor].
    apply unsubscribe_inv in Hu
      as (s & Hcl & Hcl1 & Hti & _ & Hpo & _ & _ & Hns & _).
    destruct Hs as (Hlt & Hnt & Hp). split; [by rewrite Hns|]. split.
    + intros tid t Hl. rewrite Hti in Hl. apply lookup_clear_timeouts in Hl as [Hl _].
      by apply (Hnt tid).
    + destruct (decide (sid' = sid)) as [->|Hne].
      * left. eexists. rewrite Hcl1, lookup_insert_eq. by split.
      * destruct Hp as [(s' & Hcl' & Hina)|Hno].
        -- left. exists s'. rewrite Hcl1, lookup_insert_ne by done. by split.
        -- right. unfold no_poll. by rewrite Hpo.
  - (* the clock advances *)
    destruct (0 <=? ms); inversion Hstep; subst; clear Hstep.
    split; [exact Hs | constructor].
  - (* a timeout runs *)
    unfold InMemory.fire in Hstep.
    destruct (InMemory.timers w !! tid) as [t|] eqn:Ht; simpl in Hstep; [|done].
    destruct (InMemory.due t <=? InMemory.clock w); [|done].
    assert (Hs0 : silent sid (InMemory.set_timers (delete tid (InMemory.timers w)) w)).
    { destruct Hs as (Hlt & Hnt & Hp). split; [exact Hlt|]. split; [|exact Hp].
      intros tid' t' Hl. simpl in Hl. apply lookup_delete_Some in Hl as [_ Hl].
      by apply (Hnt tid'). }
    destruct (InMemory.run t) as [q msg|sid'] eqn:Hrun.
    + inversion Hstep; subst; clear Hstep. split; [exact Hs0 | constructor].
    + eapply silent_poll; [exact Hs0 | exact Hstep|].
      intros ->. destruct Hs as (_ & Hnt & _). by apply (Hnt tid t Ht).
  - (* a poll resumes *)
    unfold InMemory.resume in Hstep.
    destruct (InMemory.polls w !! pid) as [[sid' k]|] eqn:Hpoll; simpl in Hstep; [|done].
    destruct (InMemory.closures w !! sid') as [s|] eqn:Hcl; simpl in Hstep; [|done].
    assert (Hsame : sid' = sid -> inactive sid w).
    { intros ->. destruct Hs as (_ & _ & [Hin|Hno]); [done|].
      by destruct (Hno pid k). }
    destruct k as [messages|msg rest|rest], o; try done.
    + eapply silent_for_messages; eauto.
    + destruct (InMemory.sub_autoAck s).
      * inversion Hstep; subst; clear Hstep. split; [|constructor].
        apply (silent_set_polls sid _ (InMemory.ack _ _ w)); [exact Hs|].
        destruct (decide (sid' = sid)) as [Heq|Hne]; [left; by apply Hsame|].
        destruct Hs as (_ & _ & [Hin|Hno]); [by left|]. right.
        intros pid' k Hl. simpl in Hl.
        apply lookup_insert_Some in Hl as [[_ [= ? _]] | [_ Hl]]; [done|].
        by apply (Hno pid' k).
      * eapply silent_for_messages; eauto.
    + eapply (silent_for_messages sid pid sid' rest (InMemory.on_handler_error s msg w));
        [|exact Hstep|].
      * unfold InMemory.on_handler_error. by destruct (negb _).
      * unfold InMemory.on_handler_error. by destruct (negb _).
    + eapply silent_for_messages; eauto.
Qed.

Lemma silent_exec sid es w w1 os :
  silent sid w ->
  InMemory.exec w es = Some (w1, os) ->
  silent sid w1 /\ Forall (fun o => ¬ about sid o) os.
Proof.
  revert w os. induction es as [|e es IH]; intros w os Hs Hex; simpl in Hex.
  - inversion Hex; subst. split; [done | constructor].
  - destruct (InMemory.step w e) as [[w2 os2]|] eqn:Hstep; simpl in Hex; [|done].
    destruct (InMemory.exec w2 es) as [[w3 os3]|] eqn:Hrest; simpl in Hex; [|done].
    inversion Hex; subst; clear Hex.
    destruct (silent_step sid w e w2 os2 Hs Hstep) as [Hs2 Hos2].
    destruct (IH w2 os3 Hs2 Hrest) as [Hs3 Hos3].
    split; [exact Hs3|]. apply Forall_app. by split.
Qed.

(** *** What holds of every state the driver can reach *)

Lemma sound_init : sound (@InMemory.init T).
Proof. split; intros ? ? ?; simpl; by rewrite ?lookup_empty. Qed.

(** [sound] only looks at the timeouts, the closures and the bookkeeping. *)
Lemma sound_same w w1 :
  InMemory.timers w1 = InMemory.timers w ->
  InMemory.closures w1 = InMemory.closures w ->
  InMemory.subscriptions w1 = InMemory.subscriptions w ->
  InMemory.next_sub w1 = InMemory.next_sub w ->
  sound w -> sound w1.
Proof.
  intros Ht Hc Hs Hn [Hl Hb]. split.
  - intros tid t sid. rewrite Ht, Hc, Hs. apply Hl.
  - intros sid s. rewrite Hc, Hn. apply Hb.
Qed.

Lemma sound_reschedule sid w w1 os :
  sound w -> InMemory.reschedule sid w = Some (w1, os) -> sound w1.
Proof.
  intros [Hl Hb] Hr.
  apply reschedule_inv in Hr
    as (s & Hcl & Hcl1 & _ & _ & _ & Hns1 & _ &
        [(_ & -> & _) | (_ & _ & Hti & _ & Hsu)]); [done|].
  split.
  - intros tid t sid' Hlk Hrun. rewrite Hti in Hlk. rewrite Hcl1, Hsu.
    apply lookup_insert_Some in Hlk as [[<- <-] | [Hne Hlk]].
    + simpl in Hrun. injection Hrun as <-. exists s. split; [done|].
      rewrite lookup_insert_eq. simpl. apply elem_of_app. right. apply list_elem_of_here.
    + destruct (Hl tid t sid' Hlk Hrun) as (s' & Hs' & Hin). exists s'. split; [done|].
      destruct (decide (InMemory.sub_queue s = InMemory.sub_queue s')) as [Heq|Hq].
      * rewrite <- Heq, lookup_insert_eq. simpl. apply elem_of_app. left. by rewrite Heq.
      * by rewrite lookup_insert_ne.
  - intros sid' s'. rewrite Hcl1, Hns1. apply Hb.
Qed.

Lemma sound_for_messages pid sid todo w w1 os :
  sound w -> InMemory.for_messages pid sid todo w = Some (w1, os) -> sound w1.
Proof.
  intros Hs Hf.
  apply for_messages_inv in Hf as (s & _ & [[_ Hr] | (msg & rest & _ & _ & -> & _)]).
  - eapply sound_reschedule; [|exact Hr]. exact Hs.
  - exact Hs.
Qed.

Lemma sound_poll sid w w1 os :
  sound w -> InMemory.poll sid w = Some (w1, os) -> sound w1.
Proof.
  intros Hs Hp.
  apply poll_inv in Hp
    as (s & _ & [(_ & -> & _) | (_ & _ & _ & _ & _ & Hcl & Hti & Hsu & _ & Hns & _)]);
    [done|].
  by apply (sound_same w).
Qed.

Lemma sound_step w e w1 os :
  sound w -> InMemory.step w e = Some (w1, os) -> sound w1.
Proof.
  intros Hs Hstep. destruct e as [q p options u1 u2|q k|q r|q options|sid'|ms|tid|pid o];
    simpl in Hstep.
  - unfold InMemory.publish in Hstep.
    destruct (Js.truthy_number (options ≫= Options.delaySeconds));
      inversion Hstep; subst; clear Hstep; [|exact Hs].
    destruct Hs as [Hl Hb]. split; [|exact Hb].
    intros tid t sid Hlk Hrun. simpl in Hlk.
    apply lookup_insert_Some in Hlk as [[_ <-] | [_ Hlk]]; [done|].
    exact (Hl tid t sid Hlk Hrun).
  - rewrite pull_eq in Hstep. inversion Hstep; subst. exact Hs.
  - inversion Hstep; subst. exact Hs.
  - unfold InMemory.subscribe in Hstep.
    match type of Hstep with
    | context [InMemory.poll _ ?x] => set (w0 := x) in Hstep
    end.
    destruct (InMemory.poll (InMemory.next_sub w) w0) as [[w2 os2]|] eqn:Hp;
      simpl in Hstep; [|done].
    inversion Hstep; subst; clear Hstep.
    eapply sound_poll; [|exact Hp].
    destruct Hs as [Hl Hb]. split.
    + intros tid t sid Hlk Hrun. simpl in Hlk.
      destruct (Hl tid t sid Hlk Hrun) as (s & Hcl & Hin).
      exists s. split; [|exact Hin]. simpl. rewrite lookup_insert_ne; [done|].
      apply Hb in Hcl. lia.
    + intros sid s Hlk. simpl in Hlk. simpl.
      apply lookup_insert_Some in Hlk as [[<- _] | [_ Hlk]]; [lia|].
      apply Hb in Hlk. lia.
  - destruct (InMemory.unsubscribe sid' w) as [w2|] eqn:Hu; simpl in Hstep; [|done].
    inversion Hstep; subst; clear Hstep.
    apply unsubscribe_inv in Hu
      as (s & Hcl & Hcl1 & Hti & Hsu & _ & _ & _ & Hns & _).
    destruct Hs as [Hl Hb]. split.
    + intros tid t sid Hlk Hrun. rewrite Hti in Hlk.
      apply lookup_clear_timeouts in Hlk as [Hlk Hnot].
      destruct (Hl tid t sid Hlk Hrun) as (s0 & Hs0 & Hin).
      assert (Hq : InMemory.sub_queue s ≠ InMemory.sub_queue s0).
      { intros Heq. rewrite <- Heq in Hin. done. }
      assert (Hne : sid' ≠ sid) by (intros ->; congruence).
      exists s0. rewrite Hcl1, Hsu, !lookup_insert_ne by done. by split.
    + intros sid s0. rewrite Hcl1, Hns. intros Hlk.
      apply lookup_insert_Some in Hlk as [[<- _] | [_ Hlk]]; [by apply (Hb sid' s)|].
      by apply (Hb sid s0).
  - destruct (0 <=? ms); inversion Hstep; subst. exact Hs.
  - unfold InMemory.fire in Hstep.
    destruct (InMemory.timers w !! tid) as [t|] eqn:Ht; simpl in Hstep; [|done].
    destruct (InMemory.due t <=? InMemory.clock w); [|done].
    assert (Hs0 : sound (InMemory.set_timers (delete tid (InMemory.timers w)) w)).
    { destruct Hs as [Hl Hb]. split; [|exact Hb].
      intros tid' t' sid Hlk Hrun. simpl in Hlk.
      apply lookup_delete_Some in Hlk as [_ Hlk]. exact (Hl tid' t' sid Hlk Hrun). }
    destruct (InMemory.run t) as [q msg|sid].
    + inversion Hstep; subst. exact Hs0.
    + eapply sound_poll; [exact Hs0 | exact Hstep].
  - unfold InMemory.resume in Hstep.
    destruct (InMemory.polls w !! pid) as [[sid k]|]; simpl in Hstep; [|done].
    destruct (InMemory.closures w !! sid) as [s|]; simpl in Hstep; [|done].
    destruct k as [messages|msg rest|rest], o; try done.
    + eapply sound_for_messages; eauto.
    + destruct (InMemory.sub_autoAck s).
      * inversion Hstep; subst. exact Hs.
      * eapply sound_for_messages; eauto.
    + eapply (sound_for_messages pid sid rest (InMemory.on_handler_error s msg w));
        [|exact Hstep].
      unfold InMemory.on_handler_error. by destruct (negb _).
    + eapply sound_for_messages; eauto.
Qed.

Lemma sound_exec es w w1 os :
  sound w -> InMemory.exec w es = Some (w1, os) -> sound w1.
Proof.
  revert w os. induction es as [|e es IH]; intros w os Hs Hex; simpl in Hex.
  - by inversion Hex; subst.
  - destruct (InMemory.step w e) as [[w2 os2]|] eqn:Hstep; simpl in Hex; [|done].
    destruct (InMemory.exec w2 es) as [[w3 os3]|] eqn:Hrest; simpl in Hex; [|done].
    inversion Hex; subst; clear Hex.
    eapply IH; [|exact Hrest]. eapply sound_step; eauto.
Qed.

(** Once [unsubscribe] has returned in a reachable state, the subscription
    is silent. *)
Lemma unsubscribe_silent sid w w1 :
  sound w -> InMemory.unsubscribe sid w = Some w1 -> silent sid w1.
Proof.
  intros [Hl Hb] Hu.
  apply unsubscribe_inv in Hu as (s & Hcl & Hcl1 & Hti & _ & _ & _ & _ & Hns & _).
  split; [rewrite Hns; by apply (Hb sid s)|]. split.
  - intros tid t Hlk Hrun. rewrite Hti in Hlk.
    apply lookup_clear_timeouts in Hlk as [Hlk Hnot].
    destruct (Hl tid t sid Hlk Hrun) as (s0 & Hs0 & Hin).
    assert (s0 = s) as -> by congruence. done.
  - left. eexists. rewrite Hcl1, lookup_insert_eq. by split.
Qed.

(** A second [unsubscribe] right after the first changes nothing. *)
Lemma unsubscribe_twice sid w w1 :
  InMemory.unsubscribe sid w = Some w1 -> InMemory.unsubscribe sid w1 = Some w1.
Proof.
  unfold InMemory.unsubscribe. intros H.
  destruct (InMemory.closures w !! sid) as [s|]; simpl in H; [|done].
  inversion H; subst; clear H.
  rewrite !clear_timeouts_eq. cbn.
  rewrite lookup_insert_eq. cbn. rewrite lookup_insert_eq. cbn.
  rewrite !insert_insert_eq. reflexivity.
Qed.

(** A stopped subscription stays stopped. *)
Lemma inactive_step sid w e w1 os :
  (sid < InMemory.next_sub w)%nat -> inactive sid w ->
  InMemory.step w e = Some (w1, os) ->
  (sid < InMemory.next_sub w1)%nat /\ inactive sid w1.
Proof.
  intros Hlt Hin Hstep.
  assert (Hsame : forall w', InMemory.closures w' = InMemory.closures w ->
                             InMemory.next_sub w' = InMemory.next_sub w ->
                             (sid < InMemory.next_sub w')%nat /\ inactive sid w').
  { intros w' Hc Hn. unfold inactive. by rewrite Hc, Hn. }
  assert (Hresch : forall sid' w' w'' os',
            InMemory.closures w' = InMemory.closures w ->
            InMemory.next_sub w' = InMemory.next_sub w ->
            InMemory.reschedule sid' w' = Some (w'', os') ->
            (sid < InMemory.next_sub w'')%nat /\ inactive sid w'').
  { intros sid' w' w'' os' Hc Hn Hr.
    apply reschedule_inv in Hr as (s & _ & Hc1 & _ & _ & _ & Hn1 & _).
    apply Hsame; congruence. }
  assert (Hfor : forall pid sid' todo w' w'' os',
            InMemory.closures w' = InMemory.closures w ->
            InMemory.next_sub w' = InMemory.next_sub w ->
            InMemory.for_messages pid sid' todo w' = Some (w'', os') ->
            (sid < InMemory.next_sub w'')%nat /\ inactive sid w'').
  { intros pid sid' todo w' w'' os' Hc Hn Hf.
    apply for_messages_inv in Hf as (s & _ & [[_ Hr] | (msg & rest & _ & _ & -> & _)]).
    - exact (Hresch sid' (InMemory.set_polls (delete pid (InMemory.polls w')) w')
               w'' os' Hc Hn Hr).
    - by apply Hsame. }
  assert (Hpoll : forall sid' w' w'' os',
            InMemory.closures w' = InMemory.closures w ->
            InMemory.next_sub w' = InMemory.next_sub w ->
            InMemory.poll sid' w' = Some (w'', os') ->
            (sid < InMemory.next_sub w'')%nat /\ inactive sid w'').
  { intros sid' w' w'' os' Hc Hn Hp.
    apply poll_inv in Hp
      as (s & _ & [(_ & -> & _) | (_ & _ & _ & _ & _ & Hc1 & _ & _ & _ & Hn1 & _)]).
    - by apply Hsame.
    - apply Hsame; congruence. }
  destruct e as [q p options u1 u2|q k|q r|q options|sid'|ms|tid|pid o]; simpl in Hstep.
  - unfold InMemory.publish in Hstep.
    destruct (Js.truthy_number _); inversion Hstep; subst; by apply Hsame.
  - rewrite pull_eq in Hstep. inversion Hstep; subst. by apply Hsame.
  - inversion Hstep; subst. by apply Hsame.
  - unfold InMemory.subscribe in Hstep.
    destruct (InMemory.poll _ _) as [[w2 os2]|] eqn:Hp; simpl in Hstep; [|done].
    inversion Hstep; subst; clear Hstep.
    apply poll_inv in Hp
      as (s & _ & [(_ & -> & _) | (_ & _ & _ & _ & _ & Hc1 & _ & _ & _ & Hn1 & _)]).
    + simpl. split; [lia|]. destruct Hin as (s0 & Hs0 & Hina). exists s0.
      simpl. rewrite lookup_insert_ne by lia. by split.
    + rewrite Hn1. simpl. split; [lia|]. destruct Hin as (s0 & Hs0 & Hina). exists s0.
      rewrite Hc1. simpl. rewrite lookup_insert_ne by lia. by split.
  - destruct (InMemory.unsubscribe sid' w) as [w2|] eqn:Hu; simpl in Hstep; [|done].
    inversion Hstep; subst; clear Hstep.
    apply unsubscribe_inv in Hu as (s & Hcl & Hcl1 & _ & _ & _ & _ & _ & Hns & _).
    split; [by rewrite Hns|]. unfold inactive. rewrite Hcl1.
    destruct (decide (sid' = sid)) as [->|Hne].
    + eexists. rewrite lookup_insert_eq. by split.
    + destruct Hin as (s0 & Hs0 & Hina). exists s0. by rewrite lookup_insert_ne.
  - destruct (0 <=? ms); inversion Hstep; subst. by apply Hsame.
  - unfold InMemory.fire in Hstep.
    destruct (InMemory.timers w !! tid) as [t|]; simpl in Hstep; [|done].
    destruct (InMemory.due t <=? InMemory.clock w); [|done].
    destruct (InMemory.run t) as [q msg|sid'].
    + inversion Hstep; subst. by apply Hsame.
    + exact (Hpoll sid' (InMemory.set_timers (delete tid (InMemory.timers w)) w)
               w1 os eq_refl eq_refl Hstep).
  - unfold InMemory.resume in Hstep.
    destruct (InMemory.polls w !! pid) as [[sid' k]|]; simpl in Hstep; [|done].
    destruct (InMemory.closures w !! sid') as [s|]; simpl in Hstep; [|done].
    destruct k as [messages|msg rest|rest], o; try done.
    + by apply (Hfor pid sid' messages w w1 os eq_refl eq_refl Hstep).
    + destruct (InMemory.sub_autoAck s).
      * inversion Hstep; subst. by apply Hsame.
      * by apply (Hfor pid sid' rest w w1 os eq_refl eq_refl Hstep).
    + apply (Hfor pid sid' rest (InMemory.on_handler_error s msg w) w1 os); [| |done];
        unfold InMemory.on_handler_error; by destruct (negb _).
    + by apply (Hfor pid sid' rest w w1 os eq_refl eq_refl Hstep).
Qed.

Lemma inactive_exec sid es w w1 os :
  (sid < InMemory.next_sub w)%nat -> inactive sid w ->
  InMemory.exec w es = Some (w1, os) ->
  (sid < InMemory.next_sub w1)%nat /\ inactive sid w1.
Proof.
  revert w os. induction es as [|e es IH]; intros w os Hlt Hin Hex; simpl in Hex.
  - by inversion Hex; subst.
  - destruct (InMemory.step w e) as [[w2 os2]|] eqn:Hstep; simpl in Hex; [|done].
    destruct (InMemory.exec w2 es) as [[w3 os3]|] eqn:Hrest; simpl in Hex; [|done].
    inversion Hex; subst; clear Hex.
    destruct (inactive_step sid w e w2 os2 Hlt Hin Hstep) as [Hlt2 Hin2].
    exact (IH w2 os3 Hlt2 Hin2 Hrest).
Qed.

(** [unsubscribe] of a stopped subscription leaves the closures, the
    polls and the queues as they are. *)
Lemma unsubscribe_again sid w :
  inactive sid w ->
  exists w1, InMemory.unsubscribe sid w = Some w1
    /\ InMemory.closures w1 = InMemory.closures w
    /\ InMemory.polls w1 = InMemory.polls w
    /\ InMemory.queues w1 = InMemory.queues w.
Proof.
  intros (s & Hs & Hina).
  destruct (InMemory.unsubscribe sid w) as [w1|] eqn:Hu.
  - exists w1. split; [done|].
    apply unsubscribe_inv in Hu as (s' & Hs' & Hcl1 & _ & _ & Hpo & Hqu & _).
    assert (s' = s) as -> by congruence.
    split; [|by split]. rewrite Hcl1. apply insert_id.
    rewrite Hs. f_equal. destruct s; simpl in *. by subst.
  - unfold InMemory.unsubscribe in Hu. by rewrite Hs in Hu.
Qed.

End InMemorySubscriptions.

(** ** The SQS poller: subscriptions over time *)

Section SqsSubscriptions.

Context {T : Type}.

Implicit Types (w : Sqs.world T) (o : Sqs.obs T) (e : Sqs.event T).

Ltac sqs_not_about :=
  repeat (first [ apply List.Forall_nil
                | apply List.Forall_cons; [simpl; first [tauto | congruence | lia]|] ]).

Lemma sqs_reschedule_inv sid w w1 os :
  Sqs.reschedule sid w = Some (w1, os) ->
  exists s, Sqs.closures w !! sid = Some s
    /\ Sqs.polls w1 = Sqs.polls w
    /\ Sqs.next_sub w1 = Sqs.next_sub w
    /\ ((Sqs.isActive s = false /\ w1 = w /\ os = [])
        \/ (Sqs.isActive s = true
            /\ os = [Sqs.ObsScheduled sid (Sqs.next_timer w)]
            /\ Sqs.timers w1
               = <[Sqs.next_timer w :=
                     (Sqs.clock w + Js.timeout (Sqs.sub_pollIntervalMs s), sid)]>
                   (Sqs.timers w)
            /\ Sqs.closures w1
               = <[sid := Sqs.set_timeoutId (Some (Sqs.next_timer w)) s]> (Sqs.closures w))).
Proof.
  unfold Sqs.reschedule. intros H.
  destruct (Sqs.closures w !! sid) as [s|]; simpl in H; [|done].
  exists s. split; [done|].
  destruct (Sqs.isActive s); inversion H; subst; simpl.
  - repeat split; try done. right. repeat split; done.
  - repeat split; try done. left. done.
Qed.

Lemma sqs_for_messages_inv pid sid todo w w1 os :
  Sqs.for_messages pid sid todo w = Some (w1, os) ->
  exists s, Sqs.closures w !! sid = Some s
    /\ (((todo = [] \/ Sqs.isActive s = false)
         /\ Sqs.reschedule sid (Sqs.set_polls (delete pid (Sqs.polls w)) w) = Some (w1, os))
        \/ (exists msg rest,
              todo = msg :: rest /\ Sqs.isActive s = true
              /\ w1 = Sqs.set_polls
                        (<[pid := (sid, Sqs.AwaitHandler msg rest)]> (Sqs.polls w)) w
              /\ os = [Sqs.ObsHandler sid msg])).
Proof.
  unfold Sqs.for_messages. intros H.
  destruct (Sqs.closures w !! sid) as [s|]; simpl in H; [|done].
  exists s. split; [done|].
  destruct todo as [|msg rest]; [left; by split; [left|]|].
  destruct (Sqs.isActive s) eqn:Ea; simpl in H.
  - right. exists msg, rest. by inversion H.
  - left. by split; [right|].
Qed.

Lemma sqs_poll_inv sid w w1 os :
  Sqs.poll sid w = Some (w1, os) ->
  exists s, Sqs.closures w !! sid = Some s
    /\ ((Sqs.isActive s = false /\ w1 = w /\ os = [])
        \/ (Sqs.isActive s = true
            /\ os = [Sqs.ObsPullStarted sid]
            /\ Sqs.polls w1 = <[Sqs.next_poll w := (sid, Sqs.AwaitPull)]> (Sqs.polls w)
            /\ Sqs.closures w1 = Sqs.closures w
            /\ Sqs.timers w1 = Sqs.timers w
            /\ Sqs.next_sub w1 = Sqs.next_sub w)).
Proof.
  unfold Sqs.poll. intros H.
  destruct (Sqs.closures w !! sid) as [s|]; simpl in H; [|done].
  exists s. split; [done|].
  destruct (Sqs.isActive s); simpl in H; inversion H; subst; clear H.
  - right. repeat split; reflexivity.
  - by left.
Qed.

Lemma sqs_unsubscribe_inv sid w w1 :
  Sqs.unsubscribe sid w = Some w1 ->
  exists s, Sqs.closures w !! sid = Some s
    /\ Sqs.closures w1 = <[sid := Sqs.set_isActive false s]> (Sqs.closures w)
    /\ Sqs.timers w1
       = match Sqs.timeoutId s with
         | Some tid => delete tid (Sqs.timers w)
         | None => Sqs.timers w
         end
    /\ Sqs.polls w1 = Sqs.polls w
    /\ Sqs.next_sub w1 = Sqs.next_sub w.
Proof.
  unfold Sqs.unsubscribe. intros H.
  destruct (Sqs.closures w !! sid) as [s|]; simpl in H; [|done].
  exists s. split; [done|]. inversion H; subst; clear H.
  destruct (Sqs.timeoutId s); simpl; repeat split; reflexivity.
Qed.

Lemma sqs_timers_unsubscribed (s : Sqs.subscription) (ts : gmap nat (Z * nat)) tid x :
  match Sqs.timeoutId s with
  | Some t => delete t ts
  | None => ts
  end !! tid = Some x ->
  ts !! tid = Some x /\ Sqs.timeoutId s ≠ Some tid.
Proof.
  destruct (Sqs.timeoutId s) as [t|]; [|by intros H; split].
  intros H. apply lookup_delete_Some in H as [Hne H]. split; [done | congruence].
Qed.

Lemma sqs_silent_set_polls sid ps w :
  sqs_silent sid w ->
  (sqs_inactive sid w \/ forall pid k, ps !! pid ≠ Some (sid, k)) ->
  sqs_silent sid (Sqs.set_polls ps w).
Proof.
  intros (Hlt & Hnt & Hp) Hps. split; [exact Hlt|]. split; [exact Hnt|].
  destruct Hps as [Hin|Hno]; [by left | by right].
Qed.

Lemma sqs_silent_delete_poll sid pid w :
  sqs_silent sid w -> sqs_silent sid (Sqs.set_polls (delete pid (Sqs.polls w)) w).
Proof.
  intros Hs. apply sqs_silent_set_polls; [done|].
  destruct Hs as (_ & _ & [Hin|Hno]); [by left|]. right.
  intros pid' k Hl. apply lookup_delete_Some in Hl as [_ Hl]. by apply (Hno pid' k).
Qed.

Lemma sqs_silent_insert_poll sid pid sid' k w :
  sqs_silent sid w -> (sid' = sid -> sqs_inactive sid w) ->
  sqs_silent sid (Sqs.set_polls (<[pid := (sid', k)]> (Sqs.polls w)) w).
Proof.
  intros Hs Hsame. apply sqs_silent_set_polls; [done|].
  destruct (decide (sid' = sid)) as [Heq|Hne]; [left; by apply Hsame|].
  destruct Hs as (_ & _ & [Hin|Hno]); [by left|]. right.
  intros pid' k' Hl. apply lookup_insert_Some in Hl as [[_ [= ? _]] | [_ Hl]]; [done|].
  by apply (Hno pid' k').
Qed.

Lemma sqs_silent_reschedule sid sid' w w1 os :
  sqs_silent sid w ->
  Sqs.reschedule sid' w = Some (w1, os) ->
  (sid' = sid -> sqs_inactive sid w) ->
  sqs_silent sid w1 /\ Forall (fun o => ¬ sqs_about sid o) os.
Proof.
  intros Hs Hr Hsame.
  apply sqs_reschedule_inv in Hr
    as (s & Hcl & Hpo1 & Hns1 & [(_ & -> & ->) | (Hact & -> & Hti & Hcl1)]).
  - split; [done | constructor].
  - assert (Hne : sid' ≠ sid).
    { intros ->. destruct (Hsame eq_refl) as (s' & Hs' & Hina). congruence. }
    destruct Hs as (Hlt & Hnt & Hp). split.
    + split; [by rewrite Hns1|]. split.
      * intros tid due Hl. rewrite Hti in Hl.
        apply lookup_insert_Some in Hl as [[_ [= _ ?]] | [_ Hl]]; [done|].
        by apply (Hnt tid due).
      * unfold sqs_inactive, sqs_no_poll. rewrite Hcl1, Hpo1.
        destruct Hp as [(s0 & Hs0 & Hina)|Hno]; [|by right].
        left. exists s0. by rewrite lookup_insert_ne.
    + sqs_not_about.
Qed.

Lemma sqs_silent_for_messages sid pid sid' todo w w1 os :
  sqs_silent sid w ->
  Sqs.for_messages pid sid' todo w = Some (w1, os) ->
  (sid' = sid -> sqs_inactive sid w) ->
  sqs_silent sid w1 /\ Forall (fun o => ¬ sqs_about sid o) os.
Proof.
  intros Hs Hf Hsame.
  apply sqs_for_messages_inv in Hf
    as (s & Hcl & [[_ Hr] | (msg & rest & -> & Hact & -> & ->)]).
  - eapply sqs_silent_reschedule; [apply sqs_silent_delete_poll, Hs | exact Hr | exact Hsame].
  - assert (Hne : sid' ≠ sid).
    { intros ->. destruct (Hsame eq_refl) as (s' & Hs' & Hina). congruence. }
    split; [by apply sqs_silent_insert_poll | sqs_not_about].
Qed.

Lemma sqs_silent_poll sid sid' w w1 os :
  sqs_silent sid w ->
  Sqs.poll sid' w = Some (w1, os) ->
  sid' ≠ sid ->
  sqs_silent sid w1 /\ Forall (fun o => ¬ sqs_about sid o) os.
Proof.
  intros Hs Hp Hne.
  apply sqs_poll_inv in Hp
    as (s & Hcl & [(_ & -> & ->) | (_ & -> & Hpo & Hcl1 & Hti & Hns)]).
  - split; [done | constructor].
  - destruct Hs as (Hlt & Hnt & Hp). split; [|sqs_not_about].
    split; [by rewrite Hns|]. split.
    + unfold sqs_no_timer. by rewrite Hti.
    + destruct Hp as [Hin|Hno]; [left; unfold sqs_inactive; by rewrite Hcl1|].
      right. intros pid k Hl. rewrite Hpo in Hl.
      apply lookup_insert_Some in Hl as [[_ [= ? _]] | [_ Hl]]; [done|].
      by apply (Hno pid k).
Qed.

Lemma sqs_silent_step sid w e w1 os :
  sqs_silent sid w ->
  Sqs.step w e = Some (w1, os) ->
  sqs_silent sid w1 /\ Forall (fun o => ¬ sqs_about sid o) os.
Proof.
  intros Hs Hstep. destruct e as [q options|sid'|ms|tid|pid r]; simpl in Hstep.
  - unfold Sqs.subscribe in Hstep.
    match type of Hstep with
    | context [Sqs.poll _ ?x] => set (w0 := x) in Hstep
    end.
    destruct (Sqs.poll (Sqs.next_sub w) w0) as [[w2 os2]|] eqn:Hp; simpl in Hstep; [|done].
    inversion Hstep; subst; clear Hstep.
    assert (Hne : Sqs.next_sub w ≠ sid) by (destruct Hs as (Hlt & _); lia).
    assert (Hs0 : sqs_silent sid w0).
    { destruct Hs as (Hlt & Hnt & Hpo). split; [simpl; lia|]. split; [exact Hnt|].
      destruct Hpo as [(s & Hcl & Hina)|Hno]; [|by right].
      left. exists s. split; [|done]. simpl. by rewrite lookup_insert_ne. }
    destruct (sqs_silent_poll sid _ w0 w1 os2 Hs0 Hp Hne) as [Hs1 Hos].
    split; [exact Hs1|]. apply Forall_app. split; [exact Hos | sqs_not_about].
  - destruct (Sqs.unsubscribe sid' w) as [w2|] eqn:Hu; simpl in Hstep; [|done].
    inversion Hstep; subst; clear Hstep. split; [|constructor].
    apply sqs_unsubscribe_inv in Hu as (s & Hcl & Hcl1 & Hti & Hpo & Hns).
    destruct Hs as (Hlt & Hnt & Hp). split; [by rewrite Hns|]. split.
    + intros tid due Hl. rewrite Hti in Hl.
      apply sqs_timers_unsubscribed in Hl as [Hl _]. by apply (Hnt tid due).
    + destruct (decide (sid' = sid)) as [->|Hne].
      * left. eexists. rewrite Hcl1, lookup_insert_eq. by split.
      * destruct Hp as [(s' & Hcl' & Hina)|Hno].
        -- left. exists s'. rewrite Hcl1, lookup_insert_ne by done. by split.
        -- right. unfold sqs_no_poll. by rewrite Hpo.
  - destruct (0 <=? ms); inversion Hstep; subst; clear Hstep.
    split; [exact Hs | constructor].
  - unfold Sqs.fire in Hstep.
    destruct (Sqs.timers w !! tid) as [[due sid']|] eqn:Ht; simpl in Hstep; [|done].
    destruct (due <=? Sqs.clock w); [|done].
    assert (Hs0 : sqs_silent sid (Sqs.set_timers (delete tid (Sqs.timers w)) w)).
    { destruct Hs as (Hlt & Hnt & Hp). split; [exact Hlt|]. split; [|exact Hp].
      intros tid' due' Hl. simpl in Hl. apply lookup_delete_Some in Hl as [_ Hl].
      by apply (Hnt tid' due'). }
    eapply sqs_silent_poll; [exact Hs0 | exact Hstep|].
    intros ->. destruct Hs as (_ & Hnt & _). by apply (Hnt tid due).
  - unfold Sqs.resume in Hstep.
    destruct (Sqs.polls w !! pid) as [[sid' k]|] eqn:Hpoll; simpl in Hstep; [|done].
    destruct (Sqs.closures w !! sid') as [s|] eqn:Hcl; simpl in Hstep; [|done].
    assert (Hsame : sid' = sid -> sqs_inactive sid w).
    { intros ->. destruct Hs as (_ & _ & [Hin|Hno]); [done|].
      by destruct (Hno pid k). }
    destruct k as [|msg rest|rest], r as [messages|[|]]; try done.
    + eapply sqs_silent_for_messages; eauto.
    + eapply sqs_silent_reschedule; [apply sqs_silent_delete_poll, Hs | exact Hstep | exact Hsame].
    + destruct (Sqs.sub_autoAck s).
      * inversion Hstep; subst; clear Hstep.
        split; [by apply sqs_silent_insert_poll | sqs_not_about].
      * eapply sqs_silent_for_messages; eauto.
    + eapply sqs_silent_for_messages; eauto.
    + eapply sqs_silent_for_messages; eauto.
    + eapply sqs_silent_for_messages; eauto.
Qed.

Lemma sqs_silent_exec sid es w w1 os :
  sqs_silent sid w ->
  Sqs.exec w es = Some (w1, os) ->
  sqs_silent sid w1 /\ Forall (fun o => ¬ sqs_about sid o) os.
Proof.
  revert w os. induction es as [|e es IH]; intros w os Hs Hex; simpl in Hex.
  - inversion Hex; subst. split; [done | constructor].
  - destruct (Sqs.step w e) as [[w2 os2]|] eqn:Hstep; simpl in Hex; [|done].
    destruct (Sqs.exec w2 es) as [[w3 os3]|] eqn:Hrest; simpl in Hex; [|done].
    inversion Hex; subst; clear Hex.
    destruct (sqs_silent_step sid w e w2 os2 Hs Hstep) as [Hs2 Hos2].
    destruct (IH w2 os3 Hs2 Hrest) as [Hs3 Hos3].
    split; [exact Hs3|]. apply Forall_app. by split.
Qed.

(** *** What holds of every state the SQS poller can reach *)

Lemma sqs_sound_init : sqs_sound (@Sqs.init T).
Proof.
  repeat split; repeat intros ?; simpl in *;
    repeat match goal with H : ∅ !! _ = Some _ |- _ => by rewrite lookup_empty in H end.
Qed.

(** A subscription with neither a timeout nor a poll may start a poll. *)
Lemma sqs_sound_poll sid w w1 os :
  sqs_sound w -> sqs_no_timer sid w -> sqs_no_poll sid w ->
  (sid < Sqs.next_sub w)%nat ->
  Sqs.poll sid w = Some (w1, os) -> sqs_sound w1.
Proof.
  intros Hs Hnt Hnp Hlt Hp.
  apply sqs_poll_inv in Hp
    as (s & Hcl & [(_ & -> & _) | (_ & _ & Hpo & Hcl1 & Hti & Hns)]); [done|].
  destruct Hs as (S1 & S2 & S3 & S4 & S5).
  unfold sqs_sound, sqs_no_timer. rewrite Hpo, Hcl1, Hti, Hns.
  split; [exact S1|]. split; [|split; [|split; [exact S4|]]].
  - intros pid sid' k Hl. apply lookup_insert_Some in Hl as [[_ [= <- _]] | [_ Hl]].
    + exact Hnt.
    + exact (S2 pid sid' k Hl).
  - intros pid pid' sid' k k' H1 H2.
    apply lookup_insert_Some in H1 as [[E1 V1] | [Hn1 H1]];
      apply lookup_insert_Some in H2 as [[E2 V2] | [Hn2 H2]]; simplify_eq; try done.
    + by destruct (Hnp pid' k').
    + by destruct (Hnp pid k).
    + exact (S3 pid pid' sid' k k' H1 H2).
  - intros pid sid' k Hl. apply lookup_insert_Some in Hl as [[_ [= <- _]] | [_ Hl]].
    + exact Hlt.
    + exact (S5 pid sid' k Hl).
Qed.

(** Taking a poll off the list leaves its subscription with neither a
    timeout nor a poll. *)
Lemma sqs_sound_delete_poll pid sid k w :
  sqs_sound w -> Sqs.polls w !! pid = Some (sid, k) ->
  let w' := Sqs.set_polls (delete pid (Sqs.polls w)) w in
  sqs_sound w' /\ sqs_no_timer sid w' /\ sqs_no_poll sid w'.
Proof.
  intros (S1 & S2 & S3 & S4 & S5) Hp. simpl. split; [|split].
  - split; [exact S1|]. split; [|split; [|split; [exact S4|]]].
    + intros pid' sid' k' Hl. simpl in Hl. apply lookup_delete_Some in Hl as [_ Hl].
      exact (S2 pid' sid' k' Hl).
    + intros p1 p2 sid' k1 k2 H1 H2. simpl in H1, H2.
      apply lookup_delete_Some in H1 as [_ H1]. apply lookup_delete_Some in H2 as [_ H2].
      exact (S3 p1 p2 sid' k1 k2 H1 H2).
    + intros pid' sid' k' Hl. simpl in Hl. apply lookup_delete_Some in Hl as [_ Hl].
      exact (S5 pid' sid' k' Hl).
  - exact (S2 pid sid k Hp).
  - intros pid' k' Hl. simpl in Hl. apply lookup_delete_Some in Hl as [Hne Hl].
    apply Hne. exact (S3 pid pid' sid k k' Hp Hl).
Qed.

Lemma sqs_sound_replace_poll pid sid k k' w :
  sqs_sound w -> Sqs.polls w !! pid = Some (sid, k) ->
  sqs_sound (Sqs.set_polls (<[pid := (sid, k')]> (Sqs.polls w)) w).
Proof.
  intros (S1 & S2 & S3 & S4 & S5) Hp.
  split; [exact S1|]. split; [|split; [|split; [exact S4|]]].
  - intros pid' sid' k0 Hl. simpl in Hl.
    apply lookup_insert_Some in Hl as [[_ [= <- _]] | [_ Hl]].
    + exact (S2 pid sid k Hp).
    + exact (S2 pid' sid' k0 Hl).
  - intros p1 p2 sid' k1 k2 H1 H2. simpl in H1, H2.
    apply lookup_insert_Some in H1 as [[E1 V1] | [Hn1 H1]];
      apply lookup_insert_Some in H2 as [[E2 V2] | [Hn2 H2]]; simplify_eq; try done.
    + exact (S3 _ p2 _ k k2 Hp H2).
    + symmetry. exact (S3 _ p1 _ k k1 Hp H1).
    + exact (S3 p1 p2 sid' k1 k2 H1 H2).
  - intros pid' sid' k0 Hl. simpl in Hl.
    apply lookup_insert_Some in Hl as [[_ [= <- _]] | [_ Hl]].
    + exact (S5 pid sid k Hp).
    + exact (S5 pid' sid' k0 Hl).
Qed.

Lemma sqs_sound_reschedule sid w w1 os :
  sqs_sound w -> sqs_no_timer sid w -> sqs_no_poll sid w ->
  Sqs.reschedule sid w = Some (w1, os) -> sqs_sound w1.
Proof.
  intros Hs Hnt Hnp Hr.
  apply sqs_reschedule_inv in Hr
    as (s & Hcl & Hpo1 & Hns1 & [(_ & -> & _) | (Hact & _ & Hti & Hcl1)]); [done|].
  destruct Hs as (S1 & S2 & S3 & S4 & S5).
  unfold sqs_sound, sqs_no_timer. rewrite Hpo1, Hns1, Hti, Hcl1.
  split; [|split; [|split; [exact S3|split; [|exact S5]]]].
  - intros tid due sid' Hl. apply lookup_insert_Some in Hl as [[<- [= _ <-]] | [_ Hl]].
    + eexists. rewrite lookup_insert_eq. split; [done|]. reflexivity.
    + assert (sid ≠ sid') by (intros ->; by apply (Hnt tid due)).
      rewrite lookup_insert_ne by done. exact (S1 tid due sid' Hl).
  - intros pid sid' k Hl tid due Ht.
    apply lookup_insert_Some in Ht as [[_ [= _ <-]] | [_ Ht]].
    + by apply (Hnp pid k).
    + by apply (S2 pid sid' k Hl tid due).
  - intros sid' s' Hl. apply lookup_insert_Some in Hl as [[<- _] | [_ Hl]].
    + exact (S4 sid s Hcl).
    + exact (S4 sid' s' Hl).
Qed.

Lemma sqs_sound_for_messages pid sid k todo w w1 os :
  sqs_sound w -> Sqs.polls w !! pid = Some (sid, k) ->
  Sqs.for_messages pid sid todo w = Some (w1, os) -> sqs_sound w1.
Proof.
  intros Hs Hp Hf.
  apply sqs_for_messages_inv in Hf
    as (s & Hcl & [[_ Hr] | (msg & rest & _ & _ & -> & _)]).
  - destruct (sqs_sound_delete_poll pid sid k w Hs Hp) as (Hs' & Hnt & Hnp).
    eapply sqs_sound_reschedule; [exact Hs' | exact Hnt | exact Hnp | exact Hr].
  - by apply (sqs_sound_replace_poll pid sid k).
Qed.

Lemma sqs_sound_step w e w1 os :
  sqs_sound w -> Sqs.step w e = Some (w1, os) -> sqs_sound w1.
Proof.
  intros Hs Hstep. destruct e as [q options|sid'|ms|tid|pid r]; simpl in Hstep.
  - unfold Sqs.subscribe in Hstep.
    match type of Hstep with
    | context [Sqs.poll _ ?x] => set (w0 := x) in Hstep
    end.
    destruct (Sqs.poll (Sqs.next_sub w) w0) as [[w2 os2]|] eqn:Hp; simpl in Hstep; [|done].
    inversion Hstep; subst; clear Hstep.
    destruct Hs as (S1 & S2 & S3 & S4 & S5).
    assert (Hnt : sqs_no_timer (Sqs.next_sub w) w).
    { intros tid due Hl. destruct (S1 tid due _ Hl) as (s & Hcl & _).
      apply S4 in Hcl. lia. }
    assert (Hnp : sqs_no_poll (Sqs.next_sub w) w).
    { intros pid k Hl. apply S5 in Hl. lia. }
    eapply (sqs_sound_poll (Sqs.next_sub w) w0); [|exact Hnt|exact Hnp|simpl; lia|exact Hp].
    split; [|split; [exact S2|split; [exact S3|split]]].
    + intros tid due sid Hl. simpl in Hl. destruct (S1 tid due sid Hl) as (s & Hcl & Hid).
      exists s. split; [|exact Hid]. simpl. rewrite lookup_insert_ne; [done|].
      apply S4 in Hcl. lia.
    + intros sid s Hl. simpl in Hl. simpl.
      apply lookup_insert_Some in Hl as [[<- _] | [_ Hl]]; [lia|]. apply S4 in Hl. lia.
    + intros pid sid k Hl. simpl in Hl. simpl. apply S5 in Hl. lia.
  - destruct (Sqs.unsubscribe sid' w) as [w2|] eqn:Hu; simpl in Hstep; [|done].
    inversion Hstep; subst; clear Hstep.
    apply sqs_unsubscribe_inv in Hu as (s & Hcl & Hcl1 & Hti & Hpo & Hns).
    destruct Hs as (S1 & S2 & S3 & S4 & S5).
    unfold sqs_sound, sqs_no_timer. rewrite Hcl1, Hti, Hpo, Hns.
    split; [|split; [|split; [exact S3|split; [|exact S5]]]].
    + intros tid due sid Hl. apply sqs_timers_unsubscribed in Hl as [Hl _].
      destruct (S1 tid due sid Hl) as (s0 & Hs0 & Hid).
      destruct (decide (sid' = sid)) as [->|Hne].
      * rewrite lookup_insert_eq. eexists. split; [done|]. simpl. congruence.
      * rewrite lookup_insert_ne by done. by exists s0.
    + intros pid sid k Hl tid due Ht. apply sqs_timers_unsubscribed in Ht as [Ht _].
      by apply (S2 pid sid k Hl tid due).
    + intros sid s0 Hl. apply lookup_insert_Some in Hl as [[<- _] | [_ Hl]].
      * exact (S4 sid' s Hcl).
      * exact (S4 sid s0 Hl).
  - destruct (0 <=? ms); inversion Hstep; subst. exact Hs.
  - unfold Sqs.fire in Hstep.
    destruct (Sqs.timers w !! tid) as [[due sid]|] eqn:Ht; simpl in Hstep; [|done].
    destruct (due <=? Sqs.clock w); [|done].
    destruct Hs as (S1 & S2 & S3 & S4 & S5).
    destruct (S1 tid due sid Ht) as (s & Hcl & Hid).
    eapply (sqs_sound_poll sid (Sqs.set_timers (delete tid (Sqs.timers w)) w));
      [| | |exact (S4 sid s Hcl)|exact Hstep].
    + split; [|split; [|split; [exact S3|split; [exact S4|exact S5]]]].
      * intros tid' due' sid' Hl. simpl in Hl. apply lookup_delete_Some in Hl as [_ Hl].
        exact (S1 tid' due' sid' Hl).
      * intros pid sid' k Hl tid' due' Ht'. simpl in Ht'.
        apply lookup_delete_Some in Ht' as [_ Ht']. by apply (S2 pid sid' k Hl tid' due').
    + intros tid' due' Hl. simpl in Hl. apply lookup_delete_Some in Hl as [Hne Hl].
      destruct (S1 tid' due' sid Hl) as (s' & Hcl' & Hid'). congruence.
    + intros pid k Hl. simpl in Hl. by apply (S2 pid sid k Hl tid due).
  - unfold Sqs.resume in Hstep.
    destruct (Sqs.polls w !! pid) as [[sid k]|] eqn:Hpoll; simpl in Hstep; [|done].
    destruct (Sqs.closures w !! sid) as [s|] eqn:Hcl; simpl in Hstep; [|done].
    destruct k as [|msg rest|rest], r as [messages|[|]]; try done.
    + eapply sqs_sound_for_messages; eauto.
    + destruct (sqs_sound_delete_poll pid sid _ w Hs Hpoll) as (Hs' & Hnt & Hnp).
      eapply sqs_sound_reschedule; [exact Hs' | exact Hnt | exact Hnp | exact Hstep].
    + destruct (Sqs.sub_autoAck s).
      * inversion Hstep; subst; clear Hstep. by eapply sqs_sound_replace_poll.
      * eapply sqs_sound_for_messages; eauto.
    + eapply sqs_sound_for_messages; eauto.
    + eapply sqs_sound_for_messages; eauto.
    + eapply sqs_sound_for_messages; eauto.
Qed.

Lemma sqs_sound_exec es w w1 os :
  sqs_sound w -> Sqs.exec w es = Some (w1, os) -> sqs_sound w1.
Proof.
  revert w os. induction es as [|e es IH]; intros w os Hs Hex; simpl in Hex.
  - by inversion Hex; subst.
  - destruct (Sqs.step w e) as [[w2 os2]|] eqn:Hstep; simpl in Hex; [|done].
    destruct (Sqs.exec w2 es) as [[w3 os3]|] eqn:Hrest; simpl in Hex; [|done].
    inversion Hex; subst; clear Hex.
    eapply IH; [|exact Hrest]. eapply sqs_sound_step; eauto.
Qed.

Lemma sqs_unsubscribe_silent sid w w1 :
  sqs_sound w -> Sqs.unsubscribe sid w = Some w1 -> sqs_silent sid w1.
Proof.
  intros (S1 & _ & _ & S4 & _) Hu.
  apply sqs_unsubscribe_inv in Hu as (s & Hcl & Hcl1 & Hti & _ & Hns).
  split; [rewrite Hns; exact (S4 sid s Hcl)|]. split.
  - intros tid due Hl. rewrite Hti in Hl.
    apply sqs_timers_unsubscribed in Hl as [Hl Hne].
    destruct (S1 tid due sid Hl) as (s0 & Hs0 & Hid). congruence.
  - left. eexists. rewrite Hcl1, lookup_insert_eq. by split.
Qed.

Lemma sqs_unsubscribe_twice sid w w1 :
  Sqs.unsubscribe sid w = Some w1 -> Sqs.unsubscribe sid w1 = Some w1.
Proof.
  unfold Sqs.unsubscribe. intros H.
  destruct (Sqs.closures w !! sid) as [s|]; simpl in H; [|done].
  inversion H; subst; clear H.
  destruct (Sqs.timeoutId s) as [tid|] eqn:Et; cbn;
    rewrite lookup_insert_eq; cbn; rewrite Et; cbn;
    rewrite ?insert_insert_eq, ?delete_delete_eq; reflexivity.
Qed.

(** A stopped subscription stays stopped. *)
Lemma sqs_inactive_step sid w e w1 os :
  (sid < Sqs.next_sub w)%nat -> sqs_inactive sid w ->
  Sqs.step w e = Some (w1, os) ->
  (sid < Sqs.next_sub w1)%nat /\ sqs_inactive sid w1.
Proof.
  intros Hlt Hin Hstep.
  assert (Hsame : forall w', Sqs.closures w' = Sqs.closures w ->
                             Sqs.next_sub w' = Sqs.next_sub w ->
                             (sid < Sqs.next_sub w')%nat /\ sqs_inactive sid w').
  { intros w' Hc Hn. unfold sqs_inactive. by rewrite Hc, Hn. }
  assert (Hresch : forall sid' w' w'' os',
            Sqs.closures w' = Sqs.closures w ->
            Sqs.next_sub w' = Sqs.next_sub w ->
            Sqs.reschedule sid' w' = Some (w'', os') ->
            (sid < Sqs.next_sub w'')%nat /\ sqs_inactive sid w'').
  { intros sid' w' w'' os' Hc Hn Hr.
    apply sqs_reschedule_inv in Hr
      as (s & Hcl & _ & Hn1 & [(_ & -> & _) | (Hact & _ & _ & Hc1)]).
    - by apply Hsame.
    - split; [rewrite Hn1, Hn; exact Hlt|]. unfold sqs_inactive. rewrite Hc1, Hc.
      destruct Hin as (s0 & Hs0 & Hina).
      destruct (decide (sid' = sid)) as [->|Hne]; [rewrite Hc in Hcl; congruence|].
      exists s0. by rewrite lookup_insert_ne. }
  assert (Hfor : forall pid sid' todo w' w'' os',
            Sqs.closures w' = Sqs.closures w ->
            Sqs.next_sub w' = Sqs.next_sub w ->
            Sqs.for_messages pid sid' todo w' = Some (w'', os') ->
            (sid < Sqs.next_sub w'')%nat /\ sqs_inactive sid w'').
  { intros pid sid' todo w' w'' os' Hc Hn Hf.
    apply sqs_for_messages_inv in Hf
      as (s & _ & [[_ Hr] | (msg & rest & _ & _ & -> & _)]).
    - exact (Hresch sid' (Sqs.set_polls (delete pid (Sqs.polls w')) w') w'' os' Hc Hn Hr).
    - by apply Hsame. }
  assert (Hpoll : forall sid' w' w'' os',
            Sqs.closures w' = Sqs.closures w ->
            Sqs.next_sub w' = Sqs.next_sub w ->
            Sqs.poll sid' w' = Some (w'', os') ->
            (sid < Sqs.next_sub w'')%nat /\ sqs_inactive sid w'').
  { intros sid' w' w'' os' Hc Hn Hp.
    apply sqs_poll_inv in Hp as (s & _ & [(_ & -> & _) | (_ & _ & _ & Hc1 & _ & Hn1)]).
    - by apply Hsame.
    - apply Hsame; congruence. }
  destruct e as [q options|sid'|ms|tid|pid r]; simpl in Hstep.
  - unfold Sqs.subscribe in Hstep.
    destruct (Sqs.poll _ _) as [[w2 os2]|] eqn:Hp; simpl in Hstep; [|done].
    inversion Hstep; subst; clear Hstep.
    apply sqs_poll_inv in Hp as (s & _ & [(_ & -> & _) | (_ & _ & _ & Hc1 & _ & Hn1)]).
    + simpl. split; [lia|]. destruct Hin as (s0 & Hs0 & Hina). exists s0.
      simpl. rewrite lookup_insert_ne by lia. by split.
    + rewrite Hn1. simpl. split; [lia|]. destruct Hin as (s0 & Hs0 & Hina). exists s0.
      rewrite Hc1. simpl. rewrite lookup_insert_ne by lia. by split.
  - destruct (Sqs.unsubscribe sid' w) as [w2|] eqn:Hu; simpl in Hstep; [|done].
    inversion Hstep; subst; clear Hstep.
    apply sqs_unsubscribe_inv in Hu as (s & Hcl & Hcl1 & _ & _ & Hns).
    split; [by rewrite Hns|]. unfold sqs_inactive. rewrite Hcl1.
    destruct (decide (sid' = sid)) as [->|Hne].
    + eexists. rewrite lookup_insert_eq. by split.
    + destruct Hin as (s0 & Hs0 & Hina). exists s0. by rewrite lookup_insert_ne.
  - destruct (0 <=? ms); inversion Hstep; subst. by apply Hsame.
  - unfold Sqs.fire in Hstep.
    destruct (Sqs.timers w !! tid) as [[due sid']|]; simpl in Hstep; [|done].
    destruct (due <=? Sqs.clock w); [|done].
    exact (Hpoll sid' (Sqs.set_timers (delete tid (Sqs.timers w)) w)
             w1 os eq_refl eq_refl Hstep).
  - unfold Sqs.resume in Hstep.
    destruct (Sqs.polls w !! pid) as [[sid' k]|]; simpl in Hstep; [|done].
    destruct (Sqs.closures w !! sid') as [s|]; simpl in Hstep; [|done].
    destruct k as [|msg rest|rest], r as [messages|[|]]; try done.
    + by apply (Hfor pid sid' messages w w1 os eq_refl eq_refl Hstep).
    + exact (Hresch sid' (Sqs.set_polls (delete pid (Sqs.polls w)) w)
               w1 os eq_refl eq_refl Hstep).
    + destruct (Sqs.sub_autoAck s).
      * inversion Hstep; subst. by apply Hsame.
      * by apply (Hfor pid sid' rest w w1 os eq_refl eq_refl Hstep).
    + by apply (Hfor pid sid' rest w w1 os eq_refl eq_refl Hstep).
    + by apply (Hfor pid sid' rest w w1 os eq_refl eq_refl Hstep).
    + by apply (Hfor pid sid' rest w w1 os eq_refl eq_refl Hstep).
Qed.

Lemma sqs_inactive_exec sid es w w1 os :
  (sid < Sqs.next_sub w)%nat -> sqs_inactive sid w ->
  Sqs.exec w es = Some (w1, os) ->
  (sid < Sqs.next_sub w1)%nat /\ sqs_inactive sid w1.
Proof.
  revert w os. induction es as [|e es IH]; intros w os Hlt Hin Hex; simpl in Hex.
  - by inversion Hex; subst.
  - destruct (Sqs.step w e) as [[w2 os2]|] eqn:Hstep; simpl in Hex; [|done].
    destruct (Sqs.exec w2 es) as [[w3 os3]|] eqn:Hrest; simpl in Hex; [|done].
    inversion Hex; subst; clear Hex.
    destruct (sqs_inactive_step sid w e w2 os2 Hlt Hin Hstep) as [Hlt2 Hin2].
    exact (IH w2 os3 Hlt2 Hin2 Hrest).
Qed.

(** [unsubscribe] of a stopped subscription leaves the closures and the
    polls as they are. *)
Lemma sqs_unsubscribe_again sid w :
  sqs_inactive sid w ->
  exists w1, Sqs.unsubscribe sid w = Some w1
    /\ Sqs.closures w1 = Sqs.closures w
    /\ Sqs.polls w1 = Sqs.polls w.
Proof.
  intros (s & Hs & Hina).
  destruct (Sqs.unsubscribe sid w) as [w1|] eqn:Hu.
  - exists w1. split; [done|].
    apply sqs_unsubscribe_inv in Hu as (s' & Hs' & Hcl1 & _ & Hpo & _).
    assert (s' = s) as -> by congruence.
    split; [|done]. rewrite Hcl1. apply insert_id.
    rewrite Hs. f_equal. destruct s; simpl in *. by subst.
  - unfold Sqs.unsubscribe in Hu. by rewrite Hs in Hu.
Qed.

End SqsSubscriptions.

(** ** Unsubscribing *)

(** What [unsubscribe] does achieve on the two timer-driven pollers
    (in-memory and SQS), in every state the driver can reach: once it has
    returned, whatever happens next, no poll of that subscription pulls,
    its handler is not called, no poll is scheduled for it and no timeout
    is pending for it, also when one of its polls was suspended at that
    moment. Calling [unsubscribe] again at once leaves the whole state as
    it is; calling it again at any later moment leaves the closures and the
    polls (and, in memory, the queues) as they are. It says nothing of the
    timeouts of the other subscriptions, which the in-memory [unsubscribe]
    clears when they are listed under the same queue. *)
Theorem unsubscribe_stops_polling {T : Type} :
  (forall es0 (w0 : InMemory.world T) os0 sid w1,
     InMemory.exec InMemory.init es0 = Some (w0, os0) ->
     InMemory.unsubscribe sid w0 = Some w1 ->
     InMemory.unsubscribe sid w1 = Some w1
     /\ forall es w2 os,
          InMemory.exec w1 es = Some (w2, os) ->
          Forall (fun o => ¬ about sid o) os
          /\ no_timer sid w2
          /\ exists w3, InMemory.unsubscribe sid w2 = Some w3
               /\ InMemory.closures w3 = InMemory.closures w2
               /\ InMemory.polls w3 = InMemory.polls w2
               /\ InMemory.queues w3 = InMemory.queues w2)
  /\ (forall es0 (w0 : Sqs.world T) os0 sid w1,
        Sqs.exec Sqs.init es0 = Some (w0, os0) ->
        Sqs.unsubscribe sid w0 = Some w1 ->
        Sqs.unsubscribe sid w1 = Some w1
        /\ forall es w2 os,
             Sqs.exec w1 es = Some (w2, os) ->
             Forall (fun o => ¬ sqs_about sid o) os
             /\ sqs_no_timer sid w2
             /\ exists w3, Sqs.unsubscribe sid w2 = Some w3
                  /\ Sqs.closures w3 = Sqs.closures w2
                  /\ Sqs.polls w3 = Sqs.polls w2).
Proof.
  split.
  - intros es0 w0 os0 sid w1 Hreach Hu.
    split; [by apply (unsubscribe_twice sid w0)|].
    intros es w2 os Hex.
    assert (Hsound : sound w0) by (eapply sound_exec; [apply sound_init | exact Hreach]).
    pose proof (unsubscribe_silent sid w0 w1 Hsound Hu) as Hsil.
    assert (Hina : inactive sid w1).
    { apply unsubscribe_inv in Hu as (s & _ & Hcl1 & _).
      eexists. rewrite Hcl1, lookup_insert_eq. by split. }
    destruct (inactive_exec sid es w1 w2 os (proj1 Hsil) Hina Hex) as [_ Hina2].
    destruct (silent_exec sid es w1 w2 os Hsil Hex) as [(_ & Hnt & _) Hos].
    split; [done|]. split; [done|]. by apply unsubscribe_again.
  - intros es0 w0 os0 sid w1 Hreach Hu.
    split; [by apply (sqs_unsubscribe_twice sid w0)|].
    intros es w2 os Hex.
    assert (Hsound : sqs_sound w0)
      by (eapply sqs_sound_exec; [apply sqs_sound_init | exact Hreach]).
    pose proof (sqs_unsubscribe_silent sid w0 w1 Hsound Hu) as Hsil.
    assert (Hina : sqs_inactive sid w1).
    { apply sqs_unsubscribe_inv in Hu as (s & _ & Hcl1 & _).
      eexists. rewrite Hcl1, lookup_insert_eq. by split. }
    destruct (sqs_inactive_exec sid es w1 w2 os (proj1 Hsil) Hina Hex) as [_ Hina2].
    destruct (sqs_silent_exec sid es w1 w2 os Hsil Hex) as [(_ & Hnt & _) Hos].
    split; [done|]. split; [done|]. by apply sqs_unsubscribe_again.
Qed.

Lemma unsubscribe_stops_polling_witness :
  (exists w0 os0 w1 w2 os,
     InMemory.exec InMemory.init handler_under_way = Some (w0, os0)
     /\ InMemory.polls w0 !! 0%nat
        = Some (0%nat, InMemory.AwaitHandler first_job [])
     /\ InMemory.unsubscribe 0 w0 = Some w1
     /\ InMemory.exec w1 after_unsubscribe = Some (w2, os)
     /\ Forall (fun o => ¬ about 0 o) os /\ no_timer 0 w2)
  /\ (exists w0 os0 w1 w2 os,
        Sqs.exec Sqs.init sqs_poll_under_way = Some (w0, os0)
        /\ Sqs.polls w0 !! 0%nat = Some (0%nat, Sqs.AwaitPull)
        /\ Sqs.unsubscribe 0 w0 = Some w1
        /\ Sqs.exec w1 sqs_after_unsubscribe = Some (w2, os)
        /\ Forall (fun o => ¬ sqs_about 0 o) os /\ sqs_no_timer 0 w2).
Proof.
  destruct (@unsubscribe_stops_polling nat) as [Hmem Hsqs]. split.
  - destruct (InMemory.exec InMemory.init handler_under_way) as [[w0 os0]|] eqn:E0;
      [|by vm_compute in E0].
    destruct (InMemory.unsubscribe 0 w0) as [w1|] eqn:E1;
      [|vm_compute in E0; injection E0 as <- <-; by vm_compute in E1].
    destruct (InMemory.exec w1 after_unsubscribe) as [[w2 os]|] eqn:E2;
      [|vm_compute in E0; injection E0 as <- <-; vm_compute in E1; injection E1 as <-;
        by vm_compute in E2].
    exists w0, os0, w1, w2, os.
    destruct (Hmem handler_under_way w0 os0 0%nat w1 E0 E1) as [_ Hafter].
    split; [done|]. split.
    { vm_compute in E0. injection E0 as <- <-. vm_compute. reflexivity. }
    split; [done|]. split; [done|].
    destruct (Hafter after_unsubscribe w2 os E2) as (Hos & Hnt & _). by split.
  - destruct (Sqs.exec Sqs.init sqs_poll_under_way) as [[w0 os0]|] eqn:E0;
      [|by vm_compute in E0].
    destruct (Sqs.unsubscribe 0 w0) as [w1|] eqn:E1;
      [|vm_compute in E0; injection E0 as <- <-; by vm_compute in E1].
    destruct (Sqs.exec w1 sqs_after_unsubscribe) as [[w2 os]|] eqn:E2;
      [|vm_compute in E0; injection E0 as <- <-; vm_compute in E1; injection E1 as <-;
        by vm_compute in E2].
    exists w0, os0, w1, w2, os.
    destruct (Hsqs sqs_poll_under_way w0 os0 0%nat w1 E0 E1) as [_ Hafter].
    split; [done|]. split.
    { vm_compute in E0. injection E0 as <- <-. vm_compute. reflexivity. }
    split; [done|]. split; [done|].
    destruct (Hafter sqs_after_unsubscribe w2 os E2) as (Hos & Hnt & _). by split.
Defined.

(** C7, the code at the failing input: subscription 0 has been
    unsubscribed, and subscription 1, made afterwards on the same queue,
    is active with its next poll scheduled. A second [unsubscribe] of 0 is
    not without effect: it cancels the timeout of 1; 1 is still active,
    but from then on, whatever happens, it never polls again. *)
Theorem repeated_unsubscribe_cancels_sibling :
  exists w0 os0 w1,
    InMemory.exec InMemory.init resubscribed = Some (w0, os0)
    /\ InMemory.isActive <$> (InMemory.closures w0 !! 0%nat) = Some false
    /\ InMemory.isActive <$> (InMemory.closures w0 !! 1%nat) = Some true
    /\ InMemory.subscriptions w0 !! "jobs" = Some [1%nat]
    /\ InMemory.timers w0 !! 1%nat
       = Some {| InMemory.due := 1000; InMemory.run := InMemory.CbPoll 1 |}
    /\ InMemory.unsubscribe 0 w0 = Some w1
    /\ InMemory.isActive <$> (InMemory.closures w1 !! 1%nat) = Some true
    /\ InMemory.timers w1 !! 1%nat = None
    /\ forall es w2 os,
         InMemory.exec w1 es = Some (w2, os) -> Forall (fun o => ¬ about 1 o) os.
Proof.
  destruct (InMemory.exec InMemory.init resubscribed) as [[w0 os0]|] eqn:E0;
    [|by vm_compute in E0].
  destruct (InMemory.unsubscribe 0 w0) as [w1|] eqn:E1;
    [|vm_compute in E0; injection E0 as <- <-; by vm_compute in E1].
  exists w0, os0, w1.
  vm_compute in E0. injection E0 as <- <-. vm_compute in E1. injection E1 as <-.
  split; [reflexivity|]. split; [vm_compute; reflexivity|].
  split; [vm_compute; reflexivity|]. split; [vm_compute; reflexivity|].
  split; [vm_compute; reflexivity|]. split; [vm_compute; reflexivity|].
  split; [vm_compute; reflexivity|]. split; [vm_compute; reflexivity|].
  intros es w2 os Hex.
  refine (proj2 (silent_exec 1 es _ w2 os _ Hex)).
  split; [simpl; lia|]. split.
  - intros tid t Hl. vm_compute in Hl. destruct tid; discriminate Hl.
  - right. intros pid k Hl. vm_compute in Hl. destruct pid; discriminate Hl.
Qed.

(** C6, the code at the failing input: with subscriptions 0 and 1 active on
    the same queue, each with its next poll scheduled, [unsubscribe] of 0
    cancels the timeout of 1 as well; 1 is still active, but from then on,
    whatever happens, it never polls again. *)
Theorem unsubscribe_cancels_sibling :
  exists w0 os0 w1,
    InMemory.exec InMemory.init two_subscribers = Some (w0, os0)
    /\ InMemory.subscriptions w0 !! "jobs" = Some [0%nat; 1%nat]
    /\ InMemory.timers w0 !! 1%nat
       = Some {| InMemory.due := 1000; InMemory.run := InMemory.CbPoll 1 |}
    /\ InMemory.unsubscribe 0 w0 = Some w1
    /\ InMemory.isActive <$> (InMemory.closures w1 !! 1%nat) = Some true
    /\ InMemory.timers w1 !! 1%nat = None
    /\ forall es w2 os,
         InMemory.exec w1 es = Some (w2, os) -> Forall (fun o => ¬ about 1 o) os.
Proof.
  destruct (InMemory.exec InMemory.init two_subscribers) as [[w0 os0]|] eqn:E0;
    [|by vm_compute in E0].
  destruct (InMemory.unsubscribe 0 w0) as [w1|] eqn:E1;
    [|vm_compute in E0; injection E0 as <- <-; by vm_compute in E1].
  exists w0, os0, w1.
  vm_compute in E0. injection E0 as <- <-. vm_compute in E1. injection E1 as <-.
  split; [reflexivity|]. split; [vm_compute; reflexivity|].
  split; [vm_compute; reflexivity|]. split; [vm_compute; reflexivity|].
  split; [vm_compute; reflexivity|]. split; [vm_compute; reflexivity|].
  intros es w2 os Hex.
  refine (proj2 (silent_exec 1 es _ w2 os _ Hex)).
  split; [simpl; lia|]. split.
  - intros tid t Hl. vm_compute in Hl. destruct tid; discriminate Hl.
  - right. intros pid k Hl. vm_compute in Hl. destruct pid; discriminate Hl.
Qed.

(** ** Delayed publication *)

Section DelayFacts.

Context {T : Type}.

Implicit Types (w : InMemory.world T) (msg : InMemory.StoredMessage T).
Implicit Types (o : InMemory.obs T) (e : InMemory.event T).

Lemma others_filter uid (P : InMemory.StoredMessage T -> Prop)
    `{!forall x, Decision (P x)} l :
  others uid l -> others uid (filter P l).
Proof.
  unfold others. rewrite !Forall_forall. intros Hall x Hx.
  apply list_elem_of_filter in Hx as [_ Hx]. by apply Hall.
Qed.

Lemma hidden_stored uid D w q : hidden uid D w -> others uid (InMemory.stored_in q w).
Proof.
  intros (Hq & _). unfold InMemory.stored_in.
  destruct (InMemory.queues w !! q) as [l|] eqn:E; simpl; [by apply (Hq q)|constructor].
Qed.

Lemma hidden_set_queue uid D w q l :
  hidden uid D w -> others uid l ->
  hidden uid D (InMemory.set_queues (<[q := l]> (InMemory.queues w)) w).
Proof.
  intros (Hq & Hp & Ht) Hl. split; [|by split].
  intros q' l' Hlk. simpl in Hlk.
  apply lookup_insert_Some in Hlk as [[_ <-] | [_ Hlk]]; [done|]. by apply (Hq q').
Qed.

Lemma hidden_delete_poll uid D w pid :
  hidden uid D w -> hidden uid D (InMemory.set_polls (delete pid (InMemory.polls w)) w).
Proof.
  intros (Hq & Hp & Ht). split; [done|]. split; [|done].
  intros pid' sid k Hlk. simpl in Hlk. apply lookup_delete_Some in Hlk as [_ Hlk].
  by apply (Hp pid' sid).
Qed.

Lemma hidden_insert_poll uid D w pid sid k :
  hidden uid D w -> others uid (poll_messages k) ->
  hidden uid D (InMemory.set_polls (<[pid := (sid, k)]> (InMemory.polls w)) w).
Proof.
  intros (Hq & Hp & Ht) Hk. split; [done|]. split; [|done].
  intros pid' sid' k' Hlk. simpl in Hlk.
  apply lookup_insert_Some in Hlk as [[_ E] | [_ Hlk]]; [by simplify_eq|].
  by apply (Hp pid' sid').
Qed.

Lemma hidden_pull uid D w q maxMessages :
  hidden uid D w ->
  hidden uid D (InMemory.pull q maxMessages w).1
  /\ others uid (InMemory.pull q maxMessages w).2.
Proof.
  intros Hh. rewrite pull_eq. cbn [fst snd].
  pose proof (others_filter uid (unexpired (InMemory.clock w)) _
                (hidden_stored uid D w q Hh)) as Hf.
  split.
  - apply hidden_set_queue; [done|]. by apply Forall_drop.
  - by apply Forall_take.
Qed.

Lemma hidden_reschedule uid D sid w w1 os :
  hidden uid D w -> InMemory.reschedule sid w = Some (w1, os) ->
  hidden uid D w1 /\ Forall (clean uid) os.
Proof.
  intros Hh Hr.
  apply reschedule_inv in Hr
    as (s & _ & _ & Hpo & Hqu & _ & _ & _ & [(_ & -> & ->) | (_ & -> & Hti & _ & _)]).
  - split; [done | constructor].
  - destruct Hh as (Hq & Hp & Ht). split; [|by repeat constructor].
    unfold hidden. rewrite Hqu, Hpo, Hti. split; [done|]. split; [done|].
    intros tid t q msg Hlk Hrun.
    apply lookup_insert_Some in Hlk as [[_ <-] | [_ Hlk]]; [done|]. by apply (Ht tid t q).
Qed.

Lemma hidden_for_messages uid D pid sid todo w w1 os :
  hidden uid D w -> others uid todo ->
  InMemory.for_messages pid sid todo w = Some (w1, os) ->
  hidden uid D w1 /\ Forall (clean uid) os.
Proof.
  intros Hh Htodo Hf.
  apply for_messages_inv in Hf as (s & _ & [[_ Hr] | (msg & rest & -> & _ & -> & ->)]).
  - eapply hidden_reschedule; [apply hidden_delete_poll, Hh | exact Hr].
  - split; [by apply hidden_insert_poll|].
    constructor; [|constructor]. simpl. by apply Forall_inv in Htodo.
Qed.

Lemma hidden_poll uid D sid w w1 os :
  hidden uid D w -> InMemory.poll sid w = Some (w1, os) ->
  hidden uid D w1 /\ Forall (clean uid) os.
Proof.
  intros Hh Hp. unfold InMemory.poll in Hp.
  destruct (InMemory.closures w !! sid) as [s|]; simpl in Hp; [|done].
  destruct (InMemory.isActive s); simpl in Hp.
  - destruct (hidden_pull uid D w (InMemory.sub_queue s)
                (Some (InMemory.sub_maxMessages s)) Hh) as [Hh1 Hms].
    destruct (InMemory.pull _ _ w) as [w' messages]. cbn [fst snd] in Hh1, Hms.
    inversion Hp; subst; clear Hp. split; [|by repeat constructor].
    destruct Hh1 as (Hq & Hpo & Ht). split; [done|]. split; [|done].
    intros pid sid' k Hlk. simpl in Hlk.
    apply lookup_insert_Some in Hlk as [[_ E] | [_ Hlk]]; [by simplify_eq|].
    by apply (Hpo pid sid').
  - inversion Hp; subst. split; [done | constructor].
Qed.

Lemma hidden_step uid D w e w1 os :
  hidden uid D w -> other_publish uid e -> InMemory.clock w < D ->
  InMemory.step w e = Some (w1, os) ->
  hidden uid D w1 /\ Forall (clean uid) os.
Proof.
  intros Hh Hfresh Hclock Hstep.
  destruct e as [q p options u1 u2|q k|q r|q options|sid'|ms|tid|pid o];
    simpl in Hstep, Hfresh.
  - unfold InMemory.publish in Hstep.
    destruct (Js.truthy_number (options ≫= Options.delaySeconds));
      inversion Hstep; subst; clear Hstep; (split; [|by repeat constructor]).
    + destruct Hh as (Hq & Hp & Ht). split; [done|]. split; [done|].
      intros tid t q' msg Hlk Hrun Hid. simpl in Hlk.
      apply lookup_insert_Some in Hlk as [[_ <-] | [_ Hlk]].
      * simpl in Hrun. injection Hrun as _ <-. simpl in Hid. done.
      * by apply (Ht tid t q' msg).
    + unfold InMemory.push. apply hidden_set_queue; [done|].
      apply Forall_app. split; [by apply (hidden_stored uid D)|].
      by repeat constructor.
  - destruct (hidden_pull uid D w q k Hh) as [Hh1 Hms].
    destruct (InMemory.pull q k w) as [w' messages]. cbn [fst snd] in Hh1, Hms.
    inversion Hstep; subst. split; [done | by repeat constructor].
  - inversion Hstep; subst; clear Hstep. split; [|constructor].
    unfold InMemory.ack. apply hidden_set_queue; [done|].
    apply others_filter. by apply (hidden_stored uid D).
  - unfold InMemory.subscribe in Hstep.
    match type of Hstep with
    | context [InMemory.poll _ ?x] => set (w0 := x) in Hstep
    end.
    destruct (InMemory.poll (InMemory.next_sub w) w0) as [[w2 os2]|] eqn:Hp;
      simpl in Hstep; [|done].
    inversion Hstep; subst; clear Hstep.
    destruct (hidden_poll uid D _ w0 w1 os2 Hh Hp) as [Hh1 Hos].
    split; [done|]. apply Forall_app. split; [done | by repeat constructor].
  - destruct (InMemory.unsubscribe sid' w) as [w2|] eqn:Hu; simpl in Hstep; [|done].
    inversion Hstep; subst; clear Hstep. split; [|constructor].
    apply unsubscribe_inv in Hu as (s & _ & _ & Hti & _ & Hpo & Hqu & _).
    destruct Hh as (Hq & Hp & Ht). unfold hidden. rewrite Hqu, Hpo, Hti.
    split; [done|]. split; [done|].
    intros tid t q msg Hlk. apply lookup_clear_timeouts in Hlk as [Hlk _].
    by apply (Ht tid t q msg).
  - destruct (0 <=? ms); inversion Hstep; subst. split; [exact Hh | constructor].
  - unfold InMemory.fire in Hstep.
    destruct (InMemory.timers w !! tid) as [t|] eqn:Etimer; simpl in Hstep; [|done].
    destruct (Z.leb_spec (InMemory.due t) (InMemory.clock w)) as [Hdue|]; [|done].
    assert (Hh0 : hidden uid D (InMemory.set_timers (delete tid (InMemory.timers w)) w)).
    { destruct Hh as (Hq & Hp & Ht). split; [done|]. split; [done|].
      intros tid' t' q msg Hlk. simpl in Hlk. apply lookup_delete_Some in Hlk as [_ Hlk].
      by apply (Ht tid' t' q msg). }
    destruct (InMemory.run t) as [q msg|sid] eqn:Hrun.
    + inversion Hstep; subst; clear Hstep. split; [|constructor].
      unfold InMemory.push. apply hidden_set_queue; [done|].
      apply Forall_app. split; [by apply (hidden_stored uid D)|].
      constructor; [|constructor]. intros Hid.
      destruct Hh as (_ & _ & Ht). specialize (Ht tid t q msg Etimer Hrun Hid). lia.
    + by apply (hidden_poll uid D sid _ w1 os Hh0).
  - unfold InMemory.resume in Hstep.
    destruct (InMemory.polls w !! pid) as [[sid k]|] eqn:Hpoll; simpl in Hstep; [|done].
    destruct (InMemory.closures w !! sid) as [s|] eqn:Hcl; simpl in Hstep; [|done].
    assert (Hk : others uid (poll_messages k)).
    { destruct Hh as (_ & Hp & _). by apply (Hp pid sid). }
    destruct k as [messages|msg rest|rest], o; try done; simpl in Hk.
    + by apply (hidden_for_messages uid D pid sid messages w).
    + apply Forall_cons in Hk as [Hmsg Hrest]. destruct (InMemory.sub_autoAck s).
      * inversion Hstep; subst; clear Hstep. split; [|constructor].
        apply (hidden_insert_poll uid D (InMemory.ack _ _ w)); [|done].
        unfold InMemory.ack. apply hidden_set_queue; [done|].
        apply others_filter. by apply (hidden_stored uid D).
      * by apply (hidden_for_messages uid D pid sid rest w).
    + apply Forall_cons in Hk as [Hmsg Hrest].
      apply (hidden_for_messages uid D pid sid rest (InMemory.on_handler_error s msg w));
        [|done|done].
      unfold InMemory.on_handler_error. destruct (negb _); [|done].
      apply hidden_set_queue; [done|].
      constructor; [done|]. by apply (hidden_stored uid D).
    + by apply (hidden_for_messages uid D pid sid rest w).
Qed.

Lemma step_clock w e w1 os :
  InMemory.step w e = Some (w1, os) -> InMemory.clock w <= InMemory.clock w1.
Proof.
  intros Hstep. destruct e as [q p options u1 u2|q k|q r|q options|sid'|ms|tid|pid o];
    simpl in Hstep.
  - unfold InMemory.publish in Hstep.
    destruct (Js.truthy_number _); inversion Hstep; subst; simpl; lia.
  - rewrite pull_eq in Hstep. inversion Hstep; subst; simpl; lia.
  - inversion Hstep; subst; simpl; lia.
  - unfold InMemory.subscribe in Hstep.
    destruct (InMemory.poll _ _) as [[w2 os2]|] eqn:Hp; simpl in Hstep; [|done].
    inversion Hstep; subst; clear Hstep.
    apply poll_inv in Hp as (s & _ & [(_ & -> & _) | (_ & _ & _ & _ & _ & _ & _ & _ & -> & _)]);
      simpl; lia.
  - destruct (InMemory.unsubscribe sid' w) as [w2|] eqn:Hu; simpl in Hstep; [|done].
    inversion Hstep; subst; clear Hstep.
    apply unsubscribe_inv in Hu as (s & _ & _ & _ & _ & _ & _ & -> & _). lia.
  - destruct (Z.leb_spec 0 ms); inversion Hstep; subst; simpl; lia.
  - unfold InMemory.fire in Hstep.
    destruct (InMemory.timers w !! tid) as [t|]; simpl in Hstep; [|done].
    destruct (InMemory.due t <=? InMemory.clock w); [|done].
    destruct (InMemory.run t) as [q msg|sid].
    + inversion Hstep; subst; simpl; lia.
    + apply poll_inv in Hstep
        as (s & _ & [(_ & -> & _) | (_ & _ & _ & _ & _ & _ & _ & _ & -> & _)]); simpl; lia.
  - unfold InMemory.resume in Hstep.
    destruct (InMemory.polls w !! pid) as [[sid k]|]; simpl in Hstep; [|done].
    destruct (InMemory.closures w !! sid) as [s|]; simpl in Hstep; [|done].
    destruct k as [messages|msg rest|rest], o; try done.
    + apply for_messages_queues in Hstep as [_ ->]. lia.
    + destruct (InMemory.sub_autoAck s).
      * inversion Hstep; subst; simpl; lia.
      * apply for_messages_queues in Hstep as [_ ->]. lia.
    + apply for_messages_queues in Hstep as [_ ->].
      unfold InMemory.on_handler_error. destruct (negb _); simpl; lia.
    + apply for_messages_queues in Hstep as [_ ->]. lia.
Qed.

Lemma exec_clock es w w1 os :
  InMemory.exec w es = Some (w1, os) -> InMemory.clock w <= InMemory.clock w1.
Proof.
  revert w os. induction es as [|e es IH]; intros w os Hex; simpl in Hex.
  - inversion Hex; subst. lia.
  - destruct (InMemory.step w e) as [[w2 os2]|] eqn:Hstep; simpl in Hex; [|done].
    destruct (InMemory.exec w2 es) as [[w3 os3]|] eqn:Hrest; simpl in Hex; [|done].
    inversion Hex; subst; clear Hex.
    apply step_clock in Hstep. apply IH in Hrest. lia.
Qed.

Lemma hidden_exec uid D es w w1 os :
  hidden uid D w -> Forall (other_publish uid) es ->
  InMemory.exec w es = Some (w1, os) -> InMemory.clock w1 < D ->
  hidden uid D w1 /\ Forall (clean uid) os.
Proof.
  revert w os. induction es as [|e es IH]; intros w os Hh Hfresh Hex Hclock; simpl in Hex.
  - inversion Hex; subst. split; [done | constructor].
  - destruct (InMemory.step w e) as [[w2 os2]|] eqn:Hstep; simpl in Hex; [|done].
    destruct (InMemory.exec w2 es) as [[w3 os3]|] eqn:Hrest; simpl in Hex; [|done].
    inversion Hex; subst; clear Hex.
    apply Forall_cons in Hfresh as [He Hes].
    pose proof (step_clock _ _ _ _ Hstep) as Hc1.
    pose proof (exec_clock _ _ _ _ Hrest) as Hc2.
    destruct (hidden_step uid D w e w2 os2 Hh He ltac:(lia) Hstep) as [Hh2 Hos2].
    destruct (IH w2 os3 Hh2 Hes Hrest Hclock) as [Hh3 Hos3].
    split; [done|]. apply Forall_app. by split.
Qed.

(** C8. On the in-memory driver, a message published with
    [delaySeconds = N] is kept out of the queues by a timeout, which waits
    for [N] seconds when [N * 1000] is a delay that [setTimeout] takes as
    it is, from 1 to 2^31 - 1 ms, and for 1 ms otherwise. As long as the
    clock has not reached the end of that delay, whatever happens, no pull
    and no poll returns the message, no handler is called on it, and it is
    in no queue. The id drawn for it is new to the driver and is not drawn
    again. *)
Theorem delayed_message_hidden q (p : T) options uuid_id uuid_receipt N w :
  options ≫= Options.delaySeconds = Some N -> N ≠ 0 ->
  unknown uuid_id w ->
  let published := InMemory.publish q p options uuid_id uuid_receipt w in
  let delay := Js.timeout (N * 1000) in
  InMemory.queues published.1 = InMemory.queues w
  /\ (0 < N -> N * 1000 <= Js.TIMEOUT_MAX -> delay = N * 1000)
  /\ forall es w1 os,
       Forall (other_publish uuid_id) es ->
       InMemory.exec published.1 es = Some (w1, os) ->
       InMemory.clock w1 < InMemory.clock w + delay ->
       Forall (clean uuid_id) os
       /\ forall q', others uuid_id (InMemory.stored_in q' w1).
Proof.
  intros Hdelay HN (Hq & Hp & Ht). simpl.
  unfold InMemory.publish. rewrite Hdelay.
  assert (Htruthy : Js.truthy_number (Some N) = true).
  { simpl. by destruct (Z.eqb_spec N 0). }
  rewrite Htruthy. cbn [fst snd default from_option]. unfold id.
  split; [reflexivity|].
  split; [intros H0 Hmax; apply timeout_in_range; lia|].
  intros es w1 os Hfresh Hex Hclock.
  match type of Hex with
  | InMemory.exec ?x _ = _ => set (w0 := x) in Hex
  end.
  assert (Hh : hidden uuid_id (InMemory.clock w + Js.timeout (N * 1000)) w0).
  { split; [exact Hq|]. split; [exact Hp|].
    intros tid t q' msg Hlk Hrun Hid. subst w0. simpl in Hlk.
    apply lookup_insert_Some in Hlk as [[_ <-] | [_ Hlk]].
    - simpl. lia.
    - by destruct (Ht tid t q' msg Hlk Hrun). }
  destruct (hidden_exec uuid_id _ es w0 w1 os Hh Hfresh Hex Hclock) as [Hh1 Hos].
  split; [done|]. intros q'.
  by apply (hidden_stored uuid_id (InMemory.clock w + Js.timeout (N * 1000)) w1 q').
Qed.

End DelayFacts.

Lemma delayed_message_hidden_witness :
  let published := InMemory.publish "del" 1%nat in_five_seconds "id-1" "rc-1" InMemory.init in
  exists w1 os,
    InMemory.exec published.1 before_the_delay = Some (w1, os)
    /\ InMemory.clock w1 = 4999
    /\ Forall (clean "id-1") os
    /\ forall q', others "id-1" (InMemory.stored_in q' w1).
Proof.
  cbv zeta.
  destruct (delayed_message_hidden "del" 1%nat in_five_seconds "id-1" "rc-1" 5
              InMemory.init) as (_ & _ & Hhidden).
  - reflexivity.
  - lia.
  - repeat split; intros ? ? ?; simpl; intros; by rewrite ?lookup_empty in *.
  - destruct (InMemory.exec
                (InMemory.publish "del" 1%nat in_five_seconds "id-1" "rc-1" InMemory.init).1
                before_the_delay) as [[w1 os]|] eqn:E; [|by vm_compute in E].
    exists w1, os. split; [reflexivity|].
    split; [vm_compute in E; injection E as <- _; reflexivity|].
    apply (Hhidden before_the_delay w1 os).
    + repeat constructor.
    + exact E.
    + vm_compute in E. injection E as <- _. vm_compute. reflexivity.
Defined.

(** C8, the claim as stated fails: 2147484 seconds are more milliseconds
    than [setTimeout] takes, the delayed push is due after 1 ms, and a
    pull at that moment returns the message, 2147483999 ms before the
    delay asked for is over. *)
Lemma delayed_message_overflow_counterexample :
  let published := InMemory.publish "del" 1%nat in_25_days "id-1" "rc-1" InMemory.init in
  exists w1,
    InMemory.exec published.1
      [InMemory.EvAdvance 1; InMemory.EvTimer 0; InMemory.EvPull "del" None]
    = Some (w1, [InMemory.ObsPulled [published.2]])
    /\ InMemory.clock w1
       = Message.publishedAt (InMemory.message published.2) + 1.
Proof.
  cbv zeta. eexists. split; [vm_compute; reflexivity|]. reflexivity.
Qed.

(** Once the delay has passed the timeout can run, and the message is
    pulled. *)
Example delayed_message_arrives :
  let published := InMemory.publish "del" 1%nat in_five_seconds "id-1" "rc-1" InMemory.init in
  snd <$> InMemory.exec published.1
            [InMemory.EvAdvance 5000; InMemory.EvTimer 0; InMemory.EvPull "del" None]
  = Some [InMemory.ObsPulled [published.2]].
Proof. vm_compute. reflexivity. Qed.

(** Before the delay has passed the timeout cannot run. *)
Example delayed_message_not_due :
  let published := InMemory.publish "del" 1%nat in_five_seconds "id-1" "rc-1" InMemory.init in
  InMemory.exec published.1 [InMemory.EvAdvance 4999; InMemory.EvTimer 0] = None.
Proof. vm_compute. reflexivity. Qed.

(* ================================================================== *)
(** * Further properties *)

(** ** The in-memory driver: how publish, pull and ack compose *)

Section InMemoryCompose.

Context {T : Type}.

Implicit Types (w : InMemory.world T) (msg : InMemory.StoredMessage T).
Implicit Types (q r : string).

Lemma stored_in_ack q r w :
  InMemory.stored_in q (InMemory.ack q r w)
  = filter (fun msg => Message.receipt (InMemory.message msg) ≠ r) (InMemory.stored_in q w).
Proof. unfold InMemory.ack. by rewrite stored_in_set_queues_eq. Qed.

(** X1. [ack] before [pull]: whatever a later pull of the queue returns or
    leaves, no message with the acked receipt is among them, and all the
    other unexpired messages are, in their stored order; the other queues
    are as before. *)
Theorem ack_then_pull q r maxMessages w :
  let acked := InMemory.ack q r w in
  let pulled := InMemory.pull q maxMessages acked in
  pulled.2 ++ InMemory.stored_in q pulled.1
  = filter (unexpired (InMemory.clock w))
      (filter (fun msg => Message.receipt (InMemory.message msg) ≠ r)
              (InMemory.stored_in q w))
  /\ (forall msg, msg ∈ pulled.2 ++ InMemory.stored_in q pulled.1 ->
                  Message.receipt (InMemory.message msg) ≠ r)
  /\ (forall q', q' ≠ q -> InMemory.stored_in q' pulled.1 = InMemory.stored_in q' w).
Proof.
  intros acked pulled.
  assert (Happ : pulled.2 ++ InMemory.stored_in q pulled.1
                 = filter (unexpired (InMemory.clock w))
                     (filter (fun msg => Message.receipt (InMemory.message msg) ≠ r)
                             (InMemory.stored_in q w))).
  { subst pulled. rewrite stored_in_pull, pull_eq. cbn [snd]. rewrite take_drop.
    subst acked. by rewrite stored_in_ack. }
  split; [exact Happ|]. split.
  - intros msg Hin. rewrite Happ in Hin.
    apply list_elem_of_filter in Hin as [_ Hin].
    by apply list_elem_of_filter in Hin as [Hr _].
  - intros q' Hne. subst pulled acked. rewrite pull_eq. cbn [fst].
    unfold InMemory.stored_in, InMemory.ack. simpl.
    by rewrite !lookup_insert_ne.
Qed.

(** X2. [pull] always purges: also when it is asked for no message
    ([maxMessages <= 0]) it returns nothing but leaves in the queue exactly
    the messages that have not expired, and whatever the count, no expired
    message is left behind and no other queue is touched. *)
Theorem pull_purges_expired q maxMessages w :
  let pulled := InMemory.pull q maxMessages w in
  Forall (unexpired (InMemory.clock w)) (InMemory.stored_in q pulled.1)
  /\ (forall q', q' ≠ q -> InMemory.stored_in q' pulled.1 = InMemory.stored_in q' w)
  /\ (default 1 maxMessages <= 0 ->
      pulled.2 = []
      /\ InMemory.stored_in q pulled.1
         = filter (unexpired (InMemory.clock w)) (InMemory.stored_in q w)).
Proof.
  intros pulled. subst pulled. rewrite stored_in_pull, pull_eq. cbn [fst snd].
  split; [|split].
  - apply Forall_drop. apply Forall_forall. intros x Hx.
    by apply list_elem_of_filter in Hx as [Hx _].
  - intros q' Hne. unfold InMemory.stored_in. simpl. by rewrite lookup_insert_ne.
  - intros Hk. replace (Z.to_nat (default 1 maxMessages)) with 0%nat by lia.
    by rewrite take_0, drop_0.
Qed.

Lemma publish_all_stored q items w :
  InMemory.stored_in q (publish_all q items w).1
  = InMemory.stored_in q w ++ (publish_all q items w).2
  /\ InMemory.clock (publish_all q items w).1 = InMemory.clock w.
Proof.
  revert w. induction items as [|[[p u] rc] rest IH]; intros w; simpl.
  - by rewrite app_nil_r.
  - destruct (publish_all q rest (InMemory.push q _ w)) as [w2 msgs] eqn:E.
    specialize (IH (InMemory.push q
      {| InMemory.message :=
           {| Message.id := u; Message.payload := p;
              Message.publishedAt := InMemory.clock w; Message.expiresAt := None;
              Message.receipt := rc; Message.attributes := None;
              Message.correlationId := None |};
         InMemory.queue := q |} w)).
    rewrite E in IH. cbn [fst snd] in IH |- *. destruct IH as [IH1 IH2].
    rewrite IH1, stored_in_push_eq, <- app_assoc. split; [done|]. by rewrite IH2.
Qed.

Lemma publish_all_messages q items w :
  Message.payload <$> (InMemory.message <$> (publish_all q items w).2)
  = (fun item => item.1.1) <$> items
  /\ Forall (fun msg => Message.expiresAt (InMemory.message msg) = None)
            (publish_all q items w).2.
Proof.
  revert w. induction items as [|[[p u] rc] rest IH]; intros w; simpl.
  - split; [done | constructor].
  - destruct (publish_all q rest (InMemory.push q _ w)) as [w2 msgs] eqn:E.
    specialize (IH (InMemory.push q
      {| InMemory.message :=
           {| Message.id := u; Message.payload := p;
              Message.publishedAt := InMemory.clock w; Message.expiresAt := None;
              Message.receipt := rc; Message.attributes := None;
              Message.correlationId := None |};
         InMemory.queue := q |} w)).
    rewrite E in IH. cbn [fst snd] in IH |- *. destruct IH as [IH1 IH2].
    split; [|by constructor].
    rewrite !fmap_cons. cbn. f_equal. exact IH1.
Qed.

(** X3. First in, first out: after a batch of publishes without options
    into a queue that holds nothing, a pull of [K] messages returns the
    first [K] messages published, in the order of publication and with
    their payloads, and leaves the others, in that order. *)
Theorem publish_order_is_pull_order q items maxMessages w :
  InMemory.stored_in q w = [] ->
  let published := publish_all q items w in
  let pulled := InMemory.pull q maxMessages published.1 in
  let k := Z.to_nat (default 1 maxMessages) in
  pulled.2 = take k published.2
  /\ InMemory.stored_in q pulled.1 = drop k published.2
  /\ Message.payload <$> (InMemory.message <$> pulled.2)
     = take k ((fun item => item.1.1) <$> items).
Proof.
  intros Hempty published pulled k.
  destruct (publish_all_stored q items w) as [Hst Hclock].
  destruct (publish_all_messages q items w) as [Hpay Hnever].
  fold published in Hst, Hclock, Hpay, Hnever. rewrite Hempty in Hst. simpl in Hst.
  assert (Hvalid : filter (unexpired (InMemory.clock published.1))
                     (InMemory.stored_in q published.1) = published.2).
  { rewrite Hst. clear Hst Hpay. induction Hnever as [|m l Hm _ IH]; [done|].
    rewrite filter_cons_True; [by rewrite IH|].
    unfold unexpired, InMemory.is_expired. by rewrite Hm. }
  assert (H1 : pulled.2 = take k published.2).
  { subst pulled. rewrite pull_eq. cbn [snd]. by rewrite Hvalid. }
  split; [exact H1|]. split.
  - subst pulled. rewrite stored_in_pull. by rewrite Hvalid.
  - rewrite H1, <- Hpay, !fmap_take. done.
Qed.

End InMemoryCompose.

Lemma publish_order_is_pull_order_witness :
  let items := [(1%nat, "id-1", "rc-1"); (2%nat, "id-2", "rc-2"); (3%nat, "id-3", "rc-3")] in
  let published := publish_all "jobs" items InMemory.init in
  let pulled := InMemory.pull "jobs" (Some 2) published.1 in
  pulled.2 = take 2 published.2
  /\ InMemory.stored_in "jobs" pulled.1 = drop 2 published.2
  /\ Message.payload <$> (InMemory.message <$> pulled.2) = [1%nat; 2%nat].
Proof.
  apply (publish_order_is_pull_order "jobs"
           [(1%nat, "id-1", "rc-1"); (2%nat, "id-2", "rc-2"); (3%nat, "id-3", "rc-3")]
           (Some 2) InMemory.init).
  reflexivity.
Defined.

(** ** The in-memory poller: what becomes of a pulled message *)

Section InMemoryPollerFacts.

Context {T : Type}.

Implicit Types (w : InMemory.world T) (msg : InMemory.StoredMessage T).

(** X4. A message handed to a handler is put back only by a failure
    without auto-ack. With auto-ack, a failure leaves the queues as they
    are, so the message is lost, and a success removes from the queue what
    carries its receipt; without auto-ack a success leaves the queues as
    they are: nothing is acked, and the message is gone all the same. *)
Theorem pulled_message_is_gone pid sid s msg rest o w :
  InMemory.polls w !! pid = Some (sid, InMemory.AwaitHandler msg rest) ->
  InMemory.closures w !! sid = Some s ->
  (InMemory.sub_autoAck s = true \/ o = Resolved) ->
  exists w1 os,
    InMemory.resume pid o w = Some (w1, os)
    /\ InMemory.stored_in (InMemory.sub_queue s) w1
       = (if InMemory.sub_autoAck s
          then match o with
               | Resolved =>
                   filter (fun m => Message.receipt (InMemory.message m)
                                    ≠ Message.receipt (InMemory.message msg))
                          (InMemory.stored_in (InMemory.sub_queue s) w)
               | Rejected => InMemory.stored_in (InMemory.sub_queue s) w
               end
          else InMemory.stored_in (InMemory.sub_queue s) w)
    /\ (forall q', q' ≠ InMemory.sub_queue s ->
                   InMemory.stored_in q' w1 = InMemory.stored_in q' w).
Proof.
  intros Hp Hs Hcase.
  unfold InMemory.resume. rewrite Hp. simpl. rewrite Hs. simpl.
  destruct o.
  - destruct (InMemory.sub_autoAck s) eqn:Ha.
    + eexists _, _. split; [reflexivity|]. split.
      * unfold InMemory.stored_in, InMemory.ack. simpl. by rewrite lookup_insert_eq.
      * intros q' Hne. unfold InMemory.stored_in, InMemory.ack. simpl.
        by rewrite lookup_insert_ne.
    + destruct (for_messages_total pid sid rest w s Hs) as (w1 & os & Hfm).
      exists w1, os. split; [exact Hfm|].
      apply for_messages_queues in Hfm as [Hqs _].
      unfold InMemory.stored_in. rewrite Hqs. by split.
  - destruct Hcase as [Ha|Ho]; [|done].
    unfold InMemory.on_handler_error. rewrite Ha. simpl.
    destruct (for_messages_total pid sid rest w s Hs) as (w1 & os & Hfm).
    exists w1, os. split; [exact Hfm|].
    apply for_messages_queues in Hfm as [Hqs _].
    unfold InMemory.stored_in. rewrite Hqs. by split.
Qed.

(** X5. Messages that a poll has pulled are dropped when the subscription
    is stopped while the handler is at work on an earlier message of the
    batch: once that handler call (and, with auto-ack, the ack after it)
    has settled, the poll ends without calling the handler on the rest,
    without scheduling anything, and without putting the rest back; the
    queue is changed only by what is done about the message that was being
    handled. *)
Theorem stopped_poll_drops_messages pid sid s msg rest o w :
  InMemory.polls w !! pid = Some (sid, InMemory.AwaitHandler msg rest) ->
  InMemory.closures w !! sid = Some s ->
  InMemory.isActive s = false ->
  let q := InMemory.sub_queue s in
  exists w1,
    InMemory.exec w (settle pid (InMemory.sub_autoAck s) o) = Some (w1, [])
    /\ InMemory.polls w1 = delete pid (InMemory.polls w)
    /\ InMemory.timers w1 = InMemory.timers w
    /\ InMemory.subscriptions w1 = InMemory.subscriptions w
    /\ InMemory.stored_in q w1
       = match o, InMemory.sub_autoAck s with
         | Rejected, false => msg :: InMemory.stored_in q w
         | Resolved, true =>
             filter (fun m => Message.receipt (InMemory.message m)
                              ≠ Message.receipt (InMemory.message msg))
                    (InMemory.stored_in q w)
         | _, _ => InMemory.stored_in q w
         end
    /\ (forall q', q' ≠ q -> InMemory.stored_in q' w1 = InMemory.stored_in q' w).
Proof.
  intros Hp Hs Hina q.
  assert (Hend : forall k w',
            InMemory.closures w' !! sid = Some s ->
            InMemory.for_messages pid sid k w'
            = Some (InMemory.set_polls (delete pid (InMemory.polls w')) w', [])).
  { intros k w' Hs'.
    assert (Hr : InMemory.reschedule sid
                   (InMemory.set_polls (delete pid (InMemory.polls w')) w')
                 = Some (InMemory.set_polls (delete pid (InMemory.polls w')) w', [])).
    { unfold InMemory.reschedule. cbn [InMemory.closures InMemory.set_polls].
      rewrite Hs'. cbn [mbind option_bind]. by rewrite Hina. }
    unfold InMemory.for_messages. rewrite Hs'. cbn [mbind option_bind].
    rewrite Hina. by destruct k. }
  destruct o; [destruct (InMemory.sub_autoAck s) eqn:Ha|].
  - pose (w0 := InMemory.ack q (Message.receipt (InMemory.message msg)) w).
    pose (wa := InMemory.set_polls
                  (<[pid := (sid, InMemory.AwaitAck rest)]> (InMemory.polls w0)) w0).
    assert (H1 : InMemory.resume pid Resolved w = Some (wa, [])).
    { unfold InMemory.resume. rewrite Hp. cbn [mbind option_bind]. rewrite Hs.
      cbn [mbind option_bind]. by rewrite Ha. }
    assert (H2 : InMemory.resume pid Resolved wa
                 = Some (InMemory.set_polls (delete pid (InMemory.polls wa)) wa, [])).
    { assert (Hpa : InMemory.polls wa !! pid = Some (sid, InMemory.AwaitAck rest))
        by apply lookup_insert_eq.
      assert (Hsa : InMemory.closures wa !! sid = Some s) by exact Hs.
      unfold InMemory.resume. rewrite Hpa. cbn [mbind option_bind]. rewrite Hsa.
      cbn [mbind option_bind]. by apply Hend. }
    eexists. cbn [settle InMemory.exec InMemory.step].
    rewrite H1. cbn [mbind option_bind]. rewrite H2. cbn [mbind option_bind app].
    split; [reflexivity|]. split; [apply delete_insert_eq|].
    split; [reflexivity|]. split; [reflexivity|]. split.
    + unfold InMemory.stored_in, InMemory.ack. simpl. by rewrite lookup_insert_eq.
    + intros q' Hne. unfold InMemory.stored_in, InMemory.ack. simpl.
      by rewrite lookup_insert_ne.
  - eexists. cbn [settle InMemory.exec InMemory.step].
    unfold InMemory.resume. rewrite Hp. cbn [mbind option_bind]. rewrite Hs.
    cbn [mbind option_bind]. rewrite Ha, (Hend rest w Hs). cbn [mbind option_bind app].
    split; [reflexivity|]. by repeat split.
  - pose (w' := InMemory.on_handler_error s msg w).
    assert (Hs' : InMemory.closures w' !! sid = Some s).
    { subst w'. unfold InMemory.on_handler_error. by destruct (negb _). }
    assert (Hone : settle pid (InMemory.sub_autoAck s) Rejected
                   = [InMemory.EvResume (T:=T) pid Rejected]) by reflexivity.
    eexists. rewrite Hone. cbn [InMemory.exec InMemory.step].
    unfold InMemory.resume. rewrite Hp. cbn [mbind option_bind]. rewrite Hs.
    cbn [mbind option_bind]. fold w'. rewrite (Hend rest w' Hs').
    cbn [mbind option_bind app].
    split; [reflexivity|]. subst w'. unfold InMemory.on_handler_error.
    destruct (InMemory.sub_autoAck s); cbn [negb]; [by repeat split|].
    split; [reflexivity|]. split; [reflexivity|]. split; [reflexivity|]. split.
    + unfold InMemory.stored_in. simpl. by rewrite lookup_insert_eq.
    + intros q' Hne. unfold InMemory.stored_in. simpl. by rewrite lookup_insert_ne.
Qed.

(** X6. A delayed message is not lost: once the delay has passed, the
    timeout set by [publish] can run, and it puts the message at the tail
    of its queue. *)
Theorem delayed_message_pushed_when_due q (p : T) options uuid_id uuid_receipt N ms w :
  options ≫= Options.delaySeconds = Some N -> 0 < N -> N * 1000 <= ms ->
  let published := InMemory.publish q p options uuid_id uuid_receipt w in
  exists w1,
    InMemory.exec published.1
      [InMemory.EvAdvance ms; InMemory.EvTimer (InMemory.next_timer w)] = Some (w1, [])
    /\ InMemory.stored_in q w1 = InMemory.stored_in q w ++ [published.2]
    /\ InMemory.timers w1 !! InMemory.next_timer w = None.
Proof.
  intros Hdelay HN Hms. simpl. unfold InMemory.publish. rewrite Hdelay.
  assert (Htruthy : Js.truthy_number (Some N) = true).
  { simpl. destruct (Z.eqb_spec N 0); [lia | done]. }
  rewrite Htruthy. cbn [fst snd default from_option]. unfold id.
  assert (H0 : (0 <=? ms) = true) by (apply Z.leb_le; lia).
  assert (Hdue : (InMemory.clock w + Js.timeout (N * 1000) <=? InMemory.clock w + ms)
                 = true).
  { apply Z.leb_le. pose proof (timeout_le (N * 1000)). lia. }
  unfold InMemory.exec, InMemory.step. rewrite H0. cbn [mbind option_bind].
  unfold InMemory.fire. cbn [InMemory.timers InMemory.set_clock InMemory.setTimeout fst].
  rewrite lookup_insert_eq.
  cbn [mbind option_bind InMemory.due InMemory.clock InMemory.set_clock].
  rewrite Hdue. cbn. eexists. split; [reflexivity|]. split.
  - unfold InMemory.stored_in. simpl. by rewrite lookup_insert_eq.
  - simpl. by rewrite lookup_delete_eq.
Qed.

End InMemoryPollerFacts.

Lemma pulled_message_is_gone_witness :
  exists w1 os,
    InMemory.resume 0 Resolved awaiting_handler = Some (w1, os)
    /\ InMemory.stored_in "jobs" w1 = InMemory.stored_in "jobs" awaiting_handler
    /\ (forall q', q' ≠ "jobs" ->
                   InMemory.stored_in q' w1 = InMemory.stored_in q' awaiting_handler).
Proof.
  apply (pulled_message_is_gone 0 0 manual_ack_subscription first_job [] Resolved
           awaiting_handler).
  - vm_compute. reflexivity.
  - vm_compute. reflexivity.
  - by right.
Defined.

Lemma stopped_poll_drops_messages_witness :
  InMemory.polls stopped_while_handling !! 0%nat
  = Some (0%nat, InMemory.AwaitHandler first_job [second_job])
  /\ exists w1,
       InMemory.exec stopped_while_handling [InMemory.EvResume 0 Rejected] = Some (w1, [])
       /\ InMemory.polls w1 = delete 0%nat (InMemory.polls stopped_while_handling)
       /\ InMemory.timers w1 = InMemory.timers stopped_while_handling
       /\ InMemory.subscriptions w1 = InMemory.subscriptions stopped_while_handling
       /\ InMemory.stored_in "jobs" w1
          = first_job :: InMemory.stored_in "jobs" stopped_while_handling
       /\ (forall q', q' ≠ "jobs" ->
              InMemory.stored_in q' w1 = InMemory.stored_in q' stopped_while_handling).
Proof.
  split; [vm_compute; reflexivity|].
  apply (stopped_poll_drops_messages 0 0
           {| InMemory.sub_queue := "jobs"; InMemory.sub_maxMessages := 2;
              InMemory.sub_pollIntervalMs := 1000; InMemory.sub_autoAck := false;
              InMemory.isActive := false |} first_job [second_job] Rejected
           stopped_while_handling).
  - vm_compute. reflexivity.
  - vm_compute. reflexivity.
  - reflexivity.
Defined.

Lemma delayed_message_pushed_when_due_witness :
  let published := InMemory.publish "del" 1%nat in_five_seconds "id-1" "rc-1" InMemory.init in
  exists w1,
    InMemory.exec published.1 [InMemory.EvAdvance 5000; InMemory.EvTimer 0] = Some (w1, [])
    /\ InMemory.stored_in "del" w1 = InMemory.stored_in "del" InMemory.init ++ [published.2]
    /\ InMemory.timers w1 !! 0%nat = None.
Proof.
  apply (delayed_message_pushed_when_due "del" 1%nat in_five_seconds "id-1" "rc-1" 5 5000
           InMemory.init).
  - reflexivity.
  - lia.
  - lia.
Defined.

(** ** The in-memory poller: the order of the handler calls *)

Section InMemoryOrder.

Context {T : Type}.

Implicit Types (w : InMemory.world T) (msg : InMemory.StoredMessage T).

(** One message settles: the handler is called on the next one, or the
    next poll is scheduled. *)
Lemma settle_one pid sid s msg rest o w :
  InMemory.closures w !! sid = Some s -> InMemory.isActive s = true ->
  InMemory.polls w !! pid = Some (sid, InMemory.AwaitHandler msg rest) ->
  exists w1,
    InMemory.exec w (settle pid (InMemory.sub_autoAck s) o)
    = Some (w1, match rest with
                | [] => [InMemory.ObsScheduled sid (InMemory.next_timer w)]
                | next :: _ => [InMemory.ObsHandler sid next]
                end)
    /\ match rest with
       | [] => True
       | next :: rest' =>
           InMemory.closures w1 = InMemory.closures w
           /\ InMemory.next_timer w1 = InMemory.next_timer w
           /\ InMemory.polls w1 !! pid = Some (sid, InMemory.AwaitHandler next rest')
       end.
Proof.
  intros Hs Hact Hp.
  assert (Hone : forall w', InMemory.closures w' = InMemory.closures w ->
                            InMemory.next_timer w' = InMemory.next_timer w ->
            exists w1,
              InMemory.for_messages pid sid rest w'
              = Some (w1, match rest with
                          | [] => [InMemory.ObsScheduled sid (InMemory.next_timer w)]
                          | next :: _ => [InMemory.ObsHandler sid next]
                          end)
              /\ match rest with
                 | [] => True
                 | next :: rest' =>
                     InMemory.closures w1 = InMemory.closures w
                     /\ InMemory.next_timer w1 = InMemory.next_timer w
                     /\ InMemory.polls w1 !! pid
                        = Some (sid, InMemory.AwaitHandler next rest')
                 end).
  { intros w' Hc Hn.
    destruct (for_messages_active pid sid s rest w') as (w1 & Hf & Hrest);
      [by rewrite Hc | done |].
    exists w1. rewrite Hf, Hn. split; [done|].
    destruct rest; [done|]. destruct Hrest as (H1 & H2 & H3).
    split; [congruence|]. split; [congruence | done]. }
  destruct o; simpl.
  - destruct (InMemory.sub_autoAck s) eqn:Ha; simpl.
    + pose (w0 := InMemory.ack (InMemory.sub_queue s)
                    (Message.receipt (InMemory.message msg)) w).
      pose (wa := InMemory.set_polls
                    (<[pid := (sid, InMemory.AwaitAck rest)]> (InMemory.polls w0)) w0).
      assert (H1 : InMemory.resume pid Resolved w = Some (wa, [])).
      { unfold InMemory.resume. rewrite Hp. simpl. rewrite Hs. simpl. by rewrite Ha. }
      destruct (Hone wa eq_refl eq_refl) as (w1 & Hf & Hrest).
      assert (H2 : InMemory.resume pid Resolved wa
                   = Some (w1, match rest with
                               | [] => [InMemory.ObsScheduled sid (InMemory.next_timer w)]
                               | next :: _ => [InMemory.ObsHandler sid next]
                               end)).
      { assert (Hpa : InMemory.polls wa !! pid = Some (sid, InMemory.AwaitAck rest))
          by apply lookup_insert_eq.
        assert (Hsa : InMemory.closures wa !! sid = Some s) by exact Hs.
        unfold InMemory.resume. rewrite Hpa. cbn [mbind option_bind]. rewrite Hsa.
        cbn [mbind option_bind]. exact Hf. }
      exists w1. rewrite H1. cbn [mbind option_bind]. rewrite H2. cbn.
      by rewrite app_nil_r.
    + unfold InMemory.resume. rewrite Hp. simpl. rewrite Hs. simpl. rewrite Ha.
      destruct (Hone w eq_refl eq_refl) as (w1 & Hf & Hrest).
      exists w1. rewrite Hf. cbn. by rewrite app_nil_r.
  - unfold InMemory.resume. rewrite Hp. simpl. rewrite Hs. simpl.
    destruct (Hone (InMemory.on_handler_error s msg w)) as (w1 & Hf & Hrest).
    { unfold InMemory.on_handler_error. by destruct (negb _). }
    { unfold InMemory.on_handler_error. by destruct (negb _). }
    exists w1. rewrite Hf. cbn. by rewrite app_nil_r.
Qed.

Lemma handlers_from pid sid s :
  InMemory.isActive s = true ->
  forall rest msg o outcomes w,
    InMemory.closures w !! sid = Some s ->
    InMemory.polls w !! pid = Some (sid, InMemory.AwaitHandler msg rest) ->
    length outcomes = length rest ->
    exists w1,
      InMemory.exec w ((o :: outcomes) ≫= settle pid (InMemory.sub_autoAck s))
      = Some (w1, (InMemory.ObsHandler sid <$> rest)
                  ++ [InMemory.ObsScheduled sid (InMemory.next_timer w)]).
Proof.
  intros Hact rest. induction rest as [|next rest IH]; intros msg o outcomes w Hs Hp Hlen.
  - destruct outcomes; [|done]. simpl. rewrite app_nil_r.
    destruct (settle_one pid sid s msg [] o w Hs Hact Hp) as (w1 & He & _). by exists w1.
  - destruct outcomes as [|o' outcomes]; [done|]. simpl in Hlen.
    rewrite bind_cons.
    rewrite exec_app.
    destruct (settle_one pid sid s msg (next :: rest) o w Hs Hact Hp)
      as (w1 & He & Hc & Hn & Hp1).
    rewrite He. cbn [mbind option_bind].
    destruct (IH next o' outcomes w1) as (w2 & He2); [by rewrite Hc | done | lia |].
    cbn [mbind] in He2. rewrite He2. cbn. rewrite Hn. by exists w2.
Qed.

(** X7. Within one poll of an active subscription the handler is called
    on the pulled messages one after the other, in the order in which the
    pull returned them, whether it succeeds or fails on each, and the next
    poll is scheduled after the last. *)
Theorem handlers_run_in_pull_order pid sid s messages outcomes w :
  InMemory.closures w !! sid = Some s ->
  InMemory.isActive s = true ->
  InMemory.polls w !! pid = Some (sid, InMemory.AwaitPull messages) ->
  length outcomes = length messages ->
  exists w1,
    InMemory.exec w (whole_poll pid (InMemory.sub_autoAck s) outcomes)
    = Some (w1, (InMemory.ObsHandler sid <$> messages)
                ++ [InMemory.ObsScheduled sid (InMemory.next_timer w)]).
Proof.
  intros Hs Hact Hp Hlen. unfold whole_poll.
  change (InMemory.EvResume pid Resolved
            :: (outcomes ≫= settle (T:=T) pid (InMemory.sub_autoAck s)))
    with ([InMemory.EvResume pid Resolved]
            ++ (outcomes ≫= settle (T:=T) pid (InMemory.sub_autoAck s))).
  rewrite exec_app. cbn [InMemory.exec InMemory.step].
  unfold InMemory.resume. rewrite Hp. cbn [mbind option_bind]. rewrite Hs.
  cbn [mbind option_bind].
  destruct (for_messages_active pid sid s messages w Hs Hact) as (w1 & Hf & Hrest).
  rewrite Hf. cbn [mbind option_bind].
  destruct messages as [|msg rest].
  - destruct outcomes; [|done]. cbn. by exists w1.
  - destruct outcomes as [|o outcomes]; [done|]. simpl in Hlen.
    destruct Hrest as (Hc & Hn & Hp1).
    destruct (handlers_from pid sid s Hact rest msg o outcomes w1) as (w2 & He2);
      [by rewrite Hc | done | lia |].
    rewrite He2. cbn. rewrite Hn. by exists w2.
Qed.

End InMemoryOrder.

Lemma handlers_run_in_pull_order_witness :
  exists w1,
    InMemory.exec polling_three (whole_poll 0 true [Resolved; Rejected; Resolved])
    = Some (w1, (InMemory.ObsHandler 0 <$> three_jobs) ++ [InMemory.ObsScheduled 0 0]).
Proof.
  apply (handlers_run_in_pull_order 0 0 auto_ack_subscription three_jobs
           [Resolved; Rejected; Resolved] polling_three).
  - vm_compute. reflexivity.
  - reflexivity.
  - vm_compute. reflexivity.
  - reflexivity.
Defined.

(** ** The in-memory driver: where delivered messages come from *)

Section InMemoryIntegrity.

Context {T : Type}.

Implicit Types (w : InMemory.world T) (msg : InMemory.StoredMessage T).
Implicit Types (o : InMemory.obs T) (e : InMemory.event T).
Implicit Types (P Q : InMemory.StoredMessage T -> Prop).

Lemma everywhere_mono P Q w :
  (forall msg, P msg -> Q msg) -> everywhere P w -> everywhere Q w.
Proof.
  intros HPQ (Hq & Hp & Ht). split; [|split].
  - intros q l Hl. eapply Forall_impl; [by apply (Hq q)|done].
  - intros pid sid k Hk. eapply Forall_impl; [by apply (Hp pid sid)|done].
  - intros tid t q msg Hlk Hrun. apply HPQ. by apply (Ht tid t q).
Qed.

Lemma delivers_mono P Q o :
  (forall msg, P msg -> Q msg) -> delivers P o -> delivers Q o.
Proof.
  intros HPQ. destruct o; simpl; try done.
  - intros H. eapply Forall_impl; [exact H|done].
  - intros H. eapply Forall_impl; [exact H|done].
  - apply HPQ.
Qed.

Lemma Forall_filter_keep P (R : InMemory.StoredMessage T -> Prop)
    `{!forall x, Decision (R x)} l :
  Forall P l -> Forall P (filter R l).
Proof.
  rewrite !Forall_forall. intros Hall x Hx.
  apply list_elem_of_filter in Hx as [_ Hx]. by apply Hall.
Qed.

Lemma everywhere_stored P w q : everywhere P w -> Forall P (InMemory.stored_in q w).
Proof.
  intros (Hq & _). unfold InMemory.stored_in.
  destruct (InMemory.queues w !! q) as [l|] eqn:E; simpl; [by apply (Hq q)|constructor].
Qed.

Lemma everywhere_set_queue P w q l :
  everywhere P w -> Forall P l ->
  everywhere P (InMemory.set_queues (<[q := l]> (InMemory.queues w)) w).
Proof.
  intros (Hq & Hp & Ht) Hl. split; [|by split].
  intros q' l' Hlk. simpl in Hlk.
  apply lookup_insert_Some in Hlk as [[_ <-] | [_ Hlk]]; [done|]. by apply (Hq q').
Qed.

Lemma everywhere_delete_poll P w pid :
  everywhere P w -> everywhere P (InMemory.set_polls (delete pid (InMemory.polls w)) w).
Proof.
  intros (Hq & Hp & Ht). split; [done|]. split; [|done].
  intros pid' sid k Hlk. simpl in Hlk. apply lookup_delete_Some in Hlk as [_ Hlk].
  by apply (Hp pid' sid).
Qed.

Lemma everywhere_insert_poll P w pid sid k :
  everywhere P w -> Forall P (poll_messages k) ->
  everywhere P (InMemory.set_polls (<[pid := (sid, k)]> (InMemory.polls w)) w).
Proof.
  intros (Hq & Hp & Ht) Hk. split; [done|]. split; [|done].
  intros pid' sid' k' Hlk. simpl in Hlk.
  apply lookup_insert_Some in Hlk as [[_ E] | [_ Hlk]]; [by simplify_eq|].
  by apply (Hp pid' sid').
Qed.

Lemma everywhere_pull P w q maxMessages :
  everywhere P w ->
  everywhere P (InMemory.pull q maxMessages w).1
  /\ Forall P (InMemory.pull q maxMessages w).2.
Proof.
  intros Hh. rewrite pull_eq. cbn [fst snd].
  pose proof (Forall_filter_keep P (unexpired (InMemory.clock w)) _
                (everywhere_stored P w q Hh)) as Hf.
  split.
  - apply everywhere_set_queue; [done|]. by apply Forall_drop.
  - by apply Forall_take.
Qed.

Lemma everywhere_reschedule P sid w w1 os :
  everywhere P w -> InMemory.reschedule sid w = Some (w1, os) ->
  everywhere P w1 /\ Forall (delivers P) os.
Proof.
  intros Hh Hr.
  apply reschedule_inv in Hr
    as (s & _ & _ & Hpo & Hqu & _ & _ & _ & [(_ & -> & ->) | (_ & -> & Hti & _ & _)]).
  - split; [done | constructor].
  - destruct Hh as (Hq & Hp & Ht). split; [|by repeat constructor].
    unfold everywhere. rewrite Hqu, Hpo, Hti. split; [done|]. split; [done|].
    intros tid t q msg Hlk Hrun.
    apply lookup_insert_Some in Hlk as [[_ <-] | [_ Hlk]]; [done|]. by apply (Ht tid t q).
Qed.

Lemma everywhere_for_messages P pid sid todo w w1 os :
  everywhere P w -> Forall P todo ->
  InMemory.for_messages pid sid todo w = Some (w1, os) ->
  everywhere P w1 /\ Forall (delivers P) os.
Proof.
  intros Hh Htodo Hf.
  apply for_messages_inv in Hf as (s & _ & [[_ Hr] | (msg & rest & -> & _ & -> & ->)]).
  - eapply everywhere_reschedule; [apply everywhere_delete_poll, Hh | exact Hr].
  - split; [by apply everywhere_insert_poll|].
    constructor; [|constructor]. simpl. by apply Forall_inv in Htodo.
Qed.

Lemma everywhere_poll P sid w w1 os :
  everywhere P w -> InMemory.poll sid w = Some (w1, os) ->
  everywhere P w1 /\ Forall (delivers P) os.
Proof.
  intros Hh Hp. unfold InMemory.poll in Hp.
  destruct (InMemory.closures w !! sid) as [s|]; simpl in Hp; [|done].
  destruct (InMemory.isActive s); simpl in Hp.
  - destruct (everywhere_pull P w (InMemory.sub_queue s)
                (Some (InMemory.sub_maxMessages s)) Hh) as [Hh1 Hms].
    destruct (InMemory.pull _ _ w) as [w' messages]. cbn [fst snd] in Hh1, Hms.
    inversion Hp; subst; clear Hp. split; [|by repeat constructor].
    destruct Hh1 as (Hq & Hpo & Ht). split; [done|]. split; [|done].
    intros pid sid' k Hlk. simpl in Hlk.
    apply lookup_insert_Some in Hlk as [[_ E] | [_ Hlk]]; [by simplify_eq|].
    by apply (Hpo pid sid').
  - inversion Hp; subst. split; [done | constructor].
Qed.

(** A step hands out only what the driver held, and holds afterwards only
    what it held or what the step published. *)
Lemma everywhere_step P w e w1 os :
  everywhere P w -> InMemory.step w e = Some (w1, os) ->
  Forall (delivers P) os
  /\ everywhere (fun msg => P msg \/ InMemory.ObsPublished msg ∈ os) w1.
Proof.
  intros Hh Hstep.
  assert (Hkeep : forall w' os', everywhere P w' /\ Forall (delivers P) os' ->
            Forall (delivers P) os'
            /\ everywhere (fun msg => P msg \/ InMemory.ObsPublished msg ∈ os) w').
  { intros w' os' [H1 H2]. split; [done|].
    eapply everywhere_mono; [|exact H1]. intros msg Hm. by left. }
  destruct e as [q p options u1 u2|q k|q r|q options|sid'|ms|tid|pid o];
    simpl in Hstep.
  - unfold InMemory.publish in Hstep.
    destruct (Js.truthy_number (options ≫= Options.delaySeconds));
      inversion Hstep; subst; clear Hstep; (split; [by repeat constructor|]);
      match goal with
      | |- everywhere ?Q _ =>
          assert (HQ : everywhere Q w)
            by (eapply everywhere_mono; [|exact Hh]; intros m Hm; by left)
      end.
    + destruct HQ as (Hq & Hp & Ht). split; [done|]. split; [done|].
      intros tid t q' msg' Hlk Hrun. simpl in Hlk.
      apply lookup_insert_Some in Hlk as [[_ <-] | [_ Hlk]].
      * simpl in Hrun. injection Hrun as _ <-. right. apply list_elem_of_here.
      * by apply (Ht tid t q' msg').
    + unfold InMemory.push. apply everywhere_set_queue; [done|].
      apply Forall_app. split; [by apply everywhere_stored|].
      constructor; [|constructor]. right. apply list_elem_of_here.
  - apply Hkeep. destruct (everywhere_pull P w q k Hh) as [Hh1 Hms].
    destruct (InMemory.pull q k w) as [w' messages]. cbn [fst snd] in Hh1, Hms.
    inversion Hstep; subst. split; [done | by repeat constructor].
  - apply Hkeep. inversion Hstep; subst; clear Hstep. split; [|constructor].
    unfold InMemory.ack. apply everywhere_set_queue; [done|].
    apply Forall_filter_keep. by apply everywhere_stored.
  - apply Hkeep. unfold InMemory.subscribe in Hstep.
    match type of Hstep with
    | context [InMemory.poll _ ?x] => set (w0 := x) in Hstep
    end.
    destruct (InMemory.poll (InMemory.next_sub w) w0) as [[w2 os2]|] eqn:Hp;
      simpl in Hstep; [|done].
    inversion Hstep; subst; clear Hstep.
    destruct (everywhere_poll P _ w0 w1 os2 Hh Hp) as [Hh1 Hos].
    split; [done|]. apply Forall_app. split; [done | by repeat constructor].
  - apply Hkeep.
    destruct (InMemory.unsubscribe sid' w) as [w2|] eqn:Hu; simpl in Hstep; [|done].
    inversion Hstep; subst; clear Hstep. split; [|constructor].
    apply unsubscribe_inv in Hu as (s & _ & _ & Hti & _ & Hpo & Hqu & _).
    destruct Hh as (Hq & Hp & Ht). unfold everywhere. rewrite Hqu, Hpo, Hti.
    split; [done|]. split; [done|].
    intros tid t q msg Hlk. apply lookup_clear_timeouts in Hlk as [Hlk _].
    by apply (Ht tid t q msg).
  - apply Hkeep. destruct (0 <=? ms); inversion Hstep; subst.
    split; [exact Hh | constructor].
  - apply Hkeep. unfold InMemory.fire in Hstep.
    destruct (InMemory.timers w !! tid) as [t|] eqn:Etimer; simpl in Hstep; [|done].
    destruct (Z.leb_spec (InMemory.due t) (InMemory.clock w)) as [Hdue|]; [|done].
    assert (Hh0 : everywhere P (InMemory.set_timers (delete tid (InMemory.timers w)) w)).
    { destruct Hh as (Hq & Hp & Ht). split; [done|]. split; [done|].
      intros tid' t' q msg Hlk. simpl in Hlk. apply lookup_delete_Some in Hlk as [_ Hlk].
      by apply (Ht tid' t' q msg). }
    destruct (InMemory.run t) as [q msg|sid] eqn:Hrun.
    + inversion Hstep; subst; clear Hstep. split; [|constructor].
      unfold InMemory.push. apply everywhere_set_queue; [done|].
      apply Forall_app. split; [by apply everywhere_stored|].
      constructor; [|constructor].
      destruct Hh as (_ & _ & Ht). by apply (Ht tid t q msg Etimer Hrun).
    + by apply (everywhere_poll P sid _ w1 os Hh0).
  - apply Hkeep. unfold InMemory.resume in Hstep.
    destruct (InMemory.polls w !! pid) as [[sid k]|] eqn:Hpoll; simpl in Hstep; [|done].
    destruct (InMemory.closures w !! sid) as [s|] eqn:Hcl; simpl in Hstep; [|done].
    assert (Hk : Forall P (poll_messages k)).
    { destruct Hh as (_ & Hp & _). by apply (Hp pid sid). }
    destruct k as [messages|msg rest|rest], o; try done; simpl in Hk.
    + by apply (everywhere_for_messages P pid sid messages w).
    + apply Forall_cons in Hk as [Hmsg Hrest]. destruct (InMemory.sub_autoAck s).
      * inversion Hstep; subst; clear Hstep. split; [|constructor].
        apply (everywhere_insert_poll P (InMemory.ack _ _ w)); [|done].
        unfold InMemory.ack. apply everywhere_set_queue; [done|].
        apply Forall_filter_keep. by apply everywhere_stored.
      * by apply (everywhere_for_messages P pid sid rest w).
    + apply Forall_cons in Hk as [Hmsg Hrest].
      apply (everywhere_for_messages P pid sid rest (InMemory.on_handler_error s msg w));
        [|done|done].
      unfold InMemory.on_handler_error. destruct (negb _); [|done].
      apply everywhere_set_queue; [done|].
      constructor; [done|]. by apply everywhere_stored.
    + by apply (everywhere_for_messages P pid sid rest w).
Qed.

Lemma delivered_after_published es :
  forall seen w w1 os,
    everywhere (fun msg => InMemory.ObsPublished msg ∈ seen) w ->
    InMemory.exec w es = Some (w1, os) ->
    forall pre o post,
      os = pre ++ o :: post ->
      delivers (fun msg => InMemory.ObsPublished msg ∈ seen ++ pre) o.
Proof.
  induction es as [|e es IH]; intros seen w w1 os Hh Hex pre o post Hos; simpl in Hex.
  - inversion Hex; subst. by destruct pre.
  - destruct (InMemory.step w e) as [[w2 os2]|] eqn:Hstep; simpl in Hex; [|done].
    destruct (InMemory.exec w2 es) as [[w3 os3]|] eqn:Hrest; simpl in Hex; [|done].
    injection Hex as -> Hcat. rewrite Hos in Hcat. clear Hos. rename Hcat into Hos.
    destruct (everywhere_step _ w e w2 os2 Hh Hstep) as [Hos2 Hh2].
    assert (Hh2' : everywhere (fun msg => InMemory.ObsPublished msg ∈ seen ++ os2) w2).
    { eapply everywhere_mono; [|exact Hh2]. intros msg. rewrite elem_of_app. tauto. }
    apply List.app_eq_app in Hos as [l [[-> Hl] | [-> Hl]]].
    + destruct l as [|o' l].
      * simpl in Hl. rewrite app_nil_r in *. symmetry in Hl.
        apply (IH (seen ++ pre) w2 w1 os3 Hh2' Hrest [] o post) in Hl.
        by rewrite app_nil_r in Hl.
      * injection Hl as <- _.
        rewrite Forall_app, Forall_cons in Hos2. destruct Hos2 as (_ & Ho & _).
        eapply delivers_mono; [|exact Ho]. intros msg. rewrite elem_of_app. tauto.
    + pose proof (IH (seen ++ os2) w2 w1 os3 Hh2' Hrest l o post Hl) as Ho.
      by rewrite <- app_assoc in Ho.
Qed.

(** X8. The in-memory driver hands out nothing of its own making: in
    every run from the empty driver, each message that a pull returns, that
    a poll pulls or that a handler is called on was returned by a publish
    earlier in the run. *)
Theorem delivered_messages_were_published (es : list (InMemory.event T)) w1 pre o post :
  InMemory.exec InMemory.init es = Some (w1, pre ++ o :: post) ->
  delivers (fun msg => InMemory.ObsPublished msg ∈ pre) o.
Proof.
  intros Hex.
  assert (Hnone : everywhere (fun msg => InMemory.ObsPublished msg ∈ [])
                    (@InMemory.init T)).
  { split; [|split].
    - intros q l Hl. simpl in Hl. by rewrite lookup_empty in Hl.
    - intros pid sid k Hk. simpl in Hk. by rewrite lookup_empty in Hk.
    - intros tid t q msg Ht. simpl in Ht. by rewrite lookup_empty in Ht. }
  exact (delivered_after_published es [] InMemory.init w1 _ Hnone Hex pre o post eq_refl).
Qed.

End InMemoryIntegrity.

Lemma delivered_messages_were_published_witness :
  delivers (fun msg => InMemory.ObsPublished msg
                       ∈ [InMemory.ObsPublished first_job;
                          InMemory.ObsPolled 0 [first_job];
                          InMemory.ObsSubscribed 0])
           (InMemory.ObsHandler 0 first_job).
Proof.
  apply (delivered_messages_were_published (poll_under_way ++ [InMemory.EvResume 0 Resolved])
           awaiting_handler
           [InMemory.ObsPublished first_job; InMemory.ObsPolled 0 [first_job];
            InMemory.ObsSubscribed 0]
           (InMemory.ObsHandler 0 first_job) []).
  vm_compute. reflexivity.
Defined.

(** ** The in-memory poller: one poll at a time *)

Section InMemoryOneAtATime.

Context {T : Type}.

Implicit Types (w : InMemory.world T) (msg : InMemory.StoredMessage T).
Implicit Types (o : InMemory.obs T) (e : InMemory.event T).

(** The invariant carries over to a state that has no new closure beyond
    the subscriptions made, no new poll and no new poll timeout. *)
Lemma one_at_a_time_frame w w1 :
  (InMemory.next_sub w <= InMemory.next_sub w1)%nat ->
  (forall sid s, InMemory.closures w1 !! sid = Some s -> (sid < InMemory.next_sub w1)%nat) ->
  (forall pid sid k, InMemory.polls w1 !! pid = Some (sid, k) ->
     exists k', InMemory.polls w !! pid = Some (sid, k')) ->
  (forall tid t sid, InMemory.timers w1 !! tid = Some t ->
     InMemory.run t = InMemory.CbPoll sid -> InMemory.timers w !! tid = Some t) ->
  one_at_a_time w /\ subscriptions_made w ->
  one_at_a_time w1 /\ subscriptions_made w1.
Proof.
  intros Hn Hc Hp Ht [(M1 & M2 & M3) (B1 & B2 & B3)]. split; [split; [|split]|split; [|split]].
  - intros pid sid k Hk tid t Hlk Hrun.
    destruct (Hp pid sid k Hk) as [k' Hk'].
    exact (M1 pid sid k' Hk' tid t (Ht tid t sid Hlk Hrun) Hrun).
  - intros pid pid' sid k k' Hk Hk'.
    destruct (Hp pid sid k Hk) as [k0 Hk0]. destruct (Hp pid' sid k' Hk') as [k0' Hk0'].
    exact (M2 pid pid' sid k0 k0' Hk0 Hk0').
  - intros tid tid' t t' sid Hlk Hrun Hlk' Hrun'.
    exact (M3 tid tid' t t' sid (Ht _ _ _ Hlk Hrun) Hrun (Ht _ _ _ Hlk' Hrun') Hrun').
  - exact Hc.
  - intros pid sid k Hk. destruct (Hp pid sid k Hk) as [k' Hk'].
    pose proof (B2 pid sid k' Hk'). lia.
  - intros tid t sid Hlk Hrun. pose proof (B3 tid t sid (Ht _ _ _ Hlk Hrun) Hrun). lia.
Qed.

(** A poll starts for a subscription that has none under way and no
    timeout pending. *)
Lemma one_at_a_time_add_poll pid sid k w w1 :
  no_poll sid w -> no_timer sid w -> (sid < InMemory.next_sub w)%nat ->
  InMemory.polls w1 = <[pid := (sid, k)]> (InMemory.polls w) ->
  InMemory.timers w1 = InMemory.timers w ->
  InMemory.closures w1 = InMemory.closures w ->
  InMemory.next_sub w1 = InMemory.next_sub w ->
  one_at_a_time w /\ subscriptions_made w ->
  one_at_a_time w1 /\ subscriptions_made w1.
Proof.
  intros Hnp Hnt Hlt Ep Et Ec En [(M1 & M2 & M3) (B1 & B2 & B3)].
  unfold one_at_a_time, subscriptions_made, closures_bounded, no_timer.
  rewrite Ep, Et, Ec, En. split; [split; [|split]|split; [|split]].
  - intros pid' sid' k' Hk tid t Hlk Hrun.
    apply lookup_insert_Some in Hk as [[_ E] | [_ Hk]].
    + simplify_eq. exact (Hnt tid t Hlk Hrun).
    + exact (M1 pid' sid' k' Hk tid t Hlk Hrun).
  - intros p1 p2 sid' k1 k2 H1 H2.
    apply lookup_insert_Some in H1 as [[E1 V1] | [N1 H1]];
      apply lookup_insert_Some in H2 as [[E2 V2] | [N2 H2]]; simplify_eq.
    + done.
    + by destruct (Hnp p2 k2).
    + by destruct (Hnp p1 k1).
    + exact (M2 p1 p2 sid' k1 k2 H1 H2).
  - exact M3.
  - exact B1.
  - intros pid' sid' k' Hk.
    apply lookup_insert_Some in Hk as [[_ E] | [_ Hk]]; [by simplify_eq|].
    exact (B2 pid' sid' k' Hk).
  - exact B3.
Qed.

(** The next poll is scheduled for a subscription that has no poll under
    way and no timeout pending. *)
Lemma one_at_a_time_add_timer tid sid d w w1 :
  no_poll sid w -> no_timer sid w -> (sid < InMemory.next_sub w)%nat ->
  InMemory.timers w1
  = <[tid := {| InMemory.due := d; InMemory.run := InMemory.CbPoll sid |}]>
      (InMemory.timers w) ->
  InMemory.polls w1 = InMemory.polls w ->
  InMemory.closures w1 = InMemory.closures w ->
  InMemory.next_sub w1 = InMemory.next_sub w ->
  one_at_a_time w /\ subscriptions_made w ->
  one_at_a_time w1 /\ subscriptions_made w1.
Proof.
  intros Hnp Hnt Hlt Et Ep Ec En [(M1 & M2 & M3) (B1 & B2 & B3)].
  unfold one_at_a_time, subscriptions_made, closures_bounded, no_timer.
  rewrite Ep, Et, Ec, En. split; [split; [|split]|split; [|split]].
  - intros pid sid' k Hk tid' t Hlk Hrun.
    apply lookup_insert_Some in Hlk as [[_ E] | [_ Hlk]].
    + subst t. simpl in Hrun. injection Hrun as <-. by destruct (Hnp pid k).
    + exact (M1 pid sid' k Hk tid' t Hlk Hrun).
  - exact M2.
  - intros t1 t2 x1 x2 sid' H1 R1 H2 R2.
    apply lookup_insert_Some in H1 as [[E1 V1] | [N1 H1]];
      apply lookup_insert_Some in H2 as [[E2 V2] | [N2 H2]]; subst.
    + done.
    + simpl in R1. injection R1 as <-. by destruct (Hnt t2 x2 H2).
    + simpl in R2. injection R2 as <-. by destruct (Hnt t1 x1 H1).
    + exact (M3 t1 t2 x1 x2 sid' H1 R1 H2 R2).
  - exact B1.
  - exact B2.
  - intros tid' t sid' Hlk Hrun.
    apply lookup_insert_Some in Hlk as [[_ E] | [_ Hlk]].
    + subst t. simpl in Hrun. by injection Hrun as <-.
    + exact (B3 tid' t sid' Hlk Hrun).
Qed.

Lemma one_at_a_time_reschedule sid w w1 os :
  no_poll sid w -> no_timer sid w ->
  one_at_a_time w /\ subscriptions_made w ->
  InMemory.reschedule sid w = Some (w1, os) ->
  one_at_a_time w1 /\ subscriptions_made w1.
Proof.
  intros Hnp Hnt Hinv Hr.
  apply reschedule_inv in Hr
    as (s & Hs & Hcl & Hpo & _ & _ & Hns & _ & [(_ & -> & _) | (_ & _ & Hti & _ & _)]);
    [done|].
  eapply one_at_a_time_add_timer; try eassumption.
  destruct Hinv as [_ (B1 & _)]. exact (B1 sid s Hs).
Qed.

Lemma one_at_a_time_for_messages pid sid k todo w w1 os :
  InMemory.polls w !! pid = Some (sid, k) ->
  one_at_a_time w /\ subscriptions_made w ->
  InMemory.for_messages pid sid todo w = Some (w1, os) ->
  one_at_a_time w1 /\ subscriptions_made w1.
Proof.
  intros Hk Hinv Hf.
  apply for_messages_inv in Hf as (s & Hs & [[_ Hr] | (msg & rest & -> & _ & -> & _)]).
  - apply (one_at_a_time_reschedule sid _ w1 os) in Hr; [done| | |].
    + intros pid' k' Hk'. simpl in Hk'. apply lookup_delete_Some in Hk' as [Hne Hk'].
      destruct Hinv as [(_ & M2 & _) _]. by pose proof (M2 pid pid' sid k k' Hk Hk').
    + destruct Hinv as [(M1 & _) _]. exact (M1 pid sid k Hk).
    + apply (one_at_a_time_frame w); simpl; try done.
      * destruct Hinv as [_ (B1 & _)]. exact B1.
      * intros pid' sid' k' Hk'. apply lookup_delete_Some in Hk' as [_ Hk']. by exists k'.
  - apply (one_at_a_time_frame w); simpl; try done.
    + destruct Hinv as [_ (B1 & _)]. exact B1.
    + intros pid' sid' k' Hk'.
      apply lookup_insert_Some in Hk' as [[<- E] | [_ Hk']]; [|by exists k'].
      simplify_eq. by exists k.
Qed.

Lemma one_at_a_time_poll sid w w1 os :
  no_poll sid w -> no_timer sid w ->
  one_at_a_time w /\ subscriptions_made w ->
  InMemory.poll sid w = Some (w1, os) ->
  one_at_a_time w1 /\ subscriptions_made w1.
Proof.
  intros Hnp Hnt Hinv Hp.
  apply poll_inv in Hp
    as (s & Hs & [(_ & -> & _) | (_ & _ & _ & Hpo & _ & Hcl & Hti & _ & _ & Hns & _)]);
    [done|].
  eapply one_at_a_time_add_poll; try eassumption.
  destruct Hinv as [_ (B1 & _)]. exact (B1 sid s Hs).
Qed.

Lemma one_at_a_time_step w e w1 os :
  one_at_a_time w /\ subscriptions_made w ->
  InMemory.step w e = Some (w1, os) ->
  one_at_a_time w1 /\ subscriptions_made w1.
Proof.
  intros Hinv Hstep.
  pose proof Hinv as [(M1 & M2 & M3) (B1 & B2 & B3)].
  destruct e as [q p options u1 u2|q k|q r|q options|sid'|ms|tid|pid o];
    simpl in Hstep.
  - unfold InMemory.publish in Hstep.
    destruct (Js.truthy_number (options ≫= Options.delaySeconds));
      inversion Hstep; subst; clear Hstep;
      (apply (one_at_a_time_frame w); simpl; [done | done | by eauto | | done]).
    + intros tid t sid Hlk Hrun.
      apply lookup_insert_Some in Hlk as [[_ <-] | [_ Hlk]]; [done | done].
    + done.
  - rewrite pull_eq in Hstep. inversion Hstep; subst; clear Hstep.
    apply (one_at_a_time_frame w); simpl; by eauto.
  - inversion Hstep; subst; clear Hstep.
    apply (one_at_a_time_frame w); simpl; by eauto.
  - unfold InMemory.subscribe in Hstep.
    match type of Hstep with
    | context [InMemory.poll _ ?x] => set (w0 := x) in Hstep
    end.
    destruct (InMemory.poll (InMemory.next_sub w) w0) as [[w2 os2]|] eqn:Hp;
      simpl in Hstep; [|done].
    inversion Hstep; subst w2 os; clear Hstep.
    apply (one_at_a_time_poll (InMemory.next_sub w) w0 w1 os2); [| | |exact Hp].
    + intros pid k Hk. simpl in Hk. pose proof (B2 pid _ k Hk). lia.
    + intros tid t Hlk Hrun. simpl in Hlk. pose proof (B3 tid t _ Hlk Hrun). lia.
    + apply (one_at_a_time_frame w); simpl; [lia | | by eauto | done | done].
      intros sid s Hlk.
      apply lookup_insert_Some in Hlk as [[<- _] | [_ Hlk]]; [lia|].
      pose proof (B1 sid s Hlk). lia.
  - destruct (InMemory.unsubscribe sid' w) as [w2|] eqn:Hu; simpl in Hstep; [|done].
    inversion Hstep; subst w2 os; clear Hstep.
    apply unsubscribe_inv in Hu as (s & Hs & Hcl & Hti & _ & Hpo & _ & _ & Hns & _).
    apply (one_at_a_time_frame w); [lia | | |  | done].
    + rewrite Hcl, Hns. intros sid s0 Hlk.
      apply lookup_insert_Some in Hlk as [[<- _] | [_ Hlk]]; [exact (B1 _ _ Hs)|].
      exact (B1 _ _ Hlk).
    + rewrite Hpo. by eauto.
    + rewrite Hti. intros tid t sid Hlk _.
      by apply lookup_clear_timeouts in Hlk as [Hlk _].
  - destruct (0 <=? ms); inversion Hstep; subst.
    apply (one_at_a_time_frame w); simpl; by eauto.
  - unfold InMemory.fire in Hstep.
    destruct (InMemory.timers w !! tid) as [t|] eqn:Etimer; simpl in Hstep; [|done].
    destruct (InMemory.due t <=? InMemory.clock w); [|done].
    assert (Hinv0 : one_at_a_time (InMemory.set_timers (delete tid (InMemory.timers w)) w)
                    /\ subscriptions_made
                         (InMemory.set_timers (delete tid (InMemory.timers w)) w)).
    { apply (one_at_a_time_frame w); simpl; [done | done | by eauto | | done].
      intros tid' t' sid Hlk _. by apply lookup_delete_Some in Hlk as [_ Hlk]. }
    destruct (InMemory.run t) as [q msg|sid] eqn:Hrun.
    + inversion Hstep; subst; clear Hstep.
      revert Hinv0. apply one_at_a_time_frame; simpl; by eauto.
    + apply (one_at_a_time_poll sid _ w1 os) in Hstep; [done| | |done].
      * intros pid k Hk. simpl in Hk. exact (M1 pid sid k Hk tid t Etimer Hrun).
      * intros tid' t' Hlk Hrun'. simpl in Hlk.
        apply lookup_delete_Some in Hlk as [Hne Hlk].
        by pose proof (M3 tid tid' t t' sid Etimer Hrun Hlk Hrun').
  - unfold InMemory.resume in Hstep.
    destruct (InMemory.polls w !! pid) as [[sid k]|] eqn:Hpoll; simpl in Hstep; [|done].
    destruct (InMemory.closures w !! sid) as [s|] eqn:Hcl; simpl in Hstep; [|done].
    destruct k as [messages|msg rest|rest], o; try done.
    + by apply (one_at_a_time_for_messages pid sid _ messages w w1 os Hpoll).
    + destruct (InMemory.sub_autoAck s).
      * inversion Hstep; subst; clear Hstep.
        apply (one_at_a_time_frame w); simpl; [done | done | | done | done].
        intros pid' sid' k' Hk'.
        apply lookup_insert_Some in Hk' as [[<- E] | [_ Hk']]; [|by eauto].
        simplify_eq. by eauto.
      * by apply (one_at_a_time_for_messages pid sid _ rest w w1 os Hpoll).
    + apply (one_at_a_time_for_messages pid sid (InMemory.AwaitHandler msg rest) rest
               (InMemory.on_handler_error s msg w) w1 os); [| |done].
      * unfold InMemory.on_handler_error. by destruct (negb _).
      * apply (one_at_a_time_frame w); [| | | |done];
          unfold InMemory.on_handler_error; destruct (negb _); simpl; by eauto.
    + by apply (one_at_a_time_for_messages pid sid _ rest w w1 os Hpoll).
Qed.

Lemma one_at_a_time_exec es w w1 os :
  one_at_a_time w /\ subscriptions_made w ->
  InMemory.exec w es = Some (w1, os) ->
  one_at_a_time w1 /\ subscriptions_made w1.
Proof.
  revert w os. induction es as [|e es IH]; intros w os Hinv Hex; simpl in Hex.
  - by inversion Hex; subst.
  - destruct (InMemory.step w e) as [[w2 os2]|] eqn:Hstep; simpl in Hex; [|done].
    destruct (InMemory.exec w2 es) as [[w3 os3]|] eqn:Hrest; simpl in Hex; [|done].
    inversion Hex; subst; clear Hex.
    eapply IH; [|exact Hrest]. by eapply one_at_a_time_step.
Qed.

(** X9. The polls of an in-memory subscription never overlap: in every
    state that a run from the empty driver reaches, a subscription has at
    most one poll under way and at most one timeout pending for its next
    poll, and never both. *)
Theorem polls_do_not_overlap (es : list (InMemory.event T)) w os :
  InMemory.exec InMemory.init es = Some (w, os) ->
  one_at_a_time w.
Proof.
  intros Hex. eapply one_at_a_time_exec in Hex; [by destruct Hex|].
  split; [split; [|split]|split; [|split]].
  - intros pid sid k Hk. simpl in Hk. by rewrite lookup_empty in Hk.
  - intros pid pid' sid k k' Hk. simpl in Hk. by rewrite lookup_empty in Hk.
  - intros tid tid' t t' sid Hlk. simpl in Hlk. by rewrite lookup_empty in Hlk.
  - intros sid s Hs. simpl in Hs. by rewrite lookup_empty in Hs.
  - intros pid sid k Hk. simpl in Hk. by rewrite lookup_empty in Hk.
  - intros tid t sid Hlk. simpl in Hlk. by rewrite lookup_empty in Hlk.
Qed.

End InMemoryOneAtATime.

Lemma polls_do_not_overlap_witness : one_at_a_time awaiting_handler.
Proof.
  apply (polls_do_not_overlap (poll_under_way ++ [InMemory.EvResume 0 Resolved])
           awaiting_handler
           [InMemory.ObsPublished first_job; InMemory.ObsPolled 0 [first_job];
            InMemory.ObsSubscribed 0; InMemory.ObsHandler 0 first_job]).
  vm_compute. reflexivity.
Defined.

(** ** The in-memory driver: expired messages stay out *)

Section InMemoryExpiry.

Context {T : Type}.

Implicit Types (w : InMemory.world T) (msg : InMemory.StoredMessage T).
Implicit Types (o : InMemory.obs T) (e : InMemory.event T).

Lemma unexpired_earlier now now' msg :
  now <= now' -> unexpired now' msg -> unexpired now msg.
Proof.
  unfold unexpired, InMemory.is_expired. intros Hle.
  destruct (Message.expiresAt (InMemory.message msg)) as [x|]; [|done].
  rewrite !Z.leb_gt. lia.
Qed.

Lemma pulls_earlier now now' o :
  now <= now' -> pulls (unexpired now') o -> pulls (unexpired now) o.
Proof.
  intros Hle. destruct o; simpl; try done;
    intros H; (eapply Forall_impl; [exact H|]); intros msg; by apply unexpired_earlier.
Qed.

Lemma pull_unexpired q maxMessages w :
  Forall (unexpired (InMemory.clock w)) (InMemory.pull q maxMessages w).2.
Proof.
  rewrite pull_eq. cbn [snd]. apply Forall_take, Forall_forall.
  intros msg Hin. by apply list_elem_of_filter in Hin as [Hu _].
Qed.

Lemma pulls_poll sid w w1 os :
  InMemory.poll sid w = Some (w1, os) -> Forall (pulls (unexpired (InMemory.clock w))) os.
Proof.
  intros Hp. apply poll_inv in Hp as (s & _ & [(_ & _ & ->) | (_ & -> & _)]).
  - constructor.
  - constructor; [|constructor]. simpl. apply pull_unexpired.
Qed.

Lemma pulls_for_messages P pid sid todo w w1 os :
  InMemory.for_messages pid sid todo w = Some (w1, os) -> Forall (pulls P) os.
Proof.
  intros Hf.
  apply for_messages_inv in Hf as (s & _ & [[_ Hr] | (msg & rest & _ & _ & _ & ->)]).
  - apply reschedule_inv in Hr
      as (s' & _ & _ & _ & _ & _ & _ & _ & [(_ & _ & ->) | (_ & -> & _)]);
      by repeat constructor.
  - by repeat constructor.
Qed.

Lemma pulls_step w e w1 os :
  InMemory.step w e = Some (w1, os) -> Forall (pulls (unexpired (InMemory.clock w))) os.
Proof.
  intros Hstep.
  destruct e as [q p options u1 u2|q k|q r|q options|sid'|ms|tid|pid o];
    simpl in Hstep.
  - destruct (InMemory.publish q p options u1 u2 w) as [w' msg].
    inversion Hstep; subst. by repeat constructor.
  - pose proof (pull_unexpired q k w) as Hu.
    destruct (InMemory.pull q k w) as [w' messages]. cbn [snd] in Hu.
    inversion Hstep; subst. by repeat constructor.
  - inversion Hstep; subst. constructor.
  - unfold InMemory.subscribe in Hstep.
    destruct (InMemory.poll _ _) as [[w2 os2]|] eqn:Hp; simpl in Hstep; [|done].
    inversion Hstep; subst; clear Hstep. apply pulls_poll in Hp. simpl in Hp.
    apply Forall_app. split; [done | by repeat constructor].
  - destruct (InMemory.unsubscribe sid' w) as [w2|]; simpl in Hstep; [|done].
    inversion Hstep; subst. constructor.
  - destruct (0 <=? ms); inversion Hstep; subst. constructor.
  - unfold InMemory.fire in Hstep.
    destruct (InMemory.timers w !! tid) as [t|]; simpl in Hstep; [|done].
    destruct (InMemory.due t <=? InMemory.clock w); [|done].
    destruct (InMemory.run t) as [q msg|sid].
    + inversion Hstep; subst. constructor.
    + by apply pulls_poll in Hstep.
  - unfold InMemory.resume in Hstep.
    destruct (InMemory.polls w !! pid) as [[sid k]|]; simpl in Hstep; [|done].
    destruct (InMemory.closures w !! sid) as [s|]; simpl in Hstep; [|done].
    destruct k as [messages|msg rest|rest], o; try done;
      try (by eapply pulls_for_messages).
    destruct (InMemory.sub_autoAck s); [|by eapply pulls_for_messages].
    inversion Hstep; subst. constructor.
Qed.

(** X10. Once the clock has reached the [expiresAt] of a message, the
    in-memory driver never returns it again: in a run that starts at time
    [clock w], no pull of a client and no pull of a poll returns a message
    that has expired at that time. *)
Theorem expired_is_never_pulled (es : list (InMemory.event T)) w w1 os :
  InMemory.exec w es = Some (w1, os) ->
  Forall (pulls (unexpired (InMemory.clock w))) os.
Proof.
  revert w os. induction es as [|e es IH]; intros w os Hex; simpl in Hex.
  - inversion Hex; subst. constructor.
  - destruct (InMemory.step w e) as [[w2 os2]|] eqn:Hstep; simpl in Hex; [|done].
    destruct (InMemory.exec w2 es) as [[w3 os3]|] eqn:Hrest; simpl in Hex; [|done].
    inversion Hex; subst; clear Hex.
    pose proof (step_clock _ _ _ _ Hstep) as Hclock.
    apply Forall_app. split; [by apply pulls_step in Hstep|].
    apply IH in Hrest. eapply Forall_impl; [exact Hrest|].
    intros o. by apply pulls_earlier.
Qed.

End InMemoryExpiry.

Lemma expired_is_never_pulled_witness :
  Forall (pulls (unexpired 5000))
    [InMemory.ObsPulled
       [(InMemory.publish "jobs" 1%nat None "id-1" "rc-1" InMemory.init).2;
        (InMemory.publish "jobs" 3%nat None "id-3" "rc-3" InMemory.init).2]].
Proof.
  apply (expired_is_never_pulled [InMemory.EvPull "jobs" (Some 10)] three_messages
           (InMemory.pull "jobs" (Some 10) three_messages).1).
  vm_compute. reflexivity.
Defined.

(** ** The SQS driver: queue URLs and the commands sent *)

Section SqsRequests.

Context {T B : Type}.
Variable JSON_stringify : T -> string.
Variable JSON_parse : string -> option T.
Variable raw_payload : string -> T.
Variable Number : string -> Z.
Variable client_send : Sqs.Command -> B -> result Sqs.Response * B.

Implicit Types (d : Sqs.driver B) (q r : string).

(** The ways [ensureQueue] can go. *)
Lemma ensureQueue_cases q d :
  let r := Sqs.ensureQueue client_send q d in
  exists cmds,
    Sqs.sent r.2 = Sqs.sent d ++ cmds
    /\ (cmds = [] \/ cmds = [Sqs.GetQueueUrlCommand q]
        \/ cmds = [Sqs.GetQueueUrlCommand q; Sqs.CreateQueueCommand q])
    /\ match r.1 with
       | Ok url => Sqs.queueUrlCache r.2 = <[q := url]> (Sqs.queueUrlCache d)
                   /\ (cmds = [] <-> Sqs.queueUrlCache d !! q = Some url)
       | Err _ => Sqs.queueUrlCache r.2 = Sqs.queueUrlCache d
                  /\ cmds = [Sqs.GetQueueUrlCommand q; Sqs.CreateQueueCommand q]
       end
    /\ (Sqs.queueUrlCache d !! q = None \/ Sqs.queueUrlCache r.2 = Sqs.queueUrlCache d).
Proof.
  simpl. unfold Sqs.ensureQueue.
  destruct (Sqs.queueUrlCache d !! q) as [url|] eqn:Ec.
  - exists []. simpl. rewrite app_nil_r.
    split; [done|]. split; [by left|]. split; [|by right].
    split; [by rewrite insert_id | done].
  - unfold Eff.bind, Eff.try_catch, Sqs.send, Sqs.cache_set, Eff.ret, Eff.throw,
      Js.truthy_string.
    cbn [Sqs.backend Sqs.sent Sqs.queueUrlCache fst snd].
    destruct (client_send (Sqs.GetQueueUrlCommand q) (Sqs.backend d))
      as [[urlRes|e] b1] eqn:Eg; cbn;
      [ destruct (Sqs.QueueUrl urlRes) as [u|] eqn:Eu; cbn;
        [ destruct (String.eqb u "") eqn:Ee; cbn | ] | ];
      try (destruct (client_send (Sqs.CreateQueueCommand q) b1)
             as [[createRes|e'] b2] eqn:Ecr; cbn;
           [ destruct (Sqs.QueueUrl createRes) as [u'|] eqn:Eu'; cbn;
             [ destruct (String.eqb u' "") eqn:Ee'; cbn | ] | ]);
      eexists; (split; [rewrite <- ?app_assoc; reflexivity|]);
      (split; [by eauto|]); (split; [|by left]);
      (split; [done|]); try done; split; intros; congruence.
Qed.

(** X11. The SQS driver resolves the URL of a queue once: when
    [ensureQueue] has returned a URL it is cached under the queue, the
    entries of the other queues are as they were, and a further call
    returns the same URL without sending anything. *)
Theorem ensureQueue_caches q d url d1 :
  Sqs.ensureQueue client_send q d = (Ok url, d1) ->
  Sqs.queueUrlCache d1 !! q = Some url
  /\ (forall q', q' ≠ q -> Sqs.queueUrlCache d1 !! q' = Sqs.queueUrlCache d !! q')
  /\ Sqs.ensureQueue client_send q d1 = (Ok url, d1).
Proof.
  intros He. destruct (ensureQueue_cases q d) as (cmds & _ & _ & Hr & _).
  rewrite He in Hr. cbn [fst snd] in Hr. destruct Hr as [Hc _].
  assert (Hq : Sqs.queueUrlCache d1 !! q = Some url).
  { rewrite Hc. apply lookup_insert_eq. }
  split; [exact Hq|]. split.
  - intros q' Hne. rewrite Hc. by apply lookup_insert_ne.
  - unfold Sqs.ensureQueue. by rewrite Hq.
Qed.

(** X12. [ensureQueue] gives up only after it has tried both: when it
    fails, the lookup and then the creation of the queue were sent, nothing
    else, and the cache is as it was, so that the next call tries again. *)
Theorem ensureQueue_failure q d e d1 :
  Sqs.ensureQueue client_send q d = (Err e, d1) ->
  Sqs.sent d1 = Sqs.sent d ++ [Sqs.GetQueueUrlCommand q; Sqs.CreateQueueCommand q]
  /\ Sqs.queueUrlCache d1 = Sqs.queueUrlCache d
  /\ Sqs.queueUrlCache d1 !! q = None.
Proof.
  intros He. destruct (ensureQueue_cases q d) as (cmds & Hs & _ & Hr & Hn).
  rewrite He in Hs, Hr, Hn. cbn [fst snd] in Hs, Hr, Hn. destruct Hr as [Hc ->].
  split; [exact Hs|]. split; [exact Hc|].
  rewrite Hc. destruct Hn as [Hn|_]; [exact Hn|].
  unfold Sqs.ensureQueue in He.
  destruct (Sqs.queueUrlCache d !! q) as [url|]; [done | done].
Qed.

Lemma ensureQueue_grows q d :
  Sqs.queueUrlCache d ⊆ Sqs.queueUrlCache (Sqs.ensureQueue client_send q d).2.
Proof.
  destruct (ensureQueue_cases q d) as (cmds & _ & _ & Hr & Hn).
  destruct Hn as [Hn| ->]; [|done].
  destruct (Sqs.ensureQueue client_send q d) as [[url|e] d1]; cbn [fst snd] in *.
  - destruct Hr as [-> _]. by apply insert_subseteq.
  - by destruct Hr as [-> _].
Qed.

Lemma send_cache cmd d :
  Sqs.queueUrlCache (Sqs.send client_send cmd d).2 = Sqs.queueUrlCache d.
Proof. unfold Sqs.send. by destruct (client_send cmd (Sqs.backend d)). Qed.

(** X13. The cache of queue URLs only grows: whatever [publish], [pull]
    and [ack] do, whether they succeed or fail, a URL that is cached stays
    cached, unchanged. *)
Theorem cached_url_is_kept q (p : T) options maxMessages r now d :
  Sqs.queueUrlCache d
    ⊆ Sqs.queueUrlCache (Sqs.publish JSON_stringify client_send q p options now d).2
  /\ Sqs.queueUrlCache d
       ⊆ Sqs.queueUrlCache
           (Sqs.pull JSON_parse raw_payload Number client_send q maxMessages now d).2
  /\ Sqs.queueUrlCache d ⊆ Sqs.queueUrlCache (Sqs.ack client_send q r d).2.
Proof.
  pose proof (ensureQueue_grows q d) as Hg.
  unfold Sqs.publish, Sqs.pull, Sqs.ack, Eff.bind.
  destruct (Sqs.ensureQueue client_send q d) as [[url|e] d1]; cbn [fst snd] in Hg;
    [|done].
  split; [|split].
  - match goal with
    | |- context [Sqs.send client_send ?c d1] =>
        pose proof (send_cache c d1) as Hs;
        destruct (Sqs.send client_send c d1) as [[response|e] d2]
    end; unfold Eff.ret; cbn [fst snd] in *; by rewrite Hs.
  - match goal with
    | |- context [Sqs.send client_send ?c d1] =>
        pose proof (send_cache c d1) as Hs;
        destruct (Sqs.send client_send c d1) as [[response|e] d2]
    end; unfold Eff.ret; cbn [fst snd] in *; by rewrite Hs.
  - destruct (String.eqb r ""); [done|].
    match goal with
    | |- context [Sqs.send client_send ?c d1] =>
        pose proof (send_cache c d1) as Hs;
        destruct (Sqs.send client_send c d1) as [[response|e] d2]
    end; unfold Eff.ret; cbn [fst snd] in *; by rewrite Hs.
Qed.

(** X14. What a [pull] on the SQS driver sends, whatever count it is
    asked for: beyond the lookup and the creation of its queue, at most one
    receive, for at least 1 and at most 10 messages, waiting 1 second. It
    sends and deletes no message. *)
Theorem pull_requests q maxMessages now d :
  exists cmds,
    Sqs.sent (Sqs.pull JSON_parse raw_payload Number client_send q maxMessages now d).2
    = Sqs.sent d ++ cmds
    /\ Forall (pull_request q) cmds
    /\ (length (filter (fun c => is_receive c = true) cmds) <= 1)%nat.
Proof.
  destruct (ensureQueue_cases q d) as (cmds & Hs & Hcmds & _).
  unfold Sqs.pull, Eff.bind.
  destruct (Sqs.ensureQueue client_send q d) as [[url|e] d1]; cbn [fst snd] in Hs.
  - unfold Sqs.send at 1.
    destruct (client_send _ (Sqs.backend d1)) as [[res|e] b2]; cbn [fst snd Sqs.sent];
      (eexists; split; [rewrite Hs, <- app_assoc; reflexivity|]);
      (split;
       [apply Forall_app; split;
        [destruct Hcmds as [->|[->| ->]]; by repeat constructor
        |constructor; [simpl; lia | constructor]]
       |destruct Hcmds as [->|[->| ->]]; vm_compute; lia]).
  - exists cmds. split; [exact Hs|].
    destruct Hcmds as [->|[->| ->]]; (split; [by repeat constructor | vm_compute; lia]).
Qed.

(** X15. [ttlSeconds] never reaches SQS: with another [ttlSeconds], a
    [publish] sends the same commands and leaves the driver and the backend
    in the same state, and it fails with the same error or returns the same
    message but for its [expiresAt]. *)
Theorem ttl_is_not_sent q (p : T) options ttl now d :
  let published := Sqs.publish JSON_stringify client_send q p (Some options) now d in
  let other :=
    Sqs.publish JSON_stringify client_send q p (Some (with_ttl ttl options)) now d in
  other.2 = published.2
  /\ match published.1, other.1 with
     | Ok m, Ok m' =>
         Message.id m' = Message.id m
         /\ Message.receipt m' = Message.receipt m
         /\ Message.payload m' = Message.payload m
         /\ Message.publishedAt m' = Message.publishedAt m
         /\ Message.attributes m' = Message.attributes m
         /\ Message.correlationId m' = Message.correlationId m
     | Err e, Err e' => e' = e
     | _, _ => False
     end.
Proof.
  simpl. unfold Sqs.publish, Eff.bind, Sqs.toMessageAttributes. cbn.
  destruct (Sqs.ensureQueue client_send q d) as [[url|e] d1]; [|done].
  by destruct (Sqs.send client_send _ d1) as [[response|e] d2].
Qed.

End SqsRequests.

Lemma ensureQueue_caches_witness :
  Sqs.queueUrlCache (Sqs.ensureQueue fake_send "orders" fresh_sqs).2 !! "orders"
  = Some "http://sqs/orders".
Proof.
  apply (ensureQueue_caches fake_send "orders" fresh_sqs "http://sqs/orders"
           (Sqs.ensureQueue fake_send "orders" fresh_sqs).2).
  vm_compute. reflexivity.
Defined.

Lemma ensureQueue_failure_witness :
  Sqs.sent (Sqs.ensureQueue down_send "orders" (Sqs.new_driver tt)).2
  = [Sqs.GetQueueUrlCommand "orders"; Sqs.CreateQueueCommand "orders"]
  /\ Sqs.queueUrlCache (Sqs.ensureQueue down_send "orders" (Sqs.new_driver tt)).2 = ∅
  /\ Sqs.queueUrlCache (Sqs.ensureQueue down_send "orders" (Sqs.new_driver tt)).2
       !! "orders" = None.
Proof.
  apply (ensureQueue_failure down_send "orders" (Sqs.new_driver tt) "ServiceUnavailable"
           (Sqs.ensureQueue down_send "orders" (Sqs.new_driver tt)).2).
  vm_compute. reflexivity.
Defined.

(** ** The SQS poller *)

Section SqsPollerFacts.

Context {T : Type}.

Implicit Types (w : Sqs.world T) (msg : Message.QueueMessage T).

Lemma sqs_exec_app (es1 es2 : list (Sqs.event T)) w :
  Sqs.exec w (es1 ++ es2)
  = '(w1, os1) ← Sqs.exec w es1;
    '(w2, os2) ← Sqs.exec w1 es2;
    Some (w2, os1 ++ os2).
Proof.
  revert w. induction es1 as [|e es1 IH]; intros w; simpl.
  - destruct (Sqs.exec w es2) as [[w2 os2]|]; reflexivity.
  - destruct (Sqs.step w e) as [[w1 os1]|]; simpl; [|done].
    rewrite IH. destruct (Sqs.exec w1 es1) as [[w2 os2]|]; simpl; [|done].
    destruct (Sqs.exec w2 es2) as [[w3 os3]|]; simpl; [|done].
    by rewrite app_assoc.
Qed.

Lemma sqs_for_messages_active pid sid s todo w :
  Sqs.closures w !! sid = Some s -> Sqs.isActive s = true ->
  exists w1,
    Sqs.for_messages pid sid todo w
    = Some (w1, match todo with
                | [] => [Sqs.ObsScheduled sid (Sqs.next_timer w)]
                | msg :: _ => [Sqs.ObsHandler sid msg]
                end)
    /\ match todo with
       | [] => True
       | msg :: rest =>
           Sqs.closures w1 = Sqs.closures w
           /\ Sqs.next_timer w1 = Sqs.next_timer w
           /\ Sqs.polls w1 !! pid = Some (sid, Sqs.AwaitHandler msg rest)
       end.
Proof.
  intros Hs Hact. unfold Sqs.for_messages. rewrite Hs. simpl.
  destruct todo as [|msg rest].
  - unfold Sqs.reschedule. simpl. rewrite Hs. simpl. rewrite Hact.
    eexists. split; [reflexivity | done].
  - rewrite Hact. simpl. eexists. split; [reflexivity|].
    split; [done|]. split; [done|]. simpl. by rewrite lookup_insert_eq.
Qed.

(** One message settles: its ack is started if due, then the handler is
    called on the next message, or the next poll is scheduled. *)
Lemma sqs_settle_one pid sid s msg rest o w :
  Sqs.closures w !! sid = Some s -> Sqs.isActive s = true ->
  Sqs.polls w !! pid = Some (sid, Sqs.AwaitHandler msg rest) ->
  exists w1,
    Sqs.exec w (sqs_settle pid (Sqs.sub_autoAck s) o)
    = Some (w1, sqs_acks sid (Sqs.sub_autoAck s) msg o
                ++ match rest with
                   | [] => [Sqs.ObsScheduled sid (Sqs.next_timer w)]
                   | next :: _ => [Sqs.ObsHandler sid next]
                   end)
    /\ match rest with
       | [] => True
       | next :: rest' =>
           Sqs.closures w1 = Sqs.closures w
           /\ Sqs.next_timer w1 = Sqs.next_timer w
           /\ Sqs.polls w1 !! pid = Some (sid, Sqs.AwaitHandler next rest')
       end.
Proof.
  intros Hs Hact Hp.
  destruct (sqs_for_messages_active pid sid s rest w Hs Hact) as (w1 & Hf & Hrest).
  destruct o as [[|] o2]; unfold sqs_settle, sqs_acks; cbn [fst snd].
  - destruct (Sqs.sub_autoAck s) eqn:Ha.
    + pose (wa := Sqs.set_polls (<[pid := (sid, Sqs.AwaitAck rest)]> (Sqs.polls w)) w).
      assert (H1 : Sqs.resume pid (Sqs.Done Resolved) w
                   = Some (wa, [Sqs.ObsAckStarted sid (Message.receipt msg)])).
      { unfold Sqs.resume. rewrite Hp. simpl. rewrite Hs. simpl. by rewrite Ha. }
      destruct (sqs_for_messages_active pid sid s rest wa Hs Hact) as (w2 & Hf2 & Hrest2).
      assert (H2 : Sqs.resume pid (Sqs.Done o2) wa
                   = Some (w2, match rest with
                               | [] => [Sqs.ObsScheduled sid (Sqs.next_timer w)]
                               | next :: _ => [Sqs.ObsHandler sid next]
                               end)).
      { assert (Hpa : Sqs.polls wa !! pid = Some (sid, Sqs.AwaitAck rest))
          by apply lookup_insert_eq.
        assert (Hsa : Sqs.closures wa !! sid = Some s) by exact Hs.
        unfold Sqs.resume. rewrite Hpa. cbn [mbind option_bind]. rewrite Hsa.
        cbn [mbind option_bind]. exact Hf2. }
      exists w2. cbn [Sqs.exec Sqs.step]. rewrite H1. cbn [mbind option_bind].
      rewrite H2. cbn. rewrite app_nil_r. split; [done|].
      destruct rest; [done|]. exact Hrest2.
    + exists w1. cbn [Sqs.exec Sqs.step]. unfold Sqs.resume. rewrite Hp. simpl.
      rewrite Hs. simpl. rewrite Ha, Hf. cbn. rewrite app_nil_r. by split.
  - exists w1. cbn [Sqs.exec Sqs.step]. unfold Sqs.resume. rewrite Hp. simpl.
    rewrite Hs. simpl. rewrite Hf. cbn. rewrite app_nil_r. by split.
Qed.

Lemma sqs_handlers_from pid sid s :
  Sqs.isActive s = true ->
  forall rest msg o outcomes w,
    Sqs.closures w !! sid = Some s ->
    Sqs.polls w !! pid = Some (sid, Sqs.AwaitHandler msg rest) ->
    length outcomes = length rest ->
    exists w1,
      Sqs.exec w ((o :: outcomes) ≫= sqs_settle pid (Sqs.sub_autoAck s))
      = Some (w1, sqs_acks sid (Sqs.sub_autoAck s) msg o
                  ++ (zip rest outcomes ≫= sqs_seen sid (Sqs.sub_autoAck s))
                  ++ [Sqs.ObsScheduled sid (Sqs.next_timer w)]).
Proof.
  intros Hact rest. induction rest as [|next rest IH]; intros msg o outcomes w Hs Hp Hlen.
  - destruct outcomes; [|done]. rewrite bind_cons. simpl. rewrite app_nil_r.
    destruct (sqs_settle_one pid sid s msg [] o w Hs Hact Hp) as (w1 & He & _).
    by exists w1.
  - destruct outcomes as [|o' outcomes]; [done|]. simpl in Hlen.
    rewrite bind_cons, sqs_exec_app.
    destruct (sqs_settle_one pid sid s msg (next :: rest) o w Hs Hact Hp)
      as (w1 & He & Hc & Hn & Hp1).
    rewrite He. cbn [mbind option_bind].
    destruct (IH next o' outcomes w1) as (w2 & He2); [by rewrite Hc | done | lia |].
    cbn [mbind] in He2. rewrite He2. cbn [zip zip_with]. rewrite bind_cons.
    unfold sqs_seen at 2. cbn [fst snd]. rewrite Hn.
    exists w2. unfold mbind at 1. cbn [option_bind]. f_equal. f_equal.
    rewrite <- !app_assoc. reflexivity.
Qed.

(** X16. Within one poll of an active SQS subscription, the handler is
    called on the messages pulled one after the other, in the order of the
    pull; with auto-ack, the ack of a message is started when its handler
    has succeeded, before the next handler call, and is not started when
    the handler has failed; a handler or an ack that fails does not stop
    the poll; and the next poll is scheduled after the last message. *)
Theorem sqs_poll_in_order pid sid s messages outcomes w :
  Sqs.closures w !! sid = Some s ->
  Sqs.isActive s = true ->
  Sqs.polls w !! pid = Some (sid, Sqs.AwaitPull) ->
  length outcomes = length messages ->
  exists w1,
    Sqs.exec w (sqs_whole_poll pid (Sqs.sub_autoAck s) messages outcomes)
    = Some (w1, (zip messages outcomes ≫= sqs_seen sid (Sqs.sub_autoAck s))
                ++ [Sqs.ObsScheduled sid (Sqs.next_timer w)]).
Proof.
  intros Hs Hact Hp Hlen. unfold sqs_whole_poll.
  change (Sqs.EvResume pid (Sqs.Pulled messages)
            :: (outcomes ≫= sqs_settle (T:=T) pid (Sqs.sub_autoAck s)))
    with ([Sqs.EvResume pid (Sqs.Pulled messages)]
            ++ (outcomes ≫= sqs_settle (T:=T) pid (Sqs.sub_autoAck s))).
  rewrite sqs_exec_app. cbn [Sqs.exec Sqs.step].
  unfold Sqs.resume. rewrite Hp. cbn [mbind option_bind]. rewrite Hs.
  cbn [mbind option_bind].
  destruct (sqs_for_messages_active pid sid s messages w Hs Hact) as (w1 & Hf & Hrest).
  rewrite Hf. cbn [mbind option_bind].
  destruct messages as [|msg rest].
  - destruct outcomes; [|done]. cbn. by exists w1.
  - destruct outcomes as [|o outcomes]; [done|]. simpl in Hlen.
    destruct Hrest as (Hc & Hn & Hp1).
    destruct (sqs_handlers_from pid sid s Hact rest msg o outcomes w1) as (w2 & He2);
      [by rewrite Hc | done | lia |].
    rewrite He2. cbn [zip zip_with]. rewrite bind_cons. unfold sqs_seen at 2.
    cbn [fst snd]. rewrite Hn. exists w2. unfold mbind at 1. cbn [option_bind].
    f_equal. f_equal. rewrite app_nil_r, <- !app_assoc. reflexivity.
Qed.

(** X17. A pull that fails does not end an active SQS subscription: the
    poll is over, no handler is called, and the next poll is scheduled
    [pollIntervalMs] later, as [setTimeout] counts that delay. *)
Theorem sqs_failed_pull_is_retried pid sid s w :
  Sqs.closures w !! sid = Some s ->
  Sqs.isActive s = true ->
  Sqs.polls w !! pid = Some (sid, Sqs.AwaitPull) ->
  exists w1,
    Sqs.resume pid (Sqs.Done Rejected) w
    = Some (w1, [Sqs.ObsScheduled sid (Sqs.next_timer w)])
    /\ Sqs.timers w1 !! Sqs.next_timer w
       = Some (Sqs.clock w + Js.timeout (Sqs.sub_pollIntervalMs s), sid)
    /\ Sqs.polls w1 !! pid = None
    /\ exists s1, Sqs.closures w1 !! sid = Some s1 /\ Sqs.isActive s1 = true.
Proof.
  intros Hs Hact Hp. unfold Sqs.resume. rewrite Hp. simpl. rewrite Hs. simpl.
  unfold Sqs.reschedule. simpl. rewrite Hs. simpl. rewrite Hact.
  eexists. split; [reflexivity|]. simpl.
  split; [by rewrite lookup_insert_eq|]. split; [by rewrite lookup_delete_eq|].
  eexists. split; [by rewrite lookup_insert_eq | done].
Qed.

(** X18. The polls of an SQS subscription never overlap: in every state
    that a run from the empty driver reaches, a subscription has at most
    one poll under way and at most one timeout pending for its next poll,
    and never both. *)
Theorem sqs_polls_do_not_overlap (es : list (Sqs.event T)) w os :
  Sqs.exec Sqs.init es = Some (w, os) ->
  sqs_one_at_a_time w.
Proof.
  intros Hex. apply (sqs_sound_exec es Sqs.init w os sqs_sound_init) in Hex.
  destruct Hex as (Htimers & M1 & M2 & _). split; [exact M1|]. split; [exact M2|].
  intros tid tid' due due' sid H1 H2.
  destruct (Htimers tid due sid H1) as (s & Hs & Ht).
  destruct (Htimers tid' due' sid H2) as (s' & Hs' & Ht').
  congruence.
Qed.

End SqsPollerFacts.

Lemma sqs_poll_in_order_witness :
  exists w1,
    Sqs.exec sqs_polling
      (sqs_whole_poll 0 true [sqs_job; sqs_second_job]
         [(Rejected, Resolved); (Resolved, Rejected)])
    = Some (w1, [Sqs.ObsHandler 0 sqs_job; Sqs.ObsHandler 0 sqs_second_job;
                 Sqs.ObsAckStarted 0 "r2"; Sqs.ObsScheduled 0 0]).
Proof.
  apply (sqs_poll_in_order 0 0 sqs_auto_ack_subscription [sqs_job; sqs_second_job]
           [(Rejected, Resolved); (Resolved, Rejected)] sqs_polling).
  - vm_compute. reflexivity.
  - reflexivity.
  - vm_compute. reflexivity.
  - reflexivity.
Defined.

Lemma sqs_failed_pull_is_retried_witness :
  exists w1,
    Sqs.resume 0 (Sqs.Done Rejected) sqs_polling = Some (w1, [Sqs.ObsScheduled 0 0])
    /\ Sqs.timers w1 !! 0%nat = Some (20000, 0%nat)
    /\ Sqs.polls w1 !! 0%nat = None
    /\ exists s1, Sqs.closures w1 !! 0%nat = Some s1 /\ Sqs.isActive s1 = true.
Proof.
  apply (sqs_failed_pull_is_retried 0 0 sqs_auto_ack_subscription sqs_polling).
  - vm_compute. reflexivity.
  - reflexivity.
  - vm_compute. reflexivity.
Defined.

Lemma sqs_polls_do_not_overlap_witness : sqs_one_at_a_time sqs_polling.
Proof.
  apply (sqs_polls_do_not_overlap
           [Sqs.EvSubscribe "jobs"
              (Some {| Subscribe.maxMessages := Some 3; Subscribe.pollIntervalMs := None;
                       Subscribe.autoAck := Some true |})]
           sqs_polling [Sqs.ObsPullStarted 0; Sqs.ObsSubscribed 0]).
  vm_compute. reflexivity.
Defined.

(** ** The SQS poller: unsubscribe and the other subscriptions *)

Section SqsSiblings.

Context {T : Type}.

Implicit Types (w : Sqs.world T) (e : Sqs.event T).

Lemma sqs_apart_frame w w1 :
  (Sqs.next_timer w <= Sqs.next_timer w1)%nat ->
  (forall sid s1 tid, Sqs.closures w1 !! sid = Some s1 -> Sqs.timeoutId s1 = Some tid ->
     exists s, Sqs.closures w !! sid = Some s /\ Sqs.timeoutId s = Some tid) ->
  sqs_timeouts_apart w -> sqs_timeouts_apart w1.
Proof.
  intros Hn Hc [A1 A2]. split.
  - intros sid sid' s s' tid Hs Hs' Ht Ht'.
    destruct (Hc sid s tid Hs Ht) as (s0 & Hs0 & Ht0).
    destruct (Hc sid' s' tid Hs' Ht') as (s0' & Hs0' & Ht0').
    exact (A1 sid sid' s0 s0' tid Hs0 Hs0' Ht0 Ht0').
  - intros sid s tid Hs Ht. destruct (Hc sid s tid Hs Ht) as (s0 & Hs0 & Ht0).
    pose proof (A2 sid s0 tid Hs0 Ht0). lia.
Qed.

Lemma sqs_apart_reschedule sid w w1 os :
  sqs_timeouts_apart w -> Sqs.reschedule sid w = Some (w1, os) -> sqs_timeouts_apart w1.
Proof.
  intros [A1 A2] Hr. unfold Sqs.reschedule in Hr.
  destruct (Sqs.closures w !! sid) as [s|] eqn:Hs; simpl in Hr; [|done].
  destruct (Sqs.isActive s); inversion Hr; subst; clear Hr; [|by split].
  split; simpl.
  - intros sid1 sid2 s1 s2 tid H1 H2 T1 T2.
    apply lookup_insert_Some in H1 as [[E1 V1] | [N1 H1]];
      apply lookup_insert_Some in H2 as [[E2 V2] | [N2 H2]]; subst.
    + done.
    + simpl in T1. injection T1 as <-. pose proof (A2 sid2 s2 _ H2 T2). lia.
    + simpl in T2. injection T2 as <-. pose proof (A2 sid1 s1 _ H1 T1). lia.
    + exact (A1 sid1 sid2 s1 s2 tid H1 H2 T1 T2).
  - intros sid1 s1 tid H1 T1.
    apply lookup_insert_Some in H1 as [[E1 V1] | [N1 H1]]; subst.
    + simpl in T1. injection T1 as <-. lia.
    + pose proof (A2 sid1 s1 tid H1 T1). lia.
Qed.

Lemma sqs_apart_for_messages pid sid todo w w1 os :
  sqs_timeouts_apart w -> Sqs.for_messages pid sid todo w = Some (w1, os) ->
  sqs_timeouts_apart w1.
Proof.
  intros Ha Hf.
  apply sqs_for_messages_inv in Hf as (s & _ & [[_ Hr] | (msg & rest & _ & _ & -> & _)]).
  - by apply (sqs_apart_reschedule sid _ w1 os) in Hr.
  - exact Ha.
Qed.

Lemma sqs_apart_poll sid w w1 os :
  sqs_timeouts_apart w -> Sqs.poll sid w = Some (w1, os) -> sqs_timeouts_apart w1.
Proof.
  intros Ha Hp. unfold Sqs.poll in Hp.
  destruct (Sqs.closures w !! sid) as [s|]; simpl in Hp; [|done].
  destruct (Sqs.isActive s); simpl in Hp; inversion Hp; subst; exact Ha.
Qed.

Lemma sqs_apart_step w e w1 os :
  sqs_timeouts_apart w -> Sqs.step w e = Some (w1, os) -> sqs_timeouts_apart w1.
Proof.
  intros Ha Hstep. destruct e as [q options|sid|ms|tid|pid r]; simpl in Hstep.
  - unfold Sqs.subscribe in Hstep.
    match type of Hstep with
    | context [Sqs.poll _ ?x] => set (w0 := x) in Hstep
    end.
    destruct (Sqs.poll (Sqs.next_sub w) w0) as [[w2 os2]|] eqn:Hp; simpl in Hstep; [|done].
    inversion Hstep; subst w2 os; clear Hstep.
    apply (sqs_apart_poll (Sqs.next_sub w) w0 w1 os2); [|exact Hp].
    apply (sqs_apart_frame w); [done| |done].
    intros sid s1 tid Hs1 Ht1. simpl in Hs1.
    apply lookup_insert_Some in Hs1 as [[_ <-] | [_ Hs1]]; [done|]. by exists s1.
  - destruct (Sqs.unsubscribe sid w) as [w2|] eqn:Hu; simpl in Hstep; [|done].
    inversion Hstep; subst w2 os; clear Hstep.
    unfold Sqs.unsubscribe in Hu.
    destruct (Sqs.closures w !! sid) as [s|] eqn:Hs; simpl in Hu; [|done].
    injection Hu as <-.
    apply (sqs_apart_frame w); [by destruct (Sqs.timeoutId s)| |done].
    intros sid' s1 tid Hs1 Ht1.
    assert (Hs1' : <[sid := Sqs.set_isActive false s]> (Sqs.closures w) !! sid'
                   = Some s1) by (by destruct (Sqs.timeoutId s)).
    apply lookup_insert_Some in Hs1' as [[<- <-] | [_ Hs1']]; by eauto.
  - destruct (0 <=? ms); inversion Hstep; subst. exact Ha.
  - unfold Sqs.fire in Hstep.
    destruct (Sqs.timers w !! tid) as [[due sid]|]; simpl in Hstep; [|done].
    destruct (due <=? Sqs.clock w); [|done].
    by apply (sqs_apart_poll sid _ w1 os) in Hstep.
  - unfold Sqs.resume in Hstep.
    destruct (Sqs.polls w !! pid) as [[sid k]|]; simpl in Hstep; [|done].
    destruct (Sqs.closures w !! sid) as [s|]; simpl in Hstep; [|done].
    destruct k as [|msg rest|rest], r as [messages|[|]]; try done;
      try (by apply (sqs_apart_for_messages pid sid _ w w1 os) in Hstep).
    + by apply (sqs_apart_reschedule sid _ w1 os) in Hstep.
    + destruct (Sqs.sub_autoAck s).
      * inversion Hstep; subst. exact Ha.
      * by apply (sqs_apart_for_messages pid sid _ w w1 os) in Hstep.
Qed.

Lemma sqs_apart_exec es w w1 os :
  sqs_timeouts_apart w -> Sqs.exec w es = Some (w1, os) -> sqs_timeouts_apart w1.
Proof.
  revert w os. induction es as [|e es IH]; intros w os Ha Hex; simpl in Hex.
  - by inversion Hex; subst.
  - destruct (Sqs.step w e) as [[w2 os2]|] eqn:Hstep; simpl in Hex; [|done].
    destruct (Sqs.exec w2 es) as [[w3 os3]|] eqn:Hrest; simpl in Hex; [|done].
    inversion Hex; subst; clear Hex.
    eapply IH; [|exact Hrest]. by eapply sqs_apart_step.
Qed.

(** X19. On the SQS driver [unsubscribe] touches its own subscription
    only: in every state that a run from the empty driver reaches, it
    leaves the closure of every other subscription, the timeout pending
    for its next poll and every poll under way as they are. *)
Theorem sqs_unsubscribe_spares_others (es : list (Sqs.event T)) w os sid w1 :
  Sqs.exec Sqs.init es = Some (w, os) ->
  Sqs.unsubscribe sid w = Some w1 ->
  Sqs.polls w1 = Sqs.polls w
  /\ forall sid', sid' ≠ sid ->
       Sqs.closures w1 !! sid' = Sqs.closures w !! sid'
       /\ forall tid due, Sqs.timers w !! tid = Some (due, sid') ->
                          Sqs.timers w1 !! tid = Some (due, sid').
Proof.
  intros Hex Hu.
  pose proof (sqs_sound_exec es Sqs.init w os sqs_sound_init Hex) as (S1 & _).
  assert (Ha : sqs_timeouts_apart w).
  { apply (sqs_apart_exec es Sqs.init w os); [|exact Hex].
    split; intros ? ? *; simpl; intros H; by rewrite lookup_empty in H. }
  destruct Ha as [A1 _].
  apply sqs_unsubscribe_inv in Hu as (s & Hs & Hcl & Hti & Hpo & _).
  split; [exact Hpo|]. intros sid' Hne. split.
  - rewrite Hcl. by apply lookup_insert_ne.
  - intros tid due Ht. rewrite Hti.
    destruct (Sqs.timeoutId s) as [t|] eqn:Et; [|exact Ht].
    rewrite lookup_delete_ne; [exact Ht|]. intros ->.
    destruct (S1 tid due sid' Ht) as (s' & Hs' & Et').
    apply Hne. exact (A1 sid' sid s' s tid Hs' Hs Et' Et).
Qed.

End SqsSiblings.

Lemma sqs_unsubscribe_spares_others_witness :
  Sqs.polls sqs_first_unsubscribed = Sqs.polls sqs_both_scheduled
  /\ Sqs.closures sqs_first_unsubscribed !! 1%nat = Sqs.closures sqs_both_scheduled !! 1%nat
  /\ Sqs.timers sqs_first_unsubscribed !! 1%nat = Some (20000, 1%nat).
Proof.
  destruct (sqs_unsubscribe_spares_others sqs_two_subscribers sqs_both_scheduled
              [Sqs.ObsPullStarted 0; Sqs.ObsSubscribed 0;
               Sqs.ObsPullStarted 1; Sqs.ObsSubscribed 1;
               Sqs.ObsScheduled 0 0; Sqs.ObsScheduled 1 1]
              0%nat sqs_first_unsubscribed) as [Hpolls Hothers].
  - vm_compute. reflexivity.
  - vm_compute. reflexivity.
  - split; [exact Hpolls|].
    destruct (Hothers 1%nat ltac:(lia)) as [Hcl Hti]. split; [exact Hcl|].
    apply Hti. vm_compute. reflexivity.
Defined.

(** ** The in-memory driver: a delay that outlasts the time to live *)

Section InMemoryLate.

Context {T : Type}.

Implicit Types (w : InMemory.world T) (msg : InMemory.StoredMessage T).
Implicit Types (o : InMemory.obs T) (e : InMemory.event T).

Lemma others_dead uid now (l : list (InMemory.StoredMessage T)) :
  others uid l ->
  Forall (fun msg => Message.id (InMemory.message msg) = uid ->
                     InMemory.is_expired now msg = true) l.
Proof. intros H. eapply Forall_impl; [exact H|]. intros msg Hne Hid. done. Qed.

Lemma dead_stored uid w q :
  dead uid w ->
  Forall (fun msg => Message.id (InMemory.message msg) = uid ->
                     InMemory.is_expired (InMemory.clock w) msg = true)
         (InMemory.stored_in q w).
Proof.
  intros (Hq & _). unfold InMemory.stored_in.
  destruct (InMemory.queues w !! q) as [l|] eqn:E; simpl; [by apply (Hq q)|constructor].
Qed.

Lemma dead_set_queue uid w q l :
  dead uid w ->
  Forall (fun msg => Message.id (InMemory.message msg) = uid ->
                     InMemory.is_expired (InMemory.clock w) msg = true) l ->
  dead uid (InMemory.set_queues (<[q := l]> (InMemory.queues w)) w).
Proof.
  intros (Hq & Hp & Ht) Hl. split; [|by split].
  intros q' l' Hlk. simpl in Hlk.
  apply lookup_insert_Some in Hlk as [[_ <-] | [_ Hlk]]; [done|]. by apply (Hq q').
Qed.

Lemma dead_delete_poll uid w pid :
  dead uid w -> dead uid (InMemory.set_polls (delete pid (InMemory.polls w)) w).
Proof.
  intros (Hq & Hp & Ht). split; [done|]. split; [|done].
  intros pid' sid k Hlk. simpl in Hlk. apply lookup_delete_Some in Hlk as [_ Hlk].
  by apply (Hp pid' sid).
Qed.

Lemma dead_insert_poll uid w pid sid k :
  dead uid w -> others uid (poll_messages k) ->
  dead uid (InMemory.set_polls (<[pid := (sid, k)]> (InMemory.polls w)) w).
Proof.
  intros (Hq & Hp & Ht) Hk. split; [done|]. split; [|done].
  intros pid' sid' k' Hlk. simpl in Hlk.
  apply lookup_insert_Some in Hlk as [[_ E] | [_ Hlk]]; [by simplify_eq|].
  by apply (Hp pid' sid').
Qed.

(** A pull leaves the dead where they are or drops them, and returns
    none of them. *)
Lemma dead_pull uid w q maxMessages :
  dead uid w ->
  dead uid (InMemory.pull q maxMessages w).1
  /\ others uid (InMemory.pull q maxMessages w).2.
Proof.
  intros Hd. rewrite pull_eq. cbn [fst snd].
  assert (Hvalid : others uid (filter (unexpired (InMemory.clock w))
                                 (InMemory.stored_in q w))).
  { apply Forall_forall. intros msg Hin.
    apply list_elem_of_filter in Hin as [Hu Hin]. intros Hid.
    pose proof (dead_stored uid w q Hd) as Hs. rewrite Forall_forall in Hs.
    specialize (Hs msg Hin Hid). unfold unexpired in Hu. congruence. }
  split.
  - apply dead_set_queue; [done|]. apply others_dead. by apply Forall_drop.
  - by apply Forall_take.
Qed.

Lemma dead_reschedule uid sid w w1 os :
  dead uid w -> InMemory.reschedule sid w = Some (w1, os) ->
  dead uid w1 /\ Forall (clean uid) os.
Proof.
  intros Hh Hr.
  apply reschedule_inv in Hr
    as (s & _ & _ & Hpo & Hqu & Hcl & _ & _ & [(_ & -> & ->) | (_ & -> & Hti & _ & _)]).
  - split; [done | constructor].
  - destruct Hh as (Hq & Hp & Ht). split; [|by repeat constructor].
    unfold dead. rewrite Hqu, Hpo, Hti, Hcl. split; [done|]. split; [done|].
    intros tid t q msg Hlk Hrun.
    apply lookup_insert_Some in Hlk as [[_ <-] | [_ Hlk]]; [done|]. by apply (Ht tid t q).
Qed.

Lemma dead_for_messages uid pid sid todo w w1 os :
  dead uid w -> others uid todo ->
  InMemory.for_messages pid sid todo w = Some (w1, os) ->
  dead uid w1 /\ Forall (clean uid) os.
Proof.
  intros Hh Htodo Hf.
  apply for_messages_inv in Hf as (s & _ & [[_ Hr] | (msg & rest & -> & _ & -> & ->)]).
  - eapply dead_reschedule; [apply dead_delete_poll, Hh | exact Hr].
  - split; [by apply dead_insert_poll|].
    constructor; [|constructor]. simpl. by apply Forall_inv in Htodo.
Qed.

Lemma dead_poll uid sid w w1 os :
  dead uid w -> InMemory.poll sid w = Some (w1, os) ->
  dead uid w1 /\ Forall (clean uid) os.
Proof.
  intros Hh Hp. unfold InMemory.poll in Hp.
  destruct (InMemory.closures w !! sid) as [s|]; simpl in Hp; [|done].
  destruct (InMemory.isActive s); simpl in Hp.
  - destruct (dead_pull uid w (InMemory.sub_queue s)
                (Some (InMemory.sub_maxMessages s)) Hh) as [Hh1 Hms].
    pose proof (clock_pull (InMemory.sub_queue s) (Some (InMemory.sub_maxMessages s)) w)
      as Hck.
    destruct (InMemory.pull _ _ w) as [w' messages]. cbn [fst snd] in Hh1, Hms, Hck.
    inversion Hp; subst; clear Hp. split; [|by repeat constructor].
    destruct Hh1 as (Hq & Hpo & Ht). split; [done|]. split; [|done].
    intros pid sid' k Hlk. simpl in Hlk.
    apply lookup_insert_Some in Hlk as [[_ E] | [_ Hlk]]; [by simplify_eq|].
    by apply (Hpo pid sid').
  - inversion Hp; subst. split; [done | constructor].
Qed.

Lemma is_expired_later now now' msg :
  now <= now' -> InMemory.is_expired now msg = true -> InMemory.is_expired now' msg = true.
Proof.
  unfold InMemory.is_expired. intros Hle.
  destruct (Message.expiresAt (InMemory.message msg)) as [x|]; [|done].
  rewrite !Z.leb_le. lia.
Qed.

Lemma dead_step uid w e w1 os :
  dead uid w -> other_publish uid e ->
  InMemory.step w e = Some (w1, os) ->
  dead uid w1 /\ Forall (clean uid) os.
Proof.
  intros Hh Hfresh Hstep.
  destruct e as [q p options u1 u2|q k|q r|q options|sid'|ms|tid|pid o];
    simpl in Hstep, Hfresh.
  - unfold InMemory.publish in Hstep.
    destruct (Js.truthy_number (options ≫= Options.delaySeconds));
      inversion Hstep; subst; clear Hstep; (split; [|by repeat constructor]).
    + destruct Hh as (Hq & Hp & Ht). split; [done|]. split; [done|].
      intros tid t q' msg Hlk Hrun Hid. simpl in Hlk.
      apply lookup_insert_Some in Hlk as [[_ <-] | [_ Hlk]].
      * simpl in Hrun. injection Hrun as _ <-. simpl in Hid. done.
      * by apply (Ht tid t q' msg).
    + unfold InMemory.push. apply dead_set_queue; [done|].
      apply Forall_app. split; [by apply dead_stored|].
      constructor; [|constructor]. simpl. done.
  - destruct (dead_pull uid w q k Hh) as [Hh1 Hms].
    destruct (InMemory.pull q k w) as [w' messages]. cbn [fst snd] in Hh1, Hms.
    inversion Hstep; subst. split; [done | by repeat constructor].
  - inversion Hstep; subst; clear Hstep. split; [|constructor].
    unfold InMemory.ack. apply dead_set_queue; [done|].
    pose proof (dead_stored uid w q Hh) as Hs. rewrite Forall_forall in Hs.
    apply Forall_forall. intros msg Hin.
    apply list_elem_of_filter in Hin as [_ Hin]. by apply Hs.
  - unfold InMemory.subscribe in Hstep.
    match type of Hstep with
    | context [InMemory.poll _ ?x] => set (w0 := x) in Hstep
    end.
    destruct (InMemory.poll (InMemory.next_sub w) w0) as [[w2 os2]|] eqn:Hp;
      simpl in Hstep; [|done].
    inversion Hstep; subst; clear Hstep.
    destruct (dead_poll uid _ w0 w1 os2 Hh Hp) as [Hh1 Hos].
    split; [done|]. apply Forall_app. split; [done | by repeat constructor].
  - destruct (InMemory.unsubscribe sid' w) as [w2|] eqn:Hu; simpl in Hstep; [|done].
    inversion Hstep; subst; clear Hstep. split; [|constructor].
    apply unsubscribe_inv in Hu as (s & _ & _ & Hti & _ & Hpo & Hqu & Hck & _).
    destruct Hh as (Hq & Hp & Ht). unfold dead. rewrite Hqu, Hpo, Hti, Hck.
    split; [done|]. split; [done|].
    intros tid t q msg Hlk. apply lookup_clear_timeouts in Hlk as [Hlk _].
    by apply (Ht tid t q msg).
  - destruct (Z.leb_spec 0 ms) as [Hms|]; inversion Hstep; subst; clear Hstep.
    split; [|constructor]. destruct Hh as (Hq & Hp & Ht).
    split; [|by split]. intros q l Hl. simpl in Hl.
    eapply Forall_impl; [exact (Hq q l Hl)|]. intros msg Hm Hid. simpl.
    apply (is_expired_later (InMemory.clock w)); [lia | by apply Hm].
  - unfold InMemory.fire in Hstep.
    destruct (InMemory.timers w !! tid) as [t|] eqn:Etimer; simpl in Hstep; [|done].
    destruct (Z.leb_spec (InMemory.due t) (InMemory.clock w)) as [Hdue|]; [|done].
    assert (Hh0 : dead uid (InMemory.set_timers (delete tid (InMemory.timers w)) w)).
    { destruct Hh as (Hq & Hp & Ht). split; [done|]. split; [done|].
      intros tid' t' q msg Hlk. simpl in Hlk. apply lookup_delete_Some in Hlk as [_ Hlk].
      by apply (Ht tid' t' q msg). }
    destruct (InMemory.run t) as [q msg|sid] eqn:Hrun.
    + inversion Hstep; subst; clear Hstep. split; [|constructor].
      unfold InMemory.push. apply dead_set_queue; [done|].
      apply Forall_app. split; [by apply (dead_stored uid)|].
      constructor; [|constructor]. intros Hid. simpl.
      destruct Hh as (_ & _ & Ht).
      destruct (Ht tid t q msg Etimer Hrun Hid) as (x & Hx & Hle).
      unfold InMemory.is_expired. rewrite Hx. apply Z.leb_le. lia.
    + by apply (dead_poll uid sid _ w1 os Hh0).
  - unfold InMemory.resume in Hstep.
    destruct (InMemory.polls w !! pid) as [[sid k]|] eqn:Hpoll; simpl in Hstep; [|done].
    destruct (InMemory.closures w !! sid) as [s|] eqn:Hcl; simpl in Hstep; [|done].
    assert (Hk : others uid (poll_messages k)).
    { destruct Hh as (_ & Hp & _). by apply (Hp pid sid). }
    destruct k as [messages|msg rest|rest], o; try done; simpl in Hk.
    + by apply (dead_for_messages uid pid sid messages w).
    + apply Forall_cons in Hk as [Hmsg Hrest]. destruct (InMemory.sub_autoAck s).
      * inversion Hstep; subst; clear Hstep. split; [|constructor].
        apply (dead_insert_poll uid (InMemory.ack _ _ w)); [|done].
        unfold InMemory.ack. apply dead_set_queue; [done|].
        pose proof (dead_stored uid w (InMemory.sub_queue s) Hh) as Hs.
        rewrite Forall_forall in Hs. apply Forall_forall. intros m Hin.
        apply list_elem_of_filter in Hin as [_ Hin]. by apply Hs.
      * by apply (dead_for_messages uid pid sid rest w).
    + apply Forall_cons in Hk as [Hmsg Hrest].
      apply (dead_for_messages uid pid sid rest (InMemory.on_handler_error s msg w));
        [|done|done].
      unfold InMemory.on_handler_error. destruct (negb _); [|done].
      apply dead_set_queue; [done|].
      constructor; [done|]. by apply (dead_stored uid).
    + by apply (dead_for_messages uid pid sid rest w).
Qed.

Lemma dead_exec uid es w w1 os :
  dead uid w -> Forall (other_publish uid) es ->
  InMemory.exec w es = Some (w1, os) ->
  dead uid w1 /\ Forall (clean uid) os.
Proof.
  revert w os. induction es as [|e es IH]; intros w os Hh Hfresh Hex; simpl in Hex.
  - inversion Hex; subst. split; [done | constructor].
  - destruct (InMemory.step w e) as [[w2 os2]|] eqn:Hstep; simpl in Hex; [|done].
    destruct (InMemory.exec w2 es) as [[w3 os3]|] eqn:Hrest; simpl in Hex; [|done].
    inversion Hex; subst; clear Hex.
    apply Forall_cons in Hfresh as [He Hes].
    destruct (dead_step uid w e w2 os2 Hh He Hstep) as [Hh2 Hos2].
    destruct (IH w2 os3 Hh2 Hes Hrest) as [Hh3 Hos3].
    split; [done|]. apply Forall_app. by split.
Qed.

(** X20. On the in-memory driver the time to live runs from the publish,
    not from the arrival in the queue: a message published with a
    [ttlSeconds] that is not longer than its [delaySeconds] has expired
    when it is pushed, so that, whatever happens afterwards, no pull and
    no poll returns it and no handler is called on it. The delay is one
    that [setTimeout] takes as it is, at most 2^31 - 1 ms, and the end of
    the time to live is a time that a [Date] can hold. The id drawn for
    the message is new to the driver and is not drawn again. *)
Theorem delay_outlasting_ttl_loses_message q (p : T) options uuid_id uuid_receipt N M w :
  options ≫= Options.delaySeconds = Some N -> 0 < N -> N * 1000 <= Js.TIMEOUT_MAX ->
  options ≫= Options.ttlSeconds = Some M -> M ≠ 0 -> M <= N ->
  - Js.MAX_TIME <= InMemory.clock w + M * 1000 <= Js.MAX_TIME ->
  unknown uuid_id w ->
  forall es w1 os,
    Forall (other_publish uuid_id) es ->
    InMemory.exec (InMemory.publish q p options uuid_id uuid_receipt w).1 es
    = Some (w1, os) ->
    Forall (clean uuid_id) os.
Proof.
  intros Hdelay HN Hmax Httl HM HMN Hdate (Hq & Hp & Ht) es w1 os Hfresh Hex.
  unfold InMemory.publish in Hex. rewrite Hdelay, Httl in Hex.
  assert (HtN : Js.truthy_number (Some N) = true).
  { simpl. destruct (Z.eqb_spec N 0); [lia | done]. }
  assert (HtM : Js.truthy_number (Some M) = true).
  { simpl. by destruct (Z.eqb_spec M 0). }
  rewrite HtN, HtM in Hex. cbn [fst snd default from_option] in Hex. unfold id in Hex.
  rewrite (new_Date_valid _ Hdate) in Hex.
  match type of Hex with
  | InMemory.exec ?x _ = _ => set (w0 := x) in Hex
  end.
  assert (Hd : dead uuid_id w0).
  { split; [|split].
    - intros q' l Hl. apply others_dead. exact (Hq q' l Hl).
    - exact Hp.
    - intros tid t q' msg Hlk Hrun Hid. subst w0. simpl in Hlk.
      apply lookup_insert_Some in Hlk as [[_ <-] | [_ Hlk]].
      + simpl in Hrun. injection Hrun as _ <-. simpl. eexists. split; [reflexivity|].
        rewrite timeout_in_range by lia. lia.
      + by destruct (Ht tid t q' msg Hlk Hrun). }
  by destruct (dead_exec uuid_id es w0 w1 os Hd Hfresh Hex).
Qed.

End InMemoryLate.

Lemma delay_outlasting_ttl_loses_message_witness :
  exists w1 os,
    InMemory.exec (InMemory.publish "del" 1%nat late_and_short "id-1" "rc-1" InMemory.init).1
      after_the_delay = Some (w1, os)
    /\ Forall (clean "id-1") os.
Proof.
  destruct (InMemory.exec
              (InMemory.publish "del" 1%nat late_and_short "id-1" "rc-1" InMemory.init).1
              after_the_delay) as [[w1 os]|] eqn:E; [|by vm_compute in E].
  exists w1, os. split; [reflexivity|].
  eapply (delay_outlasting_ttl_loses_message "del" 1%nat late_and_short "id-1" "rc-1" 5 2
            InMemory.init);
    [reflexivity | lia | vm_compute; discriminate | reflexivity | lia | lia
    | vm_compute; split; discriminate | | | exact E].
  - repeat split; intros ? ? ?; simpl; intros; by rewrite ?lookup_empty in *.
  - repeat constructor.
Defined.

(** ** The RabbitMQ driver: channels, pull and the consumer *)

Section RabbitFurther.

Context {T B : Type}.
Variable JSON_stringify : T -> string.
Variable JSON_parse : string -> option T.
Variable raw_payload : string -> T.
Variable parseInt : string -> option Z.
Variable amqp : RabbitMq.Amqplib B.
Variable channel_get : nat -> string -> B -> result (option RabbitMq.GetMessage) * B.
Variable channel_nack : nat -> Z -> bool -> bool -> B -> result unit * B.

Implicit Types (d : RabbitMq.driver B) (q r : string).

(** X21. The RabbitMQ driver opens one channel per queue: when
    [getChannel] has returned a channel it is kept under the queue, the
    channels of the other queues are as they were, the connection that was
    open is still the one in use, and a further call returns the same
    channel without calling the broker. *)
Theorem getChannel_caches q d ch d1 :
  RabbitMq.getChannel amqp q d = (Ok ch, d1) ->
  RabbitMq.channels d1 !! q = Some ch
  /\ (forall q', q' ≠ q -> RabbitMq.channels d1 !! q' = RabbitMq.channels d !! q')
  /\ (forall c, RabbitMq.connection d = Some c -> RabbitMq.connection d1 = Some c)
  /\ RabbitMq.getChannel amqp q d1 = (Ok ch, d1).
Proof.
  intros Hg.
  assert (H : RabbitMq.channels d1 !! q = Some ch
              /\ (forall q', q' ≠ q ->
                    RabbitMq.channels d1 !! q' = RabbitMq.channels d !! q')
              /\ (forall c, RabbitMq.connection d = Some c ->
                    RabbitMq.connection d1 = Some c)).
  { unfold RabbitMq.getChannel in Hg.
    destruct (RabbitMq.channels d !! q) as [ch0|] eqn:Ec.
    - injection Hg as <- <-. by repeat split.
    - unfold Eff.bind, RabbitMq.getConnection, RabbitMq.lib in Hg.
      destruct (RabbitMq.connection d) as [c|] eqn:Econn.
      + destruct (RabbitMq.createChannel amqp c (RabbitMq.broker d)) as [[ch1|e] b1];
          cbn in Hg; [|done].
        destruct (RabbitMq.assertQueue amqp ch1 q b1) as [[[]|e] b2]; cbn in Hg; [|done].
        injection Hg as <- <-. cbn. split; [by rewrite lookup_insert_eq|].
        split; [|intros; congruence]. intros q' Hne. by rewrite lookup_insert_ne.
      + unfold Eff.bind in Hg.
        destruct (RabbitMq.connect amqp (RabbitMq.broker d)) as [[c|e] b0];
          cbn in Hg; [|done].
        destruct (RabbitMq.createChannel amqp c b0) as [[ch1|e] b1]; cbn in Hg; [|done].
        destruct (RabbitMq.assertQueue amqp ch1 q b1) as [[[]|e] b2]; cbn in Hg; [|done].
        injection Hg as <- <-. cbn. split; [by rewrite lookup_insert_eq|].
        split; [|intros; congruence]. intros q' Hne. by rewrite lookup_insert_ne. }
  destruct H as (H1 & H2 & H3). split; [exact H1|]. split; [exact H2|].
  split; [exact H3|]. unfold RabbitMq.getChannel. by rewrite H1.
Qed.


Lemma pull_loop_length now now_id n :
  forall i ch q acc d messages d1,
    RabbitMq.pull_loop JSON_parse raw_payload channel_get now now_id n i ch q acc d
    = (Ok messages, d1) ->
    (length messages <= length acc + n)%nat.
Proof.
  induction n as [|n IH]; intros i ch q acc d messages d1 Hp; simpl in Hp.
  - injection Hp as <- _. lia.
  - unfold Eff.bind, RabbitMq.lib in Hp.
    destruct (channel_get ch q (RabbitMq.broker d)) as [[[m|]|e] b1]; cbn in Hp.
    + apply IH in Hp. rewrite length_app in Hp. simpl in Hp. lia.
    + injection Hp as <- _. lia.
    + done.
Qed.

(** X23. On the RabbitMQ driver [pull] returns at most [maxMessages]
    messages (1 when none is given), and none for a count of 0 or less, in
    which case it asks the broker for no message. *)
Theorem rabbit_pull_bounded now now_id q maxMessages d :
  match RabbitMq.pull JSON_parse raw_payload amqp channel_get now now_id q maxMessages d with
  | (Ok messages, _) => (length messages <= Z.to_nat (default 1%Z maxMessages))%nat
  | (Err _, _) => True
  end
  /\ (default 1%Z maxMessages <= 0 ->
      RabbitMq.pull JSON_parse raw_payload amqp channel_get now now_id q maxMessages d
      = match RabbitMq.getChannel amqp q d with
        | (Ok _, d1) => (Ok [], d1)
        | (Err e, d1) => (Err e, d1)
        end).
Proof.
  split.
  - destruct (RabbitMq.pull _ _ _ _ _ _ _ _ _) as [[messages|e] d1] eqn:Hp; [|done].
    unfold RabbitMq.pull, Eff.bind in Hp.
    destruct (RabbitMq.getChannel amqp q d) as [[ch|e] d0]; [|done].
    apply pull_loop_length in Hp. simpl in Hp. lia.
  - intros Hle. unfold RabbitMq.pull, Eff.bind.
    destruct (RabbitMq.getChannel amqp q d) as [[ch|e] d0]; [|done].
    replace (Z.to_nat (default 1 maxMessages)) with 0%nat by lia. reflexivity.
Qed.




(** X26. With auto-ack the RabbitMQ consumer acknowledges a message
    whether its handler succeeds or fails: where the broker accepts the
    ack, both leave the driver and the broker in the same state, that of
    the ack. *)
Theorem consumer_auto_ack_either_way now now_id handler handler' ctx msg d :
  RabbitMqConsumer.autoAck ctx = true ->
  (RabbitMq.channel_ack amqp (RabbitMqConsumer.channel ctx)
     (Some (RabbitMq.deliveryTag msg)) (RabbitMq.broker d)).1 = Ok tt ->
  RabbitMqConsumer.createConsumer JSON_parse raw_payload amqp channel_nack now now_id
    handler ctx (Some msg) d
  = RabbitMq.lib (RabbitMq.channel_ack amqp (RabbitMqConsumer.channel ctx)
                    (Some (RabbitMq.deliveryTag msg))) d
  /\ RabbitMqConsumer.createConsumer JSON_parse raw_payload amqp channel_nack now now_id
       handler' ctx (Some msg) d
     = RabbitMqConsumer.createConsumer JSON_parse raw_payload amqp channel_nack now now_id
         handler ctx (Some msg) d.
Proof.
  intros Hauto Hack.
  assert (Hone : forall h,
            RabbitMqConsumer.createConsumer JSON_parse raw_payload amqp channel_nack
              now now_id h ctx (Some msg) d
            = RabbitMq.lib (RabbitMq.channel_ack amqp (RabbitMqConsumer.channel ctx)
                              (Some (RabbitMq.deliveryTag msg))) d).
  { intros h. unfold RabbitMqConsumer.createConsumer,
      RabbitMqConsumer.handleErrorWithMessage, Eff.try_catch, Eff.throw.
    rewrite Hauto. unfold RabbitMq.lib in *.
    destruct (h _).
    - destruct (RabbitMq.channel_ack _ _ _ _) as [[[]|e] b1]; [done|].
      simpl in Hack. done.
    - reflexivity. }
  split; [apply Hone|]. by rewrite !Hone.
Qed.

End RabbitFurther.

Lemma getChannel_caches_witness :
  RabbitMq.channels (RabbitMq.getChannel lenient_amqp "orders" (RabbitMq.new_driver 1%nat)).2
    !! "orders" = Some 1%nat.
Proof.
  apply (getChannel_caches lenient_amqp "orders" (RabbitMq.new_driver 1%nat) 1%nat
           (RabbitMq.getChannel lenient_amqp "orders" (RabbitMq.new_driver 1%nat)).2).
  vm_compute. reflexivity.
Defined.



Lemma consumer_auto_ack_either_way_witness :
  RabbitMqConsumer.createConsumer (fun _ => Some 1%nat) (fun _ => 0%nat) lenient_amqp
    accepting_nack 0 0 (fun _ => Rejected) auto_ack_context (Some (delivery 7))
    (RabbitMq.new_driver 0%nat)
  = RabbitMqConsumer.createConsumer (fun _ => Some 1%nat) (fun _ => 0%nat) lenient_amqp
      accepting_nack 0 0 (fun _ => Resolved) auto_ack_context (Some (delivery 7))
      (RabbitMq.new_driver 0%nat).
Proof.
  apply (consumer_auto_ack_either_way (fun _ => Some 1%nat) (fun _ => 0%nat) lenient_amqp
           accepting_nack 0 0 (fun _ => Resolved) (fun _ => Rejected) auto_ack_context
           (delivery 7) (RabbitMq.new_driver 0%nat)).
  - reflexivity.
  - reflexivity.
Defined.

(** A pull of up to five messages from a queue that holds two. *)
Example rabbit_pull_two_deliveries :
  let pulled :=
    RabbitMq.pull (fun _ => Some 1%nat) (fun _ => 0%nat) lenient_amqp two_deliveries
      (fun _ => 0) (fun _ => 0) "orders" (Some 5) (RabbitMq.new_driver 0%nat) in
  match pulled.1 with
  | Ok messages => Message.receipt <$> messages
  | Err _ => []
  end = ["7"; "8"]
  /\ RabbitMq.broker pulled.2 = 3%nat.
Proof. vm_compute. split; reflexivity. Qed.

(** ** A time to live of zero across the drivers *)

(** X27. A time to live of 0 seconds is read in two ways: the in-memory
    driver takes it as no time to live and gives the message no
    [expiresAt], while the SQS and RabbitMQ drivers return a message that
    expires at the moment of its publish. *)
Theorem zero_ttl_differs {T B B' : Type}
    (JSON_stringify : T -> string)
    (client_send : Sqs.Command -> B -> result Sqs.Response * B)
    (amqp : RabbitMq.Amqplib B') (q : string) (p : T)
    (options : option Options.PublishOptions) :
  options ≫= Options.ttlSeconds = Some 0 ->
  (forall uuid_id uuid_receipt (w : InMemory.world T),
     Message.expiresAt
       (InMemory.message (InMemory.publish q p options uuid_id uuid_receipt w).2) = None)
  /\ (forall now d m d1,
        Sqs.publish JSON_stringify client_send q p options now d = (Ok m, d1) ->
        Message.expiresAt m = Some now)
  /\ (forall now now_id rnd d m d1,
        RabbitMq.publish JSON_stringify amqp q p options now now_id rnd d = (Ok m, d1) ->
        Message.expiresAt m = Some now).
Proof.
  intros Httl. split; [|split].
  - intros uuid_id uuid_receipt w. unfold InMemory.publish. rewrite Httl.
    by destruct (Js.truthy_number (options ≫= Options.delaySeconds)).
  - intros now d m d1. unfold Sqs.publish, Eff.bind. rewrite Httl.
    destruct (Sqs.ensureQueue client_send q d) as [[url|e] d0]; [|done].
    destruct (Sqs.send client_send _ d0) as [[response|e] d2]; [|done].
    unfold Eff.ret. intros [= <- <-]. simpl. f_equal. lia.
  - intros now now_id rnd d m d1. unfold RabbitMq.publish, Eff.bind. rewrite Httl.
    destruct (RabbitMq.getChannel amqp q d) as [[ch|e] d0]; [|done].
    unfold RabbitMq.lib.
    destruct (RabbitMq.sendToQueue _ _ _ _ _ _) as [[[|]|e] b1]; cbn; try done.
    intros [= <- <-]. simpl. f_equal. lia.
Qed.

Lemma zero_ttl_differs_witness :
  Message.expiresAt
    (InMemory.message (InMemory.publish "jobs" 1%nat no_ttl "id-1" "rc-1" InMemory.init).2)
  = None
  /\ (forall m d1,
        Sqs.publish (fun _ : nat => "1") lenient_send "jobs" 1%nat no_ttl 1000
          (Sqs.new_driver tt) = (Ok m, d1) ->
        Message.expiresAt m = Some 1000).
Proof.
  destruct (zero_ttl_differs (fun _ : nat => "1") lenient_send lenient_amqp "jobs" 1%nat
              no_ttl eq_refl) as (Hmem & Hsqs & _).
  split.
  - apply (Hmem "id-1" "rc-1" InMemory.init).
  - intros m d1. apply (Hsqs 1000 (Sqs.new_driver tt) m d1).
Defined.

(** ** The page: the list of the messages received *)

Section AppFacts.

Implicit Types (pulled prev : list App.shown).

Lemma merge_new_keys pulled prev :
  forall k, k ∈ App.key <$> filter (fun m => App.key m ∉ App.key <$> prev) pulled ->
            k ∉ App.key <$> prev.
Proof.
  intros k Hin. apply list_elem_of_fmap in Hin as (m & -> & Hm).
  by apply list_elem_of_filter in Hm as [Hnew _].
Qed.

Lemma merge_nothing_new (keys : list (option string)) pulled :
  Forall (fun m => App.key m ∈ keys) pulled ->
  filter (fun m => App.key m ∉ keys) pulled = [].
Proof.
  induction pulled as [|m pulled IH]; [done|]. intros Hall.
  apply Forall_cons in Hall as [Hm Hall].
  rewrite filter_cons_False by (intros Hnot; by apply Hnot). by apply IH.
Qed.

(** X28. The list of received messages that the page shows never holds
    more than 50 entries, and it shows no message twice: when the keys
    ([id], or [receipt] for want of an id) of the messages shown differ
    from one another and so do those of the messages pulled, the keys of
    the new list differ from one another. *)
Theorem merge_no_duplicates pulled prev :
  (length (App.merge pulled prev) <= 50)%nat
  /\ (NoDup (App.key <$> prev) -> NoDup (App.key <$> pulled) ->
      NoDup (App.key <$> App.merge pulled prev)).
Proof.
  unfold App.merge. split.
  - rewrite length_take. lia.
  - intros Hprev Hpulled. rewrite fmap_take.
    eapply sublist_NoDup; [|apply sublist_take].
    rewrite fmap_app. apply NoDup_app. split; [|split; [|exact Hprev]].
    + eapply sublist_NoDup; [exact Hpulled|].
      apply fmap_sublist, sublist_filter.
    + apply merge_new_keys.
Qed.

(** X29. Pulling once more a batch that is on the page adds nothing:
    as long as nothing was cut off at 50 entries, merging the same messages
    again leaves the list as it is. *)
Theorem merge_same_batch_again pulled prev :
  (length (filter (fun m => App.key m ∉ App.key <$> prev) pulled ++ prev) <= 50)%nat ->
  App.merge pulled (App.merge pulled prev) = App.merge pulled prev.
Proof.
  intros Hlen. unfold App.merge at 2 3. rewrite (take_ge _ _ Hlen).
  set (new := filter (fun m => App.key m ∉ App.key <$> prev) pulled) in *.
  unfold App.merge.
  assert (Hnone : filter (fun m => App.key m ∉ App.key <$> (new ++ prev)) pulled = []).
  { assert (Hall : Forall (fun m => App.key m ∈ App.key <$> (new ++ prev)) pulled).
    { apply Forall_forall. intros m Hm. rewrite fmap_app, elem_of_app.
      destruct (decide (App.key m ∈ App.key <$> prev)) as [Hin|Hnot]; [by right|].
      left. apply list_elem_of_fmap. exists m. split; [done|].
      subst new. apply list_elem_of_filter. by split. }
    by apply merge_nothing_new. }
  rewrite Hnone. simpl. by apply take_ge.
Qed.

End AppFacts.

Lemma merge_same_batch_again_witness :
  App.merge [shown_b; shown_c] (App.merge [shown_b; shown_c] [shown_a; shown_b])
  = App.merge [shown_b; shown_c] [shown_a; shown_b].
Proof.
  apply (merge_same_batch_again [shown_b; shown_c] [shown_a; shown_b]).
  vm_compute. lia.
Defined.

(** ** The in-memory driver: at most one pull per message *)

Section InMemoryOnce.

Context {T : Type}.

Implicit Types (w : InMemory.world T) (msg : InMemory.StoredMessage T).
Implicit Types (o : InMemory.obs T) (e : InMemory.event T).
Implicit Types (l : list (InMemory.StoredMessage T)).

Lemma copies_app uid l1 l2 : copies uid (l1 ++ l2) = (copies uid l1 + copies uid l2)%nat.
Proof. unfold copies. by rewrite filter_app, length_app. Qed.

Lemma copies_others uid l : copies uid l = 0%nat <-> others uid l.
Proof.
  unfold copies, others. induction l as [|m l IH]; [by split; [constructor|]|].
  rewrite filter_cons. destruct (decide (Message.id (InMemory.message m) = uid)) as [E|N].
  - simpl. split; [lia|]. intros H. apply Forall_cons in H as [H _]. done.
  - rewrite IH. split; [by constructor|]. intros H. by apply Forall_cons in H as [_ H].
Qed.

Lemma copies_filter uid (P : InMemory.StoredMessage T -> Prop)
    `{!forall x, Decision (P x)} l :
  (copies uid (filter P l) <= copies uid l)%nat.
Proof.
  unfold copies. induction l as [|m l IH]; [done|].
  rewrite (filter_cons P). destruct (decide (P m)).
  - rewrite !filter_cons. destruct (decide _); simpl; lia.
  - rewrite filter_cons. destruct (decide _); simpl; lia.
Qed.

Lemma copies_take_drop uid k l :
  (copies uid (take k l) + copies uid (drop k l))%nat = copies uid l.
Proof. by rewrite <- copies_app, take_drop. Qed.

Lemma copies_pulled_app uid (os1 os2 : list (InMemory.obs T)) :
  copies uid ((os1 ++ os2) ≫= pulled_of)
  = (copies uid (os1 ≫= pulled_of) + copies uid (os2 ≫= pulled_of))%nat.
Proof. by rewrite bind_app, copies_app. Qed.

Lemma absent_stored uid w q : absent uid w -> others uid (InMemory.stored_in q w).
Proof.
  intros (Hq & _). unfold InMemory.stored_in.
  destruct (InMemory.queues w !! q) as [l|] eqn:E; simpl; [by apply (Hq q)|constructor].
Qed.

Lemma absent_set_queue uid w q l :
  absent uid w -> others uid l ->
  absent uid (InMemory.set_queues (<[q := l]> (InMemory.queues w)) w).
Proof.
  intros (Hq & Ht) Hl. split; [|done].
  intros q' l' Hlk. simpl in Hlk.
  apply lookup_insert_Some in Hlk as [[_ <-] | [_ Hlk]]; [done|]. by apply (Hq q').
Qed.

(** Where the queues and the delayed pushes are those of [w], or fewer. *)
Lemma absent_same uid w w1 :
  InMemory.queues w1 = InMemory.queues w ->
  (forall tid t, InMemory.timers w1 !! tid = Some t ->
                 InMemory.timers w !! tid = Some t
                 \/ exists sid, InMemory.run t = InMemory.CbPoll sid) ->
  absent uid w -> absent uid w1.
Proof.
  intros Eq Ht (Hq & Hti). unfold absent. rewrite Eq. split; [done|].
  intros tid t q msg Hlk Hrun. destruct (Ht tid t Hlk) as [Hold|(sid & Hs)].
  - by apply (Hti tid t q).
  - congruence.
Qed.

Lemma lone_same uid q0 w w1 :
  InMemory.queues w1 = InMemory.queues w ->
  (forall tid t, InMemory.timers w1 !! tid = Some t ->
                 InMemory.timers w !! tid = Some t
                 \/ exists sid, InMemory.run t = InMemory.CbPoll sid) ->
  lone uid q0 w -> lone uid q0 w1.
Proof.
  intros Eq Ht (L1 & L2 & L3). unfold lone, InMemory.stored_in. rewrite Eq.
  split; [done|]. split; [done|].
  intros tid t q msg Hlk Hrun Hid.
  destruct (Ht tid t Hlk) as [Hold|(sid & Hs)]; [|congruence].
  destruct (L3 tid t q msg Hold Hrun Hid) as (E1 & E2 & E3).
  split; [done|]. split; [done|].
  intros tid' t' q' msg' Hlk' Hrun' Hid'.
  destruct (Ht tid' t' Hlk') as [Hold'|(sid & Hs)]; [|congruence].
  by apply (E3 tid' t' q' msg').
Qed.

(** Setting queue [q] to [l], which holds no more copies than before. *)
Lemma lone_set_queue uid q0 w q l :
  lone uid q0 w ->
  (copies uid l <= copies uid (InMemory.stored_in q w))%nat ->
  lone uid q0 (InMemory.set_queues (<[q := l]> (InMemory.queues w)) w).
Proof.
  intros (L1 & L2 & L3) Hl.
  assert (Hother : q ≠ q0 -> others uid l).
  { intros Hne. apply copies_others.
    assert (copies uid (InMemory.stored_in q w) = 0%nat); [|lia].
    apply copies_others. unfold InMemory.stored_in.
    destruct (InMemory.queues w !! q) as [l0|] eqn:E; simpl; [|constructor].
    by apply (L1 q). }
  assert (Hq0 : (copies uid (InMemory.stored_in q0
                   (InMemory.set_queues (<[q := l]> (InMemory.queues w)) w))
                 <= copies uid (InMemory.stored_in q0 w))%nat).
  { destruct (decide (q = q0)) as [->|Hne].
    - by rewrite stored_in_set_queues_eq.
    - unfold InMemory.stored_in. simpl. by rewrite lookup_insert_ne. }
  split; [|split].
  - intros q' l' Hlk Hne. simpl in Hlk.
    apply lookup_insert_Some in Hlk as [[<- <-] | [_ Hlk]]; [by apply Hother|].
    by apply (L1 q').
  - lia.
  - intros tid t q' msg Hlk Hrun Hid. simpl in Hlk.
    destruct (L3 tid t q' msg Hlk Hrun Hid) as (E1 & E2 & E3).
    split; [done|]. split; [lia|]. exact E3.
Qed.

(** A pull from a driver that holds no copy returns none. *)
Lemma absent_pull uid w q maxMessages :
  absent uid w ->
  absent uid (InMemory.pull q maxMessages w).1
  /\ others uid (InMemory.pull q maxMessages w).2.
Proof.
  intros Ha. rewrite pull_eq. cbn [fst snd].
  pose proof (others_filter uid (unexpired (InMemory.clock w)) _
                (absent_stored uid w q Ha)) as Hf.
  split.
  - apply absent_set_queue; [done|]. by apply Forall_drop.
  - by apply Forall_take.
Qed.

(** A pull from a driver that holds at most one copy returns it and
    leaves none, or returns none. *)
Lemma lone_pull uid q0 w q maxMessages :
  lone uid q0 w ->
  let pulled := InMemory.pull q maxMessages w in
  (copies uid pulled.2 = 0%nat /\ lone uid q0 pulled.1)
  \/ (copies uid pulled.2 = 1%nat /\ absent uid pulled.1).
Proof.
  intros Hl. simpl. rewrite pull_eq. cbn [fst snd].
  set (valid := filter (unexpired (InMemory.clock w)) (InMemory.stored_in q w)).
  set (k := Z.to_nat (default 1 maxMessages)).
  pose proof (copies_filter uid (unexpired (InMemory.clock w)) (InMemory.stored_in q w))
    as Hvalid. fold valid in Hvalid.
  pose proof (copies_take_drop uid k valid) as Hsplit.
  destruct Hl as (L1 & L2 & L3).
  assert (Hq : (copies uid (InMemory.stored_in q w) <= 1)%nat).
  { destruct (decide (q = q0)) as [->|Hne]; [done|].
    assert (copies uid (InMemory.stored_in q w) = 0%nat); [|lia].
    apply copies_others. unfold InMemory.stored_in.
    destruct (InMemory.queues w !! q) as [l0|] eqn:E; simpl; [|constructor].
    by apply (L1 q). }
  destruct (copies uid (take k valid)) as [|[|n]] eqn:Etake.
  - left. split; [done|]. apply lone_set_queue; [exact (conj L1 (conj L2 L3)) | lia].
  - right. split; [done|].
    assert (Hrest : others uid (drop k valid)) by (apply copies_others; lia).
    assert (Hq0 : q = q0).
    { destruct (decide (q = q0)) as [->|Hne]; [done|].
      assert (copies uid (InMemory.stored_in q w) = 0%nat); [|lia].
      apply copies_others. unfold InMemory.stored_in.
      destruct (InMemory.queues w !! q) as [l0|] eqn:E; simpl; [|constructor].
      by apply (L1 q). }
    subst q. split.
    + intros q' l' Hlk. simpl in Hlk.
      apply lookup_insert_Some in Hlk as [[_ <-] | [Hne Hlk]]; [done|].
      by apply (L1 q').
    + intros tid t q' msg Hlk Hrun Hid. simpl in Hlk.
      destruct (L3 tid t q' msg Hlk Hrun Hid) as (_ & E2 & _). lia.
  - lia.
Qed.

Lemma absent_reschedule uid sid w w1 os :
  absent uid w -> InMemory.reschedule sid w = Some (w1, os) ->
  absent uid w1 /\ os ≫= pulled_of = [].
Proof.
  intros Ha Hr.
  apply reschedule_inv in Hr
    as (s & _ & _ & _ & Hqu & _ & _ & _ & [(_ & -> & ->) | (_ & -> & Hti & _ & _)]).
  - by split.
  - split; [|done]. apply (absent_same uid w); [done| |done].
    intros tid t Hlk. rewrite Hti in Hlk.
    apply lookup_insert_Some in Hlk as [[_ <-] | [_ Hlk]]; [right; by eexists | by left].
Qed.

Lemma lone_reschedule uid q0 sid w w1 os :
  lone uid q0 w -> InMemory.reschedule sid w = Some (w1, os) ->
  lone uid q0 w1 /\ os ≫= pulled_of = [].
Proof.
  intros Ha Hr.
  apply reschedule_inv in Hr
    as (s & _ & _ & _ & Hqu & _ & _ & _ & [(_ & -> & ->) | (_ & -> & Hti & _ & _)]).
  - by split.
  - split; [|done]. apply (lone_same uid q0 w); [done| |done].
    intros tid t Hlk. rewrite Hti in Hlk.
    apply lookup_insert_Some in Hlk as [[_ <-] | [_ Hlk]]; [right; by eexists | by left].
Qed.

Lemma absent_for_messages uid pid sid todo w w1 os :
  absent uid w -> InMemory.for_messages pid sid todo w = Some (w1, os) ->
  absent uid w1 /\ os ≫= pulled_of = [].
Proof.
  intros Ha Hf.
  apply for_messages_inv in Hf as (s & _ & [[_ Hr] | (msg & rest & _ & _ & -> & ->)]).
  - by apply (absent_reschedule uid sid _ w1 os) in Hr.
  - by split.
Qed.

Lemma lone_for_messages uid q0 pid sid todo w w1 os :
  lone uid q0 w -> InMemory.for_messages pid sid todo w = Some (w1, os) ->
  lone uid q0 w1 /\ os ≫= pulled_of = [].
Proof.
  intros Ha Hf.
  apply for_messages_inv in Hf as (s & _ & [[_ Hr] | (msg & rest & _ & _ & -> & ->)]).
  - by apply (lone_reschedule uid q0 sid _ w1 os) in Hr.
  - by split.
Qed.

Lemma absent_poll uid sid w w1 os :
  absent uid w -> InMemory.poll sid w = Some (w1, os) ->
  absent uid w1 /\ copies uid (os ≫= pulled_of) = 0%nat.
Proof.
  intros Ha Hp.
  apply poll_inv in Hp
    as (s & _ & [(_ & -> & ->) | (_ & -> & Hqu & _ & _ & _ & Hti & _)]); [by split|].
  destruct (absent_pull uid w (InMemory.sub_queue s) (Some (InMemory.sub_maxMessages s)) Ha)
    as [Ha1 Hms].
  split.
  - destruct Ha1 as (Hq & Ht). unfold absent. rewrite Hqu, Hti. split; [done|].
    rewrite pull_eq in Ht. exact Ht.
  - simpl. rewrite app_nil_r. by apply copies_others.
Qed.

Lemma lone_poll uid q0 sid w w1 os :
  lone uid q0 w -> InMemory.poll sid w = Some (w1, os) ->
  (copies uid (os ≫= pulled_of) = 0%nat /\ lone uid q0 w1)
  \/ (copies uid (os ≫= pulled_of) = 1%nat /\ absent uid w1).
Proof.
  intros Hl Hp.
  apply poll_inv in Hp
    as (s & _ & [(_ & -> & ->) | (_ & -> & Hqu & _ & _ & _ & Hti & _)]);
    [left; by split|].
  pose proof (lone_pull uid q0 w (InMemory.sub_queue s)
                (Some (InMemory.sub_maxMessages s)) Hl) as Hpull.
  simpl in Hpull. simpl. rewrite app_nil_r.
  assert (Htimers : InMemory.timers
                      (InMemory.pull (InMemory.sub_queue s)
                         (Some (InMemory.sub_maxMessages s)) w).1 = InMemory.timers w)
    by (by rewrite pull_eq).
  destruct Hpull as [[Hc Hl1] | [Hc Ha1]]; [left | right]; (split; [done|]).
  - apply (lone_same uid q0 (InMemory.pull (InMemory.sub_queue s)
                               (Some (InMemory.sub_maxMessages s)) w).1); [done| |done].
    intros tid t Hlk. left. by rewrite Htimers, <- Hti.
  - apply (absent_same uid (InMemory.pull (InMemory.sub_queue s)
                              (Some (InMemory.sub_maxMessages s)) w).1); [done| |done].
    intros tid t Hlk. left. by rewrite Htimers, <- Hti.
Qed.

Lemma absent_step uid w e w1 os :
  absent uid w -> other_publish uid e -> no_failure e ->
  InMemory.step w e = Some (w1, os) ->
  absent uid w1 /\ copies uid (os ≫= pulled_of) = 0%nat.
Proof.
  intros Ha Hfresh Hok Hstep.
  destruct e as [q p options u1 u2|q k|q r|q options|sid'|ms|tid|pid o];
    simpl in Hstep, Hfresh, Hok.
  - unfold InMemory.publish in Hstep.
    destruct (Js.truthy_number (options ≫= Options.delaySeconds));
      inversion Hstep; subst; clear Hstep; (split; [|done]).
    + destruct Ha as (Hq & Ht). split; [done|].
      intros tid t q' msg Hlk Hrun. simpl in Hlk.
      apply lookup_insert_Some in Hlk as [[_ <-] | [_ Hlk]].
      * simpl in Hrun. injection Hrun as _ <-. done.
      * by apply (Ht tid t q' msg).
    + unfold InMemory.push. apply absent_set_queue; [done|].
      apply Forall_app. split; [by apply absent_stored|]. by repeat constructor.
  - destruct (absent_pull uid w q k Ha) as [Ha1 Hms].
    destruct (InMemory.pull q k w) as [w' messages]. cbn [fst snd] in Ha1, Hms.
    inversion Hstep; subst. split; [done|]. simpl. rewrite app_nil_r.
    by apply copies_others.
  - inversion Hstep; subst; clear Hstep. split; [|done].
    unfold InMemory.ack. apply absent_set_queue; [done|].
    apply others_filter. by apply absent_stored.
  - unfold InMemory.subscribe in Hstep.
    match type of Hstep with
    | context [InMemory.poll _ ?x] => set (w0 := x) in Hstep
    end.
    destruct (InMemory.poll (InMemory.next_sub w) w0) as [[w2 os2]|] eqn:Hp;
      simpl in Hstep; [|done].
    inversion Hstep; subst; clear Hstep.
    destruct (absent_poll uid _ w0 w1 os2 Ha Hp) as [Ha1 Hos].
    split; [done|]. rewrite copies_pulled_app, Hos. done.
  - destruct (InMemory.unsubscribe sid' w) as [w2|] eqn:Hu; simpl in Hstep; [|done].
    inversion Hstep; subst; clear Hstep. split; [|done].
    apply unsubscribe_inv in Hu as (s & _ & _ & Hti & _ & _ & Hqu & _).
    apply (absent_same uid w); [done| |done].
    intros tid t Hlk. rewrite Hti in Hlk. left.
    by apply lookup_clear_timeouts in Hlk as [Hlk _].
  - destruct (0 <=? ms); inversion Hstep; subst. by split.
  - unfold InMemory.fire in Hstep.
    destruct (InMemory.timers w !! tid) as [t|] eqn:Etimer; simpl in Hstep; [|done].
    destruct (InMemory.due t <=? InMemory.clock w); [|done].
    assert (Ha0 : absent uid (InMemory.set_timers (delete tid (InMemory.timers w)) w)).
    { apply (absent_same uid w); [done| |done].
      intros tid' t' Hlk. simpl in Hlk. left. by apply lookup_delete_Some in Hlk as [_ Hlk]. }
    destruct (InMemory.run t) as [q msg|sid] eqn:Hrun.
    + inversion Hstep; subst; clear Hstep. split; [|done].
      unfold InMemory.push. apply absent_set_queue; [done|].
      apply Forall_app. split; [by apply (absent_stored uid)|].
      constructor; [|constructor].
      destruct Ha as (_ & Ht). by apply (Ht tid t q msg).
    + by apply (absent_poll uid sid _ w1 os Ha0).
  - unfold InMemory.resume in Hstep.
    destruct (InMemory.polls w !! pid) as [[sid k]|] eqn:Hpoll; simpl in Hstep; [|done].
    destruct (InMemory.closures w !! sid) as [s|] eqn:Hcl; simpl in Hstep; [|done].
    destruct k as [messages|msg rest|rest], o; try done.
    + apply (absent_for_messages uid) in Hstep as [H1 H2]; [|done]. by rewrite H2.
    + destruct (InMemory.sub_autoAck s).
      * inversion Hstep; subst; clear Hstep. split; [|done].
        apply (absent_same uid (InMemory.ack (InMemory.sub_queue s)
                                  (Message.receipt (InMemory.message msg)) w));
          [done | by left |].
        unfold InMemory.ack. apply absent_set_queue; [done|].
        apply others_filter. by apply absent_stored.
      * apply (absent_for_messages uid) in Hstep as [H1 H2]; [|done]. by rewrite H2.
    + apply (absent_for_messages uid) in Hstep as [H1 H2]; [|done]. by rewrite H2.
Qed.

Lemma absent_exec uid es w w1 os :
  absent uid w -> Forall (other_publish uid) es -> Forall no_failure es ->
  InMemory.exec w es = Some (w1, os) ->
  copies uid (os ≫= pulled_of) = 0%nat.
Proof.
  revert w os. induction es as [|e es IH]; intros w os Ha Hfresh Hok Hex; simpl in Hex.
  - by inversion Hex; subst.
  - destruct (InMemory.step w e) as [[w2 os2]|] eqn:Hstep; simpl in Hex; [|done].
    destruct (InMemory.exec w2 es) as [[w3 os3]|] eqn:Hrest; simpl in Hex; [|done].
    inversion Hex; subst; clear Hex.
    apply Forall_cons in Hfresh as [He Hes]. apply Forall_cons in Hok as [Hk Hks].
    destruct (absent_step uid w e w2 os2 Ha He Hk Hstep) as [Ha2 Hos2].
    rewrite copies_pulled_app, Hos2. by apply (IH w2 os3).
Qed.

Lemma lone_step uid q0 w e w1 os :
  lone uid q0 w -> other_publish uid e -> no_failure e ->
  InMemory.step w e = Some (w1, os) ->
  (copies uid (os ≫= pulled_of) = 0%nat /\ lone uid q0 w1)
  \/ (copies uid (os ≫= pulled_of) = 1%nat /\ absent uid w1).
Proof.
  intros Hl Hfresh Hok Hstep.
  destruct e as [q p options u1 u2|q k|q r|q options|sid'|ms|tid|pid o];
    simpl in Hstep, Hfresh, Hok.
  - left. unfold InMemory.publish in Hstep.
    destruct (Js.truthy_number (options ≫= Options.delaySeconds));
      inversion Hstep; subst; clear Hstep; (split; [done|]).
    + destruct Hl as (L1 & L2 & L3). split; [done|]. split; [done|].
      intros tid t q' msg Hlk Hrun Hid. simpl in Hlk.
      apply lookup_insert_Some in Hlk as [[_ <-] | [_ Hlk]].
      { simpl in Hrun. injection Hrun as _ <-. done. }
      destruct (L3 tid t q' msg Hlk Hrun Hid) as (E1 & E2 & E3).
      split; [done|]. split; [done|].
      intros tid' t' q'' msg' Hlk' Hrun' Hid'. simpl in Hlk'.
      apply lookup_insert_Some in Hlk' as [[_ <-] | [_ Hlk']].
      { simpl in Hrun'. injection Hrun' as _ <-. done. }
      by apply (E3 tid' t' q'' msg').
    + unfold InMemory.push. apply lone_set_queue; [done|].
      rewrite copies_app. unfold copies at 2. rewrite filter_cons_False by done.
      simpl. lia.
  - pose proof (lone_pull uid q0 w q k Hl) as Hpull. simpl in Hpull.
    destruct (InMemory.pull q k w) as [w' messages]. cbn [fst snd] in Hpull.
    inversion Hstep; subst. simpl. by rewrite app_nil_r.
  - left. inversion Hstep; subst; clear Hstep. split; [done|].
    unfold InMemory.ack. apply lone_set_queue; [done|]. apply copies_filter.
  - unfold InMemory.subscribe in Hstep.
    match type of Hstep with
    | context [InMemory.poll _ ?x] => set (w0 := x) in Hstep
    end.
    destruct (InMemory.poll (InMemory.next_sub w) w0) as [[w2 os2]|] eqn:Hp;
      simpl in Hstep; [|done].
    inversion Hstep; subst; clear Hstep.
    assert (Hl0 : lone uid q0 w0) by (apply (lone_same uid q0 w); [done | by left | done]).
    rewrite copies_pulled_app.
    destruct (lone_poll uid q0 _ w0 w1 os2 Hl0 Hp) as [[Hc H1] | [Hc H1]];
      [left | right]; (split; [rewrite Hc; done | done]).
  - left. destruct (InMemory.unsubscribe sid' w) as [w2|] eqn:Hu; simpl in Hstep; [|done].
    inversion Hstep; subst; clear Hstep. split; [done|].
    apply unsubscribe_inv in Hu as (s & _ & _ & Hti & _ & _ & Hqu & _).
    apply (lone_same uid q0 w); [done| |done].
    intros tid t Hlk. rewrite Hti in Hlk. left.
    by apply lookup_clear_timeouts in Hlk as [Hlk _].
  - left. destruct (0 <=? ms); inversion Hstep; subst. split; [done|].
    apply (lone_same uid q0 w); [done | by left | done].
  - unfold InMemory.fire in Hstep.
    destruct (InMemory.timers w !! tid) as [t|] eqn:Etimer; simpl in Hstep; [|done].
    destruct (InMemory.due t <=? InMemory.clock w); [|done].
    assert (Hl0 : lone uid q0 (InMemory.set_timers (delete tid (InMemory.timers w)) w)).
    { apply (lone_same uid q0 w); [done| |done].
      intros tid' t' Hlk. simpl in Hlk. left. by apply lookup_delete_Some in Hlk as [_ Hlk]. }
    destruct (InMemory.run t) as [q msg|sid] eqn:Hrun.
    + left. inversion Hstep; subst; clear Hstep. split; [done|].
      destruct (decide (Message.id (InMemory.message msg) = uid)) as [Hid|Hid].
      * destruct Hl as (L1 & L2 & L3).
        destruct (L3 tid t q msg Etimer Hrun Hid) as (-> & E2 & E3).
        unfold InMemory.push. split; [|split].
        -- intros q' l' Hlk Hne. simpl in Hlk.
           rewrite lookup_insert_ne in Hlk by done. by apply (L1 q').
        -- rewrite stored_in_set_queues_eq, copies_app.
           change (InMemory.stored_in q0
                     (InMemory.set_timers (delete tid (InMemory.timers w)) w))
             with (InMemory.stored_in q0 w).
           rewrite E2. unfold copies. rewrite filter_cons_True by done. simpl. lia.
        -- intros tid' t' q' msg' Hlk Hrun' Hid'. simpl in Hlk.
           apply lookup_delete_Some in Hlk as [Hne Hlk].
           destruct Hne. symmetry. by apply (E3 tid' t' q' msg').
      * unfold InMemory.push. apply lone_set_queue; [done|].
        rewrite copies_app. unfold copies at 2. rewrite filter_cons_False by done.
        simpl. lia.
    + by apply (lone_poll uid q0 sid _ w1 os Hl0).
  - left. unfold InMemory.resume in Hstep.
    destruct (InMemory.polls w !! pid) as [[sid k]|] eqn:Hpoll; simpl in Hstep; [|done].
    destruct (InMemory.closures w !! sid) as [s|] eqn:Hcl; simpl in Hstep; [|done].
    destruct k as [messages|msg rest|rest], o; try done.
    + apply (lone_for_messages uid q0) in Hstep as [H1 H2]; [|done]. by rewrite H2.
    + destruct (InMemory.sub_autoAck s).
      * inversion Hstep; subst; clear Hstep. split; [done|].
        apply (lone_same uid q0 (InMemory.ack (InMemory.sub_queue s)
                                   (Message.receipt (InMemory.message msg)) w));
          [done | by left |].
        unfold InMemory.ack. apply lone_set_queue; [done|]. apply copies_filter.
      * apply (lone_for_messages uid q0) in Hstep as [H1 H2]; [|done]. by rewrite H2.
    + apply (lone_for_messages uid q0) in Hstep as [H1 H2]; [|done]. by rewrite H2.
Qed.

Lemma lone_exec uid q0 es w w1 os :
  lone uid q0 w -> Forall (other_publish uid) es -> Forall no_failure es ->
  InMemory.exec w es = Some (w1, os) ->
  (copies uid (os ≫= pulled_of) <= 1)%nat.
Proof.
  revert w os. induction es as [|e es IH]; intros w os Hl Hfresh Hok Hex; simpl in Hex.
  - inversion Hex; subst. simpl. unfold copies. simpl. lia.
  - destruct (InMemory.step w e) as [[w2 os2]|] eqn:Hstep; simpl in Hex; [|done].
    destruct (InMemory.exec w2 es) as [[w3 os3]|] eqn:Hrest; simpl in Hex; [|done].
    inversion Hex; subst; clear Hex.
    apply Forall_cons in Hfresh as [He Hes]. apply Forall_cons in Hok as [Hk Hks].
    rewrite copies_pulled_app.
    destruct (lone_step uid q0 w e w2 os2 Hl He Hk Hstep) as [[Hc Hl2] | [Hc Ha2]].
    + rewrite Hc. by apply (IH w2 os3).
    + rewrite Hc. by rewrite (absent_exec uid es w2 w1 os3 Ha2 Hes Hks Hrest).
Qed.

(** X30. At most once, as long as no handler fails: on the in-memory
    driver, in every run after the publish of a message in which no
    handler call fails, all the pulls of the clients and of the polls
    together return the message at most once. The id drawn for it is new
    to the driver and is not drawn again. *)
Theorem pulled_at_most_once q (p : T) options uuid_id uuid_receipt w :
  unknown uuid_id w ->
  forall es w1 os,
    Forall (other_publish uuid_id) es -> Forall no_failure es ->
    InMemory.exec (InMemory.publish q p options uuid_id uuid_receipt w).1 es
    = Some (w1, os) ->
    (copies uuid_id (os ≫= pulled_of) <= 1)%nat.
Proof.
  intros (Hq & Hp & Ht) es w1 os Hfresh Hok Hex.
  apply (lone_exec uuid_id q es (InMemory.publish q p options uuid_id uuid_receipt w).1
           w1 os); [|done|done|done].
  assert (Hst : copies uuid_id (InMemory.stored_in q w) = 0%nat).
  { apply copies_others. unfold InMemory.stored_in.
    destruct (InMemory.queues w !! q) as [l|] eqn:E; simpl; [by apply (Hq q)|constructor]. }
  unfold InMemory.publish.
  destruct (Js.truthy_number (options ≫= Options.delaySeconds)); cbn [fst].
  - split; [|split].
    + intros q' l Hl _. by apply (Hq q').
    + change (copies uuid_id (InMemory.stored_in q w) <= 1)%nat. lia.
    + intros tid t q' msg Hlk Hrun Hid. simpl in Hlk.
      apply lookup_insert_Some in Hlk as [[<- <-] | [_ Hlk]];
        [|by destruct (Ht tid t q' msg Hlk Hrun)].
      simpl in Hrun. injection Hrun as <- _. split; [done|]. split; [exact Hst|].
      intros tid' t' q'' msg' Hlk' Hrun' Hid'. simpl in Hlk'.
      apply lookup_insert_Some in Hlk' as [[<- _] | [_ Hlk']]; [done|].
      by destruct (Ht tid' t' q'' msg' Hlk' Hrun').
  - unfold InMemory.push. split; [|split].
    + intros q' l Hl Hne. simpl in Hl. rewrite lookup_insert_ne in Hl by done.
      by apply (Hq q').
    + rewrite stored_in_set_queues_eq, copies_app, Hst. unfold copies.
      rewrite filter_cons_True by done. simpl. lia.
    + intros tid t q' msg Hlk Hrun Hid. simpl in Hlk.
      by destruct (Ht tid t q' msg Hlk Hrun).
Qed.

End InMemoryOnce.

Lemma pulled_at_most_once_witness :
  exists w1 os,
    InMemory.exec (InMemory.publish "jobs" 1%nat None "id-1" "rc-1" InMemory.init).1
      competing_consumers = Some (w1, os)
    /\ (copies "id-1" (os ≫= pulled_of) <= 1)%nat.
Proof.
  destruct (InMemory.exec
              (InMemory.publish "jobs" 1%nat None "id-1" "rc-1" InMemory.init).1
              competing_consumers) as [[w1 os]|] eqn:E; [|by vm_compute in E].
  exists w1, os. split; [reflexivity|].
  eapply (pulled_at_most_once "jobs" 1%nat None "id-1" "rc-1" InMemory.init);
    [ | | | exact E].
  - repeat split; intros ? ? ?; simpl; intros; by rewrite ?lookup_empty in *.
  - repeat constructor.
  - repeat constructor.
Defined.
